(** * riscv-emu: a shallow embedding of the RV64IMC interpreter

    The Go sources (sign.go, the instruction and VM declarations, the RVI
    and RVC decoders, the handlers of rvi.go and rvc.go, [NewVM] and
    [Run]) are transcribed as Rocq functions.  Unsigned 64-bit words are
    integers in [0, 2^64) with the wrap-around written out; Go arrays and
    slices are lists indexed with a bounds check, and a failed check is a
    Go runtime panic.  Debug printing ([VM.Debug], the [String]
    methods) and the Spike harness are left out. *)

From Stdlib Require Import ZArith String Ascii Lia List Bool.
From stdpp Require Import base list.

Open Scope Z_scope.

(** ** Fixed-width integers *)

Definition wrap64 (z : Z) : Z := z mod 2 ^ 64.

Definition MaxUint64 : Z := 2 ^ 64 - 1.

(** Go conversions between integer types. *)
Definition uint64 (z : Z) : Z := wrap64 z.
Definition uint32 (z : Z) : Z := z mod 2 ^ 32.
Definition uint16 (z : Z) : Z := z mod 2 ^ 16.
Definition byte (z : Z) : Z := z mod 2 ^ 8.

Definition int64 (z : Z) : Z :=
  let y := z mod 2 ^ 64 in if y <? 2 ^ 63 then y else y - 2 ^ 64.

Definition int32 (z : Z) : Z :=
  let y := z mod 2 ^ 32 in if y <? 2 ^ 31 then y else y - 2 ^ 32.

(** uint64 arithmetic. *)
Definition add64 (a b : Z) : Z := wrap64 (a + b).
Definition sub64 (a b : Z) : Z := wrap64 (a - b).
Definition mul64 (a b : Z) : Z := wrap64 (a * b).
Definition neg64 (a : Z) : Z := wrap64 (- a).
Definition shl64 (a n : Z) : Z := wrap64 (Z.shiftl a n).
Definition shr64 (a n : Z) : Z := Z.shiftr a n.
(** [a &^ m] *)
Definition andnot (a m : Z) : Z := Z.ldiff a m.

(** uint32 shifts (the shift counts at the call sites are below 32). *)
Definition shl32 (a n : Z) : Z := uint32 (Z.shiftl a n).

(** ** sign.go *)

(** The loop of [init]: entry [i] holds [1 << i] and [MaxUint64 << i]. *)
Fixpoint initSignBits (n : nat) (b ones : Z) : list (Z * Z) :=
  match n with
  | O => []
  | S n' => (b, ones) :: initSignBits n' (shl64 b 1) (shl64 ones 1)
  end.

Definition signBits : list (Z * Z) :=
  Eval vm_compute in initSignBits 32 1 MaxUint64.

(** [signExtend v bit]; [None] is the index-out-of-range panic of
    [signBits[bit]]. *)
Definition signExtend (v : Z) (bit : Z) : option Z :=
  if bit <? 0 then None
  else match signBits !! Z.to_nat bit with
       | Some (signBit, ones) =>
           Some (if Z.land v signBit =? 0 then v else Z.lor v ones)
       | None => None
       end.

(** ** Instructions, flags, errors *)

(** The handler a decoded instruction points at ([Instruction.fn]). *)
Inductive fnptr : Type :=
| fn_lui | fn_auipc | fn_jal | fn_jalr
| fn_beq | fn_bne | fn_blt | fn_bge | fn_bltu | fn_bgeu
| fn_lb | fn_lh | fn_lw | fn_lbu | fn_lhu
| fn_sb | fn_sh | fn_sw
| fn_addi | fn_slti | fn_sltiu | fn_xori | fn_ori | fn_andi
| fn_add | fn_sub | fn_sll | fn_slt | fn_sltu | fn_xor | fn_srl | fn_sra
| fn_or | fn_and
| fn_fence | fn_fence_i | fn_ecallOrBreak | fn_ebreak
| fn_csrrw | fn_csrrs | fn_csrrc | fn_csrrwi | fn_csrrsi | fn_csrrci
| fn_lwu | fn_ld | fn_sd
| fn_slli | fn_shiftRight | fn_srli | fn_srai
| fn_addiw | fn_slliw | fn_srliw | fn_sraiw
| fn_addw | fn_subw | fn_sllw | fn_srlw | fn_sraw
| fn_mul | fn_mulh | fn_mulhsu | fn_mulhu | fn_mulw
| fn_div | fn_divu | fn_divw | fn_divuw
| fn_rem | fn_remu | fn_remw | fn_remuw
| fn_rvcJAL | fn_rvcJALR.

Record Instruction : Type := mkInstruction {
  fn : option fnptr;   (* nil when [None] *)
  rs1 : Z;
  rs2 : Z;
  rd : Z;
  imm : Z;             (* decoded immediate before sign extension *)
  in_ : Z              (* the encoded instruction *)
}.

(** [&Instruction{}]: every field zero. *)
Definition Instruction0 : Instruction :=
  {| fn := None; rs1 := 0; rs2 := 0; rd := 0; imm := 0; in_ := 0 |}.

Record flags : Type := mkflags {
  updatedPC : bool;
  updatedRDINSTRET : bool
}.

Definition flags0 : flags :=
  {| updatedPC := false; updatedRDINSTRET := false |}.

(** Go [error] values: the exit sentinel, and the results of
    [fmt.Errorf] with their numeric arguments (and the wrapped error, if
    any). *)
Inductive error : Type :=
| exitErr
| Errorf (format : string) (args : list Z)
| Wrapf (format : string) (args : list Z) (cause : error).

(** Modelled from the spec: [IsExit] (and the sentinel [exitErr]) are
    declared in a file that is not part of the sources at hand; the step
    loop "inspects the error: Exit terminates normally", so [IsExit]
    recognises exactly the sentinel. *)
Definition IsExit (e : option error) : bool :=
  match e with
  | Some exitErr => true
  | _ => false
  end.

(** ** The machine *)

Definition SP : Z := 2.
Definition RA : Z := 1.
Definition Zero : Z := 0.

Definition RDCYCLE : Z := 1.
Definition RDTIME : Z := 2.
Definition RDINSTRET : Z := 3.

Record VM : Type := mkVM {
  Reg : list Z;        (* [32]uint64 *)
  CSR : list Z;        (* [1 << 11]uint64 *)
  PC : Z;
  Steps : Z;
  Mem : list Z;        (* []byte *)
  LastInstr : option Instruction;
  LastPC : Z
}.

Record Prog : Type := mkProg {
  Argv : option (list string);   (* [None] is the nil slice *)
  Env : option (list string);
  Start : Z;
  MemSize : Z
}.

(** Indexing an array or slice with a Go integer: [None] is the
    index-out-of-range panic. *)
Definition idx {A : Type} (l : list A) (i : Z) : option A :=
  if i <? 0 then None else l !! Z.to_nat i.

Definition inRange {A : Type} (l : list A) (i : Z) : bool :=
  (0 <=? i) && (i <? Z.of_nat (length l)).

Definition upd {A : Type} (l : list A) (i : Z) (x : A) : option (list A) :=
  if inRange l i then Some (<[Z.to_nat i := x]> l) else None.

(** ** A state monad with panics

    A handler mutates the machine through its pointer and either
    returns or panics; a panic unwinds the whole program, so no state
    survives it. *)

Inductive res (A : Type) : Type :=
| Val (a : A) (vm : VM)
| Panic (msg : string).
Arguments Val {A} a vm.
Arguments Panic {A} msg.

Definition M (A : Type) : Type := VM -> res A.

Definition ret {A : Type} (a : A) : M A := fun vm => Val a vm.

Definition bind {A B : Type} (m : M A) (k : A -> M B) : M B :=
  fun vm => match m vm with
            | Val a vm' => k a vm'
            | Panic msg => Panic msg
            end.

Definition panic {A : Type} (msg : string) : M A := fun _ => Panic msg.

Declare Scope vm_scope.
Delimit Scope vm_scope with vm.
Notation "x <- c1 ;; c2" := (bind c1 (fun x => c2))
  (at level 100, c1 at next level, right associativity) : vm_scope.
Notation "c1 ;; c2" := (bind c1 (fun _ => c2))
  (at level 100, right associativity) : vm_scope.
Open Scope vm_scope.

Definition liftO {A : Type} (msg : string) (o : option A) : M A :=
  match o with
  | Some a => ret a
  | None => panic msg
  end.

Definition oob : string := "index out of range".

(** [signExtend] called from a handler. *)
Definition sx (v bit : Z) : M Z := liftO oob (signExtend v bit).

Definition getReg (i : Z) : M Z := fun vm => liftO oob (idx (Reg vm) i) vm.

Definition setReg (i v : Z) : M unit := fun vm =>
  match upd (Reg vm) i v with
  | Some r => Val tt (mkVM r (CSR vm) (PC vm) (Steps vm) (Mem vm) (LastInstr vm) (LastPC vm))
  | None => Panic oob
  end.

Definition getCSR (i : Z) : M Z := fun vm => liftO oob (idx (CSR vm) i) vm.

Definition setCSR (i v : Z) : M unit := fun vm =>
  match upd (CSR vm) i v with
  | Some c => Val tt (mkVM (Reg vm) c (PC vm) (Steps vm) (Mem vm) (LastInstr vm) (LastPC vm))
  | None => Panic oob
  end.

Definition getMem (a : Z) : M Z := fun vm => liftO oob (idx (Mem vm) a) vm.

Definition setMem (a b : Z) : M unit := fun vm =>
  match upd (Mem vm) a b with
  | Some m => Val tt (mkVM (Reg vm) (CSR vm) (PC vm) (Steps vm) m (LastInstr vm) (LastPC vm))
  | None => Panic oob
  end.

Definition getPC : M Z := fun vm => Val (PC vm) vm.

Definition setPC (pc : Z) : M unit := fun vm =>
  Val tt (mkVM (Reg vm) (CSR vm) pc (Steps vm) (Mem vm) (LastInstr vm) (LastPC vm)).

(** [store] stores value to the register rd.  The zero register is
    hardwired to zero and writing to it has no effect. *)
Definition store (rd val : Z) : M unit :=
  if rd =? 0 then ret tt else setReg rd val.

(** Signed arithmetic of Go: the exact result is wrapped into the type. *)
Definition iadd64 (a b : Z) : Z := int64 (a + b).
Definition imul64 (a b : Z) : Z := int64 (a * b).
Definition ineg64 (a : Z) : Z := int64 (- a).
Definition iadd32 (a b : Z) : Z := int32 (a + b).
Definition isub32 (a b : Z) : Z := int32 (a - b).
Definition imul32 (a b : Z) : Z := int32 (a * b).

(** [a / b] and [a % b] on Go integers: truncated, and a zero divisor is
    a runtime panic. *)
Definition divGo (a b : Z) : M Z :=
  if b =? 0 then panic "integer divide by zero" else ret (Z.quot a b).
Definition remGo (a b : Z) : M Z :=
  if b =? 0 then panic "integer divide by zero" else ret (Z.rem a b).

(** ** rvi.go: the handlers *)

Definition result : Type := flags * option error.
Definition handler : Type := Instruction -> M result.

Definition ok : M result := ret (flags0, None).
Definition okPC : M result :=
  ret ({| updatedPC := true; updatedRDINSTRET := false |}, None).

(** *** RV32I base instruction set *)

Definition lui (i : Instruction) : M result :=
  v <- sx (imm i) 31 ;;
  store (rd i) v ;;
  ok.

Definition auipc (i : Instruction) : M result :=
  pc <- getPC ;;
  v <- sx (add64 (imm i) pc) 31 ;;
  store (rd i) v ;;
  ok.

Definition jal (i : Instruction) : M result :=
  pc <- getPC ;;
  store (rd i) (add64 pc 4) ;;
  s <- sx (imm i) 19 ;;
  pc <- getPC ;;
  setPC (add64 s pc) ;;
  okPC.

Definition jalr (i : Instruction) : M result :=
  pc <- getPC ;;
  store (rd i) (add64 pc 4) ;;
  s <- sx (imm i) 12 ;;
  r <- getReg (rs1 i) ;;
  setPC (andnot (add64 s r) 1) ;;
  okPC.

(** The six conditional branches share their shape: when the comparison
    of the two registers holds, [PC = PC + signExtend(imm, 12)]. *)
Definition branch (taken : Z -> Z -> bool) (i : Instruction) : M result :=
  a <- getReg (rs1 i) ;;
  b <- getReg (rs2 i) ;;
  if taken a b then
    pc <- getPC ;;
    s <- sx (imm i) 12 ;;
    setPC (add64 pc s) ;;
    okPC
  else ok.

Definition beq : handler := branch (fun a b => a =? b).
Definition bne : handler := branch (fun a b => negb (a =? b)).
Definition blt : handler := branch (fun a b => int64 a <? int64 b).
Definition bge : handler := branch (fun a b => int64 a >=? int64 b).
Definition bltu : handler := branch (fun a b => a <? b).
Definition bgeu : handler := branch (fun a b => a >=? b).

(** [a := vm.Reg[in.rs1] + signExtend(in.imm, 11)] *)
Definition effAddr (i : Instruction) : M Z :=
  r <- getReg (rs1 i) ;;
  s <- sx (imm i) 11 ;;
  ret (add64 r s).

Definition lb (i : Instruction) : M result :=
  a <- effAddr i ;;
  b0 <- getMem a ;;
  v <- sx (uint64 b0) 7 ;;
  store (rd i) v ;;
  ok.

Definition lh (i : Instruction) : M result :=
  a <- effAddr i ;;
  b0 <- getMem a ;;
  b1 <- getMem (add64 a 1) ;;
  let v := Z.lor (uint64 b0) (shl64 (uint64 b1) 8) in
  v <- sx v 15 ;;
  store (rd i) v ;;
  ok.

(** The little-endian 32-bit word at [a], as the loads assemble it. *)
Definition load32 (a : Z) : M Z :=
  b0 <- getMem a ;;
  b1 <- getMem (add64 a 1) ;;
  b2 <- getMem (add64 a 2) ;;
  b3 <- getMem (add64 a 3) ;;
  ret (Z.lor (Z.lor (Z.lor (uint64 b0) (shl64 (uint64 b1) 8))
                    (shl64 (uint64 b2) 16)) (shl64 (uint64 b3) 24)).

Definition lw (i : Instruction) : M result :=
  a <- effAddr i ;;
  v <- load32 a ;;
  v <- sx v 31 ;;
  store (rd i) v ;;
  ok.

Definition lbu (i : Instruction) : M result :=
  a <- effAddr i ;;
  b0 <- getMem a ;;
  store (rd i) (uint64 b0) ;;
  ok.

Definition lhu (i : Instruction) : M result :=
  a <- effAddr i ;;
  b0 <- getMem a ;;
  b1 <- getMem (add64 a 1) ;;
  store (rd i) (Z.lor (uint64 b0) (shl64 (uint64 b1) 8)) ;;
  ok.

Definition sb (i : Instruction) : M result :=
  a <- effAddr i ;;
  v <- getReg (rs2 i) ;;
  setMem a (byte (Z.land v 0xff)) ;;
  ok.

Definition sh (i : Instruction) : M result :=
  a <- effAddr i ;;
  v <- getReg (rs2 i) ;;
  setMem a (byte v) ;;
  setMem (add64 a 1) (byte (shr64 v 8)) ;;
  ok.

Definition sw (i : Instruction) : M result :=
  a <- effAddr i ;;
  v <- getReg (rs2 i) ;;
  setMem a (byte v) ;;
  setMem (add64 a 1) (byte (shr64 v 8)) ;;
  setMem (add64 a 2) (byte (shr64 v 16)) ;;
  setMem (add64 a 3) (byte (shr64 v 24)) ;;
  ok.

Definition addi (i : Instruction) : M result :=
  a <- getReg (rs1 i) ;;
  s <- sx (Z.land (imm i) 0xfff) 11 ;;
  store (rd i) (uint64 (iadd64 (int64 a) (int64 s))) ;;
  ok.

Definition slti (i : Instruction) : M result :=
  a <- getReg (rs1 i) ;;
  s <- sx (imm i) 11 ;;
  (if int64 a <? int64 s then store (rd i) 1 else store (rd i) 0) ;;
  ok.

Definition sltiu (i : Instruction) : M result :=
  a <- getReg (rs1 i) ;;
  (if uint64 a <? uint64 (imm i) then store (rd i) 1 else store (rd i) 0) ;;
  ok.

Definition xori (i : Instruction) : M result :=
  a <- getReg (rs1 i) ;;
  s <- sx (imm i) 11 ;;
  store (rd i) (Z.lxor a s) ;;
  ok.

Definition ori (i : Instruction) : M result :=
  a <- getReg (rs1 i) ;;
  s <- sx (imm i) 11 ;;
  store (rd i) (Z.lor a s) ;;
  ok.

Definition andi (i : Instruction) : M result :=
  a <- getReg (rs1 i) ;;
  s <- sx (imm i) 11 ;;
  store (rd i) (Z.land a s) ;;
  ok.

(** Register-register operations: [vm.store(in.rd, f(Reg[rs1], Reg[rs2]))]. *)
Definition rrOp (f : Z -> Z -> Z) (i : Instruction) : M result :=
  a <- getReg (rs1 i) ;;
  b <- getReg (rs2 i) ;;
  store (rd i) (f a b) ;;
  ok.

Definition add : handler := rrOp add64.
Definition sub : handler := rrOp sub64.
Definition sll : handler := rrOp (fun a b => shl64 a (Z.land b 0x3f)).
Definition slt : handler :=
  rrOp (fun a b => if int64 a <? int64 b then 1 else 0).
Definition sltu : handler := rrOp (fun a b => if a <? b then 1 else 0).
Definition xor : handler := rrOp Z.lxor.
Definition srl : handler := rrOp (fun a b => shr64 a (Z.land b 0x3f)).
Definition sra : handler :=
  rrOp (fun a b => uint64 (Z.shiftr (int64 a) (Z.land b 0x3f))).
Definition or : handler := rrOp Z.lor.
Definition and : handler := rrOp Z.land.

Definition fence (i : Instruction) : M result := ok.
Definition fence_i (i : Instruction) : M result := ok.
Definition ebreak (i : Instruction) : M result := ok.

(** It's unclear which CSRs are read-only and what are side effects of
    reading/writing CSRs (comment of the source): the CSR file is plain
    storage. *)

Definition csrrw (i : Instruction) : M result :=
  if rd i =? 0 then
    r <- getReg (rs1 i) ;;
    setCSR (imm i) r ;;
    if imm i =? RDINSTRET then
      ret ({| updatedPC := false; updatedRDINSTRET := true |}, None)
    else ok
  else
    v <- getCSR (imm i) ;;
    r <- getReg (rs1 i) ;;
    setCSR (imm i) r ;;
    store (rd i) v ;;
    ok.

Definition csrrs (i : Instruction) : M result :=
  v <- getCSR (imm i) ;;
  (if negb (rs1 i =? 0) then
     c <- getCSR (imm i) ;;
     r <- getReg (rs1 i) ;;
     setCSR (imm i) (Z.lor c r)
   else ret tt) ;;
  store (rd i) v ;;
  ok.

Definition csrrc (i : Instruction) : M result :=
  v <- getCSR (imm i) ;;
  (if negb (rs1 i =? 0) then
     c <- getCSR (imm i) ;;
     r <- getReg (rs1 i) ;;
     setCSR (imm i) (andnot c r)
   else ret tt) ;;
  store (rd i) v ;;
  ok.

Definition csrrwi (i : Instruction) : M result :=
  uimm <- sx (Z.land (rs1 i) 0x1f) 4 ;;
  if rd i =? 0 then
    setCSR (imm i) uimm ;;
    ok
  else
    v <- getCSR (imm i) ;;
    setCSR (imm i) uimm ;;
    store (rd i) v ;;
    ok.

Definition csrrsi (i : Instruction) : M result :=
  uimm <- sx (Z.land (rs1 i) 0x1f) 4 ;;
  v <- getCSR (imm i) ;;
  (if negb (uimm =? 0) then
     c <- getCSR (imm i) ;;
     setCSR (imm i) (Z.lor c uimm)
   else ret tt) ;;
  store (rd i) v ;;
  ok.

Definition csrrci (i : Instruction) : M result :=
  uimm <- sx (Z.land (rs1 i) 0x1f) 4 ;;
  v <- getCSR (imm i) ;;
  (if negb (uimm =? 0) then
     c <- getCSR (imm i) ;;
     setCSR (imm i) (andnot c uimm)
   else ret tt) ;;
  store (rd i) v ;;
  ok.

(** *** RV64I base instruction set *)

Definition lwu (i : Instruction) : M result :=
  a <- effAddr i ;;
  v <- load32 a ;;
  store (rd i) v ;;
  ok.

(** The little-endian 64-bit word at [a], byte by byte. *)
Definition load64 (a : Z) : M Z :=
  b0 <- getMem a ;;
  b1 <- getMem (add64 a 1) ;;
  b2 <- getMem (add64 a 2) ;;
  b3 <- getMem (add64 a 3) ;;
  b4 <- getMem (add64 a 4) ;;
  b5 <- getMem (add64 a 5) ;;
  b6 <- getMem (add64 a 6) ;;
  b7 <- getMem (add64 a 7) ;;
  ret (Z.lor (Z.lor (Z.lor (Z.lor (Z.lor (Z.lor (Z.lor
        (uint64 b0)
        (shl64 (uint64 b1) 8))
        (shl64 (uint64 b2) 16))
        (shl64 (uint64 b3) 24))
        (shl64 (uint64 b4) 32))
        (shl64 (uint64 b5) 40))
        (shl64 (uint64 b6) 48))
        (shl64 (uint64 b7) 56)).

Definition ld (i : Instruction) : M result :=
  a <- effAddr i ;;
  v <- load64 a ;;
  store (rd i) v ;;
  ok.

Definition sd (i : Instruction) : M result :=
  a <- effAddr i ;;
  v <- getReg (rs2 i) ;;
  setMem a (byte v) ;;
  setMem (add64 a 1) (byte (shr64 v 8)) ;;
  setMem (add64 a 2) (byte (shr64 v 16)) ;;
  setMem (add64 a 3) (byte (shr64 v 24)) ;;
  setMem (add64 a 4) (byte (shr64 v 32)) ;;
  setMem (add64 a 5) (byte (shr64 v 40)) ;;
  setMem (add64 a 6) (byte (shr64 v 48)) ;;
  setMem (add64 a 7) (byte (shr64 v 56)) ;;
  ok.

Definition slli (i : Instruction) : M result :=
  a <- getReg (rs1 i) ;;
  store (rd i) (shl64 a (Z.land (imm i) 0x3f)) ;;
  ok.

Definition srli (i : Instruction) : M result :=
  a <- getReg (rs1 i) ;;
  store (rd i) (shr64 a (Z.land (imm i) 0x3f)) ;;
  ok.

Definition srai (i : Instruction) : M result :=
  a <- getReg (rs1 i) ;;
  store (rd i) (uint64 (Z.shiftr (int64 a) (Z.land (imm i) 0x3f))) ;;
  ok.

(** srli and srai are encoded with I-Type format specialize based on top
    6 bits of the immediate (comment of the source).  The switch is on
    [in.imm & 0xFC00] with the cases [0x00] and [0x10]. *)
Definition shiftRight (i : Instruction) : M result :=
  let sel := Z.land (imm i) 0xFC00 in
  if sel =? 0 then srli i
  else if sel =? 0x10 then srai i
  else panic "invalid instruction".

Definition addiw (i : Instruction) : M result :=
  a <- getReg (rs1 i) ;;
  s <- sx (Z.land (imm i) 0xfff) 11 ;;
  store (rd i) (uint64 (iadd32 (int32 a) (int32 s))) ;;
  ok.

Definition slliw (i : Instruction) : M result :=
  a <- getReg (rs1 i) ;;
  v <- sx (uint64 (shl32 (uint32 a) (Z.land (imm i) 0x1f))) 31 ;;
  store (rd i) v ;;
  ok.

Definition srliw (i : Instruction) : M result :=
  a <- getReg (rs1 i) ;;
  v <- sx (uint64 (Z.shiftr (uint32 a) (Z.land (imm i) 0x1f))) 31 ;;
  store (rd i) v ;;
  ok.

Definition sraiw (i : Instruction) : M result :=
  a <- getReg (rs1 i) ;;
  store (rd i) (uint64 (Z.shiftr (int32 a) (Z.land (imm i) 0x1f))) ;;
  ok.

Definition addw : handler :=
  rrOp (fun a b => uint64 (iadd32 (int32 a) (int32 b))).
Definition subw : handler :=
  rrOp (fun a b => uint64 (isub32 (int32 a) (int32 b))).

Definition sllw (i : Instruction) : M result :=
  a <- getReg (rs1 i) ;;
  b <- getReg (rs2 i) ;;
  v <- sx (uint64 (shl32 (uint32 a) (uint32 (Z.land b 0x1f)))) 31 ;;
  store (rd i) v ;;
  ok.

Definition srlw (i : Instruction) : M result :=
  a <- getReg (rs1 i) ;;
  b <- getReg (rs2 i) ;;
  v <- sx (uint64 (Z.shiftr (uint32 a) (uint32 (Z.land b 0x1f)))) 31 ;;
  store (rd i) v ;;
  ok.

Definition sraw : handler :=
  rrOp (fun a b => uint64 (Z.shiftr (int32 a) (uint32 (Z.land b 0x1f)))).

(** *** "M" standard extension for integer multiplication and division *)

Definition mul : handler :=
  rrOp (fun a b => uint64 (imul64 (int64 a) (int64 b))).

(** The partial-product sum that [mulh], [mulhsu] and [mulhu] each spell
    out:
    [ah, al := x>>32, x&0xffffffff; bh, bl := y>>32, y&0xffffffff;
     a := ah*bh; b := ah*bl; c := al*bh; d := al*bl;
     v := a + b>>32 + c>>32 + (d>>32+b&0xffffffff+c&0xffffffff)>>32]. *)
Definition partialProducts (x y : Z) : Z :=
  let ah := shr64 x 32 in
  let al := Z.land x 0xffffffff in
  let bh := shr64 y 32 in
  let bl := Z.land y 0xffffffff in
  let a := mul64 ah bh in
  let b := mul64 ah bl in
  let c := mul64 al bh in
  let d := mul64 al bl in
  add64 (add64 (add64 a (shr64 b 32)) (shr64 c 32))
        (shr64 (add64 (add64 (shr64 d 32) (Z.land b 0xffffffff))
                      (Z.land c 0xffffffff)) 32).

Definition mulh (i : Instruction) : M result :=
  r1 <- getReg (rs1 i) ;;
  r2 <- getReg (rs2 i) ;;
  let n1 := int64 r1 in
  let n2 := int64 r2 in
  let '(neg1, n1) := if n1 <? 0 then (true, ineg64 n1) else (false, n1) in
  let '(neg2, n2) := if n2 <? 0 then (true, ineg64 n2) else (false, n2) in
  let v := partialProducts (uint64 n1) (uint64 n2) in
  let v := if negb (eqb neg1 neg2) then neg64 v else v in
  store (rd i) v ;;
  ok.

Definition mulhsu (i : Instruction) : M result :=
  r1 <- getReg (rs1 i) ;;
  n2 <- getReg (rs2 i) ;;
  let n1 := int64 r1 in
  let '(neg, n1) := if n1 <? 0 then (true, ineg64 n1) else (false, n1) in
  let v := partialProducts (uint64 n1) n2 in
  let v := if neg : bool then neg64 v else v in
  store (rd i) v ;;
  ok.

Definition mulhu (i : Instruction) : M result :=
  r1 <- getReg (rs1 i) ;;
  r2 <- getReg (rs2 i) ;;
  store (rd i) (partialProducts r1 r2) ;;
  ok.

Definition mulw : handler :=
  rrOp (fun a b => uint64 (imul32 (int32 a) (int32 b))).

Definition div (i : Instruction) : M result :=
  b <- getReg (rs2 i) ;;
  if b =? 0 then
    store (rd i) MaxUint64 ;;
    ok
  else
    a <- getReg (rs1 i) ;;
    q <- divGo (int64 a) (int64 b) ;;
    store (rd i) (uint64 (int64 q)) ;;
    ok.

Definition divu (i : Instruction) : M result :=
  b <- getReg (rs2 i) ;;
  if b =? 0 then
    store (rd i) MaxUint64 ;;
    ok
  else
    a <- getReg (rs1 i) ;;
    q <- divGo a b ;;
    store (rd i) q ;;
    ok.

Definition divw (i : Instruction) : M result :=
  b <- getReg (rs2 i) ;;
  if int32 b =? 0 then
    store (rd i) MaxUint64 ;;
    ok
  else
    a <- getReg (rs1 i) ;;
    q <- divGo (int32 a) (int32 b) ;;
    v <- sx (uint64 (int32 q)) 31 ;;
    store (rd i) v ;;
    ok.

Definition divuw (i : Instruction) : M result :=
  b <- getReg (rs2 i) ;;
  if uint32 b =? 0 then
    store (rd i) MaxUint64 ;;
    ok
  else
    a <- getReg (rs1 i) ;;
    q <- divGo (uint32 a) (uint32 b) ;;
    v <- sx (uint64 q) 31 ;;
    store (rd i) v ;;
    ok.

Definition rem (i : Instruction) : M result :=
  b <- getReg (rs2 i) ;;
  if b =? 0 then
    a <- getReg (rs1 i) ;;
    store (rd i) a ;;
    ok
  else
    a <- getReg (rs1 i) ;;
    r <- remGo (int64 a) (int64 b) ;;
    store (rd i) (uint64 (int64 r)) ;;
    ok.

Definition remu (i : Instruction) : M result :=
  b <- getReg (rs2 i) ;;
  if b =? 0 then
    a <- getReg (rs1 i) ;;
    store (rd i) a ;;
    ok
  else
    a <- getReg (rs1 i) ;;
    r <- remGo a b ;;
    store (rd i) r ;;
    ok.

Definition remw (i : Instruction) : M result :=
  b <- getReg (rs2 i) ;;
  if b =? 0 then
    a <- getReg (rs1 i) ;;
    store (rd i) a ;;
    ok
  else
    a <- getReg (rs1 i) ;;
    r <- remGo (int32 a) (int32 b) ;;
    store (rd i) (uint64 (int32 r)) ;;
    ok.

Definition remuw (i : Instruction) : M result :=
  b <- getReg (rs2 i) ;;
  if b =? 0 then
    a <- getReg (rs1 i) ;;
    store (rd i) a ;;
    ok
  else
    a <- getReg (rs1 i) ;;
    r <- remGo (uint32 a) (uint32 b) ;;
    v <- sx (uint64 r) 31 ;;
    store (rd i) v ;;
    ok.

(** ** rvc.go: the compressed jump helpers *)

Definition rvcJAL (i : Instruction) : M result :=
  pc <- getPC ;;
  store (rd i) (add64 pc 2) ;;
  pc <- getPC ;;
  setPC (add64 (imm i) pc) ;;
  okPC.

Definition rvcJALR (i : Instruction) : M result :=
  pc <- getPC ;;
  store (rd i) (add64 pc 2) ;;
  r <- getReg (rs1 i) ;;
  setPC (andnot (add64 (imm i) r) 1) ;;
  okPC.

(** ** Register names *)

Definition RegNames : list string :=
  ["zero"; "ra"; "sp"; "gp"; "tp"; "t0"; "t1"; "t2"; "s0"; "s1";
   "a0"; "a1"; "a2"; "a3"; "a4"; "a5"; "a6"; "a7";
   "s2"; "s3"; "s4"; "s5"; "s6"; "s7"; "s8"; "s9"; "s10"; "s11";
   "t3"; "t4"; "t5"; "t6"]%string.

(** [regNums[name]], the map filled by [init] from [RegNames]; a name
    that is not a key reads as 0. *)
Fixpoint regNumsIn (names : list string) (k : Z) (name : string) : Z :=
  match names with
  | [] => 0
  | n :: rest => if String.eqb n name then k else regNumsIn rest (k + 1) name
  end.

Definition regNums (name : string) : Z := regNumsIn RegNames 0 name.

(** [vm.Mem[lo:hi]]; the bounds check of a slice expression. *)
Definition getSlice (lo hi : Z) : M (list Z) := fun vm =>
  if (0 <=? lo) && (lo <=? hi) && (hi <=? Z.of_nat (length (Mem vm))) then
    Val (take (Z.to_nat (hi - lo)) (drop (Z.to_nat lo) (Mem vm))) vm
  else Panic "slice bounds out of range".

(** ** Decoding

    The decoders do not touch the machine; they return or panic. *)

Inductive partial (A : Type) : Type :=
| Returns (a : A)
| Panics (msg : string).
Arguments Returns {A} a.
Arguments Panics {A} msg.

Definition pbind {A B : Type} (m : partial A) (k : A -> partial B) : partial B :=
  match m with
  | Returns a => k a
  | Panics msg => Panics msg
  end.

Declare Scope partial_scope.
Delimit Scope partial_scope with P.
Notation "x <- c1 ;; c2" := (pbind c1 (fun x => c2))
  (at level 100, c1 at next level, right associativity) : partial_scope.

Definition ofOption {A : Type} (msg : string) (o : option A) : partial A :=
  match o with
  | Some a => Returns a
  | None => Panics msg
  end.

Definition sxP (v bit : Z) : partial Z := ofOption oob (signExtend v bit).

(** *** rvc.go *)

(** rvcRegOffset is added to 3bit RVC register numbers in order to map
    them to rv32 5bit register numbers. *)
Definition rvcRegOffset : Z := 8.

Definition decodeCR (i : Z) : Z * Z :=
  (uint64 (Z.land (Z.shiftr i 7) 0x1f), uint64 (Z.land (Z.shiftr i 2) 0x1f)).

Definition decodeCI (i : Z) : Z * Z :=
  (uint64 (Z.lor (Z.land (Z.shiftr i 7) 0x20) (Z.land (Z.shiftr i 2) 0x1f)),
   uint64 (Z.land (Z.shiftr i 7) 0x1f)).

Definition decodeCSS (i : Z) : Z * Z :=
  (uint64 (Z.land (Z.shiftr i 7) 0x3f), uint64 (Z.land (Z.shiftr i 2) 0x1f)).

Definition decodeCIW (i : Z) : Z * Z :=
  (uint64 (Z.land (Z.shiftr i 5) 0xff),
   add64 (uint64 (Z.land (Z.shiftr i 2) 0x7)) rvcRegOffset).

Definition decodeCL (i : Z) : Z * Z * Z :=
  (uint64 (Z.lor (Z.land (Z.shiftr i 8) 0x1c) (Z.land (Z.shiftr i 5) 0x3)),
   add64 (uint64 (Z.land (Z.shiftr i 7) 0x7)) rvcRegOffset,
   add64 (uint64 (Z.land (Z.shiftr i 2) 0x7)) rvcRegOffset).

Definition decodeCS (i : Z) : Z * Z * Z :=
  (uint64 (Z.lor (Z.land (Z.shiftr i 8) 0x1c) (Z.land (Z.shiftr i 5) 0x3)),
   add64 (uint64 (Z.land (Z.shiftr i 7) 0x7)) rvcRegOffset,
   add64 (uint64 (Z.land (Z.shiftr i 2) 0x7)) rvcRegOffset).

Definition decodeCB (i : Z) : Z * Z :=
  (uint64 (Z.lor (Z.land (Z.shiftr i 5) 0xe0) (Z.land (Z.shiftr i 2) 0x1f)),
   add64 (uint64 (Z.land (Z.shiftr i 7) 0x7)) rvcRegOffset).

(** decodeShiftCB decodes CB specialization for shifts. *)
Definition decodeShiftCB (i : Z) : Z * Z :=
  (uint64 (Z.lor (Z.shiftr (Z.land i 0x1000) 7) (Z.land (Z.shiftr i 2) 0x1f)),
   add64 (uint64 (Z.land (Z.shiftr i 7) 0x7)) rvcRegOffset).

Definition decodeCJ (i : Z) : Z := uint64 (Z.land (Z.shiftr i 2) 0x7ff).

(** [&Instruction{fn: f, rd: .., rs1: .., rs2: .., imm: ..}] *)
Definition newInstr (f : fnptr) (rd_ rs1_ rs2_ imm_ : Z) : Instruction :=
  {| fn := Some f; rs1 := rs1_; rs2 := rs2_; rd := rd_; imm := imm_; in_ := 0 |}.

Definition decoded1 (i : Instruction) : partial (option Instruction * option error) :=
  Returns (Some i, None).

(** rvcDecode decodes a single compressed (RVC) instruction; the
    argument is a uint16. *)
Definition rvcDecode (i : Z) : partial (option Instruction * option error) :=
  (if i =? 0 then Returns (None, Some (Errorf "illegal instruction %#x" [i]))
  else
    let sel := Z.lor (Z.land (Z.shiftr i 11) 0x1c) (Z.land i 0x3) in
    if sel =? 0x00 then (* C.ADDI4SPN *)
      let '(imm, r) := decodeCIW i in
      let imm := Z.lor (Z.lor (Z.lor (shr64 (Z.land imm 0xc0) 2)
                                     (shl64 (Z.land imm 0x3c) 4))
                              (shl64 (Z.land imm 0x2) 1))
                       (shl64 (Z.land imm 0x1) 3) in
      decoded1 (newInstr fn_addi r SP 0 imm)
    else if sel =? 0x04 then
      Panics "C.FLD (the F standard extension) is not supported"
    else if sel =? 0x08 then (* C.LW *)
      let '(imm, r1, r2) := decodeCL i in
      let imm := shl64 (Z.land (Z.lor (shl64 imm 5) imm) 0x3e) 1 in
      decoded1 (newInstr fn_lw r2 r1 0 imm)
    else if sel =? 0x0C then (* C.LD *)
      let '(imm, r1, r2) := decodeCL i in
      let imm := Z.land (Z.lor (shl64 imm 6) (shl64 imm 1)) 0xf8 in
      decoded1 (newInstr fn_ld r2 r1 0 imm)
    else if sel =? 0x10 then Panics "reserved"
    else if sel =? 0x14 then
      Panics "C.FSD (the F standard extension) is not suppored"
    else if sel =? 0x18 then (* C.SW *)
      let '(imm, r1, r2) := decodeCS i in
      let imm := Z.land (shl64 (Z.lor (shl64 imm 5) imm) 1) 0x7c in
      decoded1 (newInstr fn_sw 0 r1 r2 imm)
    else if sel =? 0x1C then (* C.SD *)
      let '(imm, r1, r2) := decodeCS i in
      let imm := Z.land (shl64 (Z.lor (shl64 imm 5) imm) 1) 0xf8 in
      decoded1 (newInstr fn_sd 0 r1 r2 imm)
    else if sel =? 0x01 then (* C.NOP; C.ADDI *)
      let '(imm, r) := decodeCI i in
      imm <- sxP imm 5 ;;
      decoded1 (newInstr fn_addi r r 0 imm)
    else if sel =? 0x05 then (* C.ADDIW *)
      let '(imm, r) := decodeCI i in
      imm <- sxP imm 5 ;;
      decoded1 (newInstr fn_addiw r r 0 imm)
    else if sel =? 0x09 then (* C.LI *)
      let '(imm, r) := decodeCI i in
      imm <- sxP imm 5 ;;
      decoded1 (newInstr fn_addi r Zero 0 imm)
    else if sel =? 0x0D then (* C.ADDI16SP; C.LUI *)
      let '(imm, r) := decodeCI i in
      if negb (r =? 2) then
        imm <- sxP (shl64 imm 12) 17 ;;
        decoded1 (newInstr fn_lui r 0 0 imm)
      else
        imm <- sxP (Z.lor (Z.lor (Z.lor (Z.lor
                     (shl64 (Z.land imm 0x20) 4)
                     (Z.land imm 0x10))
                     (shl64 (Z.land imm 0x8) 3))
                     (shl64 (Z.land imm 0x6) 6))
                     (shl64 (Z.land imm 0x1) 5)) 9 ;;
        decoded1 (newInstr fn_addi SP SP 0 imm)
    else if sel =? 0x11 then
      let sub := Z.land (Z.shiftr i 10) 0x3 in
      if sub =? 0x00 then
        let '(imm, r) := decodeShiftCB i in decoded1 (newInstr fn_srli r r 0 imm)
      else if sub =? 0x01 then
        let '(imm, r) := decodeShiftCB i in decoded1 (newInstr fn_srai r r 0 imm)
      else if sub =? 0x02 then
        let '(imm, r) := decodeShiftCB i in decoded1 (newInstr fn_andi r r 0 imm)
      else
        let '(_, r1, r2) := decodeCS i in
        let op := Z.lor (Z.land (Z.shiftr i 8) 0x1c) (Z.land (Z.shiftr i 5) 0x3) in
        if op =? 0xc then decoded1 (newInstr fn_sub r1 r1 r2 0)
        else if op =? 0xd then decoded1 (newInstr fn_xor r1 r1 r2 0)
        else if op =? 0xe then decoded1 (newInstr fn_or r1 r1 r2 0)
        else if op =? 0xf then decoded1 (newInstr fn_and r1 r1 r2 0)
        else if op =? 0x1c then decoded1 (newInstr fn_subw r1 r1 r2 0)
        else if op =? 0x1d then decoded1 (newInstr fn_addw r1 r1 r2 0)
        else Panics "unreachable"
    else if sel =? 0x15 then (* C.J *)
      let imm := decodeCJ i in
      imm <- sxP (Z.lor (Z.lor (Z.lor (Z.lor (Z.lor
                   (shr64 (Z.land imm 0x200) 5)
                   (shl64 (Z.land imm 0x40) 4))
                   (shl64 (Z.land imm 0x5a0) 1))
                   (shl64 (Z.land imm 0x10) 3))
                   (Z.land imm 0xe))
                   (shl64 (Z.land imm 1) 5)) 11 ;;
      decoded1 (newInstr fn_rvcJAL Zero 0 0 imm)
    else if (sel =? 0x19) || (sel =? 0x1D) then (* C.BEQZ, C.BNEZ *)
      let '(imm, r) := decodeCB i in
      let imm := Z.lor (Z.lor (Z.lor (Z.lor
                   (shl64 (Z.land imm 0x80) 1)
                   (shr64 (Z.land imm 0x60) 2))
                   (shl64 (Z.land imm 0x18) 3))
                   (Z.land imm 0x6))
                   (shl64 (Z.land imm 0x1) 5) in
      imm <- sxP imm 8 ;;
      decoded1 (newInstr (if sel =? 0x19 then fn_beq else fn_bne) 0 r Zero imm)
    else if sel =? 0x02 then (* C.SLLI *)
      let '(imm, r) := decodeCI i in
      decoded1 (newInstr fn_slli r r 0 imm)
    else if sel =? 0x06 then
      Panics "FLDSP (the F standard extension) is not suppored"
    else if sel =? 0x0A then (* C.LWSP *)
      let '(imm, r) := decodeCI i in
      let imm := Z.land (Z.lor (shl64 imm 6) imm) 0xfc in
      decoded1 (newInstr fn_lw r SP 0 imm)
    else if sel =? 0x0E then (* C.LDSP *)
      let '(imm, r) := decodeCI i in
      let imm := Z.land (Z.lor (shl64 imm 6) imm) 0x1f8 in
      decoded1 (newInstr fn_ld r SP 0 imm)
    else if sel =? 0x12 then
      let '(r1, r2) := decodeCR i in
      let b := Z.land i 0x1000 in
      if (b =? 0) && (r2 =? 0) then (* C.JR *)
        decoded1 (newInstr fn_rvcJALR Zero r1 0 0)
      else if b =? 0 then (* C.MV *)
        decoded1 (newInstr fn_add r1 Zero r2 0)
      else if (b =? 0x1000) && (r1 =? 0) && (r2 =? 0) then (* C.EBREAK *)
        decoded1 (newInstr fn_ebreak 0 0 0 0)
      else if (b =? 0x1000) && (r2 =? 0) then (* C.JALR *)
        decoded1 (newInstr fn_rvcJALR RA r1 0 0)
      else (* C.ADD *)
        decoded1 (newInstr fn_add r1 r1 r2 0)
    else if sel =? 0x16 then
      Panics "FSDSP (the F standard extension) is not suppored"
    else if sel =? 0x1A then (* C.SWSP *)
      let '(imm, r) := decodeCSS i in
      let imm := Z.land (Z.lor (shl64 imm 6) imm) 0xfc in
      decoded1 (newInstr fn_sw 0 SP r imm)
    else if sel =? 0x1E then (* C.SDSP *)
      let '(imm, r) := decodeCSS i in
      let imm := Z.land (Z.lor (shl64 imm 6) imm) 0x1f8 in
      decoded1 (newInstr fn_sd 0 SP r imm)
    else Panics "unrecognized rvc instruction")%P.

(** *** The RVI decoder *)

(** decodeSize returns the size of the next instruction in bytes.  The
    second returned value is false if the size can't be determined. *)
Definition decodeSize (b : list Z) : partial (Z * bool) :=
  (b0 <- ofOption oob (idx b 0) ;;
   if negb (Z.land b0 0x3 =? 0x3) then Returns (2, true)
   else if negb (Z.land b0 0x1f =? 0x1f) then Returns (4, true)
   else if Z.land b0 0x3f =? 0x1f then Returns (3, true)
   else if Z.land b0 0x7f =? 0x3f then Returns (4, true)
   else if Z.land b0 0x7f =? 0x7f then
     b1 <- ofOption oob (idx b 1) ;;
     let n := Z.land (Z.shiftr b1 4) 0x7 in
     if n =? 7 then Returns (0, false)
     else Returns (byte (5 + 2 * n), true)
   else Panics "unreachable")%P.

Definition boLoad : Z := 0x00.
Definition boLoadFP : Z := 0x01.
Definition boCustom0 : Z := 0x02.
Definition boMiscMem : Z := 0x03.
Definition boOpImm : Z := 0x04.
Definition boAUIPC : Z := 0x05.
Definition boOpImm32 : Z := 0x06.
Definition boStore : Z := 0x08.
Definition boStoreFP : Z := 0x09.
Definition boCustom1 : Z := 0x0a.
Definition boAMO : Z := 0x0b.
Definition boOp : Z := 0x0c.
Definition boLUI : Z := 0x0d.
Definition boOp32 : Z := 0x0e.
Definition boOpFP : Z := 0x14.
Definition boBranch : Z := 0x18.
Definition boJALR : Z := 0x19.
Definition boJAL : Z := 0x1b.
Definition boSystem : Z := 0x1c.

(** The keyed entries of the array literal [rvi64Instructions];
    index: funct7 | funct3 | opcode>>2. *)
Definition rvi64Entries : list (Z * fnptr) :=
  [ (0x0D, fn_lui); (0x05, fn_auipc); (0x1B, fn_jal); (0x19, fn_jalr);
    (0x18, fn_beq); (0x38, fn_bne); (0x98, fn_blt); (0xB8, fn_bge);
    (0xD8, fn_bltu); (0xF8, fn_bgeu);
    (0x00, fn_lb); (0x20, fn_lh); (0x40, fn_lw); (0x80, fn_lbu); (0xA0, fn_lhu);
    (0x08, fn_sb); (0x28, fn_sh); (0x48, fn_sw);
    (0x04, fn_addi); (0x44, fn_slti); (0x64, fn_sltiu); (0x84, fn_xori);
    (0xC4, fn_ori); (0xE4, fn_andi);
    (0x000C, fn_add); (0x200C, fn_sub); (0x002C, fn_sll); (0x004C, fn_slt);
    (0x006C, fn_sltu); (0x008C, fn_xor); (0x00AC, fn_srl); (0x20AC, fn_sra);
    (0x0CC, fn_or); (0x0EC, fn_and);
    (0x03, fn_fence); (0x23, fn_fence_i); (0x1C, fn_ecallOrBreak);
    (0x3C, fn_csrrw); (0x5C, fn_csrrs); (0x7C, fn_csrrc);
    (0xBC, fn_csrrwi); (0xDC, fn_csrrsi); (0xFC, fn_csrrci);
    (0xC0, fn_lwu); (0x60, fn_ld); (0x68, fn_sd);
    (0x24, fn_slli); (0xA4, fn_shiftRight);
    (0x06, fn_addiw); (0x0026, fn_slliw); (0x00A6, fn_srliw); (0x20A6, fn_sraiw);
    (0x000E, fn_addw); (0x200E, fn_subw); (0x002E, fn_sllw); (0x00AE, fn_srlw);
    (0x20AE, fn_sraw);
    (0x10C, fn_mul); (0x12C, fn_mulh); (0x14C, fn_mulhsu); (0x16C, fn_mulhu);
    (0x18C, fn_div); (0x1AC, fn_divu); (0x1CC, fn_rem); (0x1EC, fn_remu);
    (0x10E, fn_mulw); (0x18E, fn_divw); (0x1AE, fn_divuw); (0x1CE, fn_remw);
    (0x1EE, fn_remuw) ].

Fixpoint assoc (key : Z) (l : list (Z * fnptr)) : option fnptr :=
  match l with
  | [] => None
  | (k, f) :: rest => if k =? key then Some f else assoc key rest
  end.

(** [len(rvi64Instructions)]: one more than the largest key of the
    literal. *)
Definition rvi64Len : Z := 0x20AE + 1.

(** [rvi64Instructions[key]]: nil for an index without an entry, and an
    index-out-of-range panic past the end of the array. *)
Definition rvi64Instructions (key : Z) : partial (option fnptr) :=
  if (0 <=? key) && (key <? rvi64Len) then Returns (assoc key rvi64Entries)
  else Panics oob.

Definition withFn (out : Instruction) (f : option fnptr) : Instruction :=
  {| fn := f; rs1 := rs1 out; rs2 := rs2 out; rd := rd out;
     imm := imm out; in_ := in_ out |}.

Definition withImm (out : Instruction) (v : Z) : Instruction :=
  {| fn := fn out; rs1 := rs1 out; rs2 := rs2 out; rd := rd out;
     imm := v; in_ := in_ out |}.

Definition withIn (out : Instruction) (v : Z) : Instruction :=
  {| fn := fn out; rs1 := rs1 out; rs2 := rs2 out; rd := rd out;
     imm := imm out; in_ := v |}.

Definition oneOf (x : Z) (l : list Z) : bool := existsb (Z.eqb x) l.

(** The results of [Decode]: instruction, size, error. *)
Definition decoded : Type := option Instruction * Z * option error.

(** The table lookup that ends [Decode] for every format but U and J. *)
Definition lookupFn (pc i funct7 : Z) (out : Instruction) : partial decoded :=
  (let key := Z.lor (Z.lor funct7 (Z.land (shr64 i 7) 0xE0))
                    (Z.land (shr64 i 2) 0x1f) in
   f <- rvi64Instructions key ;;
   match f with
   | None =>
       Returns (None, 0,
         Some (Errorf "can't decode instruction %#x at %#x: no entry in rvi instructions table for %#x"
                      [i; pc; key]))
   | Some _ => Returns (Some (withFn out f), 4, None)
   end)%P.

(** Decode decodes the first instruction in the buffer. *)
Definition Decode (pc : Z) (b : list Z) : partial decoded :=
  (let len := Z.of_nat (length b) in
   if (len =? 0) || negb (Z.rem len 2 =? 0) then
     Returns (None, 0,
       Some (Errorf "can't decode %d bytes: length must be a non-zero multiple of 2" [len]))
   else
     sz <- decodeSize b ;;
     let '(size, known) := sz in
     if negb known then
       Returns (None, 0, Some (Errorf "unsupported instruction size: %d bytes" [size]))
     else if len <? size then
       Returns (None, 0,
         Some (Errorf "not enough input bytes (%d) for instructions of size %d bytes" [len; size]))
     else if size =? 2 then
       b0 <- ofOption oob (idx b 0) ;;
       b1 <- ofOption oob (idx b 1) ;;
       let instr := Z.lor (uint16 (Z.shiftl (uint16 b1) 8)) (uint16 b0) in
       r <- rvcDecode instr ;;
       match r with
       | (_, Some e) => Returns (None, 2, Some e)
       | (Some i, None) => Returns (Some (withIn i (uint64 instr)), 2, None)
       | (None, None) => Panics "nil pointer dereference"
       end
     else if negb (size =? 4) then
       Returns (None, 0, Some (Errorf "instructions of size %dbytes are not supported" [size]))
     else
       b0 <- ofOption oob (idx b 0) ;;
       b1 <- ofOption oob (idx b 1) ;;
       b2 <- ofOption oob (idx b 2) ;;
       b3 <- ofOption oob (idx b 3) ;;
       let i := Z.lor (Z.lor (Z.lor (shl64 (uint64 b3) 24) (shl64 (uint64 b2) 16))
                             (shl64 (uint64 b1) 8)) (uint64 b0) in
       let out := {| fn := None;
                     rs1 := Z.land (shr64 i 15) 0x1f;
                     rs2 := Z.land (shr64 i 20) 0x1f;
                     rd := Z.land (shr64 i 7) 0x1f;
                     imm := 0;
                     in_ := i |} in
       let bop := Z.land (shr64 i 2) 0x1f in
       if oneOf bop [boAMO; boOp; boOp32; boOpFP] then (* r-type *)
         lookupFn pc i (Z.land (shr64 i 17) 0x7f00) out
       else if oneOf bop [boLoad; boLoadFP; boMiscMem; boOpImm; boOpImm32; boJALR; boSystem] then
         (* i-type *)
         lookupFn pc i 0 (withImm out (Z.land (shr64 i 20) 0xfff))
       else if oneOf bop [boStore; boStoreFP] then (* s-type *)
         lookupFn pc i 0
           (withImm out (Z.lor (Z.land (shr64 i 20) 0xFE0) (Z.land (shr64 i 0x7) 0x1f)))
       else if oneOf bop [boBranch] then (* b-type *)
         lookupFn pc i 0
           (withImm out (Z.lor (Z.lor (Z.lor (Z.land (shr64 i 19) 0x1000)
                                             (Z.land (shl64 i 4) 0x800))
                                      (Z.land (shr64 i 20) 0x7e0))
                               (Z.land (shr64 i 7) 0x1e)))
       else if oneOf bop [boAUIPC; boLUI] then (* u-type *)
         let out := withImm out (Z.land i 0xFFFFF000) in
         let op := Z.land (shr64 i 2) 0x1f in
         if op =? 0x0D then Returns (Some (withFn out (Some fn_lui)), 4, None)
         else if op =? 0x05 then Returns (Some (withFn out (Some fn_auipc)), 4, None)
         else Returns (None, 0,
                Some (Errorf "instruction %#x uses u-type but it's neither AUIPC nor LUI" [i]))
       else if oneOf bop [boJAL] then (* j-type *)
         let out := withImm out
           (Z.lor (Z.lor (Z.lor (Z.land (shr64 i 11) 0x100000) (Z.land i 0xff000))
                         (Z.land (shr64 i 9) 0x800))
                  (Z.land (shr64 i 20) 0x7fe)) in
         Returns (Some (withFn out (Some fn_jal)), 4, None)
       else
         Returns (None, 0,
           Some (Errorf "instruction %#x has unrecognized format (base opcode: %#x)" [i; bop])))%P.

(** ** The host, ECALL, dispatch and the step loop *)

Section Host.

(** [fmt.Fprint(out, ...)]: the number of bytes the host stream [fd]
    (1 is stdout, 2 is stderr) accepts of the bytes offered to it. *)
Variable hostWrite : Z -> list Z -> Z.

(** See riscv-tools/riscv-pk/pk/syscall.h for the syscall table. *)
Definition ecall (i : Instruction) : M result :=
  call <- getReg (regNums "a7") ;;
  if call =? 0x5D then
    ret (flags0, Some exitErr)
  else if call =? 0x40 then
    fd <- getReg (regNums "a0") ;;
    if (fd =? 1) || (fd =? 2) then
      a1 <- getReg (regNums "a1") ;;
      a2 <- getReg (regNums "a2") ;;
      let buf := int64 a1 in
      let n := int64 a2 in
      bs <- getSlice buf (iadd64 buf n) ;;
      let n := hostWrite fd bs in
      store (uint64 (regNums "a0")) (uint64 n) ;;
      ok
    else
      ret (flags0, Some (Errorf "unrecognized fd %d in %s" [fd; in_ i]))
  else
    ret (flags0, Some (Errorf "unrecognized ecall %#x (%d): %s" [call; call; in_ i])).

Definition ecallOrBreak (i : Instruction) : M result :=
  let sel := shr64 (imm i) 12 in
  if sel =? 0 then ecall i
  else if sel =? 1 then ebreak i
  else panic "unrecognized instruction".

(** Calling through [in.fn]. *)
Definition call (f : fnptr) : handler :=
  match f with
  | fn_lui => lui | fn_auipc => auipc | fn_jal => jal | fn_jalr => jalr
  | fn_beq => beq | fn_bne => bne | fn_blt => blt | fn_bge => bge
  | fn_bltu => bltu | fn_bgeu => bgeu
  | fn_lb => lb | fn_lh => lh | fn_lw => lw | fn_lbu => lbu | fn_lhu => lhu
  | fn_sb => sb | fn_sh => sh | fn_sw => sw
  | fn_addi => addi | fn_slti => slti | fn_sltiu => sltiu
  | fn_xori => xori | fn_ori => ori | fn_andi => andi
  | fn_add => add | fn_sub => sub | fn_sll => sll | fn_slt => slt
  | fn_sltu => sltu | fn_xor => xor | fn_srl => srl | fn_sra => sra
  | fn_or => or | fn_and => and
  | fn_fence => fence | fn_fence_i => fence_i
  | fn_ecallOrBreak => ecallOrBreak | fn_ebreak => ebreak
  | fn_csrrw => csrrw | fn_csrrs => csrrs | fn_csrrc => csrrc
  | fn_csrrwi => csrrwi | fn_csrrsi => csrrsi | fn_csrrci => csrrci
  | fn_lwu => lwu | fn_ld => ld | fn_sd => sd
  | fn_slli => slli | fn_shiftRight => shiftRight
  | fn_srli => srli | fn_srai => srai
  | fn_addiw => addiw | fn_slliw => slliw | fn_srliw => srliw
  | fn_sraiw => sraiw
  | fn_addw => addw | fn_subw => subw | fn_sllw => sllw | fn_srlw => srlw
  | fn_sraw => sraw
  | fn_mul => mul | fn_mulh => mulh | fn_mulhsu => mulhsu
  | fn_mulhu => mulhu | fn_mulw => mulw
  | fn_div => div | fn_divu => divu | fn_divw => divw | fn_divuw => divuw
  | fn_rem => rem | fn_remu => remu | fn_remw => remw | fn_remuw => remuw
  | fn_rvcJAL => rvcJAL | fn_rvcJALR => rvcJALR
  end.

Definition liftP {A : Type} (p : partial A) : M A :=
  match p with
  | Returns a => ret a
  | Panics msg => panic msg
  end.

(** [vm.LastPC = vm.PC; vm.LastInstr = in] *)
Definition setLast (i : option Instruction) : M unit := fun vm =>
  Val tt (mkVM (Reg vm) (CSR vm) (PC vm) (Steps vm) (Mem vm) i (PC vm)).

(** [vm.Steps++] *)
Definition incSteps : M unit := fun vm =>
  Val tt (mkVM (Reg vm) (CSR vm) (PC vm) (int64 (Steps vm + 1)) (Mem vm)
               (LastInstr vm) (LastPC vm)).

(** One iteration of the loop of [Run], for the 0-based counter [k]
    of [n]; [Some e] is the error [Run] returns from inside the loop,
    [None] lets the loop go on. *)
Definition step (k n : Z) : M (option error) :=
  pc <- getPC ;;
  len <- (fun vm => Val (Z.of_nat (length (Mem vm))) vm) ;;
  (* We support only instructions of size 2 and 4. *)
  let end_ := int64 (add64 pc 4) in
  let end_ := if end_ >? len then len else end_ in
  b <- getSlice pc end_ ;;
  d <- liftP (Decode pc b) ;;
  let '(i, size, err) := d in
  match err with
  | Some e => ret (Some (Wrapf "run(%d %d): %v" [k + 1; n] e))
  | None =>
      setLast i ;;
      match i with
      | None => panic "nil pointer dereference"
      | Some ins =>
          match fn ins with
          | None =>
              steps <- (fun vm => Val (Steps vm) vm) ;;
              ret (Some (Errorf "nil instructions after %d steps at %#x: %s"
                                [steps; pc; in_ ins]))
          | Some f =>
              r <- call f ins ;;
              let '(out, err) := r in
              if IsExit err then ret err
              else match err with
                   | Some e => ret (Some (Wrapf "run(%d of %d): %v" [k + 1; n] e))
                   | None =>
                       incSteps ;;
                       (if negb (updatedRDINSTRET out) then
                          c <- getCSR RDINSTRET ;;
                          setCSR RDINSTRET (add64 c 1)
                        else ret tt) ;;
                       (if negb (updatedPC out) then
                          pc <- getPC ;;
                          setPC (add64 pc (uint64 size))
                        else ret tt) ;;
                       ret None
                   end
          end
      end
  end.

(** Run executes n instructions: [for i := 0; i < n; i++].  [fuel]
    counts the iterations that remain and [k] is the loop counter. *)
Fixpoint runLoop (fuel : nat) (k n : Z) : M (option error) :=
  match fuel with
  | O => ret None
  | S fuel' =>
      e <- step k n ;;
      match e with
      | Some err => ret (Some err)
      | None => runLoop fuel' (k + 1) n
      end
  end.

Definition Run (n : Z) : M (option error) := runLoop (Z.to_nat n) 0 n.

End Host.

(** ** The stack initializer *)

(** [[]byte(s)] *)
Definition bytesOf (s : string) : list Z :=
  map (fun c => Z.of_N (N_of_ascii c)) (list_ascii_of_string s).

(** [vm.Mem[vm.Reg[SP]+off] = b] *)
Definition pokeSP (off b : Z) : M unit :=
  sp <- getReg SP ;;
  setMem (add64 sp off) b.

(** pushUint64 pushes a 64-bit uint to the stack. *)
Definition pushUint64 (v : Z) : M unit :=
  sp <- getReg SP ;;
  setReg SP (sub64 sp 8) ;;
  pokeSP 0 (byte v) ;;
  pokeSP 1 (byte (shr64 v 8)) ;;
  pokeSP 2 (byte (shr64 v 16)) ;;
  pokeSP 3 (byte (shr64 v 24)) ;;
  pokeSP 4 (byte (shr64 v 32)) ;;
  pokeSP 5 (byte (shr64 v 40)) ;;
  pokeSP 6 (byte (shr64 v 48)) ;;
  pokeSP 7 (byte (shr64 v 56)).

(** [for i, b := range bs { vm.Mem[vm.Reg[SP]+uint64(i)] = b }], from
    index [i] on. *)
Fixpoint pokeBytes (i : Z) (bs : list Z) : M unit :=
  match bs with
  | [] => ret tt
  | b :: rest => pokeSP (uint64 i) b ;; pokeBytes (i + 1) rest
  end.

(** pushCString pushes a C string to the stack. *)
Definition pushCString (s : string) : M unit :=
  let bs := bytesOf s in
  let len := Z.of_nat (length bs) in
  sp <- getReg SP ;;
  setReg SP (sub64 sp (uint64 (len + 1))) ;;   (* +1 for \0 *)
  pokeBytes 0 bs ;;
  pokeSP (uint64 len) 0.

(** [for i := len(ss) - 1; i >= 0; i-- { vm.pushCString(ss[i]);
    addrs = append(addrs, vm.Reg[SP]) }], given the strings in the order
    the loop visits them. *)
Fixpoint pushCStrings (visited : list string) (addrs : list Z) : M (list Z) :=
  match visited with
  | [] => ret addrs
  | s :: rest =>
      pushCString s ;;
      sp <- getReg SP ;;
      pushCStrings rest (addrs ++ [sp])
  end.

(** [for _, a := range addrs { vm.pushUint64(a) }] *)
Fixpoint pushUint64s (addrs : list Z) : M unit :=
  match addrs with
  | [] => ret tt
  | a :: rest => pushUint64 a ;; pushUint64s rest
  end.

(** [make([]byte, n)] for [n] of type [uint64]: [n] zero bytes.  The
    length of a slice is an [int]; for a size that is not representable
    by one, [make] panics. *)
Definition makeBytes (n : Z) : partial (list Z) :=
  if (0 <=? n) && (n <? 2 ^ 63) then Returns (replicate (Z.to_nat n) 0)
  else Panics "makeslice: len out of range".

(** [&VM{PC: pc, Mem: mem}]: the other fields are zero. *)
Definition freshVM (pc : Z) (mem : list Z) : VM :=
  {| Reg := replicate 32 0;
     CSR := replicate 2048 0;
     PC := pc;
     Steps := 0;
     Mem := mem;
     LastInstr := None;
     LastPC := 0 |}.

(** A nil slice ranges over nothing and has length 0. *)
Definition elems (o : option (list string)) : list string :=
  match o with
  | Some l => l
  | None => []
  end.

Definition strSize (s : string) : Z := Z.of_nat (length (bytesOf s)) + 1.

(** The enlarged memory size computed at the head of [NewVM]. *)
Definition stackMemSize (p : Prog) : Z :=
  let memSize := MemSize p in
  let memSize :=
    fold_left (fun m e => add64 m (uint64 (strSize e))) (elems (Env p)) memSize in
  let memSize :=
    fold_left (fun m a => add64 m (uint64 (strSize a))) (elems (Argv p)) memSize in
  add64 memSize
    (mul64 (uint64 (1 + Z.of_nat (length (elems (Env p))) + 1
                      + Z.of_nat (length (elems (Argv p))) + 1)) 8).

(** The statements of [NewVM] that follow the allocation of the
    enlarged machine. *)
Definition initStack (p : Prog) (memSize : Z) : M unit :=
  setReg SP memSize ;;
  (* Initialize the stack. *)
  addrs <- pushCStrings (rev (elems (Env p))) [0] ;;
  addrs <- pushCStrings (rev (elems (Argv p))) (addrs ++ [0]) ;;
  sp <- getReg SP ;;
  setReg SP (andnot sp 0x7) ;;     (* align the stack to 8 bytes *)
  pushUint64s addrs ;;
  pushUint64 (uint64 (Z.of_nat (length (elems (Argv p))))) ;;
  sp <- getReg SP ;;
  (* debugInitialStack is false; the deferred function restores SP *)
  setReg SP sp.

(** NewVM returns a new RISC-V VM executing the given program.  If
    either Prog.Argv or Prog.Env is not nil then stack is initialized.
    The machine of [p.MemSize] bytes is allocated first, and replaced by
    the enlarged one when the stack is initialized. *)
Definition NewVM (p : Prog) : partial VM :=
  (mem <- makeBytes (MemSize p) ;;
   let vm := freshVM (Start p) mem in
   match Argv p, Env p with
   | None, None => Returns vm
   | _, _ =>
       let memSize := stackMemSize p in
       mem <- makeBytes memSize ;;
       match initStack p memSize (freshVM (Start p) mem) with
       | Val _ vm => Returns vm
       | Panic msg => Panics msg
       end
   end)%P.

(** Memory returns value at the given address. *)
Definition Memory (addr : Z) : M Z := load64 addr.

(** * Properties of the interpreter *)

(** ** The zero register *)

(** [M.Reg[0] == 0] *)
Definition x0Zero (vm : VM) : Prop := idx (Reg vm) 0 = Some 0.

(** A computation keeps x0 at zero when every machine it returns has
    [Reg[0] == 0] provided the machine it started from had. *)
Definition keeps0 {A : Type} (m : M A) : Prop :=
  forall vm, x0Zero vm ->
    match m vm with
    | Val _ vm' => x0Zero vm'
    | Panic _ => True
    end.

(** A host that accepts every byte offered to it. *)
Definition hostAll (fd : Z) (bs : list Z) : Z := Z.of_nat (length bs).

(** A machine with the given registers, CSRs, program counter and
    memory, before its first step. *)
Definition machine (reg csr : list Z) (pc : Z) (mem : list Z) : VM :=
  {| Reg := reg; CSR := csr; PC := pc; Steps := 0; Mem := mem;
     LastInstr := None; LastPC := 0 |}.

(** [regs [(i, v); ...]]: the register file that is zero except for the
    listed registers. *)
Definition regs (l : list (nat * Z)) : list Z :=
  fold_right (fun '(i, v) r => <[i := v]> r) (replicate 32 0) l.

Definition noCSR : list Z := replicate 2048 0.

(** A handler run on a machine whose registers x11 and x12 hold [a] and
    [b], with destination x10, as the tests set it up. *)
Definition runTest (h : handler) (f : fnptr) (a b imm pc : Z) (mem : list Z)
  : res result :=
  h (newInstr f 10 11 (if b =? 0 then 0 else 12) imm)
    (machine (regs [(11%nat, a); (12%nat, b)]) noCSR pc mem).

(** [addi x0, x0, 5] at address 0: a write whose destination is x0. *)
Definition vmAddiX0 : VM :=
  machine (regs [(5%nat, 7)]) noCSR 0 [0x13; 0x00; 0x50; 0x00].

(** ** What a run leaves behind *)

Definition finalVM {A : Type} (r : res A) : option VM :=
  match r with
  | Val _ vm => Some vm
  | Panic _ => None
  end.

Definition finalPC {A : Type} (r : res A) : option Z :=
  match r with
  | Val _ vm => Some (PC vm)
  | Panic _ => None
  end.

Definition finalReg {A : Type} (r : res A) (i : Z) : option Z :=
  match r with
  | Val _ vm => idx (Reg vm) i
  | Panic _ => None
  end.

Definition finalCSR {A : Type} (r : res A) (i : Z) : option Z :=
  match r with
  | Val _ vm => idx (CSR vm) i
  | Panic _ => None
  end.

Definition panicMsg {A : Type} (r : res A) : option string :=
  match r with
  | Val _ _ => None
  | Panic msg => Some msg
  end.

(** ** Sign extension as the specification words it

    [sx(v, n)] replicates bit [n] of [v] into all higher positions of
    the 64-bit word: the two's-complement value of the low [n + 1] bits,
    as a uint64. *)
Definition sxSpec (v n : Z) : Z :=
  let low := v mod 2 ^ (n + 1) in
  if Z.testbit v n then wrap64 (low - 2 ^ (n + 1)) else low.

(** ** JAL and JALR as specified *)

(** [PC + sx(imm, 20)] *)
Definition jalTargetSpec (pc imm : Z) : Z := add64 pc (sxSpec imm 20).

(** [(Reg[rs1] + sx(imm, 11)) & ~1] *)
Definition jalrTargetSpec (r imm : Z) : Z := andnot (add64 r (sxSpec imm 11)) 1.

(** [jal x1, +0x80000] at address 0: a forward jump of 512 KiB, whose
    21-bit immediate has bit 19 set and the sign bit 20 clear. *)
Definition jalFar : list Z := [0xEF; 0x00; 0x08; 0x00].
Definition vmJalFar : VM := machine (regs []) noCSR 0 jalFar.

(** [jalr x0, -8(x1)] at address 0, with [x1 = 0x100]. *)
Definition jalrBack : list Z := [0x67; 0x80; 0x80; 0xff].
Definition vmJalrBack : VM := machine (regs [(1%nat, 0x100)]) noCSR 0 jalrBack.

(** ** The I-form right shifts as specified *)

Inductive shiftKind : Type := SRLI | SRAI | BadShiftImmediate.

(** "if the high 6 bits are 0x10, SRAI; if 0x00, SRLI; otherwise fatal" *)
Definition shiftKindSpec (imm : Z) : shiftKind :=
  if Z.shiftr imm 6 =? 0x10 then SRAI
  else if Z.shiftr imm 6 =? 0x00 then SRLI
  else BadShiftImmediate.

(** The arithmetic right shift of a 64-bit register. *)
Definition sraSpec (a shamt : Z) : Z := wrap64 (Z.shiftr (int64 a) shamt).

(** [srai x10, x11, 2] at address 0, with [x11 = -8]. *)
Definition sraiBy2 : list Z := [0x13; 0xD5; 0x25; 0x40].
Definition vmSrai : VM :=
  machine (regs [(11%nat, 0xFFFFFFFFFFFFFFF8)]) noCSR 0 sraiBy2.

(** The same word with immediate [0x042]: the high 6 bits are [0x01],
    neither SRLI nor SRAI. *)
Definition shiftBadImm : list Z := [0x13; 0xD5; 0x25; 0x04].
Definition vmShiftBadImm : VM :=
  machine (regs [(11%nat, 0xFFFFFFFFFFFFFFF8)]) noCSR 0 shiftBadImm.

(** ** RDINSTRET *)

(** [csrrw x10, instret, x11] at address 0, with [x11 = 100] and the
    counter at 41. *)
Definition csrrwInstret : list Z := [0x73; 0x95; 0x35; 0x00].
Definition vmCsrrw : VM :=
  machine (regs [(11%nat, 100)]) (<[3%nat := 41]> noCSR) 0 csrrwInstret.

(** [csrrw x0, instret, x11]: the same write with [rd = 0]. *)
Definition csrrwInstretX0 : list Z := [0x73; 0x90; 0x35; 0x00].
Definition vmCsrrwX0 : VM :=
  machine (regs [(11%nat, 100)]) (<[3%nat := 41]> noCSR) 0 csrrwInstretX0.

(** ** Remainder by zero as specified *)

(** The 32-bit dividend sign-extended to 64 bits. *)
Definition dividendW (a : Z) : Z := wrap64 (int32 a).

(** [remw x10, x11, x12] and [remuw x10, x11, x12] at address 0. *)
Definition remwWord : list Z := [0x3B; 0xE5; 0xC5; 0x02].
Definition remuwWord : list Z := [0x3B; 0xF5; 0xC5; 0x02].

(** Dividend [0x1_0000_0007] (its low word is 7), divisor register 0. *)
Definition vmRemwZero : VM :=
  machine (regs [(11%nat, 0x100000007); (12%nat, 0)]) noCSR 0 remwWord.
Definition vmRemuwZero : VM :=
  machine (regs [(11%nat, 0x100000007); (12%nat, 0)]) noCSR 0 remuwWord.

(** Divisor register [0x1_0000_0000]: its low 32 bits are 0. *)
Definition vmRemwLowZero : VM :=
  machine (regs [(11%nat, 7); (12%nat, 0x100000000)]) noCSR 0 remwWord.
Definition vmRemuwLowZero : VM :=
  machine (regs [(11%nat, 7); (12%nat, 0x100000000)]) noCSR 0 remuwWord.

(** ** MULH as specified *)

(** The high 64 bits of the 128-bit signed product. *)
Definition mulhSpec (a b : Z) : Z := wrap64 ((int64 a * int64 b) / 2 ^ 64).

(** [mulh x10, x11, x12] at address 0, with [x11 = -3] and
    [x12 = 0x7fffffffffffffff]. *)
Definition mulhWord : list Z := [0x33; 0x95; 0xC5; 0x02].
Definition vmMulh : VM :=
  machine (regs [(11%nat, 0xFFFFFFFFFFFFFFFD); (12%nat, 0x7fffffffffffffff)])
          noCSR 0 mulhWord.

(** ** SLTIU as specified *)

(** 1 iff the register is below the sign-extended immediate, both
    unsigned. *)
Definition sltiuSpec (a imm : Z) : Z := if a <? sxSpec imm 11 then 1 else 0.

(** [sltiu x10, x11, 0xFFF] at address 0, with [x11 = 0x1000]. *)
Definition sltiuWord : list Z := [0x13; 0xB5; 0xF5; 0xFF].
Definition vmSltiu : VM := machine (regs [(11%nat, 0x1000)]) noCSR 0 sltiuWord.

(** ** The initial stack *)

(** The NUL-terminated copy of a string. *)
Definition cstr (s : string) : list Z := bytesOf s ++ [0].

(** The eight bytes of a 64-bit word, least significant first. *)
Definition le64 (v : Z) : list Z :=
  [byte v; byte (shr64 v 8); byte (shr64 v 16); byte (shr64 v 24);
   byte (shr64 v 32); byte (shr64 v 40); byte (shr64 v 48); byte (shr64 v 56)].

(** The sum over the strings of (length + 1 for the NUL terminator). *)
Definition sumSizes (l : list string) : Z :=
  fold_right (fun s acc => strSize s + acc) 0 l.

(** The addresses of strings stored back to back from [base], in the
    order of the list. *)
Fixpoint addrsFrom (base : Z) (strs : list string) : list Z :=
  match strs with
  | [] => []
  | s :: rest => base :: addrsFrom (base + strSize s) rest
  end.

(** The bytes added to the requested memory size: string payloads and
    the pointer table ([argc], the argv pointers, a null, the env
    pointers, a null). *)
Definition extraSize (p : Prog) : Z :=
  sumSizes (elems (Env p)) + sumSizes (elems (Argv p))
  + 8 * (Z.of_nat (length (elems (Argv p))) + Z.of_nat (length (elems (Env p))) + 3).

(** [Argv] or [Env] is not nil. *)
Definition stackRequested (p : Prog) : Prop := Argv p <> None \/ Env p <> None.

(** [a] is the address of the first byte of a NUL-terminated copy of
    [s] in [mem]. *)
Definition cstringAt (mem : list Z) (a : Z) (s : string) : Prop :=
  0 <= a /\ take (length (cstr s)) (drop (Z.to_nat a) mem) = cstr s.

(** The little-endian 64-bit word at address [a] is [w]. *)
Definition wordAt (vm : VM) (a w : Z) : Prop := Memory a vm = Val w vm.

(** The consecutive 64-bit words from address [a] on are [ws]. *)
Definition wordsAt (vm : VM) (a : Z) (ws : list Z) : Prop :=
  forall (k : nat) (w : Z), ws !! k = Some w -> wordAt vm (a + 8 * Z.of_nat k) w.

(** The stack pointer is [sp], memory is zero below it and holds [suf]
    from it to the top. *)
Definition stackAt (vm : VM) (sp : Z) (suf : list Z) : Prop :=
  idx (Reg vm) SP = Some sp
  /\ Mem vm = replicate (Z.to_nat sp) 0 ++ suf
  /\ 0 <= sp
  /\ sp + Z.of_nat (length suf) < 2 ^ 64.

(** The addresses [pushCStrings] appends, in the order of its visits,
    starting with the stack pointer at [sp]. *)
Fixpoint pushedAddrs (sp : Z) (visited : list string) : list Z :=
  match visited with
  | [] => []
  | s :: rest => (sp - strSize s) :: pushedAddrs (sp - strSize s) rest
  end.

(** A program with one argument and a nil environment. *)
Definition progOneArg : Prog :=
  {| Argv := Some ["a"%string]; Env := None; Start := 0; MemSize := 16 |}.

(** A program with two arguments and one environment string, and a
    requested size that is not a multiple of 8. *)
Definition progArgsEnv : Prog :=
  {| Argv := Some ["a"%string; "hi"%string]; Env := Some ["X=1"%string];
     Start := 0; MemSize := 19 |}.

(** Pushing a block of bytes: the stack pointer moves down by the
    length of the block, which is then written from the new stack
    pointer on.  [pushCString] and [pushUint64] are instances. *)
Definition pushBlock (bs : list Z) : M unit :=
  sp <- getReg SP ;;
  setReg SP (sub64 sp (Z.of_nat (length bs))) ;;
  pokeBytes 0 bs.

(** The pointer table [NewVM] leaves at the stack pointer: [argc], the
    addresses of the copies of [Argv[0..]], a null, the addresses of the
    copies of [Env[0..]], a null. *)
Definition tableBytes (p : Prog) : Z :=
  8 * (Z.of_nat (length (elems (Argv p))) + Z.of_nat (length (elems (Env p))) + 3).

Definition argvAddrs (p : Prog) : list Z :=
  addrsFrom (MemSize p + tableBytes p) (elems (Argv p)).

Definition envAddrs (p : Prog) : list Z :=
  addrsFrom (MemSize p + tableBytes p + sumSizes (elems (Argv p))) (elems (Env p)).

Definition pointerTable (p : Prog) : list Z :=
  uint64 (Z.of_nat (length (elems (Argv p))))
    :: argvAddrs p ++ [0] ++ envAddrs p ++ [0].

(** Everything [NewVM] lays out from the final stack pointer to the top
    of memory: the pointer table, the alignment padding, the argv
    strings, the env strings. *)
Definition stackImage (p : Prog) : list Z :=
  concat (map le64 (pointerTable p))
  ++ replicate (Z.to_nat (MemSize p mod 8)) 0
  ++ concat (map cstr (elems (Argv p)))
  ++ concat (map cstr (elems (Env p))).

(** C10 as it is stated, in its last part: the stack pointer [NewVM]
    returns lies at most 7 bytes below the enlarged memory size. *)
Definition spNearEnlargedTop (p : Prog) : Prop :=
  forall vm, NewVM p = Returns vm ->
    exists sp, idx (Reg vm) SP = Some sp
               /\ MemSize p + extraSize p - 7 <= sp <= MemSize p + extraSize p.

(** What [mulh] computes: the high word of the product of the
    magnitudes, negated as a 64-bit word when the signs differ. *)
Definition mulhCode (r1 r2 : Z) : Z :=
  let m := (Z.abs (int64 r1) * Z.abs (int64 r2)) / 2 ^ 64 in
  if xorb (int64 r1 <? 0) (int64 r2 <? 0) then wrap64 (- m) else m.


(** * Further properties: the vocabulary *)

(** ** Machines as the Go types constrain them *)

Definition isU64 (x : Z) : bool := (0 <=? x) && (x <? 2 ^ 64).
Definition isByte (x : Z) : bool := (0 <=? x) && (x <? 2 ^ 8).

(** [Reg] is a [[32]uint64], [CSR] a [[1 << 11]uint64], [PC] a [uint64],
    [Mem] a [[]byte] whose length is an [int]. *)
Definition wfVM (vm : VM) : bool :=
  (Z.of_nat (length (Reg vm)) =? 32)
  && (Z.of_nat (length (CSR vm)) =? 2048)
  && forallb isU64 (Reg vm)
  && forallb isU64 (CSR vm)
  && forallb isByte (Mem vm)
  && isU64 (PC vm)
  && (Z.of_nat (length (Mem vm)) <? 2 ^ 63).

(** The machine after [vm.Reg[i] = v], [vm.CSR[i] = v], [vm.PC = pc],
    and with the memory [m]. *)
Definition withReg (vm : VM) (i v : Z) : VM :=
  mkVM (<[Z.to_nat i := v]> (Reg vm)) (CSR vm) (PC vm) (Steps vm) (Mem vm)
       (LastInstr vm) (LastPC vm).

Definition withCSR (vm : VM) (i v : Z) : VM :=
  mkVM (Reg vm) (<[Z.to_nat i := v]> (CSR vm)) (PC vm) (Steps vm) (Mem vm)
       (LastInstr vm) (LastPC vm).

Definition withPC (vm : VM) (pc : Z) : VM :=
  mkVM (Reg vm) (CSR vm) pc (Steps vm) (Mem vm) (LastInstr vm) (LastPC vm).

Definition withMem (vm : VM) (m : list Z) : VM :=
  mkVM (Reg vm) (CSR vm) (PC vm) (Steps vm) m (LastInstr vm) (LastPC vm).

(** What [vm.store(rd, v)] leaves: nothing changes for [rd = 0]. *)
Definition stored (vm : VM) (rd v : Z) : VM :=
  if rd =? 0 then vm else withReg vm rd v.

(** ** Two's complement and bit fields *)

(** The value of the low [n] bits of [v] read as a two's-complement
    number. *)
Definition signed (n v : Z) : Z :=
  let u := v mod 2 ^ n in
  if u <? 2 ^ (n - 1) then u else u - 2 ^ n.

(** Bits [hi..lo] of [w], as a number. *)
Definition bitsOf (w hi lo : Z) : Z := (w / 2 ^ lo) mod 2 ^ (hi - lo + 1).

(** The 32-bit instruction word whose little-endian bytes are
    [b0 b1 b2 b3]. *)
Definition word32 (b0 b1 b2 b3 : Z) : Z :=
  b0 + 2 ^ 8 * b1 + 2 ^ 16 * b2 + 2 ^ 24 * b3.

(** The 16-bit parcel whose little-endian bytes are [b0 b1]. *)
Definition word16 (b0 b1 : Z) : Z := b0 + 2 ^ 8 * b1.

(** A 64-bit register value that is the sign extension of its low 32
    bits, as every W-form instruction leaves its result. *)
Definition canonical32 (v : Z) : Prop := v = uint64 (int32 v).

(** ** Memory *)

(** The memory [m] with the bytes [bs] written from address [a] on. *)
Definition splice (m : list Z) (a : Z) (bs : list Z) : list Z :=
  take (Z.to_nat a) m ++ bs ++ drop (Z.to_nat a + length bs) m.

(** The effective address of a load or store: the base register plus
    the 12-bit offset read as a signed number, modulo 2^64. *)
Definition effective (base imm : Z) : Z := wrap64 (base + signed 12 imm).

(** The number of bytes a load or store handler accesses. *)
Definition accessWidth (f : fnptr) : option Z :=
  match f with
  | fn_lb | fn_lbu | fn_sb => Some 1
  | fn_lh | fn_lhu | fn_sh => Some 2
  | fn_lw | fn_lwu | fn_sw => Some 4
  | fn_ld | fn_sd => Some 8
  | _ => None
  end.

(** The number whose little-endian bytes are [bs]. *)
Definition leValue (bs : list Z) : Z :=
  fold_right (fun b acc => b + 2 ^ 8 * acc) 0 bs.

Definition isLoad (f : fnptr) : bool :=
  match f with
  | fn_lb | fn_lbu | fn_lh | fn_lhu | fn_lw | fn_lwu | fn_ld => true
  | _ => false
  end.

Definition isStore (f : fnptr) : bool :=
  match f with
  | fn_sb | fn_sh | fn_sw | fn_sd => true
  | _ => false
  end.

(** What a load makes of the number it read: [lb], [lh] and [lw]
    sign-extend it from its width, the others leave it as it is. *)
Definition loadExt (f : fnptr) (x : Z) : Z :=
  match f with
  | fn_lb => wrap64 (signed 8 x)
  | fn_lh => wrap64 (signed 16 x)
  | fn_lw => wrap64 (signed 32 x)
  | _ => x
  end.

(** The [w] bytes of [m] from address [a] on. *)
Definition bytesAt (m : list Z) (a w : Z) : list Z :=
  take (Z.to_nat w) (drop (Z.to_nat a) m).

(** ** Decoding *)

(** The [n] numbers from [k] on, and the numbers [0 .. n-1]. *)
Fixpoint upto (n : nat) (k : Z) : list Z :=
  match n with
  | O => []
  | S n' => k :: upto n' (k + 1)
  end.

Definition below (n : Z) : list Z := upto (Z.to_nat n) 0.

Definition regOK (r : Z) : bool := (0 <=? r) && (r <? 32).

(** An instruction a handler can run: it has a handler and its register
    fields index the register file. *)
Definition runnable (ins : Instruction) : bool :=
  match fn ins with
  | Some _ => regOK (rd ins) && regOK (rs1 ins) && regOK (rs2 ins)
  | None => false
  end.

(** The encodings of the compressed quadrants that [rvcDecode] does not
    implement: the words that do not belong to a compressed quadrant
    (the low two bits are 11), the floating-point loads and stores
    (C.FLD, C.FSD, C.FLDSP, C.FSDSP), the reserved slot of quadrant 0
    and the two reserved register-register operations of quadrant 1. *)
Definition rvcUnsupported (i : Z) : bool :=
  let op := bitsOf i 1 0 in
  let funct3 := bitsOf i 15 13 in
  (op =? 3)
  || ((op =? 0) && ((funct3 =? 1) || (funct3 =? 4) || (funct3 =? 5)))
  || ((op =? 2) && ((funct3 =? 1) || (funct3 =? 5)))
  || ((op =? 1) && (funct3 =? 4) && (bitsOf i 12 10 =? 7) && (2 <=? bitsOf i 6 5)).

(** The outcome of [rvcDecode] on the 16-bit word [i], checked: an
    error for the all-zero word alone, a panic for the encodings above
    alone, and a runnable instruction for every other word. *)
Definition rvcOutcomeOK (i : Z) : bool :=
  match rvcDecode i with
  | Returns (Some ins, None) => negb (i =? 0) && negb (rvcUnsupported i) && runnable ins
  | Returns (None, Some _) => i =? 0
  | Returns _ => false
  | Panics _ => rvcUnsupported i
  end.

(** Offsets of the compressed forms, checked: the offsets of word
    accesses are multiples of 4 below 256, those of doubleword accesses
    multiples of 8 below 512, jump offsets are even and within 2 KiB,
    branch offsets even and within 256 bytes. *)
Definition rvcOffsetOK (ins : Instruction) : bool :=
  match fn ins with
  | Some fn_lw | Some fn_sw =>
      (imm ins mod 4 =? 0) && (0 <=? imm ins) && (imm ins <? 256)
  | Some fn_ld | Some fn_sd =>
      (imm ins mod 8 =? 0) && (0 <=? imm ins) && (imm ins <? 512)
  | Some fn_rvcJAL =>
      (int64 (imm ins) mod 2 =? 0)
      && (- 2048 <=? int64 (imm ins)) && (int64 (imm ins) <? 2048)
  | Some fn_beq | Some fn_bne =>
      (int64 (imm ins) mod 2 =? 0)
      && (- 256 <=? int64 (imm ins)) && (int64 (imm ins) <? 256)
  | _ => true
  end.

Definition rvcOffsetsChecked (i : Z) : bool :=
  match rvcDecode i with
  | Returns (Some ins, None) => rvcOffsetOK ins
  | _ => true
  end.

(** The base opcodes by format, as [Decode] groups them. *)
Definition rTypes : list Z := [boAMO; boOp; boOp32; boOpFP].
Definition iTypes : list Z :=
  [boLoad; boLoadFP; boMiscMem; boOpImm; boOpImm32; boJALR; boSystem].
Definition sTypes : list Z := [boStore; boStoreFP].
Definition uTypes : list Z := [boAUIPC; boLUI].

(** The immediate of the 32-bit word [w], by the format of its base
    opcode (bits 6..2), as the table of [rvi64Instructions] writes the
    formats: I [imm[11:0]], S [imm[11:5] .. imm[4:0]],
    B [imm[12|10:5] .. imm[4:1|11]], U [imm[31:12]],
    J [imm[20|10:1|11|19:12]]; R-type words have none. *)
Definition immOf (w : Z) : Z :=
  let bop := bitsOf w 6 2 in
  if oneOf bop rTypes then 0
  else if oneOf bop iTypes then bitsOf w 31 20
  else if oneOf bop sTypes then 2 ^ 5 * bitsOf w 31 25 + bitsOf w 11 7
  else if bop =? boBranch then
    2 ^ 12 * bitsOf w 31 31 + 2 ^ 11 * bitsOf w 7 7
    + 2 ^ 5 * bitsOf w 30 25 + 2 * bitsOf w 11 8
  else if oneOf bop uTypes then 2 ^ 12 * bitsOf w 31 12
  else if bop =? boJAL then
    2 ^ 20 * bitsOf w 31 31 + 2 ^ 12 * bitsOf w 19 12
    + 2 ^ 11 * bitsOf w 20 20 + 2 * bitsOf w 30 21
  else 0.

(** The index into [rvi64Instructions]: funct7 (R-type words only),
    funct3 and the base opcode. *)
Definition tableKey (w : Z) : Z :=
  (if oneOf (bitsOf w 6 2) rTypes then 2 ^ 8 * bitsOf w 31 25 else 0)
  + 2 ^ 5 * bitsOf w 14 12 + bitsOf w 6 2.

(** The base opcodes whose handler [Decode] looks up in the table. *)
Definition tableTypes : list Z := rTypes ++ iTypes ++ sTypes ++ [boBranch].

(** ** Branches *)

(** The comparison each branch makes of [a = Reg[rs1]] with
    [b = Reg[rs2]]. *)
Definition branchCond (f : fnptr) (a b : Z) : option bool :=
  match f with
  | fn_beq => Some (a =? b)
  | fn_bne => Some (negb (a =? b))
  | fn_blt => Some (int64 a <? int64 b)
  | fn_bge => Some (int64 b <=? int64 a)
  | fn_bltu => Some (a <? b)
  | fn_bgeu => Some (b <=? a)
  | _ => None
  end.

(** The buffers on which [Decode] panics: an even number of bytes that
    start with a compressed parcel [rvcDecode] does not implement, or
    with an R-type word whose table index lies beyond the end of
    [rvi64Instructions]. *)
Definition decodePanics (b : list Z) : bool :=
  match b with
  | b0 :: b1 :: rest =>
      (Z.rem (Z.of_nat (length rest)) 2 =? 0)
      && (if negb (Z.land b0 3 =? 3) then rvcUnsupported (word16 b0 b1)
          else match rest with
               | b2 :: b3 :: _ =>
                   let w := word32 b0 b1 b2 b3 in
                   oneOf (bitsOf w 6 2) rTypes && (rvi64Len <=? tableKey w)
               | _ => false
               end)
  | _ => false
  end.

(** The handler of the 32-bit word [w]: LUI, AUIPC and JAL by their
    base opcode alone, the others by their table entry. *)
Definition handlerOf (w : Z) : option fnptr :=
  let bop := bitsOf w 6 2 in
  if bop =? boLUI then Some fn_lui
  else if bop =? boAUIPC then Some fn_auipc
  else if bop =? boJAL then Some fn_jal
  else assoc (tableKey w) rvi64Entries.

(** ** What a handler may touch *)

(** The handlers that assign [vm.PC]. *)
Definition setsPC (f : fnptr) : bool :=
  match f with
  | fn_jal | fn_jalr | fn_beq | fn_bne | fn_blt | fn_bge | fn_bltu | fn_bgeu
  | fn_rvcJAL | fn_rvcJALR => true
  | _ => false
  end.

(** The handlers that assign an element of [vm.CSR]. *)
Definition writesCSR (f : fnptr) : bool :=
  match f with
  | fn_csrrw | fn_csrrs | fn_csrrc | fn_csrrwi | fn_csrrsi | fn_csrrci => true
  | _ => false
  end.

(** [vm'] differs from [vm] at most in the registers and in the parts
    that are allowed to change: memory contents (never its length), the
    CSR file, the program counter. *)
Definition frame (mem csr pc : bool) (vm vm' : VM) : Prop :=
  Steps vm' = Steps vm
  /\ LastInstr vm' = LastInstr vm
  /\ LastPC vm' = LastPC vm
  /\ length (Reg vm') = length (Reg vm)
  /\ length (CSR vm') = length (CSR vm)
  /\ length (Mem vm') = length (Mem vm)
  /\ (mem = false -> Mem vm' = Mem vm)
  /\ (csr = false -> CSR vm' = CSR vm)
  /\ (pc = false -> PC vm' = PC vm).

(** A computation that, when it returns, leaves a machine related by
    [R] to the one it started from. *)
Definition preserves {A : Type} (R : VM -> VM -> Prop) (m : M A) : Prop :=
  forall vm, match m vm with
             | Val _ vm' => R vm vm'
             | Panic _ => True
             end.

(** A computation whose result, when it returns, satisfies [P]. *)
Definition yields {A : Type} (P : A -> Prop) (m : M A) : Prop :=
  forall vm, match m vm with
             | Val a _ => P a
             | Panic _ => True
             end.

(** What the flags and the error of handler [f] can be: only the
    handlers of [setsPC] report that they set the program counter, only
    [csrrw] reports that it set RDINSTRET, and only [ecallOrBreak]
    returns an error. *)
Definition resultOf (f : fnptr) (r : result) : Prop :=
  (setsPC f = false -> updatedPC (fst r) = false)
  /\ (f <> fn_csrrw -> updatedRDINSTRET (fst r) = false)
  /\ (f <> fn_ecallOrBreak -> snd r = None).

(** ** The step loop *)

(** [end] in [Run]: [int(vm.PC + 4)], cut down to [len(vm.Mem)]. *)
Definition fetchEnd (vm : VM) : Z :=
  let end_ := int64 (add64 (PC vm) 4) in
  if end_ >? Z.of_nat (length (Mem vm)) then Z.of_nat (length (Mem vm))
  else end_.

(** The machine after [vm.LastPC = vm.PC; vm.LastInstr = in]. *)
Definition fetched' (vm : VM) (i : option Instruction) : VM :=
  mkVM (Reg vm) (CSR vm) (PC vm) (Steps vm) (Mem vm) i (PC vm).

Definition fetched (vm : VM) (ins : Instruction) : VM := fetched' vm (Some ins).

(** The bytes of ECALL and the instruction [Decode] makes of them. *)
Definition ecallBytes : list Z := [0x73; 0; 0; 0].

Definition ecallInstr : Instruction :=
  {| fn := Some fn_ecallOrBreak; rs1 := 0; rs2 := 0; rd := 0; imm := 0;
     in_ := 0x73 |}.

(** What [jalr] and [rvcJALR] add to the program counter for the link. *)
Definition linkOffset (f : fnptr) : Z :=
  match f with
  | fn_rvcJALR => 2
  | _ => 4
  end.

(** ** diff.go *)

(** The loop of [diffRegs] over the elements of [a] from index [r] on:
    [if b[r] != v { d = append(d, r) }].  Both arrays are [[32]uint64],
    so [b[r]] is always in range. *)
Fixpoint diffRegsFrom (r : Z) (a b : list Z) (d : list Z) : list Z :=
  match a with
  | [] => d
  | v :: a' =>
      let d := match idx b r with
               | Some w => if negb (w =? v) then d ++ [r] else d
               | None => d
               end in
      diffRegsFrom (r + 1) a' b d
  end.

Definition diffRegs (a b : list Z) : list Z := diffRegsFrom 0 a b [].

(** ** Concrete machines and instructions *)

(** Registers: x1 = 0x100, x2 = 7, x3 = -7, a0 = 1, a1 = 0x20, a2 = 4
    and a7 = 64 (the write system call); the others are zero. *)
Definition regsEx : list Z :=
  regs [(1%nat, 0x100); (2%nat, 7); (3%nat, 0xFFFFFFFFFFFFFFF9);
        (10%nat, 1); (11%nat, 0x20); (12%nat, 4); (17%nat, 0x40)].

(** 64 bytes: [addi a0, x0, 5] at address 0 and "abcd" at 0x20. *)
Definition memEx : list Z :=
  [0x13; 0x05; 0x50; 0x00] ++ replicate 28 0
  ++ bytesOf "abcd" ++ replicate 28 0.

Definition vmEx : VM := machine regsEx noCSR 0 memEx.

(** The program counter at the end of a memory of four bytes, and
    beyond it. *)
Definition vmAtEnd : VM := machine (regs []) noCSR 4 [0x13; 0x05; 0x50; 0x00].
Definition vmBeyond : VM := machine (regs []) noCSR 8 [0x13; 0x05; 0x50; 0x00].

(** ECALL at address 0 with a7 = 93, the exit system call. *)
Definition vmExit : VM := machine (regs [(17%nat, 0x5D)]) noCSR 0 ecallBytes.

(** [addi a0, x0, 5] at address 0 and ECALL at address 4, with a7 = 93:
    one instruction completes and the next one exits. *)
Definition vmAddiExit : VM :=
  machine (regs [(17%nat, 0x5D)]) noCSR 0 ([0x13; 0x05; 0x50; 0x00] ++ ecallBytes).

(** x5 from x2 and x3; from x2 and the zero in x4. *)
Definition iRR : Instruction := newInstr fn_mul 5 2 3 0.
Definition iByZero : Instruction := newInstr fn_div 5 2 4 0.
(** [addi x5, x2, -8] *)
Definition iAddi : Instruction := newInstr fn_addi 5 2 0 0xFF8.
(** [sw x3, 8(a1)], [lw x5, 8(a1)] and [ld x5, 0x7f8(a1)] *)
Definition iStore : Instruction := newInstr fn_sw 0 11 3 8.
Definition iLoad : Instruction := newInstr fn_lw 5 11 0 8.
Definition iFar : Instruction := newInstr fn_ld 5 11 0 0x7F8.
(** [blt x3, x2, -8] *)
Definition iBranch : Instruction := newInstr fn_blt 0 3 2 0x1FF8.
(** [csrrs x5, 3, x2] *)
Definition iCsr : Instruction := newInstr fn_csrrs 5 2 0 3.
(** [lui x5, 0x80000] *)
Definition iLui : Instruction := newInstr fn_lui 5 0 0 0x80000000.
(** [jalr x1, 8(x1)] *)
Definition iJalr : Instruction := newInstr fn_jalr 1 1 0 8.
(** [addi a0, x0, 5] *)
Definition addiBytes : list Z := [0x13; 0x05; 0x50; 0x00].
(** EBREAK *)
Definition ebreakBytes : list Z := [0x73; 0x00; 0x10; 0x00].
(** An R-type word whose funct7 is all ones. *)
Definition farKeyBytes : list Z := [0x33; 0x00; 0x00; 0xFE].


(** * Proofs *)

(** Closed conjunctions of equations are settled by evaluation. *)
Ltac compute_conj :=
  repeat match goal with |- _ /\ _ => split end; vm_compute; reflexivity.

(** ** Basic facts *)

Lemma wrap64_small z : 0 <= z < 2 ^ 64 -> wrap64 z = z.
Proof. intros H. unfold wrap64. apply Z.mod_small. exact H. Qed.

Lemma getReg_eq vm i v : idx (Reg vm) i = Some v -> getReg i vm = Val v vm.
Proof. intros H. unfold getReg. rewrite H. reflexivity. Qed.

Lemma idx_lookup {A} (l : list A) (i : Z) :
  0 <= i -> idx l i = l !! Z.to_nat i.
Proof.
  intros H. unfold idx. destruct (Z.ltb_spec i 0); [lia | reflexivity].
Qed.

Lemma upd_eq {A} (l : list A) (i : Z) (x : A) :
  0 <= i < Z.of_nat (length l) -> upd l i x = Some (<[Z.to_nat i := x]> l).
Proof.
  intros H. unfold upd, inRange.
  destruct (Z.leb_spec 0 i); [|lia].
  destruct (Z.ltb_spec i (Z.of_nat (length l))); [reflexivity | lia].
Qed.

(** ** sign.go against the specification's [sx] *)

Lemma signBits_lookup (n : nat) :
  (n < 32)%nat ->
  signBits !! n = Some (2 ^ Z.of_nat n, 2 ^ 64 - 2 ^ Z.of_nat n).
Proof.
  intros Hn.
  do 32 (destruct n as [|n]; [reflexivity|]). lia.
Qed.

Lemma land_pow2 v n :
  0 <= n -> Z.land v (2 ^ n) = if Z.testbit v n then 2 ^ n else 0.
Proof.
  intros Hn. apply Z.bits_inj'. intros m Hm.
  rewrite Z.land_spec, Z.pow2_bits_eqb by lia.
  destruct (Z.eqb_spec n m) as [->|Hne].
  - destruct (Z.testbit v m); [|apply eq_sym, Z.bits_0].
    rewrite Z.pow2_bits_true by lia. reflexivity.
  - rewrite andb_false_r.
    destruct (Z.testbit v n); [|apply eq_sym, Z.bits_0].
    rewrite Z.pow2_bits_false by lia. reflexivity.
Qed.

Lemma high_mask n :
  0 <= n < 64 -> 2 ^ 64 - 2 ^ n = Z.shiftl (Z.ones (64 - n)) n.
Proof.
  intros Hn. rewrite Z.shiftl_mul_pow2, Z.ones_equiv by lia.
  replace (2 ^ 64) with (2 ^ (64 - n) * 2 ^ n)
    by (rewrite <- Z.pow_add_r by lia; f_equal; lia).
  lia.
Qed.

(** On a value of [n + 1] bits, [signExtend] is the sign extension of
    the specification. *)
Lemma signExtend_sxSpec v n :
  0 <= n < 32 -> 0 <= v < 2 ^ (n + 1) ->
  signExtend v n = Some (sxSpec v n).
Proof.
  intros Hn Hv. unfold signExtend, sxSpec. cbv zeta.
  destruct (Z.ltb_spec n 0); [lia|].
  rewrite (signBits_lookup (Z.to_nat n)) by lia.
  rewrite Z2Nat.id by lia.
  rewrite land_pow2 by lia. rewrite (Z.mod_small v) by lia.
  assert (Hp : 0 < 2 ^ n) by (apply Z.pow_pos_nonneg; lia).
  assert (Hp1 : 2 ^ (n + 1) = 2 * 2 ^ n) by (rewrite Z.pow_add_r by lia; lia).
  assert (Hp64 : 2 ^ (n + 1) <= 2 ^ 64) by (apply Z.pow_le_mono_r; lia).
  destruct (Z.testbit v n) eqn:Hbit.
  - destruct (Z.eqb_spec (2 ^ n) 0); [lia|].
    f_equal. unfold wrap64.
    assert (Hland : Z.land v (2 ^ 64 - 2 ^ n) = 2 ^ n).
    { rewrite high_mask by lia. apply Z.bits_inj'. intros m Hm.
      rewrite Z.land_spec, Z.pow2_bits_eqb by lia.
      destruct (Z.ltb_spec m n).
      - rewrite Z.shiftl_spec_low by lia. rewrite andb_false_r.
        destruct (Z.eqb_spec n m); [lia | reflexivity].
      - rewrite Z.shiftl_spec by lia.
        destruct (Z.eqb_spec n m) as [->|Hne].
        + rewrite Hbit, Z.sub_diag. rewrite Z.ones_spec_low by lia. reflexivity.
        + replace (Z.testbit v m) with false; [reflexivity|].
          symmetry. rewrite <- (Z.mod_small v (2 ^ (n + 1))) by lia.
          apply Z.mod_pow2_bits_high. lia. }
    pose proof (Z.add_lor_land v (2 ^ 64 - 2 ^ n)) as Hsum.
    rewrite Hland in Hsum.
    replace (v - 2 ^ (n + 1)) with (v - 2 ^ (n + 1) + 1 * 2 ^ 64 - 1 * 2 ^ 64) by lia.
    rewrite Zminus_mod, Z_mod_mult, Z.sub_0_r, Z.mod_mod by lia.
    rewrite Z.mod_small; lia.
  - rewrite Z.eqb_refl. reflexivity.
Qed.

Lemma testbit_above v n :
  0 <= n -> 0 <= v < 2 ^ n -> Z.testbit v n = false.
Proof.
  intros Hn Hv. rewrite <- (Z.mod_small v (2 ^ n)) by lia.
  apply Z.mod_pow2_bits_high. lia.
Qed.

Lemma testbit_top v n :
  0 <= n -> 0 <= v < 2 ^ (n + 1) ->
  Z.testbit v n = (2 ^ n <=? v).
Proof.
  intros Hn Hv.
  assert (Hp1 : 2 ^ (n + 1) = 2 * 2 ^ n) by (rewrite Z.pow_add_r by lia; lia).
  destruct (Z.leb_spec (2 ^ n) v).
  - apply Z.testbit_true; [lia|].
    replace v with ((v - 2 ^ n) + 1 * 2 ^ n) by lia.
    rewrite Z.div_add, Z.div_small by lia. reflexivity.
  - apply Z.testbit_false; [lia|].
    rewrite Z.div_small by lia. reflexivity.
Qed.

Lemma sxSpec_value v n :
  0 <= n -> 0 <= v < 2 ^ (n + 1) -> 2 ^ (n + 1) <= 2 ^ 64 ->
  sxSpec v n = if 2 ^ n <=? v then v - 2 ^ (n + 1) + 2 ^ 64 else v.
Proof.
  intros Hn Hv Hle. unfold sxSpec. cbv zeta.
  assert (Hp1 : 2 ^ (n + 1) = 2 * 2 ^ n) by (rewrite Z.pow_add_r by lia; lia).
  rewrite testbit_top, (Z.mod_small v) by lia.
  destruct (Z.leb_spec (2 ^ n) v); [|reflexivity].
  unfold wrap64.
  rewrite <- (Z_mod_plus_full (v - 2 ^ (n + 1)) 1 (2 ^ 64)).
  rewrite Z.mod_small by lia. lia.
Qed.

Lemma add64_differ a b c :
  0 < Z.abs (a - b) < 2 ^ 64 -> add64 a c <> add64 b c.
Proof.
  intros Hk E. unfold add64, wrap64 in E.
  pose proof (Z.div_mod (a + c) (2 ^ 64) ltac:(lia)).
  pose proof (Z.div_mod (b + c) (2 ^ 64) ltac:(lia)).
  pose proof (Z.mod_pos_bound (b + c) (2 ^ 64) ltac:(lia)).
  lia.
Qed.

Lemma add64_comm a b : add64 a b = add64 b a.
Proof. unfold add64. rewrite Z.add_comm. reflexivity. Qed.

(** ** The embedding on the concrete scenarios of the specification
       and on vectors of the repository's tests *)

Example test_mul_overflow :
  finalReg (runTest mul fn_mul 0x57acca70cafebabe 0x57edfa57f005ba11 0 0 []) 10
  = Some 0x42e72d98544e729e.
Proof. vm_compute. reflexivity. Qed.

Example test_mulh_overflow :
  finalReg (runTest mulh fn_mulh 0x57acca70cafebabe 0x57edfa57f005ba11 0 0 []) 10
  = Some 0x1e1d39809b0765be.
Proof. vm_compute. reflexivity. Qed.

Example test_div_overflow :
  finalReg (runTest div fn_div 0x8000000000000000 0xFFFFFFFFFFFFFFFF 0 0 []) 10
  = Some 0x8000000000000000.
Proof. vm_compute. reflexivity. Qed.

Example test_divu_zero :
  finalReg (runTest divu fn_divu 7 0 0 0 []) 10 = Some 0xFFFFFFFFFFFFFFFF.
Proof. vm_compute. reflexivity. Qed.

Example test_srliw_neg :
  finalReg (runTest srliw fn_srliw 0xFFFFFFFFFFFFFFFB 0 2 0 []) 10
  = Some 0x3FFFFFFE.
Proof. vm_compute. reflexivity. Qed.

Example test_addiw_sign_extend :
  finalReg (runTest addiw fn_addiw 0xFFFFFFFF 0 0 0 []) 10
  = Some 0xFFFFFFFFFFFFFFFF.
Proof. vm_compute. reflexivity. Qed.

Example test_slliw_sign_extend :
  finalReg (runTest slliw fn_slliw 1 0 31 0 []) 10 = Some 0xFFFFFFFF80000000.
Proof. vm_compute. reflexivity. Qed.

Example test_jalr_clear_lsb :
  finalPC (runTest jalr fn_jalr 0x121 0 0 8 []) = Some 0x120
  /\ finalReg (runTest jalr fn_jalr 0x121 0 0 8 []) 10 = Some 12.
Proof. compute_conj. Qed.

Example test_jal_neg :
  finalPC (runTest jal fn_jal 0 0 0xffff8 0x12345 []) = Some (0x12345 - 8).
Proof. vm_compute. reflexivity. Qed.

Example test_sltiu_unsigned :
  finalReg (runTest sltiu fn_sltiu 0 0 0xfff 0 []) 10 = Some 1.
Proof. vm_compute. reflexivity. Qed.

Example test_remw_neg :
  finalReg (runTest remw fn_remw 0xffffffffffffffec 0xffffffff00000006 0 0 []) 10
  = Some (wrap64 (-2)).
Proof. vm_compute. reflexivity. Qed.

Example test_lh_signextend :
  finalReg (runTest lh fn_lh 0 0 0 0 [0x00; 0x80]) 10 = Some 0xffffffffffff8000.
Proof. vm_compute. reflexivity. Qed.

(** [C.ADDI4SPN] with [in = 0x000C | 0x0020] and [SP = 0x10]. *)
Example test_c_addi4spn :
  rvcDecode 0x2c = Returns (Some (newInstr fn_addi 11 SP 0 8), None)
  /\ finalReg (Run hostAll 1 (machine (regs [(2%nat, 0x10); (11%nat, 2)]) noCSR 0
                                      [0x2c; 0x00])) 11 = Some 0x18.
Proof. compute_conj. Qed.

(** [C.J] with the immediate 4, and [C.SDSP] storing eight bytes. *)
Example test_c_j :
  finalPC (Run hostAll 1 (machine (regs []) noCSR 0 [0x11; 0xA0])) = Some 4.
Proof. vm_compute. reflexivity. Qed.

Example test_c_sdsp :
  Mem <$> finalVM (Run hostAll 1
            (machine (regs [(2%nat, 1); (3%nat, 0x0102030405060708)]) noCSR 0
                     [0x0E; 0xE4; 0; 0; 0; 0; 0; 0; 0; 0; 0; 0; 0; 0; 0; 0; 0; 0]))
  = Some [0x0E; 0xE4; 0; 0; 0; 0; 0; 0; 0; 8; 7; 6; 5; 4; 3; 2; 1; 0].
Proof. vm_compute. reflexivity. Qed.

(** The length decoder on [b0 = 0xFF, b1 = 0x70]. *)
Example test_decodeSize_unsupported :
  decodeSize [0xFF; 0x70] = Returns (0, false).
Proof. vm_compute. reflexivity. Qed.

(** ** C1: x0 stays zero *)

Section Keeps0.

Lemma keeps0_ret {A} (a : A) : keeps0 (ret a).
Proof. intros vm H. exact H. Qed.

Lemma keeps0_panic {A} msg : keeps0 (@panic A msg).
Proof. intros vm H. exact I. Qed.

Lemma keeps0_bind {A B} (m : M A) (k : A -> M B) :
  keeps0 m -> (forall a, keeps0 (k a)) -> keeps0 (bind m k).
Proof.
  intros Hm Hk vm H. unfold bind.
  specialize (Hm vm H). destruct (m vm) as [a vm'|msg]; [|exact I].
  apply Hk, Hm.
Qed.

Lemma keeps0_liftO {A} msg (o : option A) : keeps0 (liftO msg o).
Proof. destruct o; [apply keeps0_ret | apply keeps0_panic]. Qed.

Lemma keeps0_liftP {A} (p : partial A) : keeps0 (liftP p).
Proof. destruct p; [apply keeps0_ret | apply keeps0_panic]. Qed.

(** A computation that returns the machine it was given. *)
Lemma keeps0_reader {A} (m : M A) :
  (forall vm, match m vm with Val _ vm' => vm' = vm | Panic _ => True end) ->
  keeps0 m.
Proof.
  intros Hm vm H. specialize (Hm vm). destruct (m vm); [subst; exact H | exact I].
Qed.

Lemma keeps0_getReg i : keeps0 (getReg i).
Proof.
  apply keeps0_reader. intros vm. unfold getReg.
  destruct (idx (Reg vm) i); reflexivity.
Qed.

Lemma keeps0_getCSR i : keeps0 (getCSR i).
Proof.
  apply keeps0_reader. intros vm. unfold getCSR.
  destruct (idx (CSR vm) i); reflexivity.
Qed.

Lemma keeps0_getMem a : keeps0 (getMem a).
Proof.
  apply keeps0_reader. intros vm. unfold getMem.
  destruct (idx (Mem vm) a); reflexivity.
Qed.

Lemma keeps0_getPC : keeps0 getPC.
Proof. apply keeps0_reader. intros vm. reflexivity. Qed.

Lemma keeps0_getSlice lo hi : keeps0 (getSlice lo hi).
Proof.
  apply keeps0_reader. intros vm. unfold getSlice.
  destruct (_ && _); reflexivity.
Qed.

Lemma keeps0_sx v bit : keeps0 (sx v bit).
Proof. apply keeps0_liftO. Qed.

(** Writes that leave the register file alone. *)
Lemma keeps0_setPC pc : keeps0 (setPC pc).
Proof. intros vm H. exact H. Qed.

Lemma keeps0_setCSR i v : keeps0 (setCSR i v).
Proof.
  intros vm H. unfold setCSR. destruct (upd (CSR vm) i v); [exact H | exact I].
Qed.

Lemma keeps0_setMem a b : keeps0 (setMem a b).
Proof.
  intros vm H. unfold setMem. destruct (upd (Mem vm) a b); [exact H | exact I].
Qed.

(** The one write to the register file that handlers use. *)
Lemma keeps0_store rd v : keeps0 (store rd v).
Proof.
  intros vm H. unfold store.
  destruct (Z.eqb_spec rd 0) as [->|Hrd]; [exact H|].
  unfold setReg, upd, inRange.
  destruct (Z.leb_spec 0 rd); simpl; [|exact I].
  destruct (_ <? _); [|exact I].
  unfold x0Zero, idx in *. simpl in *.
  rewrite list_lookup_insert_ne; [exact H | lia].
Qed.

Lemma keeps0_divGo a b : keeps0 (divGo a b).
Proof. unfold divGo. destruct (_ =? _); [apply keeps0_panic | apply keeps0_ret]. Qed.

Lemma keeps0_remGo a b : keeps0 (remGo a b).
Proof. unfold remGo. destruct (_ =? _); [apply keeps0_panic | apply keeps0_ret]. Qed.

End Keeps0.

Create HintDb keeps0 discriminated.
#[local] Hint Resolve keeps0_ret keeps0_panic keeps0_liftO keeps0_liftP
  keeps0_getReg keeps0_getCSR keeps0_getMem keeps0_getPC keeps0_getSlice
  keeps0_sx keeps0_setPC keeps0_setCSR keeps0_setMem keeps0_store
  keeps0_divGo keeps0_remGo : keeps0.

(** Walks down a handler body: binds, conditionals and destructuring
    lets are split; the leaves are the primitives above. *)
Ltac keeps0_step :=
  match goal with
  | |- keeps0 (let _ := _ in _) => cbv zeta
  | |- keeps0 (bind _ _) => apply keeps0_bind; [| intros ?]
  | |- keeps0 (if ?c then _ else _) => destruct c
  | |- keeps0 (match ?c with _ => _ end) => destruct c
  | |- keeps0 (let (_, _) := ?c in _) => destruct c
  | |- keeps0 _ => solve [auto with keeps0]
  end.

Ltac keeps0_tac := repeat keeps0_step.

Lemma keeps0_ok : keeps0 ok.
Proof. apply keeps0_ret. Qed.

Lemma keeps0_okPC : keeps0 okPC.
Proof. apply keeps0_ret. Qed.

#[local] Hint Resolve keeps0_ok keeps0_okPC : keeps0.

Lemma keeps0_effAddr i : keeps0 (effAddr i).
Proof. unfold effAddr. keeps0_tac. Qed.

Lemma keeps0_load32 a : keeps0 (load32 a).
Proof. unfold load32. keeps0_tac. Qed.

Lemma keeps0_load64 a : keeps0 (load64 a).
Proof. unfold load64. keeps0_tac. Qed.

Lemma keeps0_branch t i : keeps0 (branch t i).
Proof. unfold branch. keeps0_tac. Qed.

Lemma keeps0_rrOp f i : keeps0 (rrOp f i).
Proof. unfold rrOp. keeps0_tac. Qed.

#[local] Hint Resolve keeps0_effAddr keeps0_load32 keeps0_load64
  keeps0_branch keeps0_rrOp : keeps0.

Lemma keeps0_srli i : keeps0 (srli i).
Proof. unfold srli. keeps0_tac. Qed.

Lemma keeps0_srai i : keeps0 (srai i).
Proof. unfold srai. keeps0_tac. Qed.

Lemma keeps0_ebreak i : keeps0 (ebreak i).
Proof. unfold ebreak. keeps0_tac. Qed.

#[local] Hint Resolve keeps0_srli keeps0_srai keeps0_ebreak : keeps0.

Lemma keeps0_ecall hostWrite i : keeps0 (ecall hostWrite i).
Proof. unfold ecall. keeps0_tac. Qed.

#[local] Hint Resolve keeps0_ecall : keeps0.

Lemma keeps0_ecallOrBreak hostWrite i : keeps0 (ecallOrBreak hostWrite i).
Proof. unfold ecallOrBreak. keeps0_tac. Qed.

#[local] Hint Resolve keeps0_ecallOrBreak : keeps0.

(** Every handler a decoded instruction can point at keeps x0 zero. *)
Lemma keeps0_call hostWrite f i : keeps0 (call hostWrite f i).
Proof.
  destruct f; simpl;
    try solve [auto with keeps0];
    match goal with |- keeps0 (?h _) => unfold h end;
    keeps0_tac.
Qed.

Lemma keeps0_setLast i : keeps0 (setLast i).
Proof. intros vm H. exact H. Qed.

Lemma keeps0_incSteps : keeps0 incSteps.
Proof. intros vm H. exact H. Qed.

#[local] Hint Resolve keeps0_setLast keeps0_incSteps keeps0_call : keeps0.

Lemma keeps0_step hostWrite k n : keeps0 (step hostWrite k n).
Proof.
  unfold step.
  apply keeps0_bind; [auto with keeps0 | intros pc].
  apply keeps0_bind; [apply keeps0_reader; reflexivity | intros len].
  cbv zeta.
  apply keeps0_bind; [auto with keeps0 | intros b].
  apply keeps0_bind; [auto with keeps0 | intros [[i size] err]].
  destruct err as [e|]; [auto with keeps0|].
  apply keeps0_bind; [auto with keeps0 | intros _].
  destruct i as [ins|]; [|auto with keeps0].
  destruct (fn ins) as [f|].
  - apply keeps0_bind; [auto with keeps0 | intros [out err]].
    destruct (IsExit err); [auto with keeps0|].
    destruct err; [auto with keeps0|].
    keeps0_tac.
  - apply keeps0_bind; [apply keeps0_reader; reflexivity | intros steps].
    auto with keeps0.
Qed.

Lemma keeps0_runLoop hostWrite fuel : forall k n, keeps0 (runLoop hostWrite fuel k n).
Proof.
  induction fuel as [|fuel IH]; intros k n; simpl.
  - apply keeps0_ret.
  - apply keeps0_bind; [apply keeps0_step | intros [e|]].
    + apply keeps0_ret.
    + apply IH.
Qed.

(** C1.  For every machine with [Reg[0] == 0]: after [Run] has executed
    any number of decoded RVI or RVC instructions, and after any single
    handler, [Reg[0] == 0] still holds in the machine that is left (a
    panic leaves none); and a [store] whose destination is x0 leaves the
    machine as it was. *)
Theorem C1_x0_stays_zero (hostWrite : Z -> list Z -> Z) (n : Z) (vm : VM)
    (H0 : x0Zero vm) :
  match Run hostWrite n vm with
  | Val _ vm' => x0Zero vm'
  | Panic _ => True
  end
  /\ (forall f i,
        match call hostWrite f i vm with
        | Val _ vm' => x0Zero vm'
        | Panic _ => True
        end)
  /\ (forall v, store 0 v vm = Val tt vm).
Proof.
  split; [|split].
  - apply (keeps0_runLoop hostWrite (Z.to_nat n) 0 n vm H0).
  - intros f i. apply (keeps0_call hostWrite f i vm H0).
  - intros v. reflexivity.
Qed.

(** The step [addi x0, x0, 5] runs to completion and leaves the
    register file as it was. *)
Example run_addi_x0 :
  exists vm', Run hostAll 1 vmAddiX0 = Val None vm'
              /\ Reg vm' = Reg vmAddiX0 /\ PC vm' = 4.
Proof. eexists. split; [vm_compute; reflexivity | split; reflexivity]. Qed.

Lemma C1_x0_stays_zero_witness :
  x0Zero vmAddiX0
  /\ match Run hostAll 1 vmAddiX0 with
     | Val _ vm' => x0Zero vm'
     | Panic _ => True
     end.
Proof.
  split; [reflexivity|].
  apply (C1_x0_stays_zero hostAll 1 vmAddiX0). reflexivity.
Defined.

(** ** C2: JAL *)

(** What [jal] does for every instruction and machine: the immediate is
    extended from bit 19. *)
Lemma jal_target (i : Instruction) (vm vm' : VM) (r : result) :
  jal i vm = Val r vm' ->
  PC vm' = add64 (if Z.land (imm i) 0x80000 =? 0 then imm i
                  else Z.lor (imm i) 0xFFFFFFFFFFF80000) (PC vm).
Proof.
  unfold jal, bind, getPC, store, setReg, sx, signExtend, setPC, okPC, ret.
  simpl.
  destruct (rd i =? 0).
  - simpl. intros [= <- <-]. reflexivity.
  - destruct (upd (Reg vm) (rd i) (add64 (PC vm) 4)); [|discriminate].
    simpl. intros [= <- <-]. reflexivity.
Qed.

(** Every 21-bit immediate whose bits 19 and 20 differ sends [jal]
    elsewhere than the claim says. *)
Lemma jal_far_offsets_diverge (i : Instruction) (vm vm' : VM) (r : result) :
  0 <= imm i < 2 ^ 21 ->
  Z.testbit (imm i) 19 <> Z.testbit (imm i) 20 ->
  jal i vm = Val r vm' ->
  PC vm' <> jalTargetSpec (PC vm) (imm i).
Proof.
  intros Himm Hbits Hjal. rewrite (jal_target i vm vm' r Hjal).
  unfold jalTargetSpec.
  pose proof (sxSpec_value (imm i) 20 ltac:(lia)
                ltac:(change (20 + 1) with 21; lia)
                ltac:(vm_compute; discriminate)) as H20.
  change (20 + 1) with 21 in H20. rewrite H20. clear H20.
  rewrite (testbit_top (imm i) 20) in Hbits by (change (20 + 1) with 21; lia).
  change 0x80000 with (2 ^ 19). rewrite land_pow2 by lia.
  destruct (Z.leb_spec (2 ^ 20) (imm i)) as [Hhi|Hlo].
  - (* bit 20 set, bit 19 clear: the code adds the immediate as it is *)
    assert (H19 : Z.testbit (imm i) 19 = false)
      by (destruct (Z.testbit (imm i) 19); congruence).
    rewrite H19. simpl (0 =? 0).
    rewrite (add64_comm (PC vm)). apply add64_differ. lia.
  - (* bit 20 clear, bit 19 set: the code extends from bit 19 *)
    assert (H19 : Z.testbit (imm i) 19 = true)
      by (destruct (Z.testbit (imm i) 19); congruence).
    rewrite H19. simpl (2 ^ 19 =? 0).
    pose proof (signExtend_sxSpec (imm i) 19 ltac:(lia)
                  ltac:(change (19 + 1) with 20; lia)) as Hsx.
    unfold signExtend in Hsx. simpl (19 <? 0) in Hsx.
    change (signBits !! Z.to_nat 19) with (Some (2 ^ 19, 0xFFFFFFFFFFF80000)) in Hsx.
    cbv beta iota in Hsx.
    rewrite land_pow2, H19 in Hsx by lia. simpl (2 ^ 19 =? 0) in Hsx.
    injection Hsx as Hsx. rewrite Hsx.
    pose proof (sxSpec_value (imm i) 19 ltac:(lia)
                  ltac:(change (19 + 1) with 20; lia)
                  ltac:(vm_compute; discriminate)) as E19.
    change (19 + 1) with 20 in E19. rewrite E19.
    rewrite (testbit_top (imm i) 19) in H19 by (change (19 + 1) with 20; lia).
    rewrite H19.
    rewrite (add64_comm (PC vm)). apply add64_differ. lia.
Qed.

(** C2 (the code departs from the claim).  [jal x1, +0x80000] decodes
    to the 21-bit immediate [0x80000], whose sign bit 20 is clear; the
    claim puts the next PC at [PC + sx(imm, 20) = 0x80000], while the
    step writes the return address 4 to x1 and sets PC to
    [0xFFFFFFFFFFF80000], the immediate extended from bit 19. *)
Theorem C2_jal_extends_from_bit_19 :
  (exists ins, Decode 0 jalFar = Returns (Some ins, 4, None)
               /\ fn ins = Some fn_jal /\ rd ins = 1 /\ imm ins = 0x80000)
  /\ finalReg (Run hostAll 1 vmJalFar) 1 = Some 4
  /\ finalPC (Run hostAll 1 vmJalFar) = Some 0xFFFFFFFFFFF80000
  /\ jalTargetSpec (PC vmJalFar) 0x80000 = 0x80000.
Proof.
  split; [eexists; split; [vm_compute; reflexivity | repeat split]|].
  compute_conj.
Qed.

(** ** C3: JALR *)

(** What [jalr] does: the immediate is extended from bit 12, and
    [Reg[rs1]] is read after the return address has been stored. *)
Lemma jalr_target (i : Instruction) (vm vm' : VM) (r : result) :
  jalr i vm = Val r vm' ->
  exists base,
    idx (Reg vm') (rs1 i) = Some base
    /\ PC vm' = andnot (add64 (if Z.land (imm i) 0x1000 =? 0 then imm i
                               else Z.lor (imm i) 0xFFFFFFFFFFFFF000) base) 1.
Proof.
  unfold jalr, bind, getPC, store, setReg, sx, signExtend, getReg, setPC, okPC, ret.
  simpl.
  destruct (rd i =? 0).
  - simpl. destruct (idx (Reg vm) (rs1 i)) as [base|] eqn:E; [|discriminate].
    simpl. intros [= <- <-]. exists base. split; [exact E | reflexivity].
  - destruct (upd (Reg vm) (rd i) (add64 (PC vm) 4)) as [reg'|]; [|discriminate].
    simpl. destruct (idx reg' (rs1 i)) as [base|] eqn:E; [|discriminate].
    simpl. intros [= <- <-]. exists base. split; [exact E | reflexivity].
Qed.

Lemma andnot_1 x : andnot x 1 = x - x mod 2.
Proof.
  unfold andnot. change 1 with (Z.ones 1) at 1.
  rewrite Z.ldiff_ones_r by lia.
  rewrite Z.shiftr_div_pow2, Z.shiftl_mul_pow2 by lia.
  change (2 ^ 1) with 2. pose proof (Z.div_mod x 2). lia.
Qed.

(** On every decoded JALR (a 12-bit immediate) the immediate is added
    as it is, and with bit 11 set the target is not the claimed one. *)
Lemma jalr_negative_offsets_diverge (i : Instruction) (vm vm' : VM) (r : result) :
  0 <= imm i < 2 ^ 12 ->
  Z.testbit (imm i) 11 = true ->
  jalr i vm = Val r vm' ->
  exists base,
    idx (Reg vm') (rs1 i) = Some base
    /\ PC vm' = andnot (add64 (imm i) base) 1
    /\ PC vm' <> jalrTargetSpec base (imm i).
Proof.
  intros Himm Hbit Hjalr.
  destruct (jalr_target i vm vm' r Hjalr) as (base & Hbase & Hpc).
  change 0x1000 with (2 ^ 12) in Hpc.
  rewrite land_pow2, (testbit_above (imm i) 12) in Hpc by lia.
  simpl (0 =? 0) in Hpc.
  exists base. split; [exact Hbase|]. split; [exact Hpc|].
  rewrite Hpc. unfold jalrTargetSpec.
  pose proof (sxSpec_value (imm i) 11 ltac:(lia)
                ltac:(change (11 + 1) with 12; lia)
                ltac:(vm_compute; discriminate)) as E11.
  change (11 + 1) with 12 in E11. rewrite E11.
  rewrite (testbit_top (imm i) 11) in Hbit by (change (11 + 1) with 12; lia).
  rewrite Hbit. rewrite !andnot_1. unfold add64, wrap64.
  pose proof (Z.div_mod (imm i + base) (2 ^ 64) ltac:(lia)).
  pose proof (Z.mod_pos_bound (imm i + base) (2 ^ 64) ltac:(lia)).
  pose proof (Z.div_mod (base + (imm i - 2 ^ 12 + 2 ^ 64)) (2 ^ 64) ltac:(lia)).
  pose proof (Z.mod_pos_bound (base + (imm i - 2 ^ 12 + 2 ^ 64)) (2 ^ 64) ltac:(lia)).
  pose proof (Z.mod_pos_bound ((imm i + base) mod 2 ^ 64) 2 ltac:(lia)).
  pose proof (Z.mod_pos_bound ((base + (imm i - 2 ^ 12 + 2 ^ 64)) mod 2 ^ 64) 2 ltac:(lia)).
  lia.
Qed.

(** C3 (the code departs from the claim).  [jalr x0, -8(x1)] decodes to
    the 12-bit immediate [0xff8]; with [x1 = 0x100] the claim puts the
    next PC at [(0x100 + sx(0xff8, 11)) & ~1 = 0xf8], while the step sets
    PC to [0x10f8]: the immediate is extended from bit 12, which a 12-bit
    immediate never has set, so it is added unextended. *)
Theorem C3_jalr_extends_from_bit_12 :
  (exists ins, Decode 0 jalrBack = Returns (Some ins, 4, None)
               /\ fn ins = Some fn_jalr /\ rs1 ins = 1 /\ imm ins = 0xff8)
  /\ finalPC (Run hostAll 1 vmJalrBack) = Some 0x10f8
  /\ jalrTargetSpec 0x100 0xff8 = 0xf8.
Proof.
  split; [eexists; split; [vm_compute; reflexivity | repeat split]|].
  compute_conj.
Qed.

(** ** C4: SRLI/SRAI *)

(** The arithmetic case of [shiftRight] is dead: no value masked with
    [0xFC00] equals [0x10]. *)
Lemma shiftRight_never_srai (i : Instruction) :
  shiftRight i = if Z.land (imm i) 0xFC00 =? 0 then srli i
                 else panic "invalid instruction".
Proof.
  unfold shiftRight. cbv zeta.
  destruct (Z.land (imm i) 0xFC00 =? 0); [reflexivity|].
  destruct (Z.eqb_spec (Z.land (imm i) 0xFC00) 0x10) as [E|]; [|reflexivity].
  exfalso.
  assert (H : Z.testbit (Z.land (imm i) 0xFC00) 4 = Z.testbit 0x10 4) by (rewrite E; reflexivity).
  rewrite Z.land_spec in H. simpl in H. rewrite andb_false_r in H. discriminate.
Qed.

(** C4 (the code departs from the claim).  [srai x10, x11, 2] decodes
    to key [0xA4] with immediate [0x402], whose high 6 bits are [0x10]:
    the claim has it run as SRAI and write [-8 >> 2 = -2] to x10, while
    the step panics with "invalid instruction".  The immediate [0x042],
    whose high 6 bits are [0x01], is to fail by the claim, while the step
    runs it as SRLI. *)
Theorem C4_srai_panics :
  (exists ins, Decode 0 sraiBy2 = Returns (Some ins, 4, None)
               /\ fn ins = Some fn_shiftRight /\ imm ins = 0x402)
  /\ shiftKindSpec 0x402 = SRAI
  /\ sraSpec 0xFFFFFFFFFFFFFFF8 2 = 0xFFFFFFFFFFFFFFFE
  /\ Run hostAll 1 vmSrai = Panic "invalid instruction"
  /\ shiftKindSpec 0x042 = BadShiftImmediate
  /\ finalReg (Run hostAll 1 vmShiftBadImm) 10 = Some 0x3FFFFFFFFFFFFFFE.
Proof.
  split; [eexists; split; [vm_compute; reflexivity | repeat split]|].
  compute_conj.
Qed.

(** ** C5: RDINSTRET *)

(** The flag [csrrw] returns: set only on the [rd == 0] path. *)
Lemma csrrw_flag (i : Instruction) (vm vm' : VM) (f : flags) (e : option error) :
  csrrw i vm = Val (f, e) vm' ->
  updatedRDINSTRET f = (rd i =? 0) && (imm i =? RDINSTRET).
Proof.
  unfold csrrw, bind, getReg, getCSR, setCSR, store, setReg, liftO, ok, ret, panic.
  destruct (rd i =? 0) eqn:Hrd; simpl.
  - destruct (idx (Reg vm) (rs1 i)); [|discriminate].
    destruct (upd (CSR vm) (imm i) z); [|discriminate].
    destruct (imm i =? RDINSTRET); intros [= <- <- <-]; reflexivity.
  - destruct (idx (CSR vm) (imm i)); [|discriminate]. simpl.
    destruct (idx (Reg vm) (rs1 i)); [|discriminate]. simpl.
    destruct (upd (CSR vm) (imm i) z0); [|discriminate]. simpl.
    destruct (upd (Reg vm) (rd i) z); [|discriminate].
    intros [= <- <- <-]; reflexivity.
Qed.

(** The other CSR handlers never return the flag set, whatever CSR
    they write. *)
Lemma csr_other_flags (h : handler) (i : Instruction) (vm vm' : VM)
    (f : flags) (e : option error) :
  h = csrrs \/ h = csrrc \/ h = csrrwi \/ h = csrrsi \/ h = csrrci ->
  h i vm = Val (f, e) vm' ->
  updatedRDINSTRET f = false.
Proof.
  intros Hh.
  destruct Hh as [-> | [-> | [-> | [-> | ->]]]];
    unfold csrrs, csrrc, csrrwi, csrrsi, csrrci, bind, ok, ret;
    repeat match goal with
           | |- context [match ?x with _ => _ end] => destruct x
           end;
    try discriminate; intros [= <- <- <-]; reflexivity.
Qed.

(** C5 (the code departs from the claim).  [csrrw x10, instret, x11]
    with [x11 = 100] writes RDINSTRET; by the claim the counter then
    holds exactly the written value 100.  The handler returns the flag
    unset on its [rd != 0] path, the step loop increments, and the
    counter holds 101.  With [rd = 0] the same write leaves 100. *)
Theorem C5_csrrw_rd_nonzero_increments :
  (exists ins, Decode 0 csrrwInstret = Returns (Some ins, 4, None)
               /\ fn ins = Some fn_csrrw /\ rd ins = 10 /\ rs1 ins = 11
               /\ imm ins = RDINSTRET
               /\ exists vm', csrrw ins vmCsrrw = Val (flags0, None) vm'
                              /\ idx (CSR vm') RDINSTRET = Some 100)
  /\ finalCSR (Run hostAll 1 vmCsrrw) RDINSTRET = Some 101
  /\ finalReg (Run hostAll 1 vmCsrrw) 10 = Some 41
  /\ finalCSR (Run hostAll 1 vmCsrrwX0) RDINSTRET = Some 100.
Proof.
  split.
  - eexists. split; [vm_compute; reflexivity|]. repeat split.
    eexists. split; vm_compute; reflexivity.
  - compute_conj.
Qed.

(** ** C6: remainder by zero *)

(** With the divisor register zero, each of the four remainder handlers
    stores the dividend register as it is. *)
Lemma rem_zero_divisor (h : handler) (i : Instruction) (vm : VM) (a : Z) :
  h = rem \/ h = remu \/ h = remw \/ h = remuw ->
  idx (Reg vm) (rs2 i) = Some 0 ->
  idx (Reg vm) (rs1 i) = Some a ->
  h i vm = (store (rd i) a ;; ok) vm.
Proof.
  intros Hh H2 H1.
  destruct Hh as [-> | [-> | [-> | ->]]];
    unfold rem, remu, remw, remuw, bind, getReg;
    rewrite H2; simpl; rewrite H1; reflexivity.
Qed.

(** C6 (the code departs from the claim).  REMW and REMUW test the
    whole divisor register and store the whole dividend register.  With
    dividend [0x1_0000_0007] and divisor 0 the claim has the
    sign-extended 32-bit dividend 7 written, while the step writes
    [0x1_0000_0007]; with divisor [0x1_0000_0000], whose low 32 bits are
    0, the claim again has the dividend 7 written, while the step panics
    on the 32-bit division. *)
Theorem C6_remw_tests_whole_register :
  (exists ins, Decode 0 remwWord = Returns (Some ins, 4, None)
               /\ fn ins = Some fn_remw /\ rd ins = 10 /\ rs1 ins = 11 /\ rs2 ins = 12)
  /\ (exists ins, Decode 0 remuwWord = Returns (Some ins, 4, None)
                  /\ fn ins = Some fn_remuw /\ rd ins = 10 /\ rs1 ins = 11 /\ rs2 ins = 12)
  /\ dividendW 0x100000007 = 7
  /\ finalReg (Run hostAll 1 vmRemwZero) 10 = Some 0x100000007
  /\ finalReg (Run hostAll 1 vmRemuwZero) 10 = Some 0x100000007
  /\ uint32 0x100000000 = 0
  /\ Run hostAll 1 vmRemwLowZero = Panic "integer divide by zero"
  /\ Run hostAll 1 vmRemuwLowZero = Panic "integer divide by zero".
Proof.
  split; [eexists; split; [vm_compute; reflexivity | repeat split]|].
  split; [eexists; split; [vm_compute; reflexivity | repeat split]|].
  compute_conj.
Qed.

(** ** C7: MULH *)

Lemma land_low32 x : Z.land x 0xffffffff = x mod 2 ^ 32.
Proof. change 0xffffffff with (Z.ones 32). apply Z.land_ones. lia. Qed.

Lemma shr64_div x n : 0 <= n -> shr64 x n = x / 2 ^ n.
Proof. intros. unfold shr64. apply Z.shiftr_div_pow2. lia. Qed.

(** The partial-product sum is the high word of the unsigned product. *)
Lemma partialProducts_high x y :
  0 <= x < 2 ^ 64 -> 0 <= y < 2 ^ 64 ->
  partialProducts x y = (x * y) / 2 ^ 64.
Proof.
  intros Hx Hy. unfold partialProducts. cbv zeta.
  rewrite !land_low32, !shr64_div by lia.
  pose proof (Z.div_mod x (2 ^ 32) ltac:(lia)) as Ex.
  pose proof (Z.div_mod y (2 ^ 32) ltac:(lia)) as Ey.
  pose proof (Z.mod_pos_bound x (2 ^ 32) ltac:(lia)) as Bxl.
  pose proof (Z.mod_pos_bound y (2 ^ 32) ltac:(lia)) as Byl.
  set (ah := x / 2 ^ 32) in *. set (al := x mod 2 ^ 32) in *.
  set (bh := y / 2 ^ 32) in *. set (bl := y mod 2 ^ 32) in *.
  assert (Bah : 0 <= ah < 2 ^ 32) by lia.
  assert (Bbh : 0 <= bh < 2 ^ 32) by lia.
  assert (Ba : 0 <= ah * bh <= (2 ^ 32 - 1) * (2 ^ 32 - 1)) by nia.
  assert (Bb : 0 <= ah * bl <= (2 ^ 32 - 1) * (2 ^ 32 - 1)) by nia.
  assert (Bc : 0 <= al * bh <= (2 ^ 32 - 1) * (2 ^ 32 - 1)) by nia.
  assert (Bd : 0 <= al * bl <= (2 ^ 32 - 1) * (2 ^ 32 - 1)) by nia.
  unfold mul64. rewrite !wrap64_small by lia.
  assert (Hxy : x * y = ah * bh * 2 ^ 64 + (ah * bl + al * bh) * 2 ^ 32 + al * bl).
  { rewrite Ex, Ey at 1. change (2 ^ 64) with (2 ^ 32 * 2 ^ 32). ring. }
  set (a := ah * bh) in *. set (b := ah * bl) in *.
  set (c := al * bh) in *. set (d := al * bl) in *.
  pose proof (Z.div_mod b (2 ^ 32) ltac:(lia)) as Eb.
  pose proof (Z.div_mod c (2 ^ 32) ltac:(lia)) as Ec.
  pose proof (Z.div_mod d (2 ^ 32) ltac:(lia)) as Ed.
  pose proof (Z.mod_pos_bound b (2 ^ 32) ltac:(lia)) as Bbr.
  pose proof (Z.mod_pos_bound c (2 ^ 32) ltac:(lia)) as Bcr.
  pose proof (Z.mod_pos_bound d (2 ^ 32) ltac:(lia)) as Bdr.
  set (bq := b / 2 ^ 32) in *. set (br := b mod 2 ^ 32) in *.
  set (cq := c / 2 ^ 32) in *. set (cr := c mod 2 ^ 32) in *.
  set (dq := d / 2 ^ 32) in *. set (dr := d mod 2 ^ 32) in *.
  assert (Bq : 0 <= bq < 2 ^ 32 /\ 0 <= cq < 2 ^ 32 /\ 0 <= dq < 2 ^ 32) by lia.
  unfold add64. rewrite (wrap64_small (dq + br)) by lia.
  rewrite (wrap64_small (dq + br + cr)) by lia.
  pose proof (Z.div_mod (dq + br + cr) (2 ^ 32) ltac:(lia)) as Ei.
  pose proof (Z.mod_pos_bound (dq + br + cr) (2 ^ 32) ltac:(lia)) as Bir.
  set (iq := (dq + br + cr) / 2 ^ 32) in *. set (ir := (dq + br + cr) mod 2 ^ 32) in *.
  assert (Biq : 0 <= iq < 4) by lia.
  rewrite (wrap64_small (a + bq)) by lia.
  rewrite (wrap64_small (a + bq + cq)) by lia.
  rewrite (wrap64_small (a + bq + cq + iq)) by lia.
  apply (Z.div_unique_pos _ _ _ (ir * 2 ^ 32 + dr)); lia.
Qed.

Lemma int64_range z : - 2 ^ 63 <= int64 z < 2 ^ 63.
Proof.
  unfold int64. cbv zeta.
  pose proof (Z.mod_pos_bound z (2 ^ 64) ltac:(lia)).
  destruct (Z.ltb_spec (z mod 2 ^ 64) (2 ^ 63)); lia.
Qed.

Lemma wrap64_int64 z : wrap64 (int64 z) = wrap64 z.
Proof.
  unfold int64, wrap64. cbv zeta.
  destruct (Z.ltb_spec (z mod 2 ^ 64) (2 ^ 63)).
  - apply Z.mod_mod. lia.
  - rewrite Zminus_mod, Z.mod_mod, Z_mod_same_full, Z.sub_0_r, Z.mod_mod by lia.
    reflexivity.
Qed.

Lemma magnitude a :
  - 2 ^ 63 <= a < 2 ^ 63 ->
  uint64 (if a <? 0 then ineg64 a else a) = Z.abs a.
Proof.
  intros Ha. unfold uint64, ineg64.
  destruct (Z.ltb_spec a 0).
  - rewrite wrap64_int64, wrap64_small by lia. lia.
  - rewrite wrap64_small by lia. lia.
Qed.

Lemma mulh_value (i : Instruction) (vm : VM) (r1 r2 : Z) :
  idx (Reg vm) (rs1 i) = Some r1 ->
  idx (Reg vm) (rs2 i) = Some r2 ->
  mulh i vm = (store (rd i) (mulhCode r1 r2) ;; ok) vm.
Proof.
  intros H1 H2. unfold mulh, bind.
  rewrite (getReg_eq _ _ _ H1), (getReg_eq _ _ _ H2).
  pose proof (int64_range r1) as B1. pose proof (int64_range r2) as B2.
  pose proof (magnitude (int64 r1) B1) as M1.
  pose proof (magnitude (int64 r2) B2) as M2.
  unfold mulhCode. cbv zeta.
  assert (Hv : forall n1 n2,
             uint64 n1 = Z.abs (int64 r1) -> uint64 n2 = Z.abs (int64 r2) ->
             partialProducts (uint64 n1) (uint64 n2)
             = Z.abs (int64 r1) * Z.abs (int64 r2) / 2 ^ 64).
  { intros n1 n2 E1 E2. rewrite E1, E2. apply partialProducts_high; lia. }
  destruct (int64 r1 <? 0), (int64 r2 <? 0); simpl;
    rewrite (Hv _ _ M1 M2); reflexivity.
Qed.

(** Against the specification: [mulh] is one too high exactly when the
    product is negative and its low word is not zero. *)
Lemma mulhCode_off_by_one r1 r2 :
  let prod := int64 r1 * int64 r2 in
  mulhCode r1 r2
  = if (prod <? 0) && negb (prod mod 2 ^ 64 =? 0)
    then wrap64 (mulhSpec r1 r2 + 1)
    else mulhSpec r1 r2.
Proof.
  cbv zeta. unfold mulhCode, mulhSpec. cbv zeta.
  pose proof (int64_range r1) as B1. pose proof (int64_range r2) as B2.
  set (a := int64 r1) in *. set (b := int64 r2) in *. clearbody a b.
  assert (Eabs : Z.abs a * Z.abs b = Z.abs (a * b)) by (symmetry; apply Z.abs_mul).
  assert (Bab : Z.abs (a * b) <= 2 ^ 63 * 2 ^ 63).
  { rewrite <- Eabs. apply Z.mul_le_mono_nonneg; lia. }
  assert (Hneg : xorb (a <? 0) (b <? 0) = true -> a * b <= 0).
  { destruct (Z.ltb_spec a 0), (Z.ltb_spec b 0); simpl; try discriminate; intros _.
    - apply Z.mul_nonpos_nonneg; lia.
    - apply Z.mul_nonneg_nonpos; lia. }
  assert (Hpos : xorb (a <? 0) (b <? 0) = false -> 0 <= a * b).
  { destruct (Z.ltb_spec a 0), (Z.ltb_spec b 0); simpl; try discriminate; intros _.
    - apply Z.mul_nonpos_nonpos; lia.
    - apply Z.mul_nonneg_nonneg; lia. }
  rewrite Eabs.
  set (ab := a * b) in *. set (neg := xorb (a <? 0) (b <? 0)) in *.
  clearbody ab neg. clear Eabs.
  pose proof (Z.div_mod (Z.abs ab) (2 ^ 64) ltac:(lia)) as EP.
  pose proof (Z.mod_pos_bound (Z.abs ab) (2 ^ 64) ltac:(lia)) as BP.
  pose proof (Z.div_mod ab (2 ^ 64) ltac:(lia)) as EQ.
  pose proof (Z.mod_pos_bound ab (2 ^ 64) ltac:(lia)) as BQ.
  set (m := Z.abs ab / 2 ^ 64) in *. set (r := Z.abs ab mod 2 ^ 64) in *.
  set (q := ab / 2 ^ 64) in *. set (s := ab mod 2 ^ 64) in *.
  clearbody m r q s.
  unfold wrap64. rewrite Zplus_mod_idemp_l.
  destruct neg.
  - specialize (Hneg eq_refl). clear Hpos.
    destruct (Z.ltb_spec ab 0), (Z.eqb_spec s 0); simpl; f_equal; lia.
  - specialize (Hpos eq_refl). clear Hneg.
    destruct (Z.ltb_spec ab 0); [lia|]. simpl.
    rewrite Z.mod_small by lia. lia.
Qed.

(** C7 (the code departs from the claim).  For [a = -3] and
    [b = 0x7fffffffffffffff] the high 64 bits of the signed product are
    [-2]; [mulh] multiplies the magnitudes and negates the high word,
    and the step writes [-1] to x10. *)
Theorem C7_mulh_negates_high_word :
  (exists ins, Decode 0 mulhWord = Returns (Some ins, 4, None)
               /\ fn ins = Some fn_mulh /\ rd ins = 10 /\ rs1 ins = 11 /\ rs2 ins = 12)
  /\ int64 0xFFFFFFFFFFFFFFFD = -3
  /\ mulhSpec 0xFFFFFFFFFFFFFFFD 0x7fffffffffffffff = wrap64 (-2)
  /\ finalReg (Run hostAll 1 vmMulh) 10 = Some (wrap64 (-1)).
Proof.
  split; [eexists; split; [vm_compute; reflexivity | repeat split]|].
  compute_conj.
Qed.

(** ** C8: SLTIU *)

(** What [sltiu] does: the register is compared with the immediate as
    decoded, without sign extension. *)
Lemma sltiu_compares_raw_immediate (i : Instruction) (vm : VM) (a : Z) :
  idx (Reg vm) (rs1 i) = Some a ->
  sltiu i vm = (store (rd i) (if wrap64 a <? wrap64 (imm i) then 1 else 0) ;; ok) vm.
Proof.
  intros H. unfold sltiu, bind, getReg. rewrite H. simpl.
  unfold uint64. destruct (wrap64 a <? wrap64 (imm i)); reflexivity.
Qed.

(** With bit 11 of the immediate set, every register value from the
    immediate up to its sign extension gets 0 where the claim says 1. *)
Lemma sltiu_negative_immediates_diverge (a imm : Z) :
  0 <= imm < 2 ^ 12 ->
  Z.testbit imm 11 = true ->
  imm <= a < 2 ^ 64 - 2 ^ 12 + imm ->
  (if wrap64 a <? wrap64 imm then 1 else 0) = 0 /\ sltiuSpec a imm = 1.
Proof.
  intros Himm Hbit Ha.
  rewrite !wrap64_small by lia. unfold sltiuSpec.
  pose proof (sxSpec_value imm 11 ltac:(lia)
                ltac:(change (11 + 1) with 12; lia)
                ltac:(vm_compute; discriminate)) as E11.
  change (11 + 1) with 12 in E11. rewrite E11.
  rewrite (testbit_top imm 11) in Hbit by (change (11 + 1) with 12; lia).
  rewrite Hbit.
  destruct (Z.ltb_spec a imm); [lia|].
  destruct (Z.ltb_spec a (imm - 2 ^ 12 + 2 ^ 64)); [|lia].
  split; reflexivity.
Qed.

(** C8 (the code departs from the claim).  [sltiu x10, x11, 0xFFF] with
    [x11 = 0x1000]: the immediate sign-extended from bit 11 is
    [2^64 - 1], so the claim has 1 written to x10; the step compares with
    [0xFFF] and writes 0. *)
Theorem C8_sltiu_immediate_not_extended :
  (exists ins, Decode 0 sltiuWord = Returns (Some ins, 4, None)
               /\ fn ins = Some fn_sltiu /\ rd ins = 10 /\ rs1 ins = 11
               /\ imm ins = 0xFFF)
  /\ sxSpec 0xFFF 11 = MaxUint64
  /\ sltiuSpec 0x1000 0xFFF = 1
  /\ finalReg (Run hostAll 1 vmSltiu) 10 = Some 0.
Proof.
  split; [eexists; split; [vm_compute; reflexivity | repeat split]|].
  compute_conj.
Qed.

(** ** The initial stack: C9 and C10 *)

Section StackInit.

(** Writing the stack pointer of a machine that has one. *)
Lemma setReg_SP vm sp v :
  idx (Reg vm) SP = Some sp ->
  exists vm', setReg SP v vm = Val tt vm'
              /\ idx (Reg vm') SP = Some v /\ Mem vm' = Mem vm.
Proof.
  intros H. unfold setReg.
  assert (Hlen : (2 < length (Reg vm))%nat).
  { apply (lookup_lt_Some _ _ sp). exact H. }
  rewrite upd_eq by (unfold SP; lia).
  eexists. split; [reflexivity|]. split; [|reflexivity].
  simpl. unfold idx, SP. simpl. apply list_lookup_insert_eq. exact Hlen.
Qed.

(** One byte written at [sp + off], on top of whatever was there. *)
Lemma pokeSP_spec vm sp off b pre o suf :
  idx (Reg vm) SP = Some sp ->
  Mem vm = pre ++ o :: suf ->
  Z.of_nat (length pre) = sp + off ->
  0 <= sp -> 0 <= off -> sp + off < 2 ^ 64 ->
  exists vm', pokeSP off b vm = Val tt vm'
              /\ Reg vm' = Reg vm /\ Mem vm' = pre ++ b :: suf.
Proof.
  intros Hsp Hmem Hpre H0 H1 H2.
  unfold pokeSP, bind. rewrite (getReg_eq _ _ _ Hsp).
  unfold setMem, add64. rewrite wrap64_small by lia.
  rewrite upd_eq.
  - eexists. split; [reflexivity|]. split; [reflexivity|]. simpl.
    rewrite Hmem. rewrite <- Hpre, Nat2Z.id.
    rewrite insert_app_r_alt by lia. rewrite Nat.sub_diag. reflexivity.
  - rewrite Hmem, length_app. simpl. lia.
Qed.

(** The bytes [bs] written from [sp + i] on. *)
Lemma pokeBytes_spec bs : forall i vm sp pre old suf,
  idx (Reg vm) SP = Some sp ->
  Mem vm = pre ++ old ++ suf ->
  Z.of_nat (length pre) = sp + i ->
  length old = length bs ->
  0 <= sp -> 0 <= i -> sp + i + Z.of_nat (length bs) <= 2 ^ 64 ->
  exists vm', pokeBytes i bs vm = Val tt vm'
              /\ Reg vm' = Reg vm /\ Mem vm' = pre ++ bs ++ suf.
Proof.
  induction bs as [|b rest IH]; intros i vm sp pre old suf Hsp Hmem Hpre Hlen H0 H1 H2.
  - destruct old; [|discriminate]. exists vm. simpl. auto.
  - destruct old as [|o old]; [discriminate|]. simpl in Hlen, H2.
    simpl pokeBytes. unfold bind.
    destruct (pokeSP_spec vm sp (uint64 i) b pre o (old ++ suf)) as (vm1 & E1 & R1 & M1);
      try assumption; unfold uint64; rewrite ?wrap64_small by lia; try lia.
    unfold uint64 in E1. rewrite wrap64_small in E1 by lia. rewrite E1.
    destruct (IH (i + 1) vm1 sp (pre ++ [b]) old suf) as (vm2 & E2 & R2 & M2).
    + rewrite R1. exact Hsp.
    + rewrite M1, <- app_assoc. reflexivity.
    + rewrite length_app. simpl. lia.
    + lia.
    + lia.
    + lia.
    + lia.
    + exists vm2. split; [exact E2|]. split; [congruence|].
      rewrite M2, <- app_assoc. reflexivity.
Qed.


Lemma bind_ret_tt (m : M unit) vm : (m ;; ret tt) vm = m vm.
Proof. unfold bind. destruct (m vm) as [[] vm'|msg]; reflexivity. Qed.

Lemma pokeBytes_app l1 : forall l2 i vm,
  pokeBytes i (l1 ++ l2) vm
  = (pokeBytes i l1 ;; pokeBytes (i + Z.of_nat (length l1)) l2) vm.
Proof.
  induction l1 as [|b l1 IH]; intros l2 i vm.
  - simpl. unfold bind, ret. rewrite Z.add_0_r. reflexivity.
  - simpl app. simpl pokeBytes. unfold bind.
    destruct (pokeSP (uint64 i) b vm) as [[] vm1|msg]; [|reflexivity].
    rewrite IH. unfold bind.
    replace (i + 1 + Z.of_nat (length l1)) with (i + Z.of_nat (length (b :: l1)))
      by (simpl length; lia).
    reflexivity.
Qed.

Lemma length_cstr s : Z.of_nat (length (cstr s)) = strSize s.
Proof. unfold cstr, strSize. rewrite length_app. simpl. lia. Qed.

Lemma strSize_pos s : 1 <= strSize s.
Proof. unfold strSize. lia. Qed.

Lemma sumSizes_nonneg l : 0 <= sumSizes l.
Proof.
  induction l as [|s l IH]; simpl; [lia|]. pose proof (strSize_pos s). lia.
Qed.

(** [pushCString] pushes the block [cstr s]. *)
Lemma pushCString_block s vm :
  strSize s < 2 ^ 64 -> pushCString s vm = pushBlock (cstr s) vm.
Proof.
  intros Hs. unfold pushCString, pushBlock. cbv zeta.
  rewrite length_cstr. fold (strSize s).
  unfold uint64 at 1. rewrite (wrap64_small (strSize s)) by (pose proof (strSize_pos s); lia).
  unfold bind.
  destruct (getReg SP vm) as [sp vm1|msg]; [|reflexivity].
  destruct (setReg SP (sub64 sp (strSize s)) vm1) as [[] vm2|msg]; [|reflexivity].
  unfold cstr. rewrite pokeBytes_app. unfold bind.
  destruct (pokeBytes 0 (bytesOf s) vm2) as [[] vm3|msg]; [|reflexivity].
  simpl pokeBytes. rewrite bind_ret_tt. rewrite Z.add_0_l. reflexivity.
Qed.

(** [pushUint64] pushes the block [le64 v]. *)
Lemma pushUint64_block v vm : pushUint64 v vm = pushBlock (le64 v) vm.
Proof.
  unfold pushUint64, pushBlock. simpl length. simpl pokeBytes.
  change (Z.of_nat 8) with 8.
  change (uint64 0) with 0. change (uint64 (0 + 1)) with 1.
  change (uint64 (0 + 1 + 1)) with 2. change (uint64 (0 + 1 + 1 + 1)) with 3.
  change (uint64 (0 + 1 + 1 + 1 + 1)) with 4.
  change (uint64 (0 + 1 + 1 + 1 + 1 + 1)) with 5.
  change (uint64 (0 + 1 + 1 + 1 + 1 + 1 + 1)) with 6.
  change (uint64 (0 + 1 + 1 + 1 + 1 + 1 + 1 + 1)) with 7.
  unfold bind.
  repeat match goal with
         | |- match ?m ?x with _ => _ end = match ?m ?x with _ => _ end =>
             destruct (m x) as [? ?|?]; [|reflexivity]
         end.
  destruct (pokeSP 7 _ _) as [[] ?|?]; reflexivity.
Qed.

(** A block pushed below the stack pointer. *)
Lemma pushBlock_spec bs vm sp suf :
  stackAt vm sp suf ->
  Z.of_nat (length bs) <= sp ->
  exists vm', pushBlock bs vm = Val tt vm'
              /\ stackAt vm' (sp - Z.of_nat (length bs)) (bs ++ suf).
Proof.
  intros (Hsp & Hmem & H0 & Hb) Hlen.
  unfold pushBlock, bind. rewrite (getReg_eq _ _ _ Hsp).
  destruct (setReg_SP vm sp (sub64 sp (Z.of_nat (length bs))) Hsp) as (vm1 & E1 & R1 & M1).
  rewrite E1.
  unfold sub64 in R1. rewrite wrap64_small in R1 by lia.
  set (n := Z.of_nat (length bs)) in *.
  destruct (pokeBytes_spec bs 0 vm1 (sp - n)
              (replicate (Z.to_nat (sp - n)) 0)
              (replicate (length bs) 0) suf) as (vm2 & E2 & R2 & M2).
  - exact R1.
  - rewrite M1, Hmem, app_assoc, <- replicate_add. f_equal. f_equal. lia.
  - rewrite length_replicate. lia.
  - apply length_replicate.
  - lia.
  - lia.
  - fold n. lia.
  - exists vm2. split; [exact E2|].
    repeat split.
    + rewrite R2. exact R1.
    + exact M2.
    + lia.
    + rewrite length_app. fold n. lia.
Qed.

(** The loop over the strings. *)
Lemma pushCStrings_spec vs : forall addrs vm sp suf,
  stackAt vm sp suf ->
  sumSizes vs <= sp ->
  exists vm',
    pushCStrings vs addrs vm = Val (addrs ++ pushedAddrs sp vs) vm'
    /\ stackAt vm' (sp - sumSizes vs) (concat (map cstr (rev vs)) ++ suf).
Proof.
  induction vs as [|s vs IH]; intros addrs vm sp suf Hst Hsum.
  - exists vm. simpl. rewrite app_nil_r, Z.sub_0_r. split; [reflexivity | exact Hst].
  - simpl in Hsum. pose proof (sumSizes_nonneg vs) as Hnn.
    pose proof (strSize_pos s) as Hpos.
    assert (Hs : strSize s < 2 ^ 64) by (destruct Hst as (_ & _ & _ & ?); lia).
    simpl pushCStrings. unfold bind at 1.
    rewrite (pushCString_block s vm Hs).
    destruct (pushBlock_spec (cstr s) vm sp suf Hst) as (vm1 & E1 & Hst1);
      [rewrite length_cstr; lia|].
    rewrite E1. rewrite length_cstr in Hst1.
    unfold bind. rewrite (getReg_eq _ _ _ (proj1 Hst1)).
    destruct (IH (addrs ++ [sp - strSize s]) vm1 (sp - strSize s) (cstr s ++ suf) Hst1)
      as (vm2 & E2 & Hst2); [lia|].
    exists vm2. split.
    + rewrite E2, <- app_assoc. reflexivity.
    + simpl sumSizes. simpl rev. rewrite map_app, concat_app. simpl.
      rewrite app_nil_r, <- app_assoc.
      replace (sp - (strSize s + sumSizes vs)) with (sp - strSize s - sumSizes vs) by lia.
      exact Hst2.
Qed.

(** The loop over the pointer table. *)
Lemma pushUint64s_spec ws : forall vm sp suf,
  stackAt vm sp suf ->
  8 * Z.of_nat (length ws) <= sp ->
  exists vm',
    pushUint64s ws vm = Val tt vm'
    /\ stackAt vm' (sp - 8 * Z.of_nat (length ws)) (concat (map le64 (rev ws)) ++ suf).
Proof.
  induction ws as [|w ws IH]; intros vm sp suf Hst Hlen.
  - exists vm. simpl. rewrite Z.sub_0_r. split; [reflexivity | exact Hst].
  - simpl length in Hlen. simpl pushUint64s. unfold bind.
    rewrite pushUint64_block.
    destruct (pushBlock_spec (le64 w) vm sp suf Hst) as (vm1 & E1 & Hst1);
      [simpl length; lia|].
    rewrite E1. simpl length in Hst1. change (Z.of_nat 8) with 8 in Hst1.
    destruct (IH vm1 (sp - 8) (le64 w ++ suf) Hst1) as (vm2 & E2 & Hst2); [lia|].
    exists vm2. split; [exact E2|].
    simpl rev. rewrite map_app, concat_app.
    change (concat (map le64 [w])) with (le64 w ++ []).
    rewrite app_nil_r, <- app_assoc.
    replace (sp - 8 * Z.of_nat (length (w :: ws))) with (sp - 8 - 8 * Z.of_nat (length ws))
      by (simpl length; lia).
    exact Hst2.
Qed.

(** *** Reading the stack back *)

Lemma testbit_shiftr_any w k m :
  0 <= k -> Z.testbit (Z.shiftr w k) m = (0 <=? m) && Z.testbit w (m + k).
Proof.
  intros Hk. destruct (Z.leb_spec 0 m).
  - rewrite Z.shiftr_spec by lia. reflexivity.
  - rewrite Z.testbit_neg_r by lia. reflexivity.
Qed.

(** Bit [n] of the byte number [k / 8] of [w], moved back to its
    place. *)
Lemma testbit_byte_lane w k n :
  0 <= k -> 0 <= n -> k + 8 <= 64 ->
  Z.testbit (shl64 (uint64 (byte (shr64 w k))) k) n
  = (k <=? n) && (n <? k + 8) && Z.testbit w n.
Proof.
  intros Hk Hn Hk8. unfold shl64, uint64, wrap64, byte, shr64.
  rewrite Z.testbit_mod_pow2 by lia.
  rewrite Z.shiftl_spec by lia.
  rewrite !Z.testbit_mod_pow2 by lia.
  rewrite testbit_shiftr_any by lia.
  rewrite Z.sub_add.
  destruct (Z.leb_spec k n), (Z.ltb_spec n (k + 8)), (Z.ltb_spec n 64),
    (Z.ltb_spec (n - k) 64), (Z.ltb_spec (n - k) 8), (Z.leb_spec 0 (n - k));
    simpl; try reflexivity; lia.
Qed.

Lemma testbit_byte_lane0 w n :
  0 <= n -> Z.testbit (uint64 (byte w)) n = (n <? 8) && Z.testbit w n.
Proof.
  intros Hn. unfold uint64, wrap64, byte.
  rewrite !Z.testbit_mod_pow2 by lia.
  destruct (Z.ltb_spec n 64), (Z.ltb_spec n 8); simpl; try reflexivity; lia.
Qed.

Lemma testbit_u64 w n :
  0 <= w < 2 ^ 64 -> Z.testbit w n = (n <? 64) && Z.testbit w n.
Proof.
  intros Hw. rewrite <- Z.testbit_mod_pow2 by lia.
  rewrite Z.mod_small by lia. reflexivity.
Qed.

(** The eight bytes of a word, assembled as [Memory] and [ld]
    assemble them, give the word back. *)
Lemma le64_assemble w :
  0 <= w < 2 ^ 64 ->
  Z.lor (Z.lor (Z.lor (Z.lor (Z.lor (Z.lor (Z.lor
      (uint64 (byte w))
      (shl64 (uint64 (byte (shr64 w 8))) 8))
      (shl64 (uint64 (byte (shr64 w 16))) 16))
      (shl64 (uint64 (byte (shr64 w 24))) 24))
      (shl64 (uint64 (byte (shr64 w 32))) 32))
      (shl64 (uint64 (byte (shr64 w 40))) 40))
      (shl64 (uint64 (byte (shr64 w 48))) 48))
      (shl64 (uint64 (byte (shr64 w 56))) 56) = w.
Proof.
  intros Hw. apply Z.bits_inj'. intros n Hn.
  rewrite !Z.lor_spec, testbit_byte_lane0 by lia.
  rewrite !testbit_byte_lane by lia.
  rewrite (testbit_u64 w n Hw).
  destruct (Z.testbit w n); rewrite ?andb_true_r, ?andb_false_r; [|reflexivity].
  assert (Hcases : n < 8 \/ 8 <= n < 16 \/ 16 <= n < 24 \/ 24 <= n < 32
                   \/ 32 <= n < 40 \/ 40 <= n < 48 \/ 48 <= n < 56
                   \/ 56 <= n < 64 \/ 64 <= n) by lia.
  repeat match goal with
         | |- context [?a <? ?b] =>
             first [ rewrite (proj2 (Z.ltb_lt a b)) by lia
                   | rewrite (proj2 (Z.ltb_ge a b)) by lia
                   | fail 1 ]
         | |- context [?a <=? ?b] =>
             first [ rewrite (proj2 (Z.leb_le a b)) by lia
                   | rewrite (proj2 (Z.leb_gt a b)) by lia
                   | fail 1 ]
         | H : _ \/ _ |- _ => destruct H
         end; reflexivity.
Qed.

Lemma idx_app_at {A} (pre : list A) (l : list A) (a : Z) (k : nat) (x : A) :
  Z.of_nat (length pre) = a ->
  l !! k = Some x ->
  idx (pre ++ l) (a + Z.of_nat k) = Some x.
Proof.
  intros Ha Hk. rewrite idx_lookup by lia.
  rewrite lookup_app_r by lia.
  replace (Z.to_nat (a + Z.of_nat k) - length pre)%nat with k by lia.
  exact Hk.
Qed.

(** A word stored in memory is the word [load64] reads. *)
Lemma load64_le64 vm a pre w rest :
  Mem vm = pre ++ le64 w ++ rest ->
  Z.of_nat (length pre) = a ->
  0 <= w < 2 ^ 64 ->
  a + 8 <= 2 ^ 64 ->
  load64 a vm = Val w vm.
Proof.
  intros Hmem Ha Hw Hfit.
  assert (Hget : forall k b, (le64 w ++ rest) !! k = Some b -> (k < 8)%nat ->
                   getMem (add64 a (Z.of_nat k)) vm = Val b vm).
  { intros k b Hk Hlt. unfold getMem, add64. rewrite wrap64_small by lia.
    rewrite Hmem, (idx_app_at pre _ a k b Ha Hk). reflexivity. }
  unfold load64, bind.
  replace (getMem a vm) with (getMem (add64 a (Z.of_nat 0)) vm)
    by (unfold add64; simpl; rewrite Z.add_0_r, wrap64_small by lia; reflexivity).
  rewrite (Hget 0%nat _ eq_refl) by lia.
  change 1 with (Z.of_nat 1) at 1. rewrite (Hget 1%nat _ eq_refl) by lia.
  change 2 with (Z.of_nat 2) at 1. rewrite (Hget 2%nat _ eq_refl) by lia.
  change 3 with (Z.of_nat 3) at 1. rewrite (Hget 3%nat _ eq_refl) by lia.
  change 4 with (Z.of_nat 4) at 1. rewrite (Hget 4%nat _ eq_refl) by lia.
  change 5 with (Z.of_nat 5) at 1. rewrite (Hget 5%nat _ eq_refl) by lia.
  change 6 with (Z.of_nat 6) at 1. rewrite (Hget 6%nat _ eq_refl) by lia.
  change 7 with (Z.of_nat 7) at 1. rewrite (Hget 7%nat _ eq_refl) by lia.
  unfold ret. rewrite le64_assemble by exact Hw. reflexivity.
Qed.

Lemma length_concat_le64 ws :
  Z.of_nat (length (concat (map le64 ws))) = 8 * Z.of_nat (length ws).
Proof.
  induction ws as [|w ws IH]; [reflexivity|].
  change (concat (map le64 (w :: ws))) with (le64 w ++ concat (map le64 ws)).
  rewrite length_app. change (length (le64 w)) with 8%nat.
  rewrite Nat2Z.inj_add, IH. simpl length. lia.
Qed.

Lemma concat_le64_cons w ws :
  concat (map le64 (w :: ws)) = le64 w ++ concat (map le64 ws).
Proof. reflexivity. Qed.

(** A table of words stored in memory is read back word by word. *)
Lemma wordsAt_table vm a pre ws rest :
  Mem vm = pre ++ concat (map le64 ws) ++ rest ->
  Z.of_nat (length pre) = a ->
  Forall (fun w => 0 <= w < 2 ^ 64) ws ->
  a + 8 * Z.of_nat (length ws) <= 2 ^ 64 ->
  wordsAt vm a ws.
Proof.
  intros Hmem Ha Hws Hfit k w Hk.
  unfold wordAt, Memory.
  assert (Hlt : (k < length ws)%nat) by (apply (lookup_lt_Some _ _ w); exact Hk).
  apply (load64_le64 vm _ (pre ++ concat (map le64 (take k ws))) w
           (concat (map le64 (drop (S k) ws)) ++ rest)).
  - rewrite Hmem. rewrite <- (take_drop_middle ws k w Hk) at 1.
    rewrite map_app, concat_app.
    change (concat (map le64 (w :: drop (S k) ws)))
      with (le64 w ++ concat (map le64 (drop (S k) ws))).
    rewrite <- !app_assoc. reflexivity.
  - rewrite length_app, Nat2Z.inj_add, length_concat_le64, length_take. lia.
  - apply (Forall_lookup_1 _ _ _ _ Hws Hk).
  - lia.
Qed.

Lemma length_concat_cstr strs :
  Z.of_nat (length (concat (map cstr strs))) = sumSizes strs.
Proof.
  induction strs as [|s strs IH]; [reflexivity|].
  simpl map. simpl concat. rewrite length_app, Nat2Z.inj_add, length_cstr, IH.
  reflexivity.
Qed.

(** Strings stored back to back are found at the addresses
    [addrsFrom] lists. *)
Lemma cstringAt_concat strs : forall pre rest,
  Forall2 (cstringAt (pre ++ concat (map cstr strs) ++ rest))
          (addrsFrom (Z.of_nat (length pre)) strs) strs.
Proof.
  induction strs as [|s strs IH]; intros pre rest; simpl addrsFrom.
  - constructor.
  - constructor.
    + split; [lia|]. rewrite Nat2Z.id.
      rewrite drop_app_length. simpl map. simpl concat.
      rewrite <- app_assoc. apply take_app_length.
    + specialize (IH (pre ++ cstr s) rest).
      rewrite length_app, Nat2Z.inj_add, length_cstr in IH.
      simpl map. simpl concat. rewrite <- !app_assoc in *. exact IH.
Qed.

Lemma sumSizes_app l1 l2 : sumSizes (l1 ++ l2) = sumSizes l1 + sumSizes l2.
Proof. induction l1 as [|s l1 IH]; simpl; lia. Qed.

Lemma sumSizes_rev l : sumSizes (rev l) = sumSizes l.
Proof.
  induction l as [|s l IH]; [reflexivity|].
  simpl rev. rewrite sumSizes_app, IH. simpl. lia.
Qed.

Lemma pushedAddrs_app l1 : forall sp l2,
  pushedAddrs sp (l1 ++ l2)
  = pushedAddrs sp l1 ++ pushedAddrs (sp - sumSizes l1) l2.
Proof.
  induction l1 as [|s l1 IH]; intros sp l2; simpl.
  - rewrite Z.sub_0_r. reflexivity.
  - rewrite IH. do 3 f_equal. lia.
Qed.

(** The addresses recorded while pushing the strings last to first,
    read in reverse of recording, are the addresses of the strings
    first to last. *)
Lemma rev_pushedAddrs strs : forall sp,
  rev (pushedAddrs sp (rev strs)) = addrsFrom (sp - sumSizes strs) strs.
Proof.
  induction strs as [|s strs IH]; intros sp; [reflexivity|].
  simpl rev. rewrite pushedAddrs_app. simpl pushedAddrs.
  rewrite rev_app_distr. simpl rev. simpl app.
  rewrite IH, sumSizes_rev. simpl sumSizes. simpl addrsFrom.
  f_equal; [lia|]. f_equal. lia.
Qed.

Lemma addrsFrom_bounds strs : forall base a,
  a ∈ addrsFrom base strs -> base <= a < base + sumSizes strs.
Proof.
  induction strs as [|s strs IH]; intros base a Ha; simpl in *.
  - inversion Ha.
  - pose proof (strSize_pos s). pose proof (sumSizes_nonneg strs).
    apply elem_of_cons in Ha as [-> | Ha]; [lia|].
    apply IH in Ha. lia.
Qed.

Lemma length_addrsFrom strs : forall base,
  length (addrsFrom base strs) = length strs.
Proof. induction strs as [|s strs IH]; intros base; simpl; [|rewrite IH]; reflexivity. Qed.

(** *** The size computation does not wrap *)

Lemma fold_sizes l : forall m0,
  0 <= m0 -> m0 + sumSizes l < 2 ^ 64 ->
  fold_left (fun m e => add64 m (uint64 (strSize e))) l m0 = m0 + sumSizes l.
Proof.
  induction l as [|s l IH]; intros m0 H0 Hb;
    change (sumSizes (s :: l)) with (strSize s + sumSizes l) in * || idtac;
    simpl fold_left.
  - simpl. lia.
  - pose proof (strSize_pos s). pose proof (sumSizes_nonneg l).
    unfold uint64, add64. rewrite (wrap64_small (strSize s)) by lia.
    rewrite wrap64_small by lia. rewrite IH by lia. lia.
Qed.

Lemma stackMemSize_eq p :
  0 <= MemSize p -> MemSize p + extraSize p < 2 ^ 64 ->
  stackMemSize p = MemSize p + extraSize p.
Proof.
  intros H0 Hb. unfold stackMemSize, extraSize in *. cbv zeta.
  pose proof (sumSizes_nonneg (elems (Env p))).
  pose proof (sumSizes_nonneg (elems (Argv p))).
  rewrite (fold_sizes (elems (Env p))) by lia.
  rewrite (fold_sizes (elems (Argv p))) by lia.
  unfold uint64, mul64, add64.
  rewrite (wrap64_small (1 + _ + 1 + _ + 1)) by lia.
  rewrite (wrap64_small (_ * 8)) by lia.
  rewrite wrap64_small by lia. lia.
Qed.

(** *** Alignment *)

Lemma andnot_7 sp : andnot sp 0x7 = sp - sp mod 8.
Proof.
  unfold andnot. change 0x7 with (Z.ones 3).
  rewrite Z.ldiff_ones_r by lia.
  rewrite Z.shiftr_div_pow2, Z.shiftl_mul_pow2 by lia.
  change (2 ^ 3) with 8. pose proof (Z.div_mod sp 8). lia.
Qed.

Lemma align_spec vm sp suf :
  stackAt vm sp suf ->
  exists vm',
    (sp <- getReg SP ;; setReg SP (andnot sp 0x7)) vm = Val tt vm'
    /\ stackAt vm' (sp - sp mod 8) (replicate (Z.to_nat (sp mod 8)) 0 ++ suf).
Proof.
  intros (Hsp & Hmem & H0 & Hb).
  pose proof (Z.mod_pos_bound sp 8 ltac:(lia)) as Hmod.
  pose proof (Z.div_mod sp 8 ltac:(lia)) as Hdm.
  assert (Hdiv : 0 <= sp / 8) by (apply Z.div_pos; lia).
  unfold bind. rewrite (getReg_eq _ _ _ Hsp).
  destruct (setReg_SP vm sp (andnot sp 0x7) Hsp) as (vm1 & E1 & R1 & M1).
  exists vm1. split; [exact E1|]. rewrite andnot_7 in R1.
  repeat split.
  - exact R1.
  - rewrite M1, Hmem, app_assoc, <- replicate_add. do 2 f_equal. lia.
  - lia.
  - rewrite length_app, length_replicate. lia.
Qed.

(** *** The layout [NewVM] produces *)

Lemma freshVM_stack pc total :
  0 <= total < 2 ^ 64 ->
  exists vm0, setReg SP total (freshVM pc (replicate (Z.to_nat total) 0)) = Val tt vm0
              /\ stackAt vm0 total [].
Proof.
  intros Ht.
  destruct (setReg_SP (freshVM pc (replicate (Z.to_nat total) 0)) 0 total eq_refl)
    as (vm0 & E0 & R0 & M0).
  exists vm0. split; [exact E0|].
  repeat split; [exact R0 | | lia | simpl; lia].
  rewrite M0, app_nil_r. reflexivity.
Qed.

Lemma initStack_layout p :
  0 <= MemSize p ->
  MemSize p + extraSize p < 2 ^ 64 ->
  exists vm,
    initStack p (MemSize p + extraSize p)
              (freshVM (Start p)
                 (replicate (Z.to_nat (MemSize p + extraSize p)) 0)) = Val tt vm
    /\ stackAt vm (MemSize p - MemSize p mod 8) (stackImage p).
Proof.
  intros H0 Hb.
  set (argv := elems (Argv p)). set (env := elems (Env p)).
  set (total := MemSize p + extraSize p).
  pose proof (sumSizes_nonneg argv) as Hna.
  pose proof (sumSizes_nonneg env) as Hne.
  assert (Hext : extraSize p = sumSizes env + sumSizes argv + tableBytes p)
    by reflexivity.
  assert (Htab : tableBytes p
                 = 8 * (Z.of_nat (length argv) + Z.of_nat (length env) + 3))
    by reflexivity.
  pose proof (Z.mod_pos_bound (MemSize p) 8 ltac:(lia)) as Hmod.
  pose proof (Z.div_mod (MemSize p) 8 ltac:(lia)) as Hdm.
  assert (Hdiv : 0 <= MemSize p / 8) by (apply Z.div_pos; lia).
  unfold initStack, bind.
  (* vm.Reg[SP] = memSize *)
  destruct (freshVM_stack (Start p) total ltac:(lia)) as (vm0 & E0 & S0).
  rewrite E0.
  (* the env strings *)
  destruct (pushCStrings_spec (rev env) [0] vm0 total [] S0) as (vm1 & E1 & S1);
    [rewrite sumSizes_rev; lia|].
  fold env. rewrite E1.
  rewrite sumSizes_rev, rev_involutive, app_nil_r in S1.
  (* the argv strings *)
  destruct (pushCStrings_spec (rev argv)
              (([0] ++ pushedAddrs total (rev env)) ++ [0]) vm1 _ _ S1)
    as (vm2 & E2 & S2); [rewrite sumSizes_rev; lia|].
  fold argv. rewrite E2.
  rewrite sumSizes_rev, rev_involutive in S2.
  (* alignment *)
  destruct (align_spec vm2 _ _ S2) as (vm3 & E3 & S3).
  unfold bind in E3.
  rewrite (getReg_eq _ _ _ (proj1 S2)) in E3 |- *. rewrite E3.
  replace (total - sumSizes env - sumSizes argv) with (MemSize p + tableBytes p) in S3
    by lia.
  assert (Hm : (MemSize p + tableBytes p) mod 8 = MemSize p mod 8).
  { rewrite Htab, (Z.mul_comm 8). apply Z_mod_plus_full. }
  rewrite Hm in S3.
  (* the pointer table *)
  set (addrs := (([0] ++ pushedAddrs total (rev env)) ++ [0])
                  ++ pushedAddrs (total - sumSizes env) (rev argv)) in *.
  assert (Hlen : Z.of_nat (length addrs)
                 = Z.of_nat (length argv) + Z.of_nat (length env) + 2).
  { unfold addrs. rewrite !length_app. simpl length.
    rewrite <- (length_rev (pushedAddrs total (rev env))).
    rewrite <- (length_rev (pushedAddrs (total - sumSizes env) (rev argv))).
    rewrite !rev_pushedAddrs, !length_addrsFrom. lia. }
  destruct (pushUint64s_spec addrs vm3 _ _ S3) as (vm4 & E4 & S4); [lia|].
  rewrite E4.
  (* argc *)
  rewrite pushUint64_block.
  destruct (pushBlock_spec (le64 (uint64 (Z.of_nat (length argv)))) vm4 _ _ S4)
    as (vm5 & E5 & S5); [change (length (le64 _)) with 8%nat; lia|].
  rewrite E5. change (Z.of_nat (length (le64 _))) with 8 in S5.
  (* sp := vm.Reg[SP]; the deferred vm.Reg[SP] = sp *)
  rewrite (getReg_eq _ _ _ (proj1 S5)).
  destruct (setReg_SP vm5 _ (MemSize p + tableBytes p - MemSize p mod 8
                             - 8 * Z.of_nat (length addrs) - 8) (proj1 S5))
    as (vm6 & E6 & R6 & M6).
  rewrite E6. exists vm6. split; [reflexivity|].
  destruct S5 as (R5 & M5 & P5 & B5).
  assert (Hsp : MemSize p + tableBytes p - MemSize p mod 8
                - 8 * Z.of_nat (length addrs) - 8
                = MemSize p - MemSize p mod 8) by lia.
  assert (Himg : le64 (uint64 (Z.of_nat (length argv)))
                 ++ concat (map le64 (rev addrs))
                 ++ replicate (Z.to_nat (MemSize p mod 8)) 0
                 ++ concat (map cstr argv) ++ concat (map cstr env)
                 = stackImage p).
  { unfold stackImage, pointerTable, argvAddrs, envAddrs. fold argv. fold env.
    rewrite concat_le64_cons, <- app_assoc. do 4 f_equal.
    unfold addrs. rewrite !rev_app_distr. simpl rev.
    rewrite !rev_pushedAddrs.
    replace (total - sumSizes env - sumSizes argv) with (MemSize p + tableBytes p) by lia.
    replace (total - sumSizes env) with (MemSize p + tableBytes p + sumSizes argv) by lia.
    rewrite <- ?app_assoc. reflexivity. }
  rewrite Hsp in *. rewrite Himg in *.
  repeat split; [exact R6 | rewrite M6; exact M5 | lia | exact B5].
Qed.

(** [NewVM] with a stack: the machine it returns. *)
Lemma makeBytes_int n :
  0 <= n < 2 ^ 63 -> makeBytes n = Returns (replicate (Z.to_nat n) 0).
Proof.
  intros H. unfold makeBytes.
  destruct (Z.leb_spec 0 n); [|lia]. destruct (Z.ltb_spec n (2 ^ 63)); [|lia].
  reflexivity.
Qed.

Lemma extraSize_nonneg p : 0 <= extraSize p.
Proof.
  unfold extraSize.
  pose proof (sumSizes_nonneg (elems (Argv p))).
  pose proof (sumSizes_nonneg (elems (Env p))). lia.
Qed.

Lemma NewVM_layout p :
  stackRequested p ->
  0 <= MemSize p ->
  MemSize p + extraSize p < 2 ^ 63 ->
  exists vm,
    NewVM p = Returns vm
    /\ stackAt vm (MemSize p - MemSize p mod 8) (stackImage p).
Proof.
  intros Hreq H0 Hb.
  pose proof (extraSize_nonneg p) as Hex.
  assert (Hb64 : MemSize p + extraSize p < 2 ^ 64) by lia.
  destruct (initStack_layout p H0 Hb64) as (vm & E & S).
  exists vm. split; [|exact S].
  unfold NewVM. rewrite (makeBytes_int (MemSize p)) by lia. cbn [pbind]. cbv zeta.
  rewrite (stackMemSize_eq p H0 Hb64).
  rewrite (makeBytes_int (MemSize p + extraSize p)) by lia. cbn [pbind].
  destruct Hreq as [Hreq | Hreq];
    destruct (Argv p), (Env p); try congruence; rewrite E; reflexivity.
Qed.

Lemma length_pointerTable p :
  Z.of_nat (length (pointerTable p))
  = Z.of_nat (length (elems (Argv p))) + Z.of_nat (length (elems (Env p))) + 3.
Proof.
  unfold pointerTable, argvAddrs, envAddrs.
  rewrite length_cons, !length_app, !length_addrsFrom. cbn [length]. lia.
Qed.

Lemma length_stackImage p :
  Z.of_nat (length (stackImage p))
  = extraSize p + MemSize p mod 8.
Proof.
  unfold stackImage. rewrite !length_app, !Nat2Z.inj_add.
  rewrite length_concat_le64, length_replicate, !length_concat_cstr.
  rewrite length_pointerTable.
  pose proof (Z.mod_pos_bound (MemSize p) 8 ltac:(lia)).
  unfold extraSize. lia.
Qed.

End StackInit.

(** C9.  For every program with non-nil [Argv] or [Env] (whose
    enlarged memory size is an [int], that is below [2 ^ 63], so that
    [make] returns), [NewVM] returns a machine in which: [Reg[SP]] is a
    multiple of 8; the 64-bit word at [Reg[SP]] is [len(Argv)]; the
    words from [Reg[SP] + 8] on are the addresses of the copies of
    [Argv[0..]], a zero word, the addresses of the copies of [Env[0..]],
    a zero word; and each address is that of the first byte of the
    NUL-terminated copy of its string in [Mem]. *)
Theorem C9_initial_stack (p : Prog)
    (Hreq : stackRequested p)
    (Hsize : 0 <= MemSize p)
    (Hfit : MemSize p + extraSize p < 2 ^ 63) :
  exists vm sp,
    NewVM p = Returns vm
    /\ idx (Reg vm) SP = Some sp
    /\ sp mod 8 = 0
    /\ wordAt vm sp (Z.of_nat (length (elems (Argv p))))
    /\ wordsAt vm (sp + 8) (argvAddrs p ++ [0] ++ envAddrs p ++ [0])
    /\ Forall2 (cstringAt (Mem vm)) (argvAddrs p) (elems (Argv p))
    /\ Forall2 (cstringAt (Mem vm)) (envAddrs p) (elems (Env p)).
Proof.
  destruct (NewVM_layout p Hreq Hsize Hfit) as (vm & E & Hsp & Hmem & Hnn & Hb).
  set (sp := MemSize p - MemSize p mod 8) in *.
  pose proof (Z.mod_pos_bound (MemSize p) 8 ltac:(lia)) as Hmod.
  pose proof (Z.div_mod (MemSize p) 8 ltac:(lia)) as Hdm.
  pose proof (sumSizes_nonneg (elems (Argv p))) as Hna.
  pose proof (sumSizes_nonneg (elems (Env p))) as Hne.
  assert (Hargc : 0 <= Z.of_nat (length (elems (Argv p))) < 2 ^ 64)
    by (unfold extraSize in Hfit; lia).
  assert (Hwords : wordsAt vm sp (pointerTable p)).
  { apply (wordsAt_table vm sp (replicate (Z.to_nat sp) 0) (pointerTable p)
             (replicate (Z.to_nat (MemSize p mod 8)) 0
              ++ concat (map cstr (elems (Argv p)))
              ++ concat (map cstr (elems (Env p))))).
    - exact Hmem.
    - rewrite length_replicate. lia.
    - unfold pointerTable. apply Forall_cons. split.
      + unfold uint64. rewrite wrap64_small by lia. lia.
      + rewrite !Forall_app, !Forall_singleton.
        unfold extraSize, tableBytes in *.
        repeat split; try lia.
        * apply Forall_forall. intros a Ha.
          apply addrsFrom_bounds in Ha. unfold tableBytes in Ha. lia.
        * apply Forall_forall. intros a Ha.
          apply addrsFrom_bounds in Ha. unfold tableBytes in Ha. lia.
    - rewrite length_stackImage in Hb. rewrite length_pointerTable.
      unfold extraSize in *. lia. }
  exists vm, sp. split; [exact E|]. split; [exact Hsp|].
  split; [|split; [|split; [|split]]].
  - unfold sp. rewrite Zminus_mod_idemp_r, Z.sub_diag. reflexivity.
  - specialize (Hwords 0%nat _ eq_refl). simpl Z.of_nat in Hwords.
    rewrite Z.mul_0_r, Z.add_0_r in Hwords.
    unfold uint64 in Hwords. rewrite wrap64_small in Hwords by lia. exact Hwords.
  - intros k w Hk. specialize (Hwords (S k) w Hk).
    replace (sp + 8 + 8 * Z.of_nat k) with (sp + 8 * Z.of_nat (S k)) by lia.
    exact Hwords.
  - set (pre := replicate (Z.to_nat sp) 0 ++ concat (map le64 (pointerTable p))
                ++ replicate (Z.to_nat (MemSize p mod 8)) 0).
    assert (Hpre : Z.of_nat (length pre) = MemSize p + tableBytes p).
    { unfold pre. rewrite !length_app, !Nat2Z.inj_add, !length_replicate,
        length_concat_le64, length_pointerTable.
      unfold tableBytes. lia. }
    unfold argvAddrs. rewrite <- Hpre.
    replace (Mem vm) with (pre ++ concat (map cstr (elems (Argv p)))
                               ++ concat (map cstr (elems (Env p)))).
    + apply cstringAt_concat.
    + rewrite Hmem. unfold pre, stackImage. rewrite <- !app_assoc. reflexivity.
  - set (pre := replicate (Z.to_nat sp) 0 ++ concat (map le64 (pointerTable p))
                ++ replicate (Z.to_nat (MemSize p mod 8)) 0
                ++ concat (map cstr (elems (Argv p)))).
    assert (Hpre : Z.of_nat (length pre)
                   = MemSize p + tableBytes p + sumSizes (elems (Argv p))).
    { unfold pre. rewrite !length_app, !Nat2Z.inj_add, !length_replicate,
        length_concat_le64, length_concat_cstr, length_pointerTable.
      unfold tableBytes. lia. }
    unfold envAddrs. rewrite <- Hpre.
    replace (Mem vm) with (pre ++ concat (map cstr (elems (Env p))) ++ []).
    + apply cstringAt_concat.
    + rewrite Hmem. unfold pre, stackImage. rewrite app_nil_r, <- !app_assoc. reflexivity.
Qed.

Lemma C9_initial_stack_witness :
  stackRequested progArgsEnv
  /\ 0 <= MemSize progArgsEnv
  /\ MemSize progArgsEnv + extraSize progArgsEnv < 2 ^ 63
  /\ exists vm sp,
       NewVM progArgsEnv = Returns vm
       /\ idx (Reg vm) SP = Some sp
       /\ sp mod 8 = 0
       /\ wordAt vm sp 2
       /\ wordsAt vm (sp + 8) (argvAddrs progArgsEnv ++ [0] ++ envAddrs progArgsEnv ++ [0])
       /\ Forall2 (cstringAt (Mem vm)) (argvAddrs progArgsEnv) ["a"%string; "hi"%string]
       /\ Forall2 (cstringAt (Mem vm)) (envAddrs progArgsEnv) ["X=1"%string].
Proof.
  assert (Hreq : stackRequested progArgsEnv) by (left; discriminate).
  assert (Hsize : 0 <= MemSize progArgsEnv) by (vm_compute; discriminate).
  assert (Hfit : MemSize progArgsEnv + extraSize progArgsEnv < 2 ^ 63)
    by (vm_compute; reflexivity).
  split; [exact Hreq|]. split; [exact Hsize|]. split; [exact Hfit|].
  exact (C9_initial_stack progArgsEnv Hreq Hsize Hfit).
Defined.

(** The machine [NewVM] returns for two arguments and one environment
    string with [MemSize = 19]: the stack pointer is 16, and memory from
    16 on holds argc, the three pointers with their nulls, three bytes
    of padding and the strings. *)
Example NewVM_progArgsEnv :
  exists vm,
    NewVM progArgsEnv = Returns vm
    /\ idx (Reg vm) SP = Some 16
    /\ argvAddrs progArgsEnv = [67; 69]
    /\ envAddrs progArgsEnv = [72]
    /\ drop 16 (Mem vm)
       = [2; 0; 0; 0; 0; 0; 0; 0;   67; 0; 0; 0; 0; 0; 0; 0;
          69; 0; 0; 0; 0; 0; 0; 0;  0; 0; 0; 0; 0; 0; 0; 0;
          72; 0; 0; 0; 0; 0; 0; 0;  0; 0; 0; 0; 0; 0; 0; 0;
          0; 0; 0;
          97; 0;  104; 105; 0;  88; 61; 49; 0].
Proof. eexists. compute_conj. Qed.

(** ** C10: the enlarged memory *)

(** C10, as amended.  For every program with non-nil [Argv] or [Env]
    (whose enlarged memory size is an [int], that is below [2 ^ 63], so
    that [make] returns), the memory [NewVM] allocates has
    [MemSize] plus, for every argv and env string, its length + 1, plus
    [8 * (len(Argv) + len(Env) + 3)] bytes, strictly more than
    [MemSize]; the strings and the pointer table are laid out
    downwards from this enlarged top, so that memory is zero below the
    returned [Reg[SP]] and holds the stack from there to its top; and
    the returned [Reg[SP]] is [MemSize] rounded down to a multiple of 8:
    at most 7 bytes below the requested [MemSize], and more than 16
    bytes below the enlarged size. *)
Theorem C10_enlarged_memory (p : Prog)
    (Hreq : stackRequested p)
    (Hsize : 0 <= MemSize p)
    (Hfit : MemSize p + extraSize p < 2 ^ 63) :
  exists vm sp,
    NewVM p = Returns vm
    /\ Z.of_nat (length (Mem vm))
       = MemSize p
         + (sumSizes (elems (Env p)) + sumSizes (elems (Argv p))
            + 8 * (Z.of_nat (length (elems (Argv p)))
                   + Z.of_nat (length (elems (Env p))) + 3))
    /\ MemSize p < Z.of_nat (length (Mem vm))
    /\ idx (Reg vm) SP = Some sp
    /\ sp = MemSize p - MemSize p mod 8
    /\ MemSize p - 7 <= sp <= MemSize p
    /\ sp + 16 < Z.of_nat (length (Mem vm))
    /\ Mem vm = replicate (Z.to_nat sp) 0 ++ stackImage p.
Proof.
  destruct (NewVM_layout p Hreq Hsize Hfit) as (vm & E & Hsp & Hmem & Hnn & Hb).
  pose proof (Z.mod_pos_bound (MemSize p) 8 ltac:(lia)) as Hmod.
  pose proof (sumSizes_nonneg (elems (Argv p))) as Hna.
  pose proof (sumSizes_nonneg (elems (Env p))) as Hne.
  assert (Hlen : Z.of_nat (length (Mem vm)) = MemSize p + extraSize p).
  { rewrite Hmem, length_app, Nat2Z.inj_add, length_replicate, length_stackImage. lia. }
  exists vm, (MemSize p - MemSize p mod 8).
  split; [exact E|]. split; [exact Hlen|].
  unfold extraSize in Hlen |- *.
  split; [lia|].
  split; [exact Hsp|]. split; [reflexivity|]. split; [lia|]. split; [lia|].
  exact Hmem.
Qed.

Lemma C10_enlarged_memory_witness :
  stackRequested progOneArg
  /\ 0 <= MemSize progOneArg
  /\ MemSize progOneArg + extraSize progOneArg < 2 ^ 63
  /\ exists vm sp,
       NewVM progOneArg = Returns vm
       /\ Z.of_nat (length (Mem vm)) = 16 + (0 + 2 + 8 * (1 + 0 + 3))
       /\ idx (Reg vm) SP = Some sp
       /\ sp = 16.
Proof.
  assert (Hreq : stackRequested progOneArg) by (left; discriminate).
  assert (Hsize : 0 <= MemSize progOneArg) by (vm_compute; discriminate).
  assert (Hfit : MemSize progOneArg + extraSize progOneArg < 2 ^ 63)
    by (vm_compute; reflexivity).
  split; [exact Hreq|]. split; [exact Hsize|]. split; [exact Hfit|].
  destruct (C10_enlarged_memory progOneArg Hreq Hsize Hfit)
    as (vm & sp & E & Hlen & _ & Hsp & Hval & _).
  exists vm, sp. split; [exact E|]. split; [exact Hlen|]. split; [exact Hsp|].
  exact Hval.
Defined.

(** A memory size that is not an [int]: the first [make] of [NewVM]
    panics, whatever the arguments. *)
Lemma NewVM_size_not_int (p : Prog) :
  2 ^ 63 <= MemSize p -> NewVM p = Panics "makeslice: len out of range".
Proof.
  intros H. unfold NewVM, makeBytes.
  destruct (Z.ltb_spec (MemSize p) (2 ^ 63)); [lia|].
  rewrite andb_false_r. reflexivity.
Qed.

(** C10 as stated fails: for one argument ["a"] and [MemSize = 16] the
    memory has 50 bytes and the returned stack pointer is 16, which is
    34 bytes below the enlarged size. *)
Lemma C10_sp_not_near_enlarged_top : ~ spNearEnlargedTop progOneArg.
Proof.
  intros H.
  assert (Hvm : exists vm, NewVM progOneArg = Returns vm
                           /\ idx (Reg vm) SP = Some 16)
    by (eexists; split; vm_compute; reflexivity).
  destruct Hvm as (vm & E & Hsp).
  destruct (H vm E) as (sp & Hsp' & Hnear).
  rewrite Hsp in Hsp'. injection Hsp' as <-.
  vm_compute in Hnear. destruct Hnear as [Hlo _]. apply Hlo. reflexivity.
Qed.


(** * Further properties of the interpreter *)

Ltac by_compute :=
  vm_compute; repeat split; first [reflexivity | discriminate | intro; discriminate].

(** ** sign.go *)

Lemma int64_signed v : int64 v = signed 64 v.
Proof. reflexivity. Qed.

Lemma pow2_le_mono a b : 0 <= a <= b -> 2 ^ a <= 2 ^ b.
Proof. intros. apply Z.pow_le_mono_r; lia. Qed.

(** The value [signExtend] returns on an operand of [bit + 1] bits, as
    an equation: the operand, or the operand with all the bits from
    [bit + 1] to 63 set. *)
Lemma signExtend_value v bit :
  0 <= bit < 32 -> 0 <= v < 2 ^ (bit + 1) ->
  signExtend v bit
  = Some (if 2 ^ bit <=? v then v - 2 ^ (bit + 1) + 2 ^ 64 else v).
Proof.
  intros Hb Hv.
  rewrite signExtend_sxSpec by lia. f_equal.
  apply sxSpec_value; [lia | lia |].
  apply pow2_le_mono. lia.
Qed.

Lemma signExtend_int64 (v bit : Z) :
  0 <= bit < 32 -> 0 <= v < 2 ^ (bit + 1) ->
  exists r, signExtend v bit = Some r
            /\ 0 <= r < 2 ^ 64
            /\ int64 r = signed (bit + 1) v.
Proof.
  intros Hb Hv. rewrite signExtend_value by lia.
  assert (Hp1 : 2 ^ (bit + 1) = 2 * 2 ^ bit) by (rewrite Z.pow_add_r by lia; lia).
  assert (Hp : 0 < 2 ^ bit) by (apply Z.pow_pos_nonneg; lia).
  assert (Hle : 2 ^ bit <= 2 ^ 31) by (apply pow2_le_mono; lia).
  eexists. split; [reflexivity|].
  unfold int64, signed. cbv zeta.
  replace (bit + 1 - 1) with bit by lia.
  rewrite (Z.mod_small v (2 ^ (bit + 1))) by lia.
  destruct (Z.leb_spec (2 ^ bit) v) as [Hs|Hs].
  - split; [lia|].
    rewrite Z.mod_small by lia.
    destruct (Z.ltb_spec (v - 2 ^ (bit + 1) + 2 ^ 64) (2 ^ 63)); [lia|].
    destruct (Z.ltb_spec v (2 ^ bit)); lia.
  - split; [lia|].
    rewrite Z.mod_small by lia.
    destruct (Z.ltb_spec v (2 ^ 63)); [|lia].
    destruct (Z.ltb_spec v (2 ^ bit)); lia.
Qed.

(** [signExtend(v, bit)] on an operand that fits in [bit + 1] bits: the
    64-bit word it returns, read as a signed number, is the operand read
    as a signed number of [bit + 1] bits. *)
Theorem signExtend_twos_complement (v bit : Z) :
  0 <= bit < 32 -> 0 <= v < 2 ^ (bit + 1) ->
  exists r, signExtend v bit = Some r
            /\ 0 <= r < 2 ^ 64
            /\ int64 r = signed (bit + 1) v.
Proof. intros; eapply signExtend_int64; eassumption. Qed.

Lemma signExtend_twos_complement_witness :
  0 <= 11 < 32 /\ 0 <= 0xff8 < 2 ^ (11 + 1)
  /\ exists r, signExtend 0xff8 11 = Some r
               /\ 0 <= r < 2 ^ 64
               /\ int64 r = signed (11 + 1) 0xff8.
Proof.
  split; [lia|]. split; [by_compute|].
  apply signExtend_twos_complement; [lia | by_compute].
Defined.

Lemma signExtend_None_iff (v bit : Z) :
  signExtend v bit = None <-> bit < 0 \/ 32 <= bit.
Proof.
  unfold signExtend.
  destruct (Z.ltb_spec bit 0) as [Hn|Hn].
  - split; [intros _; lia | reflexivity].
  - destruct (signBits !! Z.to_nat bit) as [[sb ones]|] eqn:E.
    + split; [discriminate|]. intros [H|H]; [lia|].
      apply lookup_lt_Some in E. change (length signBits) with 32%nat in E. lia.
    + split; [|reflexivity]. intros _.
      apply lookup_ge_None in E. change (length signBits) with 32%nat in E. lia.
Qed.

(** [signExtend] panics (the index [bit] is out of the range of
    [signBits]) exactly when [bit] is negative or at least 32. *)
Theorem signExtend_panics_iff (v bit : Z) :
  signExtend v bit = None <-> bit < 0 \/ 32 <= bit.
Proof. apply signExtend_None_iff. Qed.


(** ** Running a handler by hand *)

Lemma bind_val {A B} (m : M A) (k : A -> M B) vm a vm' :
  m vm = Val a vm' -> bind m k vm = k a vm'.
Proof. intros H. unfold bind. rewrite H. reflexivity. Qed.

Lemma bind_panic {A B} (m : M A) (k : A -> M B) vm msg :
  m vm = Panic msg -> bind m k vm = Panic msg.
Proof. intros H. unfold bind. rewrite H. reflexivity. Qed.

Lemma isU64_range x : isU64 x = true <-> 0 <= x < 2 ^ 64.
Proof. unfold isU64. rewrite andb_true_iff, Z.leb_le, Z.ltb_lt. reflexivity. Qed.

Lemma isByte_range x : isByte x = true <-> 0 <= x < 2 ^ 8.
Proof. unfold isByte. rewrite andb_true_iff, Z.leb_le, Z.ltb_lt. reflexivity. Qed.

Lemma idx_In {A} (l : list A) i v : idx l i = Some v -> In v l.
Proof.
  unfold idx. destruct (i <? 0); [discriminate|].
  intros H. apply list_elem_of_In. eapply list_elem_of_lookup_2, H.
Qed.

Lemma idx_Some {A} (l : list A) i :
  0 <= i < Z.of_nat (length l) -> exists v, idx l i = Some v.
Proof.
  intros H. rewrite idx_lookup by lia.
  apply lookup_lt_is_Some_2. lia.
Qed.

Lemma idx_None {A} (l : list A) i :
  i < 0 \/ Z.of_nat (length l) <= i -> idx l i = None.
Proof.
  intros H. unfold idx. destruct (Z.ltb_spec i 0); [reflexivity|].
  apply lookup_ge_None. lia.
Qed.

Lemma idx_bound {A} (l : list A) i v :
  idx l i = Some v -> 0 <= i < Z.of_nat (length l).
Proof.
  unfold idx. destruct (Z.ltb_spec i 0); [discriminate|].
  intros Hl. apply lookup_lt_Some in Hl. lia.
Qed.

(** What [wfVM] says, unpacked. *)
Lemma wfVM_facts vm :
  wfVM vm = true ->
  Z.of_nat (length (Reg vm)) = 32
  /\ Z.of_nat (length (CSR vm)) = 2048
  /\ (forall i v, idx (Reg vm) i = Some v -> 0 <= v < 2 ^ 64)
  /\ (forall i v, idx (CSR vm) i = Some v -> 0 <= v < 2 ^ 64)
  /\ (forall a b, idx (Mem vm) a = Some b -> 0 <= b < 2 ^ 8)
  /\ 0 <= PC vm < 2 ^ 64
  /\ Z.of_nat (length (Mem vm)) < 2 ^ 63.
Proof.
  unfold wfVM. rewrite !andb_true_iff, !Z.eqb_eq, Z.ltb_lt, isU64_range.
  intros ((((((HR & HC) & FR) & FC) & FM) & HP) & HL).
  rewrite forallb_forall in FR, FC, FM.
  repeat split; try assumption; try lia.
  - apply isU64_range, FR. eapply idx_In; eassumption.
  - apply isU64_range, FR. eapply idx_In; eassumption.
  - apply isU64_range, FC. eapply idx_In; eassumption.
  - apply isU64_range, FC. eapply idx_In; eassumption.
  - apply isByte_range, FM. eapply idx_In; eassumption.
  - apply isByte_range, FM. eapply idx_In; eassumption.
Qed.

Lemma store_stored vm rd v :
  0 <= rd < Z.of_nat (length (Reg vm)) ->
  store rd v vm = Val tt (stored vm rd v).
Proof.
  intros H. unfold store, stored.
  destruct (Z.eqb_spec rd 0); [reflexivity|].
  unfold setReg. rewrite upd_eq by lia. reflexivity.
Qed.

Lemma sx_val v bit r vm : signExtend v bit = Some r -> sx v bit vm = Val r vm.
Proof. intros H. unfold sx. rewrite H. reflexivity. Qed.

Lemma getCSR_eq vm i v : idx (CSR vm) i = Some v -> getCSR i vm = Val v vm.
Proof. intros H. unfold getCSR. rewrite H. reflexivity. Qed.

Lemma getMem_eq vm a v : idx (Mem vm) a = Some v -> getMem a vm = Val v vm.
Proof. intros H. unfold getMem. rewrite H. reflexivity. Qed.

(** A register-register handler, run: the two sources are read and the
    result is stored. *)
Lemma rrOp_run f i vm a b :
  idx (Reg vm) (rs1 i) = Some a ->
  idx (Reg vm) (rs2 i) = Some b ->
  0 <= rd i < Z.of_nat (length (Reg vm)) ->
  rrOp f i vm = Val (flags0, None) (stored vm (rd i) (f a b)).
Proof.
  intros Ha Hb Hrd. unfold rrOp.
  rewrite (bind_val _ _ _ _ _ (getReg_eq _ _ _ Ha)).
  rewrite (bind_val _ _ _ _ _ (getReg_eq _ _ _ Hb)).
  rewrite (bind_val _ _ _ _ _ (store_stored _ _ _ Hrd)).
  reflexivity.
Qed.

(** ** Multiplication *)

Lemma int64_mod z : int64 z mod 2 ^ 64 = z mod 2 ^ 64.
Proof. apply wrap64_int64. Qed.

Lemma mul_low_word a b :
  uint64 (imul64 (int64 a) (int64 b)) = (a * b) mod 2 ^ 64.
Proof.
  unfold uint64, imul64. rewrite wrap64_int64. unfold wrap64.
  rewrite Zmult_mod, !int64_mod, <- Zmult_mod. reflexivity.
Qed.

(** [mul] and [mulhu] between them hold the whole 128-bit product of
    the two source registers read as unsigned numbers: [mul] writes its
    low 64 bits and [mulhu] its high 64 bits. *)
Theorem mul_mulhu_full_product (i : Instruction) (vm : VM) (a b : Z) :
  wfVM vm = true ->
  idx (Reg vm) (rs1 i) = Some a ->
  idx (Reg vm) (rs2 i) = Some b ->
  0 <= rd i < 32 ->
  exists lo hi,
    mul i vm = Val (flags0, None) (stored vm (rd i) lo)
    /\ mulhu i vm = Val (flags0, None) (stored vm (rd i) hi)
    /\ 0 <= lo < 2 ^ 64 /\ 0 <= hi < 2 ^ 64
    /\ hi * 2 ^ 64 + lo = a * b.
Proof.
  intros Hwf Ha Hb Hrd.
  destruct (wfVM_facts vm Hwf) as (HR & _ & FR & _).
  pose proof (FR _ _ Ha) as Ba. pose proof (FR _ _ Hb) as Bb.
  assert (Hrd' : 0 <= rd i < Z.of_nat (length (Reg vm))) by lia.
  exists ((a * b) mod 2 ^ 64), ((a * b) / 2 ^ 64).
  split; [|split].
  - unfold mul. rewrite (rrOp_run _ i vm a b) by (assumption || lia).
    rewrite mul_low_word. reflexivity.
  - unfold mulhu.
    rewrite (bind_val _ _ _ _ _ (getReg_eq _ _ _ Ha)).
    rewrite (bind_val _ _ _ _ _ (getReg_eq _ _ _ Hb)).
    rewrite (bind_val _ _ _ _ _ (store_stored _ _ _ Hrd')).
    rewrite partialProducts_high by lia. reflexivity.
  - pose proof (Z.mod_pos_bound (a * b) (2 ^ 64) ltac:(lia)).
    pose proof (Z.div_mod (a * b) (2 ^ 64) ltac:(lia)).
    assert (0 <= a * b < 2 ^ 64 * 2 ^ 64) by nia.
    assert (0 <= a * b / 2 ^ 64 < 2 ^ 64).
    { split; [apply Z.div_pos; lia | apply Z.div_lt_upper_bound; lia]. }
    lia.
Qed.

(** ** Division and remainder *)

Lemma int64_small z : - 2 ^ 63 <= z < 2 ^ 63 -> int64 z = z.
Proof.
  intros H. unfold int64. cbv zeta.
  destruct (Z.ltb_spec 0 (z + 1)) as [Hp|Hn].
  - rewrite Z.mod_small by lia. destruct (Z.ltb_spec z (2 ^ 63)); lia.
  - replace (z mod 2 ^ 64) with (z + 2 ^ 64).
    + destruct (Z.ltb_spec (z + 2 ^ 64) (2 ^ 63)); lia.
    + symmetry. rewrite <- (Z_mod_plus_full z 1 (2 ^ 64)).
      apply Z.mod_small. lia.
Qed.

Lemma int64_of_u64 a : 0 <= a < 2 ^ 64 -> wrap64 (int64 a) = a.
Proof. intros H. rewrite wrap64_int64. apply wrap64_small, H. Qed.

Lemma int64_zero_iff a : 0 <= a < 2 ^ 64 -> int64 a = 0 <-> a = 0.
Proof.
  intros H. unfold int64. cbv zeta. rewrite Z.mod_small by lia.
  destruct (Z.ltb_spec a (2 ^ 63)); lia.
Qed.

Lemma wrap64_range z : 0 <= wrap64 z < 2 ^ 64.
Proof. unfold wrap64. apply Z.mod_pos_bound. lia. Qed.

Lemma int32_range z : - 2 ^ 31 <= int32 z < 2 ^ 31.
Proof.
  unfold int32. cbv zeta.
  pose proof (Z.mod_pos_bound z (2 ^ 32) ltac:(lia)).
  destruct (Z.ltb_spec (z mod 2 ^ 32) (2 ^ 31)); lia.
Qed.

Lemma uint32_range z : 0 <= uint32 z < 2 ^ 32.
Proof. unfold uint32. apply Z.mod_pos_bound. lia. Qed.

(** A value of 32 bits sign-extended from bit 31 is the 64-bit image
    of the [int32] it spells. *)
Lemma signExtend_u32 v :
  0 <= v < 2 ^ 32 -> signExtend v 31 = Some (uint64 (int32 v)).
Proof.
  intros Hv. rewrite signExtend_value by (change (31 + 1) with 32; lia).
  f_equal. change (31 + 1) with 32.
  unfold uint64, wrap64, int32. cbv zeta. rewrite (Z.mod_small v) by lia.
  destruct (Z.leb_spec (2 ^ 31) v); destruct (Z.ltb_spec v (2 ^ 31)); try lia.
  - rewrite <- (Z_mod_plus_full (v - 2 ^ 32) 1 (2 ^ 64)).
    rewrite Z.mod_small; lia.
  - rewrite Z.mod_small; lia.
Qed.

Lemma testbit_ge_pow2 v n :
  0 <= n -> 2 ^ n <= v < 2 ^ (n + 1) -> Z.testbit v n = true.
Proof.
  intros Hn Hv. rewrite testbit_top by lia.
  apply Z.leb_le. lia.
Qed.

(** The 64-bit image of an [int32] is unchanged by sign extension from
    bit 31. *)
Lemma signExtend_int32 x :
  signExtend (uint64 (int32 x)) 31 = Some (uint64 (int32 x)).
Proof.
  pose proof (int32_range x) as Hx.
  unfold signExtend.
  change (31 <? 0) with false. cbv iota.
  change (signBits !! Z.to_nat 31) with (Some (2 ^ 31, 2 ^ 64 - 2 ^ 31)). cbv beta iota.
  rewrite land_pow2 by lia.
  destruct (Z.testbit (uint64 (int32 x)) 31) eqn:Hbit;
    [|rewrite Z.eqb_refl; reflexivity].
  change (2 ^ 31 =? 0) with false. cbv iota. f_equal.
  destruct (Z.ltb_spec (int32 x) 0) as [Hneg|Hpos].
  - assert (Ev : uint64 (int32 x) = (2 ^ 64 - 2 ^ 31) + (int32 x + 2 ^ 31)).
    { unfold uint64, wrap64.
      rewrite <- (Z_mod_plus_full (int32 x) 1 (2 ^ 64)).
      rewrite Z.mod_small; lia. }
    set (w := int32 x + 2 ^ 31) in *.
    assert (Hw : 0 <= w < 2 ^ 31) by lia.
    assert (Hdisj : Z.land (2 ^ 64 - 2 ^ 31) w = 0).
    { apply Z.bits_inj'. intros m Hm. rewrite Z.land_spec, Z.bits_0.
      destruct (Z.ltb_spec m 31).
      - rewrite (high_mask 31) by lia.
        rewrite Z.shiftl_spec_low by lia. reflexivity.
      - replace (Z.testbit w m) with false; [apply andb_false_r|].
        symmetry. rewrite <- (Z.mod_small w (2 ^ 31)) by lia.
        apply Z.mod_pow2_bits_high. lia. }
    pose proof (Z.add_lor_land (2 ^ 64 - 2 ^ 31) w) as Hsum.
    rewrite Hdisj, Z.add_0_r in Hsum.
    rewrite Ev, <- Hsum.
    rewrite (Z.lor_comm (Z.lor _ w)), Z.lor_assoc, Z.lor_diag. reflexivity.
  - exfalso.
    assert (Ev : uint64 (int32 x) = int32 x)
      by (unfold uint64; apply wrap64_small; lia).
    rewrite Ev in Hbit.
    rewrite testbit_above in Hbit by lia. discriminate.
Qed.

Lemma canonical32_int32 x : canonical32 (uint64 (int32 x)).
Proof.
  unfold canonical32. f_equal.
  pose proof (int32_range x) as Hx.
  unfold uint64, wrap64.
  unfold int32 at 2. cbv zeta.
  assert (E : (int32 x mod 2 ^ 64) mod 2 ^ 32 = int32 x mod 2 ^ 32).
  { change (2 ^ 64) with (2 ^ 32 * 2 ^ 32).
    rewrite Z.rem_mul_r by lia.
    rewrite Z.mul_comm, Z_mod_plus_full. apply Z.mod_mod. lia. }
  rewrite E.
  unfold int32. cbv zeta.
  destruct (Z.ltb_spec (x mod 2 ^ 32) (2 ^ 31)) as [Hl|Hl].
  - rewrite Z.mod_mod by lia.
    destruct (Z.ltb_spec (x mod 2 ^ 32) (2 ^ 31)); [reflexivity | lia].
  - pose proof (Z.mod_pos_bound x (2 ^ 32) ltac:(lia)).
    replace ((x mod 2 ^ 32 - 2 ^ 32) mod 2 ^ 32) with (x mod 2 ^ 32).
    + destruct (Z.ltb_spec (x mod 2 ^ 32) (2 ^ 31)); [lia | reflexivity].
    + symmetry.
      rewrite <- (Z_mod_plus_full (x mod 2 ^ 32 - 2 ^ 32) 1 (2 ^ 32)).
      replace (x mod 2 ^ 32 - 2 ^ 32 + 1 * 2 ^ 32) with (x mod 2 ^ 32) by lia.
      apply Z.mod_mod. lia.
Qed.

(** The values the six handlers that cannot trap write, from the
    operands [a] (rs1) and [b] (rs2). *)
Lemma div_run i vm a b :
  wfVM vm = true ->
  idx (Reg vm) (rs1 i) = Some a -> idx (Reg vm) (rs2 i) = Some b ->
  0 <= rd i < 32 ->
  div i vm = Val (flags0, None)
    (stored vm (rd i)
       (if b =? 0 then MaxUint64 else uint64 (int64 (Z.quot (int64 a) (int64 b))))).
Proof.
  intros Hwf Ha Hb Hrd.
  destruct (wfVM_facts vm Hwf) as (HR & _ & FR & _).
  pose proof (FR _ _ Hb) as Bb.
  assert (Hrd' : 0 <= rd i < Z.of_nat (length (Reg vm))) by lia.
  unfold div, bind. rewrite (getReg_eq _ _ _ Hb). cbv beta iota.
  destruct (Z.eqb_spec b 0) as [->|Hnz].
  - rewrite (store_stored _ _ _ Hrd'). reflexivity.
  - rewrite (getReg_eq _ _ _ Ha). cbv beta iota.
    unfold divGo.
    destruct (Z.eqb_spec (int64 b) 0) as [E|_];
      [exfalso; apply Hnz, (proj1 (int64_zero_iff b Bb) E)|].
    unfold ret. rewrite (store_stored _ _ _ Hrd'). reflexivity.
Qed.

Lemma rem_run i vm a b :
  wfVM vm = true ->
  idx (Reg vm) (rs1 i) = Some a -> idx (Reg vm) (rs2 i) = Some b ->
  0 <= rd i < 32 ->
  rem i vm = Val (flags0, None)
    (stored vm (rd i)
       (if b =? 0 then a else uint64 (int64 (Z.rem (int64 a) (int64 b))))).
Proof.
  intros Hwf Ha Hb Hrd.
  destruct (wfVM_facts vm Hwf) as (HR & _ & FR & _).
  pose proof (FR _ _ Hb) as Bb.
  assert (Hrd' : 0 <= rd i < Z.of_nat (length (Reg vm))) by lia.
  unfold rem, bind. rewrite (getReg_eq _ _ _ Hb). cbv beta iota.
  destruct (Z.eqb_spec b 0) as [->|Hnz].
  - rewrite (getReg_eq _ _ _ Ha). cbv beta iota.
    rewrite (store_stored _ _ _ Hrd'). reflexivity.
  - rewrite (getReg_eq _ _ _ Ha). cbv beta iota.
    unfold remGo.
    destruct (Z.eqb_spec (int64 b) 0) as [E|_];
      [exfalso; apply Hnz, (proj1 (int64_zero_iff b Bb) E)|].
    unfold ret. rewrite (store_stored _ _ _ Hrd'). reflexivity.
Qed.

Lemma divu_run i vm a b :
  wfVM vm = true ->
  idx (Reg vm) (rs1 i) = Some a -> idx (Reg vm) (rs2 i) = Some b ->
  0 <= rd i < 32 ->
  divu i vm = Val (flags0, None)
    (stored vm (rd i) (if b =? 0 then MaxUint64 else Z.quot a b)).
Proof.
  intros Hwf Ha Hb Hrd.
  destruct (wfVM_facts vm Hwf) as (HR & _ & FR & _).
  assert (Hrd' : 0 <= rd i < Z.of_nat (length (Reg vm))) by lia.
  unfold divu, bind. rewrite (getReg_eq _ _ _ Hb). cbv beta iota.
  destruct (Z.eqb_spec b 0) as [->|Hnz].
  - rewrite (store_stored _ _ _ Hrd'). reflexivity.
  - rewrite (getReg_eq _ _ _ Ha). cbv beta iota.
    unfold divGo. destruct (Z.eqb_spec b 0); [contradiction|].
    unfold ret. rewrite (store_stored _ _ _ Hrd'). reflexivity.
Qed.

Lemma remu_run i vm a b :
  wfVM vm = true ->
  idx (Reg vm) (rs1 i) = Some a -> idx (Reg vm) (rs2 i) = Some b ->
  0 <= rd i < 32 ->
  remu i vm = Val (flags0, None)
    (stored vm (rd i) (if b =? 0 then a else Z.rem a b)).
Proof.
  intros Hwf Ha Hb Hrd.
  destruct (wfVM_facts vm Hwf) as (HR & _ & FR & _).
  assert (Hrd' : 0 <= rd i < Z.of_nat (length (Reg vm))) by lia.
  unfold remu, bind. rewrite (getReg_eq _ _ _ Hb). cbv beta iota.
  destruct (Z.eqb_spec b 0) as [->|Hnz].
  - rewrite (getReg_eq _ _ _ Ha). cbv beta iota.
    rewrite (store_stored _ _ _ Hrd'). reflexivity.
  - rewrite (getReg_eq _ _ _ Ha). cbv beta iota.
    unfold remGo. destruct (Z.eqb_spec b 0); [contradiction|].
    unfold ret. rewrite (store_stored _ _ _ Hrd'). reflexivity.
Qed.

Lemma divw_run i vm a b :
  wfVM vm = true ->
  idx (Reg vm) (rs1 i) = Some a -> idx (Reg vm) (rs2 i) = Some b ->
  0 <= rd i < 32 ->
  divw i vm = Val (flags0, None)
    (stored vm (rd i)
       (if int32 b =? 0 then MaxUint64
        else uint64 (int32 (Z.quot (int32 a) (int32 b))))).
Proof.
  intros Hwf Ha Hb Hrd.
  destruct (wfVM_facts vm Hwf) as (HR & _ & FR & _).
  assert (Hrd' : 0 <= rd i < Z.of_nat (length (Reg vm))) by lia.
  unfold divw, bind. rewrite (getReg_eq _ _ _ Hb). cbv beta iota.
  destruct (Z.eqb_spec (int32 b) 0) as [E|Hnz].
  - rewrite (store_stored _ _ _ Hrd'). reflexivity.
  - rewrite (getReg_eq _ _ _ Ha). cbv beta iota.
    unfold divGo. destruct (Z.eqb_spec (int32 b) 0); [contradiction|].
    unfold ret. rewrite (sx_val _ _ _ _ (signExtend_int32 _)).
    rewrite (store_stored _ _ _ Hrd'). reflexivity.
Qed.

Lemma divuw_run i vm a b :
  wfVM vm = true ->
  idx (Reg vm) (rs1 i) = Some a -> idx (Reg vm) (rs2 i) = Some b ->
  0 <= rd i < 32 ->
  divuw i vm = Val (flags0, None)
    (stored vm (rd i)
       (if uint32 b =? 0 then MaxUint64
        else uint64 (int32 (Z.quot (uint32 a) (uint32 b))))).
Proof.
  intros Hwf Ha Hb Hrd.
  destruct (wfVM_facts vm Hwf) as (HR & _ & FR & _).
  assert (Hrd' : 0 <= rd i < Z.of_nat (length (Reg vm))) by lia.
  unfold divuw, bind. rewrite (getReg_eq _ _ _ Hb). cbv beta iota.
  destruct (Z.eqb_spec (uint32 b) 0) as [E|Hnz].
  - rewrite (store_stored _ _ _ Hrd'). reflexivity.
  - rewrite (getReg_eq _ _ _ Ha). cbv beta iota.
    unfold divGo. destruct (Z.eqb_spec (uint32 b) 0); [contradiction|].
    unfold ret.
    pose proof (uint32_range a) as Ba. pose proof (uint32_range b) as Bb.
    assert (Bq : 0 <= Z.quot (uint32 a) (uint32 b) < 2 ^ 32).
    { rewrite Z.quot_div_nonneg by lia.
      split; [apply Z.div_pos; lia|].
      apply Z.div_lt_upper_bound; nia. }
    unfold uint64 at 1. rewrite wrap64_small by lia.
    rewrite (sx_val _ _ _ _ (signExtend_u32 _ Bq)).
    rewrite (store_stored _ _ _ Hrd'). reflexivity.
Qed.

(** [div], [divu], [rem], [remu], [divw] and [divuw] never trap: on
    every machine, whatever the operands (a zero divisor and the
    overflowing quotient of the most negative number by -1 included),
    they return without an error, having at most stored a value in
    [rd]. *)
Theorem division_never_traps (hostWrite : Z -> list Z -> Z) (f : fnptr)
    (i : Instruction) (vm : VM) :
  In f [fn_div; fn_divu; fn_rem; fn_remu; fn_divw; fn_divuw] ->
  wfVM vm = true ->
  0 <= rs1 i < 32 -> 0 <= rs2 i < 32 -> 0 <= rd i < 32 ->
  exists v, call hostWrite f i vm = Val (flags0, None) (stored vm (rd i) v).
Proof.
  intros Hf Hwf H1 H2 Hrd.
  destruct (wfVM_facts vm Hwf) as (HR & _).
  destruct (idx_Some (Reg vm) (rs1 i) ltac:(lia)) as (a & Ha).
  destruct (idx_Some (Reg vm) (rs2 i) ltac:(lia)) as (b & Hb).
  cbn [In] in Hf.
  destruct Hf as [<-|[<-|[<-|[<-|[<-|[<-|[]]]]]]]; cbn [call]; eexists.
  - apply (div_run i vm a b); assumption.
  - apply (divu_run i vm a b); assumption.
  - apply (rem_run i vm a b); assumption.
  - apply (remu_run i vm a b); assumption.
  - apply (divw_run i vm a b); assumption.
  - apply (divuw_run i vm a b); assumption.
Qed.

(** Division by zero: the quotient is all ones and the remainder is the
    dividend. *)
Theorem division_by_zero (i : Instruction) (vm : VM) (a : Z) :
  wfVM vm = true ->
  idx (Reg vm) (rs1 i) = Some a ->
  idx (Reg vm) (rs2 i) = Some 0 ->
  0 <= rd i < 32 ->
  div i vm = Val (flags0, None) (stored vm (rd i) MaxUint64)
  /\ divu i vm = Val (flags0, None) (stored vm (rd i) MaxUint64)
  /\ divw i vm = Val (flags0, None) (stored vm (rd i) MaxUint64)
  /\ divuw i vm = Val (flags0, None) (stored vm (rd i) MaxUint64)
  /\ rem i vm = Val (flags0, None) (stored vm (rd i) a)
  /\ remu i vm = Val (flags0, None) (stored vm (rd i) a).
Proof.
  intros Hwf Ha Hb Hrd.
  split; [exact (div_run i vm a 0 Hwf Ha Hb Hrd)|].
  split; [exact (divu_run i vm a 0 Hwf Ha Hb Hrd)|].
  split; [exact (divw_run i vm a 0 Hwf Ha Hb Hrd)|].
  split; [exact (divuw_run i vm a 0 Hwf Ha Hb Hrd)|].
  split; [exact (rem_run i vm a 0 Hwf Ha Hb Hrd)|].
  exact (remu_run i vm a 0 Hwf Ha Hb Hrd).
Qed.

(** [divu] and [remu] with a divisor that is not zero: quotient and
    remainder of the two registers read as unsigned numbers. *)
Theorem divu_remu_identity (i : Instruction) (vm : VM) (a b : Z) :
  wfVM vm = true ->
  idx (Reg vm) (rs1 i) = Some a ->
  idx (Reg vm) (rs2 i) = Some b ->
  b <> 0 ->
  0 <= rd i < 32 ->
  exists q r,
    divu i vm = Val (flags0, None) (stored vm (rd i) q)
    /\ remu i vm = Val (flags0, None) (stored vm (rd i) r)
    /\ a = q * b + r /\ 0 <= r < b /\ 0 <= q <= a.
Proof.
  intros Hwf Ha Hb Hnz Hrd.
  destruct (wfVM_facts vm Hwf) as (HR & _ & FR & _).
  pose proof (FR _ _ Ha) as Ba. pose proof (FR _ _ Hb) as Bb.
  exists (Z.quot a b), (Z.rem a b).
  pose proof (divu_run i vm a b Hwf Ha Hb Hrd) as Eq.
  pose proof (remu_run i vm a b Hwf Ha Hb Hrd) as Er.
  destruct (Z.eqb_spec b 0); [contradiction|].
  split; [exact Eq|]. split; [exact Er|].
  rewrite Z.quot_div_nonneg, Z.rem_mod_nonneg by lia.
  pose proof (Z.div_mod a b Hnz).
  pose proof (Z.mod_pos_bound a b ltac:(lia)).
  assert (0 <= a / b) by (apply Z.div_pos; lia).
  split; [lia|]. split; [lia|]. split; [lia|].
  apply Z.div_le_upper_bound; nia.
Qed.

Lemma int64_wrap64 z : int64 (wrap64 z) = int64 z.
Proof. unfold int64, wrap64. cbv zeta. rewrite Z.mod_mod by lia. reflexivity. Qed.

Lemma int64_idem z : int64 (int64 z) = int64 z.
Proof. apply int64_small, int64_range. Qed.

(** [div] and [rem] with a divisor that is not zero: the quotient is
    truncated towards zero and the remainder has the sign of the
    dividend; the one quotient that does not fit, that of the most
    negative number by -1, wraps to the dividend with remainder 0. *)
Theorem div_rem_identity (i : Instruction) (vm : VM) (a b : Z) :
  wfVM vm = true ->
  idx (Reg vm) (rs1 i) = Some a ->
  idx (Reg vm) (rs2 i) = Some b ->
  b <> 0 ->
  0 <= rd i < 32 ->
  exists q r,
    div i vm = Val (flags0, None) (stored vm (rd i) q)
    /\ rem i vm = Val (flags0, None) (stored vm (rd i) r)
    /\ 0 <= q < 2 ^ 64 /\ 0 <= r < 2 ^ 64
    /\ (int64 a = - 2 ^ 63 /\ int64 b = -1 -> q = a /\ r = 0)
    /\ (~ (int64 a = - 2 ^ 63 /\ int64 b = -1) ->
        int64 a = int64 q * int64 b + int64 r)
    /\ Z.abs (int64 r) < Z.abs (int64 b)
    /\ (int64 r = 0 \/ Z.sgn (int64 r) = Z.sgn (int64 a)).
Proof.
  intros Hwf Ha Hb Hnz Hrd.
  destruct (wfVM_facts vm Hwf) as (HR & _ & FR & _).
  pose proof (FR _ _ Ha) as Ba. pose proof (FR _ _ Hb) as Bb.
  pose proof (div_run i vm a b Hwf Ha Hb Hrd) as Eq.
  pose proof (rem_run i vm a b Hwf Ha Hb Hrd) as Er.
  destruct (Z.eqb_spec b 0); [contradiction|].
  eexists _, _. split; [exact Eq|]. split; [exact Er|].
  unfold uint64. rewrite !int64_wrap64, !int64_idem.
  split; [apply wrap64_range|]. split; [apply wrap64_range|].
  set (a' := int64 a). set (b' := int64 b).
  assert (Hb' : b' <> 0).
  { unfold b'. intros E. apply Hnz, (proj1 (int64_zero_iff b Bb) E). }
  pose proof (int64_range a) as Ra. pose proof (int64_range b) as Rb.
  fold a' in Ra. fold b' in Rb.
  pose proof (Z.quot_rem' a' b') as Hqr.
  pose proof (Z.rem_bound_abs a' b' Hb') as Hrb.
  assert (Rr : - 2 ^ 63 <= Z.rem a' b' < 2 ^ 63) by lia.
  rewrite (int64_small (Z.rem a' b')) by exact Rr.
  assert (Hsgn : Z.rem a' b' = 0 \/ Z.sgn (Z.rem a' b') = Z.sgn a').
  { destruct (Z.eq_dec (Z.rem a' b') 0) as [E|E]; [left; exact E|].
    right. apply Z.rem_sign_nz; assumption. }
  split; [|split; [|split; [exact Hrb | exact Hsgn]]].
  - intros [Ea Eb]. rewrite Ea, Eb.
    change (Z.quot (- 2 ^ 63) (-1)) with (2 ^ 63).
    change (Z.rem (- 2 ^ 63) (-1)) with 0.
    change (wrap64 (int64 (2 ^ 63))) with (2 ^ 63).
    change (wrap64 (int64 0)) with 0.
    split; [|reflexivity].
    rewrite <- (int64_of_u64 a Ba). fold a'. rewrite Ea. reflexivity.
  - intros Hno.
    assert (Habs : Z.abs (Z.quot a' b') = Z.abs a' / Z.abs b').
    { rewrite <- Z.quot_abs by exact Hb'.
      apply Z.quot_div_nonneg; lia. }
    assert (Hle : Z.abs a' / Z.abs b' <= Z.abs a').
    { apply Z.div_le_upper_bound; nia. }
    assert (Rq : - 2 ^ 63 <= Z.quot a' b' < 2 ^ 63).
    { destruct (Z.eq_dec (Z.abs b') 1) as [E1|E1].
      - assert (Hq1 : Z.abs a' / Z.abs b' = Z.abs a')
          by (rewrite E1; apply Z.div_1_r).
        destruct (Z.eq_dec b' 1) as [Eb1|Eb1].
        + rewrite Eb1, Z.quot_1_r. lia.
        + assert (Eb : b' = -1) by lia.
          assert (a' <> - 2 ^ 63) by (intros Ea; apply Hno; split; assumption).
          lia.
      - assert (Hq2 : Z.abs a' / Z.abs b' <= 2 ^ 62).
        { apply Z.div_le_upper_bound; lia. }
        lia. }
    rewrite (int64_small (Z.quot a' b')) by exact Rq.
    lia.
Qed.

(** ** Immediate addition *)

Lemma land_fff x : Z.land x 0xfff = x mod 2 ^ 12.
Proof. change 0xfff with (Z.ones 12). apply Z.land_ones. lia. Qed.

Lemma int32_congr x y : x mod 2 ^ 32 = y mod 2 ^ 32 -> int32 x = int32 y.
Proof. intros E. unfold int32. rewrite E. reflexivity. Qed.

Lemma int64_congr x y : x mod 2 ^ 64 = y mod 2 ^ 64 -> int64 x = int64 y.
Proof. intros E. unfold int64. rewrite E. reflexivity. Qed.

Lemma int32_mod z : int32 z mod 2 ^ 32 = z mod 2 ^ 32.
Proof.
  unfold int32. cbv zeta.
  destruct (Z.ltb_spec (z mod 2 ^ 32) (2 ^ 31)).
  - apply Z.mod_mod. lia.
  - rewrite Zminus_mod, Z.mod_mod, Z_mod_same_full, Z.sub_0_r, Z.mod_mod by lia.
    reflexivity.
Qed.

Lemma mod32_of_mod64 x y : x mod 2 ^ 64 = y mod 2 ^ 64 -> x mod 2 ^ 32 = y mod 2 ^ 32.
Proof.
  intros E.
  assert (H : forall z, z mod 2 ^ 32 = (z mod 2 ^ 64) mod 2 ^ 32).
  { intros z. change (2 ^ 64) with (2 ^ 32 * 2 ^ 32).
    rewrite Z.rem_mul_r by lia.
    rewrite Z.mul_comm, Z_mod_plus_full. symmetry. apply Z.mod_mod. lia. }
  rewrite (H x), (H y), E. reflexivity.
Qed.

(** The sign-extended 12-bit immediate that [addi] and [addiw] add. *)
Lemma sx_imm12 (v : Z) vm :
  exists s, sx (Z.land v 0xfff) 11 vm = Val s vm
            /\ 0 <= s < 2 ^ 64
            /\ int64 s = signed 12 v.
Proof.
  pose proof (Z.mod_pos_bound v (2 ^ 12) ltac:(lia)) as Hm.
  destruct (signExtend_int64 (v mod 2 ^ 12) 11 ltac:(lia))
    as (s & Es & Bs & Vs).
  { change (11 + 1) with 12. lia. }
  exists s. rewrite land_fff. split; [apply sx_val, Es|]. split; [exact Bs|].
  rewrite Vs. change (11 + 1) with 12. unfold signed.
  rewrite Z.mod_mod by lia. reflexivity.
Qed.

Lemma addi_addiw_run (i : Instruction) (vm : VM) (a : Z) :
  wfVM vm = true ->
  idx (Reg vm) (rs1 i) = Some a ->
  0 <= rd i < 32 ->
  addi i vm
  = Val (flags0, None) (stored vm (rd i) (wrap64 (a + signed 12 (imm i))))
  /\ addiw i vm
     = Val (flags0, None) (stored vm (rd i) (uint64 (int32 (a + signed 12 (imm i))))).
Proof.
  intros Hwf Ha Hrd.
  destruct (wfVM_facts vm Hwf) as (HR & _ & FR & _).
  assert (Hrd' : 0 <= rd i < Z.of_nat (length (Reg vm))) by lia.
  destruct (sx_imm12 (imm i) vm) as (s & Es & Bs & Vs).
  rewrite <- Vs.
  assert (E64 : (int64 a + int64 s) mod 2 ^ 64 = (a + int64 s) mod 2 ^ 64).
  { rewrite Zplus_mod, int64_mod, <- Zplus_mod. reflexivity. }
  split.
  - unfold addi, bind. rewrite (getReg_eq _ _ _ Ha). cbv beta iota.
    rewrite Es. cbv beta iota. rewrite (store_stored _ _ _ Hrd').
    unfold uint64, iadd64. rewrite wrap64_int64.
    unfold wrap64. rewrite E64. reflexivity.
  - unfold addiw, bind. rewrite (getReg_eq _ _ _ Ha). cbv beta iota.
    rewrite Es. cbv beta iota. rewrite (store_stored _ _ _ Hrd').
    unfold iadd32. do 3 f_equal. apply int32_congr.
    rewrite Zplus_mod, !int32_mod, <- Zplus_mod.
    apply mod32_of_mod64.
    rewrite Zplus_mod, (Zplus_mod a), int64_mod. reflexivity.
Qed.

(** [addi] adds the immediate, read as a signed 12-bit number, to the
    source register modulo 2^64; [addiw] does the same on the low 32
    bits and sign-extends the 32-bit sum.  Only the low 12 bits of the
    immediate field count. *)
Theorem addi_adds_signed_immediate (i : Instruction) (vm : VM) (a : Z) :
  wfVM vm = true ->
  idx (Reg vm) (rs1 i) = Some a ->
  0 <= rd i < 32 ->
  addi i vm
  = Val (flags0, None) (stored vm (rd i) (wrap64 (a + signed 12 (imm i))))
  /\ addiw i vm
     = Val (flags0, None) (stored vm (rd i) (uint64 (int32 (a + signed 12 (imm i))))).
Proof. intros; eapply addi_addiw_run; eassumption. Qed.

(** ** The W forms *)

Lemma MaxUint64_canonical : MaxUint64 = uint64 (int32 (-1)).
Proof. reflexivity. Qed.

Lemma getReg_wf vm r :
  wfVM vm = true -> 0 <= r < 32 ->
  exists v, idx (Reg vm) r = Some v /\ 0 <= v < 2 ^ 64.
Proof.
  intros Hwf Hr. destruct (wfVM_facts vm Hwf) as (HR & _ & FR & _).
  destruct (idx_Some (Reg vm) r ltac:(lia)) as (v & Hv).
  exists v. split; [exact Hv | eapply FR, Hv].
Qed.

(** Every W-form handler that does not take a remainder leaves in [rd]
    a value that is the sign extension of its low 32 bits, and never
    traps. *)
Theorem w_results_canonical (hostWrite : Z -> list Z -> Z) (f : fnptr)
    (i : Instruction) (vm : VM) :
  In f [fn_addiw; fn_slliw; fn_srliw; fn_sraiw; fn_addw; fn_subw;
        fn_sllw; fn_srlw; fn_sraw; fn_mulw; fn_divw; fn_divuw] ->
  wfVM vm = true ->
  0 <= rs1 i < 32 -> 0 <= rs2 i < 32 -> 0 <= rd i < 32 ->
  exists v,
    call hostWrite f i vm = Val (flags0, None) (stored vm (rd i) v)
    /\ canonical32 v.
Proof.
  intros Hf Hwf H1 H2 Hrd.
  destruct (wfVM_facts vm Hwf) as (HR & _).
  assert (Hrd' : 0 <= rd i < Z.of_nat (length (Reg vm))) by lia.
  destruct (getReg_wf vm (rs1 i) Hwf H1) as (a & Ha & Ba).
  destruct (getReg_wf vm (rs2 i) Hwf H2) as (b & Hb & Bb).
  cbn [In] in Hf.
  destruct Hf as [<-|[<-|[<-|[<-|[<-|[<-|[<-|[<-|[<-|[<-|[<-|[<-|[]]]]]]]]]]]]];
    cbn [call].
  - (* addiw *)
    eexists. split; [apply (addi_addiw_run i vm a Hwf Ha Hrd)|].
    apply canonical32_int32.
  - (* slliw *)
    eexists. split; [|apply canonical32_int32].
    unfold slliw, bind. rewrite (getReg_eq _ _ _ Ha). cbv beta iota.
    unfold shl32 at 1, uint64 at 1.
    rewrite (wrap64_small (uint32 _))
      by (pose proof (uint32_range (Z.shiftl (uint32 a) (Z.land (imm i) 31))); lia).
    rewrite (sx_val _ _ _ _ (signExtend_u32 _ (uint32_range _))). cbv beta iota.
    rewrite (store_stored _ _ _ Hrd'). reflexivity.
  - (* srliw *)
    assert (Bs : 0 <= Z.shiftr (uint32 a) (Z.land (imm i) 31) < 2 ^ 32).
    { pose proof (uint32_range a) as Bu.
      assert (0 <= Z.land (imm i) 31)
        by (change 31 with (Z.ones 5); rewrite Z.land_ones by lia;
            apply Z.mod_pos_bound; lia).
      rewrite Z.shiftr_div_pow2 by lia.
      assert (0 < 2 ^ Z.land (imm i) 31) by (apply Z.pow_pos_nonneg; lia).
      split; [apply Z.div_pos; lia|].
      apply Z.div_lt_upper_bound; nia. }
    eexists. split; [|apply canonical32_int32].
    unfold srliw, bind. rewrite (getReg_eq _ _ _ Ha). cbv beta iota.
    unfold uint64 at 1. rewrite wrap64_small by lia.
    rewrite (sx_val _ _ _ _ (signExtend_u32 _ Bs)). cbv beta iota.
    rewrite (store_stored _ _ _ Hrd'). reflexivity.
  - (* sraiw *)
    exists (uint64 (int32 (Z.shiftr (int32 a) (Z.land (imm i) 31)))).
    split; [|apply canonical32_int32].
    unfold sraiw, bind. rewrite (getReg_eq _ _ _ Ha). cbv beta iota.
    rewrite (store_stored _ _ _ Hrd').
    do 4 f_equal. symmetry.
    pose proof (int32_range a) as Bi.
    assert (Hs : 0 <= Z.land (imm i) 31)
      by (change 31 with (Z.ones 5); rewrite Z.land_ones by lia;
          apply Z.mod_pos_bound; lia).
    assert (Hp : 0 < 2 ^ Z.land (imm i) 31) by (apply Z.pow_pos_nonneg; lia).
    assert (Br : - 2 ^ 31 <= Z.shiftr (int32 a) (Z.land (imm i) 31) < 2 ^ 31).
    { rewrite Z.shiftr_div_pow2 by lia. split.
      - apply Z.div_le_lower_bound; nia.
      - apply Z.div_lt_upper_bound; nia. }
    unfold int32 at 1. cbv zeta.
    set (s := Z.shiftr (int32 a) (Z.land (imm i) 31)) in *.
    destruct (Z.ltb_spec s 0).
    + replace (s mod 2 ^ 32) with (s + 2 ^ 32).
      * destruct (Z.ltb_spec (s + 2 ^ 32) (2 ^ 31)); lia.
      * symmetry. rewrite <- (Z_mod_plus_full s 1 (2 ^ 32)).
        apply Z.mod_small. lia.
    + rewrite Z.mod_small by lia.
      destruct (Z.ltb_spec s (2 ^ 31)); lia.
  - (* addw *)
    eexists. split; [apply (rrOp_run _ i vm a b Ha Hb Hrd')|].
    apply canonical32_int32.
  - (* subw *)
    eexists. split; [apply (rrOp_run _ i vm a b Ha Hb Hrd')|].
    apply canonical32_int32.
  - (* sllw *)
    eexists. split; [|apply canonical32_int32].
    unfold sllw, bind. rewrite (getReg_eq _ _ _ Ha). cbv beta iota.
    rewrite (getReg_eq _ _ _ Hb). cbv beta iota.
    unfold shl32 at 1, uint64 at 1.
    rewrite (wrap64_small (uint32 _))
      by (pose proof (uint32_range
                        (Z.shiftl (uint32 a) (uint32 (Z.land b 31)))); lia).
    rewrite (sx_val _ _ _ _ (signExtend_u32 _ (uint32_range _))). cbv beta iota.
    rewrite (store_stored _ _ _ Hrd'). reflexivity.
  - (* srlw *)
    assert (Bs : 0 <= Z.shiftr (uint32 a) (uint32 (Z.land b 31)) < 2 ^ 32).
    { pose proof (uint32_range a) as Bu.
      pose proof (uint32_range (Z.land b 31)) as Bn.
      rewrite Z.shiftr_div_pow2 by lia.
      assert (0 < 2 ^ uint32 (Z.land b 31)) by (apply Z.pow_pos_nonneg; lia).
      split; [apply Z.div_pos; lia|].
      apply Z.div_lt_upper_bound; nia. }
    eexists. split; [|apply canonical32_int32].
    unfold srlw, bind. rewrite (getReg_eq _ _ _ Ha). cbv beta iota.
    rewrite (getReg_eq _ _ _ Hb). cbv beta iota.
    unfold uint64 at 1. rewrite wrap64_small by lia.
    rewrite (sx_val _ _ _ _ (signExtend_u32 _ Bs)). cbv beta iota.
    rewrite (store_stored _ _ _ Hrd'). reflexivity.
  - (* sraw *)
    exists (uint64 (int32 (Z.shiftr (int32 a) (uint32 (Z.land b 31))))).
    split; [|apply canonical32_int32].
    unfold sraw. rewrite (rrOp_run _ i vm a b Ha Hb Hrd').
    do 4 f_equal. symmetry.
    pose proof (int32_range a) as Bi.
    pose proof (uint32_range (Z.land b 31)) as Hs.
    assert (Hp : 0 < 2 ^ uint32 (Z.land b 31)) by (apply Z.pow_pos_nonneg; lia).
    assert (Br : - 2 ^ 31 <= Z.shiftr (int32 a) (uint32 (Z.land b 31)) < 2 ^ 31).
    { rewrite Z.shiftr_div_pow2 by lia. split.
      - apply Z.div_le_lower_bound; nia.
      - apply Z.div_lt_upper_bound; nia. }
    unfold int32 at 1. cbv zeta.
    set (s := Z.shiftr (int32 a) (uint32 (Z.land b 31))) in *.
    destruct (Z.ltb_spec s 0).
    + replace (s mod 2 ^ 32) with (s + 2 ^ 32).
      * destruct (Z.ltb_spec (s + 2 ^ 32) (2 ^ 31)); lia.
      * symmetry. rewrite <- (Z_mod_plus_full s 1 (2 ^ 32)).
        apply Z.mod_small. lia.
    + rewrite Z.mod_small by lia.
      destruct (Z.ltb_spec s (2 ^ 31)); lia.
  - (* mulw *)
    eexists. split; [apply (rrOp_run _ i vm a b Ha Hb Hrd')|].
    apply canonical32_int32.
  - (* divw *)
    eexists. split; [apply (divw_run i vm a b Hwf Ha Hb Hrd)|].
    destruct (int32 b =? 0);
      [rewrite MaxUint64_canonical|]; apply canonical32_int32.
  - (* divuw *)
    eexists. split; [apply (divuw_run i vm a b Hwf Ha Hb Hrd)|].
    destruct (uint32 b =? 0);
      [rewrite MaxUint64_canonical|]; apply canonical32_int32.
Qed.


(** ** Loads and stores *)

Lemma effAddr_run i vm base :
  idx (Reg vm) (rs1 i) = Some base ->
  0 <= imm i < 2 ^ 12 ->
  effAddr i vm = Val (effective base (imm i)) vm.
Proof.
  intros Hb Hi.
  destruct (signExtend_int64 (imm i) 11 ltac:(lia))
    as (s & Es & Bs & Vs); [change (11 + 1) with 12; lia|].
  unfold effAddr, bind. rewrite (getReg_eq _ _ _ Hb). cbv beta iota.
  rewrite (sx_val _ _ _ _ Es). cbv beta iota. unfold ret.
  do 2 f_equal. unfold effective, add64, wrap64.
  change (11 + 1) with 12 in Vs. rewrite <- Vs.
  rewrite Zplus_mod, (Zplus_mod base (int64 s)), int64_mod. reflexivity.
Qed.

Lemma effective_range base imm : 0 <= effective base imm < 2 ^ 64.
Proof. apply wrap64_range. Qed.

Lemma add64_small a k : 0 <= a -> 0 <= k -> a + k < 2 ^ 64 -> add64 a k = a + k.
Proof. intros. unfold add64. apply wrap64_small. lia. Qed.

Lemma setMem_run vm a b :
  0 <= a < Z.of_nat (length (Mem vm)) ->
  setMem a b vm = Val tt (withMem vm (<[Z.to_nat a := b]> (Mem vm))).
Proof. intros H. unfold setMem. rewrite upd_eq by lia. reflexivity. Qed.

Lemma setMem_oob vm a b :
  a < 0 \/ Z.of_nat (length (Mem vm)) <= a ->
  setMem a b vm = Panic oob.
Proof.
  intros H. unfold setMem, upd, inRange.
  destruct (Z.leb_spec 0 a), (Z.ltb_spec a (Z.of_nat (length (Mem vm))));
    simpl; try reflexivity; lia.
Qed.

Lemma getMem_oob vm a :
  a < 0 \/ Z.of_nat (length (Mem vm)) <= a ->
  getMem a vm = Panic oob.
Proof. intros H. unfold getMem. rewrite idx_None by exact H. reflexivity. Qed.

Lemma splice_nil m a : splice m a [] = m.
Proof.
  unfold splice. cbn [length app]. rewrite Nat.add_0_r. apply take_drop.
Qed.

Lemma length_splice m a bs :
  0 <= a -> a + Z.of_nat (length bs) <= Z.of_nat (length m) ->
  length (splice m a bs) = length m.
Proof.
  intros Ha H. unfold splice.
  rewrite !length_app, length_take, length_drop. lia.
Qed.

(** Writing one more byte after a block. *)
Lemma insert_splice m a bs b :
  0 <= a -> a + Z.of_nat (length bs) < Z.of_nat (length m) ->
  <[Z.to_nat (a + Z.of_nat (length bs)) := b]> (splice m a bs)
  = splice m a (bs ++ [b]).
Proof.
  intros Ha H. unfold splice.
  assert (Hlt : (Z.to_nat a + length bs < length m)%nat) by lia.
  destruct (lookup_lt_is_Some_2 m _ Hlt) as (x & Hx).
  rewrite (drop_S m x _ Hx).
  replace (Z.to_nat (a + Z.of_nat (length bs)))
    with (length (take (Z.to_nat a) m) + (length bs + 0))%nat
    by (rewrite length_take; lia).
  rewrite insert_app_r, insert_app_r. cbn [insert list_insert].
  rewrite length_app. cbn [length].
  replace (Z.to_nat a + (length bs + 1))%nat with (S (Z.to_nat a + length bs)) by lia.
  rewrite <- !app_assoc. reflexivity.
Qed.

Lemma idx_splice_in m a bs k b :
  0 <= a -> a + Z.of_nat (length bs) <= Z.of_nat (length m) ->
  bs !! k = Some b ->
  idx (splice m a bs) (a + Z.of_nat k) = Some b.
Proof.
  intros Ha H Hk. unfold splice.
  apply idx_app_at; [rewrite length_take; lia|].
  rewrite lookup_app_l by (apply lookup_lt_Some in Hk; exact Hk). exact Hk.
Qed.

Lemma idx_splice_out m a bs j :
  0 <= a -> a + Z.of_nat (length bs) <= Z.of_nat (length m) ->
  j < a \/ a + Z.of_nat (length bs) <= j ->
  idx (splice m a bs) j = idx m j.
Proof.
  intros Ha H Hj. unfold idx. destruct (Z.ltb_spec j 0); [reflexivity|].
  unfold splice. destruct Hj as [Hj|Hj].
  - rewrite lookup_app_l by (rewrite length_take; lia).
    apply lookup_take_lt. lia.
  - rewrite lookup_app_r by (rewrite length_take; lia).
    rewrite lookup_app_r by (rewrite length_take; lia).
    rewrite lookup_drop. f_equal. rewrite length_take. lia.
Qed.

(** The first byte of a store, and each byte after it. *)
Lemma setMem_first vm a b :
  0 <= a < Z.of_nat (length (Mem vm)) ->
  setMem a b vm = Val tt (withMem vm (splice (Mem vm) a [b])).
Proof.
  intros H. rewrite setMem_run by lia. do 2 f_equal.
  rewrite <- (splice_nil (Mem vm) a) at 1.
  replace (Z.to_nat a) with (Z.to_nat (a + Z.of_nat (@length Z []))) at 1
    by (cbn [length]; lia).
  apply insert_splice; cbn [length]; lia.
Qed.

Lemma setMem_next vm m a bs b k :
  k = Z.of_nat (length bs) ->
  0 <= a -> a + k < Z.of_nat (length m) -> a + k < 2 ^ 64 ->
  setMem (add64 a k) b (withMem vm (splice m a bs))
  = Val tt (withMem vm (splice m a (bs ++ [b]))).
Proof.
  intros -> Ha Hlen Hfit.
  rewrite add64_small by lia.
  rewrite setMem_run
    by (cbn [Mem withMem]; rewrite length_splice by lia; lia).
  unfold withMem. cbn [Reg CSR PC Steps Mem LastInstr LastPC].
  rewrite insert_splice by lia. reflexivity.
Qed.

(** The next [vm.Mem[a+k] = ...] of a store in progress. *)
Ltac poke_next :=
  match goal with
  | |- context [setMem (add64 ?a ?k) ?b (withMem ?vm (splice ?m ?a ?bs))] =>
      rewrite (setMem_next vm m a bs b k)
        by first [reflexivity | cbn [length]; lia];
      cbv beta iota; cbn [app]
  end.

(** [sd], [sw], [sh] and [sb], run on a machine that holds the bytes
    they address. *)
Lemma sd_run i vm base v :
  wfVM vm = true ->
  idx (Reg vm) (rs1 i) = Some base ->
  idx (Reg vm) (rs2 i) = Some v ->
  0 <= imm i < 2 ^ 12 ->
  effective base (imm i) + 8 <= Z.of_nat (length (Mem vm)) ->
  sd i vm = Val (flags0, None)
              (withMem vm (splice (Mem vm) (effective base (imm i)) (le64 v))).
Proof.
  intros Hwf Hb Hv Hi Hfit.
  destruct (wfVM_facts vm Hwf) as (_ & _ & _ & _ & _ & _ & HL).
  pose proof (effective_range base (imm i)) as Ba.
  set (a := effective base (imm i)) in *.
  unfold sd, bind. rewrite (effAddr_run i vm base Hb Hi). fold a.
  cbv beta iota. rewrite (getReg_eq _ _ _ Hv). cbv beta iota.
  rewrite (setMem_first vm a) by lia. cbv beta iota.
  do 7 poke_next.
  reflexivity.
Qed.

Lemma byte_land_ff v : byte (Z.land v 0xff) = byte v.
Proof.
  unfold byte. change 0xff with (Z.ones 8). rewrite Z.land_ones by lia.
  apply Z.mod_mod. lia.
Qed.

Lemma sw_run i vm base v :
  wfVM vm = true ->
  idx (Reg vm) (rs1 i) = Some base ->
  idx (Reg vm) (rs2 i) = Some v ->
  0 <= imm i < 2 ^ 12 ->
  effective base (imm i) + 4 <= Z.of_nat (length (Mem vm)) ->
  sw i vm = Val (flags0, None)
              (withMem vm (splice (Mem vm) (effective base (imm i))
                                  (take 4 (le64 v)))).
Proof.
  intros Hwf Hb Hv Hi Hfit.
  destruct (wfVM_facts vm Hwf) as (_ & _ & _ & _ & _ & _ & HL).
  pose proof (effective_range base (imm i)) as Ba.
  set (a := effective base (imm i)) in *.
  unfold sw, bind. rewrite (effAddr_run i vm base Hb Hi). fold a.
  cbv beta iota. rewrite (getReg_eq _ _ _ Hv). cbv beta iota.
  rewrite (setMem_first vm a) by lia. cbv beta iota.
  do 3 poke_next.
  reflexivity.
Qed.

Lemma sh_run i vm base v :
  wfVM vm = true ->
  idx (Reg vm) (rs1 i) = Some base ->
  idx (Reg vm) (rs2 i) = Some v ->
  0 <= imm i < 2 ^ 12 ->
  effective base (imm i) + 2 <= Z.of_nat (length (Mem vm)) ->
  sh i vm = Val (flags0, None)
              (withMem vm (splice (Mem vm) (effective base (imm i))
                                  (take 2 (le64 v)))).
Proof.
  intros Hwf Hb Hv Hi Hfit.
  destruct (wfVM_facts vm Hwf) as (_ & _ & _ & _ & _ & _ & HL).
  pose proof (effective_range base (imm i)) as Ba.
  set (a := effective base (imm i)) in *.
  unfold sh, bind. rewrite (effAddr_run i vm base Hb Hi). fold a.
  cbv beta iota. rewrite (getReg_eq _ _ _ Hv). cbv beta iota.
  rewrite (setMem_first vm a) by lia. cbv beta iota.
  poke_next.
  reflexivity.
Qed.

Lemma sb_run i vm base v :
  wfVM vm = true ->
  idx (Reg vm) (rs1 i) = Some base ->
  idx (Reg vm) (rs2 i) = Some v ->
  0 <= imm i < 2 ^ 12 ->
  effective base (imm i) + 1 <= Z.of_nat (length (Mem vm)) ->
  sb i vm = Val (flags0, None)
              (withMem vm (splice (Mem vm) (effective base (imm i))
                                  (take 1 (le64 v)))).
Proof.
  intros Hwf Hb Hv Hi Hfit.
  pose proof (effective_range base (imm i)) as Ba.
  set (a := effective base (imm i)) in *.
  unfold sb, bind. rewrite (effAddr_run i vm base Hb Hi). fold a.
  cbv beta iota. rewrite (getReg_eq _ _ _ Hv). cbv beta iota.
  rewrite byte_land_ff.
  rewrite (setMem_first vm a) by lia. reflexivity.
Qed.

Lemma store_run (hostWrite : Z -> list Z -> Z) (f : fnptr)
    (i : Instruction) (vm : VM) (base v w : Z) :
  isStore f = true ->
  accessWidth f = Some w ->
  wfVM vm = true ->
  idx (Reg vm) (rs1 i) = Some base ->
  idx (Reg vm) (rs2 i) = Some v ->
  0 <= imm i < 2 ^ 12 ->
  effective base (imm i) + w <= Z.of_nat (length (Mem vm)) ->
  call hostWrite f i vm
  = Val (flags0, None)
        (withMem vm (splice (Mem vm) (effective base (imm i))
                            (take (Z.to_nat w) (le64 v)))).
Proof.
  intros Hs Hw Hwf Hb Hv Hi Hfit.
  destruct f; try discriminate Hs; injection Hw as <-; cbn [call].
  - apply sb_run; assumption.
  - apply sh_run; assumption.
  - apply sw_run; assumption.
  - apply sd_run; assumption.
Qed.

(** Every store writes the low bytes of [rs2], least significant
    first, at the effective address, and changes nothing else: not a
    register, not another byte of memory, not the memory's length. *)
Theorem stores_little_endian (hostWrite : Z -> list Z -> Z) (f : fnptr)
    (i : Instruction) (vm : VM) (base v w : Z) :
  isStore f = true ->
  accessWidth f = Some w ->
  wfVM vm = true ->
  idx (Reg vm) (rs1 i) = Some base ->
  idx (Reg vm) (rs2 i) = Some v ->
  0 <= imm i < 2 ^ 12 ->
  effective base (imm i) + w <= Z.of_nat (length (Mem vm)) ->
  call hostWrite f i vm
  = Val (flags0, None)
        (withMem vm (splice (Mem vm) (effective base (imm i))
                            (take (Z.to_nat w) (le64 v)))).
Proof. intros; eapply store_run; eassumption. Qed.

(** *** Assembling bytes *)

Lemma lor_disjoint lo hi k :
  0 <= k -> 0 <= lo < 2 ^ k -> Z.lor lo (hi * 2 ^ k) = lo + hi * 2 ^ k.
Proof.
  intros Hk Hlo. symmetry. apply Z.add_nocarry_lor.
  apply Z.bits_inj'. intros n Hn. rewrite Z.land_spec, Z.bits_0.
  destruct (Z.ltb_spec n k).
  - rewrite Z.mul_pow2_bits_low by lia. apply andb_false_r.
  - replace (Z.testbit lo n) with false; [reflexivity|].
    symmetry. rewrite <- (Z.mod_small lo (2 ^ k)) by lia.
    apply Z.mod_pow2_bits_high. lia.
Qed.

Lemma shl64_byte b k :
  0 <= b < 2 ^ 8 -> 0 <= k <= 56 -> shl64 (uint64 b) k = b * 2 ^ k.
Proof.
  intros Hb Hk. unfold shl64, uint64.
  rewrite (wrap64_small b) by lia.
  rewrite Z.shiftl_mul_pow2 by lia.
  apply wrap64_small.
  assert (0 < 2 ^ k) by (apply Z.pow_pos_nonneg; lia).
  assert (2 ^ k <= 2 ^ 56) by (apply pow2_le_mono; lia).
  nia.
Qed.

Lemma asm16 b0 b1 :
  0 <= b0 < 2 ^ 8 -> 0 <= b1 < 2 ^ 8 ->
  Z.lor (uint64 b0) (shl64 (uint64 b1) 8) = leValue [b0; b1].
Proof.
  intros H0 H1. unfold uint64 at 1. rewrite wrap64_small by lia.
  rewrite shl64_byte by lia.
  rewrite lor_disjoint by lia.
  unfold leValue. cbn [fold_right]. lia.
Qed.

Lemma asm32 b0 b1 b2 b3 :
  0 <= b0 < 2 ^ 8 -> 0 <= b1 < 2 ^ 8 -> 0 <= b2 < 2 ^ 8 -> 0 <= b3 < 2 ^ 8 ->
  Z.lor (Z.lor (Z.lor (uint64 b0) (shl64 (uint64 b1) 8))
               (shl64 (uint64 b2) 16)) (shl64 (uint64 b3) 24)
  = leValue [b0; b1; b2; b3].
Proof.
  intros H0 H1 H2 H3. unfold uint64 at 1. rewrite wrap64_small by lia.
  rewrite !shl64_byte by lia.
  rewrite (lor_disjoint b0 b1 8) by lia.
  rewrite (lor_disjoint _ b2 16) by lia.
  rewrite (lor_disjoint _ b3 24) by lia.
  unfold leValue. cbn [fold_right]. lia.
Qed.

Lemma asm64 b0 b1 b2 b3 b4 b5 b6 b7 :
  0 <= b0 < 2 ^ 8 -> 0 <= b1 < 2 ^ 8 -> 0 <= b2 < 2 ^ 8 -> 0 <= b3 < 2 ^ 8 ->
  0 <= b4 < 2 ^ 8 -> 0 <= b5 < 2 ^ 8 -> 0 <= b6 < 2 ^ 8 -> 0 <= b7 < 2 ^ 8 ->
  Z.lor (Z.lor (Z.lor (Z.lor (Z.lor (Z.lor (Z.lor
      (uint64 b0)
      (shl64 (uint64 b1) 8))
      (shl64 (uint64 b2) 16))
      (shl64 (uint64 b3) 24))
      (shl64 (uint64 b4) 32))
      (shl64 (uint64 b5) 40))
      (shl64 (uint64 b6) 48))
      (shl64 (uint64 b7) 56)
  = leValue [b0; b1; b2; b3; b4; b5; b6; b7].
Proof.
  intros H0 H1 H2 H3 H4 H5 H6 H7.
  unfold uint64 at 1. rewrite wrap64_small by lia.
  rewrite !shl64_byte by lia.
  rewrite (lor_disjoint b0 b1 8) by lia.
  rewrite (lor_disjoint _ b2 16) by lia.
  rewrite (lor_disjoint _ b3 24) by lia.
  rewrite (lor_disjoint _ b4 32) by lia.
  rewrite (lor_disjoint _ b5 40) by lia.
  rewrite (lor_disjoint _ b6 48) by lia.
  rewrite (lor_disjoint _ b7 56) by lia.
  unfold leValue. cbn [fold_right]. lia.
Qed.

Lemma leValue_range bs :
  Forall (fun b => 0 <= b < 2 ^ 8) bs ->
  0 <= leValue bs < 2 ^ (8 * Z.of_nat (length bs)).
Proof.
  induction 1 as [|b bs Hb _ IH]; [cbn; lia|].
  cbn [leValue fold_right length]. fold (leValue bs).
  replace (8 * Z.of_nat (S (length bs))) with (8 + 8 * Z.of_nat (length bs)) by lia.
  rewrite Z.pow_add_r by lia. lia.
Qed.

(** *** Reading the bytes at an address *)

Lemma bytesAt_length m a w :
  0 <= a -> 0 <= w -> a + w <= Z.of_nat (length m) ->
  length (bytesAt m a w) = Z.to_nat w.
Proof.
  intros Ha Hw H. unfold bytesAt. rewrite length_take, length_drop. lia.
Qed.

Lemma bytesAt_idx m a w k b :
  0 <= a -> bytesAt m a w !! k = Some b ->
  idx m (a + Z.of_nat k) = Some b.
Proof.
  intros Ha H. unfold bytesAt in H.
  apply lookup_take_Some in H. destruct H as [H _].
  rewrite lookup_drop in H.
  rewrite idx_lookup by lia.
  replace (Z.to_nat (a + Z.of_nat k)) with (Z.to_nat a + k)%nat by lia.
  exact H.
Qed.

Lemma getMem_at vm a w k b :
  0 <= a -> 0 <= k -> a + k < 2 ^ 64 ->
  bytesAt (Mem vm) a w !! Z.to_nat k = Some b ->
  getMem (add64 a k) vm = Val b vm.
Proof.
  intros Ha Hk Hfit H. rewrite add64_small by lia.
  apply getMem_eq.
  pose proof (bytesAt_idx _ _ _ _ _ Ha H) as E.
  rewrite Z2Nat.id in E by lia. exact E.
Qed.

Lemma getMem_at0 vm a w b :
  0 <= a ->
  bytesAt (Mem vm) a w !! 0%nat = Some b ->
  getMem a vm = Val b vm.
Proof.
  intros Ha H. apply getMem_eq.
  pose proof (bytesAt_idx _ _ _ _ _ Ha H) as E.
  rewrite Z.add_0_r in E. exact E.
Qed.

Lemma bytesAt_bytes vm a w :
  wfVM vm = true -> 0 <= a ->
  Forall (fun b => 0 <= b < 2 ^ 8) (bytesAt (Mem vm) a w).
Proof.
  intros Hwf Ha. destruct (wfVM_facts vm Hwf) as (_ & _ & _ & _ & FM & _).
  apply Forall_lookup_2. intros k b Hk.
  eapply FM, bytesAt_idx; eassumption.
Qed.

Lemma signExtend_signed v bit :
  0 <= bit < 32 -> 0 <= v < 2 ^ (bit + 1) ->
  signExtend v bit = Some (wrap64 (signed (bit + 1) v)).
Proof.
  intros Hb Hv.
  destruct (signExtend_int64 v bit Hb Hv) as (r & Er & Br & Vr).
  rewrite Er, <- Vr, int64_of_u64 by exact Br. reflexivity.
Qed.

(** *** The loads *)

Section Loads.

Variables (i : Instruction) (vm : VM) (base : Z).
Hypothesis Hwf : wfVM vm = true.
Hypothesis Hbase : idx (Reg vm) (rs1 i) = Some base.
Hypothesis Himm : 0 <= imm i < 2 ^ 12.
Hypothesis Hrd : 0 <= rd i < 32.

Let a := effective base (imm i).

Lemma load_setup (w : Z) :
  0 <= w <= 8 ->
  a + w <= Z.of_nat (length (Mem vm)) ->
  0 <= a /\ a + 8 < 2 ^ 64
  /\ length (bytesAt (Mem vm) a w) = Z.to_nat w
  /\ Forall (fun b => 0 <= b < 2 ^ 8) (bytesAt (Mem vm) a w)
  /\ 0 <= rd i < Z.of_nat (length (Reg vm)).
Proof.
  intros Hw Hfit.
  destruct (wfVM_facts vm Hwf) as (HR & _ & _ & _ & _ & _ & HL).
  pose proof (effective_range base (imm i)) as Ba. fold a in Ba.
  split; [lia|]. split; [lia|].
  split; [apply bytesAt_length; lia|].
  split; [apply bytesAt_bytes; [exact Hwf | lia]|]. lia.
Qed.

Lemma lbu_run :
  a + 1 <= Z.of_nat (length (Mem vm)) ->
  lbu i vm = Val (flags0, None)
               (stored vm (rd i) (leValue (bytesAt (Mem vm) a 1))).
Proof.
  intros Hfit.
  destruct (load_setup 1 ltac:(lia) Hfit) as (Ha & Hno & Hlen & Hby & Hrd').
  destruct (bytesAt (Mem vm) a 1) as [|b0 [|]] eqn:E; try discriminate Hlen.
  inversion Hby as [|? ? B0 _]; subst.
  unfold lbu, bind. rewrite (effAddr_run i vm base Hbase Himm). fold a.
  cbv beta iota.
  rewrite (getMem_at0 vm a 1 b0 Ha) by (rewrite E; reflexivity). cbv beta iota.
  rewrite (store_stored _ _ _ Hrd').
  unfold uint64. rewrite wrap64_small by lia.
  unfold leValue. cbn [fold_right]. rewrite Z.mul_0_r, Z.add_0_r. reflexivity.
Qed.

Lemma lb_run :
  a + 1 <= Z.of_nat (length (Mem vm)) ->
  lb i vm = Val (flags0, None)
              (stored vm (rd i)
                 (wrap64 (signed 8 (leValue (bytesAt (Mem vm) a 1))))).
Proof.
  intros Hfit.
  destruct (load_setup 1 ltac:(lia) Hfit) as (Ha & Hno & Hlen & Hby & Hrd').
  destruct (bytesAt (Mem vm) a 1) as [|b0 [|]] eqn:E; try discriminate Hlen.
  inversion Hby as [|? ? B0 _]; subst.
  unfold lb, bind. rewrite (effAddr_run i vm base Hbase Himm). fold a.
  cbv beta iota.
  rewrite (getMem_at0 vm a 1 b0 Ha) by (rewrite E; reflexivity). cbv beta iota.
  unfold uint64. rewrite wrap64_small by lia.
  rewrite (sx_val _ _ _ _ (signExtend_signed b0 7 ltac:(lia) B0)). cbv beta iota.
  rewrite (store_stored _ _ _ Hrd').
  unfold leValue. cbn [fold_right]. rewrite Z.mul_0_r, Z.add_0_r. reflexivity.
Qed.

Lemma lhu_run :
  a + 2 <= Z.of_nat (length (Mem vm)) ->
  lhu i vm = Val (flags0, None)
               (stored vm (rd i) (leValue (bytesAt (Mem vm) a 2))).
Proof.
  intros Hfit.
  destruct (load_setup 2 ltac:(lia) Hfit) as (Ha & Hno & Hlen & Hby & Hrd').
  destruct (bytesAt (Mem vm) a 2) as [|b0 [|b1 [|]]] eqn:E; try discriminate Hlen.
  inversion Hby as [|? ? B0 Hby1]; subst. inversion Hby1 as [|? ? B1 _]; subst.
  unfold lhu, bind. rewrite (effAddr_run i vm base Hbase Himm). fold a.
  cbv beta iota.
  rewrite (getMem_at0 vm a 2 b0 Ha) by (rewrite E; reflexivity). cbv beta iota.
  rewrite (getMem_at vm a 2 1 b1 Ha) by (rewrite ?E; first [reflexivity | lia]).
  cbv beta iota.
  rewrite asm16 by assumption.
  rewrite (store_stored _ _ _ Hrd'). reflexivity.
Qed.

Lemma lh_run :
  a + 2 <= Z.of_nat (length (Mem vm)) ->
  lh i vm = Val (flags0, None)
              (stored vm (rd i)
                 (wrap64 (signed 16 (leValue (bytesAt (Mem vm) a 2))))).
Proof.
  intros Hfit.
  destruct (load_setup 2 ltac:(lia) Hfit) as (Ha & Hno & Hlen & Hby & Hrd').
  pose proof (leValue_range _ Hby) as Hv. rewrite Hlen in Hv.
  destruct (bytesAt (Mem vm) a 2) as [|b0 [|b1 [|]]] eqn:E; try discriminate Hlen.
  inversion Hby as [|? ? B0 Hby1]; subst. inversion Hby1 as [|? ? B1 _]; subst.
  unfold lh, bind. rewrite (effAddr_run i vm base Hbase Himm). fold a.
  cbv beta iota.
  rewrite (getMem_at0 vm a 2 b0 Ha) by (rewrite E; reflexivity). cbv beta iota.
  rewrite (getMem_at vm a 2 1 b1 Ha) by (rewrite ?E; first [reflexivity | lia]).
  cbv beta iota zeta.
  rewrite asm16 by assumption.
  rewrite (sx_val _ _ _ _ (signExtend_signed _ 15 ltac:(lia) Hv)). cbv beta iota.
  rewrite (store_stored _ _ _ Hrd'). reflexivity.
Qed.

Lemma load32_run :
  a + 4 <= Z.of_nat (length (Mem vm)) ->
  load32 a vm = Val (leValue (bytesAt (Mem vm) a 4)) vm.
Proof.
  intros Hfit.
  destruct (load_setup 4 ltac:(lia) Hfit) as (Ha & Hno & Hlen & Hby & Hrd').
  destruct (bytesAt (Mem vm) a 4) as [|b0 [|b1 [|b2 [|b3 [|]]]]] eqn:E;
    try discriminate Hlen.
  inversion Hby as [|? ? B0 Hby1]; subst. inversion Hby1 as [|? ? B1 Hby2]; subst.
  inversion Hby2 as [|? ? B2 Hby3]; subst. inversion Hby3 as [|? ? B3 _]; subst.
  unfold load32, bind.
  rewrite (getMem_at0 vm a 4 b0 Ha) by (rewrite E; reflexivity). cbv beta iota.
  rewrite (getMem_at vm a 4 1 b1 Ha) by (rewrite ?E; first [reflexivity | lia]).
  cbv beta iota.
  rewrite (getMem_at vm a 4 2 b2 Ha) by (rewrite ?E; first [reflexivity | lia]).
  cbv beta iota.
  rewrite (getMem_at vm a 4 3 b3 Ha) by (rewrite ?E; first [reflexivity | lia]).
  cbv beta iota.
  rewrite asm32 by assumption. reflexivity.
Qed.

Lemma lwu_run :
  a + 4 <= Z.of_nat (length (Mem vm)) ->
  lwu i vm = Val (flags0, None)
               (stored vm (rd i) (leValue (bytesAt (Mem vm) a 4))).
Proof.
  intros Hfit.
  destruct (load_setup 4 ltac:(lia) Hfit) as (Ha & Hno & Hlen & Hby & Hrd').
  unfold lwu, bind. rewrite (effAddr_run i vm base Hbase Himm). fold a.
  cbv beta iota. rewrite (load32_run Hfit). cbv beta iota.
  rewrite (store_stored _ _ _ Hrd'). reflexivity.
Qed.

Lemma lw_run :
  a + 4 <= Z.of_nat (length (Mem vm)) ->
  lw i vm = Val (flags0, None)
              (stored vm (rd i)
                 (wrap64 (signed 32 (leValue (bytesAt (Mem vm) a 4))))).
Proof.
  intros Hfit.
  destruct (load_setup 4 ltac:(lia) Hfit) as (Ha & Hno & Hlen & Hby & Hrd').
  pose proof (leValue_range _ Hby) as Hv. rewrite Hlen in Hv.
  unfold lw, bind. rewrite (effAddr_run i vm base Hbase Himm). fold a.
  cbv beta iota. rewrite (load32_run Hfit). cbv beta iota.
  rewrite (sx_val _ _ _ _ (signExtend_signed _ 31 ltac:(lia) Hv)). cbv beta iota.
  rewrite (store_stored _ _ _ Hrd'). reflexivity.
Qed.

Lemma load64_run :
  a + 8 <= Z.of_nat (length (Mem vm)) ->
  load64 a vm = Val (leValue (bytesAt (Mem vm) a 8)) vm.
Proof.
  intros Hfit.
  destruct (load_setup 8 ltac:(lia) Hfit) as (Ha & Hno & Hlen & Hby & Hrd').
  destruct (bytesAt (Mem vm) a 8)
    as [|b0 [|b1 [|b2 [|b3 [|b4 [|b5 [|b6 [|b7 [|]]]]]]]]] eqn:E;
    try discriminate Hlen.
  inversion Hby as [|? ? B0 Hby1]; subst. inversion Hby1 as [|? ? B1 Hby2]; subst.
  inversion Hby2 as [|? ? B2 Hby3]; subst. inversion Hby3 as [|? ? B3 Hby4]; subst.
  inversion Hby4 as [|? ? B4 Hby5]; subst. inversion Hby5 as [|? ? B5 Hby6]; subst.
  inversion Hby6 as [|? ? B6 Hby7]; subst. inversion Hby7 as [|? ? B7 _]; subst.
  unfold load64, bind.
  rewrite (getMem_at0 vm a 8 b0 Ha) by (rewrite E; reflexivity). cbv beta iota.
  rewrite (getMem_at vm a 8 1 b1 Ha) by (rewrite ?E; first [reflexivity | lia]).
  cbv beta iota.
  rewrite (getMem_at vm a 8 2 b2 Ha) by (rewrite ?E; first [reflexivity | lia]).
  cbv beta iota.
  rewrite (getMem_at vm a 8 3 b3 Ha) by (rewrite ?E; first [reflexivity | lia]).
  cbv beta iota.
  rewrite (getMem_at vm a 8 4 b4 Ha) by (rewrite ?E; first [reflexivity | lia]).
  cbv beta iota.
  rewrite (getMem_at vm a 8 5 b5 Ha) by (rewrite ?E; first [reflexivity | lia]).
  cbv beta iota.
  rewrite (getMem_at vm a 8 6 b6 Ha) by (rewrite ?E; first [reflexivity | lia]).
  cbv beta iota.
  rewrite (getMem_at vm a 8 7 b7 Ha) by (rewrite ?E; first [reflexivity | lia]).
  cbv beta iota.
  rewrite asm64 by assumption. reflexivity.
Qed.

Lemma ld_run :
  a + 8 <= Z.of_nat (length (Mem vm)) ->
  ld i vm = Val (flags0, None)
              (stored vm (rd i) (leValue (bytesAt (Mem vm) a 8))).
Proof.
  intros Hfit.
  destruct (load_setup 8 ltac:(lia) Hfit) as (Ha & Hno & Hlen & Hby & Hrd').
  unfold ld, bind. rewrite (effAddr_run i vm base Hbase Himm). fold a.
  cbv beta iota. rewrite (load64_run Hfit). cbv beta iota.
  rewrite (store_stored _ _ _ Hrd'). reflexivity.
Qed.

End Loads.

Lemma load_run (hostWrite : Z -> list Z -> Z) (f : fnptr)
    (i : Instruction) (vm : VM) (base w : Z) :
  isLoad f = true ->
  accessWidth f = Some w ->
  wfVM vm = true ->
  idx (Reg vm) (rs1 i) = Some base ->
  0 <= imm i < 2 ^ 12 ->
  0 <= rd i < 32 ->
  effective base (imm i) + w <= Z.of_nat (length (Mem vm)) ->
  call hostWrite f i vm
  = Val (flags0, None)
        (stored vm (rd i)
           (loadExt f (leValue (bytesAt (Mem vm) (effective base (imm i)) w)))).
Proof.
  intros Hl Hw Hwf Hb Hi Hrd Hfit.
  destruct f; try discriminate Hl; injection Hw as <-; cbn [call loadExt].
  - apply lb_run; assumption.
  - apply lh_run; assumption.
  - apply lw_run; assumption.
  - apply lbu_run; assumption.
  - apply lhu_run; assumption.
  - apply lwu_run; assumption.
  - apply ld_run; assumption.
Qed.

(** Every load reads the bytes at the effective address as a
    little-endian number; [lb], [lh] and [lw] sign-extend it from its
    width and [lbu], [lhu], [lwu] and [ld] store it as it is.  Nothing
    but [rd] changes. *)
Theorem loads_little_endian (hostWrite : Z -> list Z -> Z) (f : fnptr)
    (i : Instruction) (vm : VM) (base w : Z) :
  isLoad f = true ->
  accessWidth f = Some w ->
  wfVM vm = true ->
  idx (Reg vm) (rs1 i) = Some base ->
  0 <= imm i < 2 ^ 12 ->
  0 <= rd i < 32 ->
  effective base (imm i) + w <= Z.of_nat (length (Mem vm)) ->
  call hostWrite f i vm
  = Val (flags0, None)
        (stored vm (rd i)
           (loadExt f (leValue (bytesAt (Mem vm) (effective base (imm i)) w)))).
Proof. intros; eapply load_run; eassumption. Qed.

(** *** Out of bounds *)

Lemma getMem_cases vm a :
  getMem a vm = Panic oob
  \/ exists b, 0 <= a < Z.of_nat (length (Mem vm)) /\ getMem a vm = Val b vm.
Proof.
  unfold getMem. destruct (idx (Mem vm) a) as [b|] eqn:E.
  - right. exists b. split; [eapply idx_bound, E | reflexivity].
  - left. reflexivity.
Qed.

Lemma setMem_cases vm a b :
  setMem a b vm = Panic oob
  \/ (0 <= a < Z.of_nat (length (Mem vm))
      /\ setMem a b vm = Val tt (withMem vm (<[Z.to_nat a := b]> (Mem vm)))).
Proof.
  destruct (Z.ltb_spec a 0); [left; apply setMem_oob; lia|].
  destruct (Z.ltb_spec a (Z.of_nat (length (Mem vm)))).
  - right. split; [lia | apply setMem_run; lia].
  - left. apply setMem_oob. lia.
Qed.

(** One access of a load or store: it panics, or it was in range. *)
Ltac access :=
  match goal with
  | |- context [getMem ?a ?vm] =>
      let E := fresh "E" in let R := fresh "R" in let b := fresh "b" in
      destruct (getMem_cases vm a) as [E|(b & R & E)];
      rewrite E; cbv beta iota; [reflexivity|]
  | |- context [setMem ?a ?b ?vm] =>
      let E := fresh "E" in let R := fresh "R" in
      destruct (setMem_cases vm a b) as [E|(R & E)];
      rewrite E; cbv beta iota; [reflexivity|];
      cbn [Mem withMem] in R; rewrite ?length_insert in R
  end.

(** The accesses all went through: the last byte was in range after
    all. *)
Ltac in_range_after_all :=
  exfalso;
  repeat match goal with
         | H : context [add64 ?a ?k] |- _ =>
             rewrite (add64_small a k) in H by lia
         end;
  lia.

(** A load or store whose last byte lies beyond the end of memory
    panics with an index out of range. *)
Theorem access_beyond_memory_panics (hostWrite : Z -> list Z -> Z) (f : fnptr)
    (i : Instruction) (vm : VM) (base w : Z) :
  accessWidth f = Some w ->
  wfVM vm = true ->
  idx (Reg vm) (rs1 i) = Some base ->
  0 <= rs2 i < 32 ->
  0 <= imm i < 2 ^ 12 ->
  Z.of_nat (length (Mem vm)) < effective base (imm i) + w ->
  call hostWrite f i vm = Panic oob.
Proof.
  intros Hw Hwf Hb H2 Hi Hout.
  destruct (wfVM_facts vm Hwf) as (HR & _ & _ & _ & _ & _ & HL).
  destruct (getReg_wf vm (rs2 i) Hwf H2) as (v & Hv & _).
  pose proof (effective_range base (imm i)) as Ba.
  set (a := effective base (imm i)) in *.
  destruct f; try discriminate Hw; injection Hw as <-; cbn [call];
    unfold lb, lh, lw, lbu, lhu, lwu, ld, sb, sh, sw, sd, load32, load64, bind;
    rewrite (effAddr_run i vm base Hb Hi); fold a; cbv beta iota;
    rewrite ?(getReg_eq _ _ _ Hv); cbv beta iota;
    repeat access; in_range_after_all.
Qed.

(** *** Store, then load *)

Lemma forallb_take {A} (p : A -> bool) (l : list A) n :
  forallb p l = true -> forallb p (take n l) = true.
Proof.
  revert n. induction l as [|x l IH]; intros [|n] H; try reflexivity.
  cbn in *. apply andb_true_iff in H. destruct H as [Hx Hl].
  rewrite Hx. cbn. apply IH, Hl.
Qed.

Lemma forallb_drop {A} (p : A -> bool) (l : list A) n :
  forallb p l = true -> forallb p (drop n l) = true.
Proof.
  revert n. induction l as [|x l IH]; intros [|n] H; try reflexivity; try exact H.
  cbn in *. apply andb_true_iff in H. destruct H as [_ Hl]. apply IH, Hl.
Qed.

Lemma byte_isByte v : isByte (byte v) = true.
Proof. apply isByte_range. unfold byte. apply Z.mod_pos_bound. lia. Qed.

Lemma le64_isByte v : forallb isByte (le64 v) = true.
Proof. unfold le64. cbn [forallb]. rewrite !byte_isByte. reflexivity. Qed.

(** A machine stays well formed when bytes are written over bytes. *)
Lemma wfVM_splice vm a bs :
  wfVM vm = true ->
  forallb isByte bs = true ->
  0 <= a -> a + Z.of_nat (length bs) <= Z.of_nat (length (Mem vm)) ->
  wfVM (withMem vm (splice (Mem vm) a bs)) = true.
Proof.
  unfold wfVM. rewrite !andb_true_iff.
  intros ((((((HR & HC) & FR) & FC) & FM) & HP) & HL) Hbs Ha Hfit.
  cbn [withMem Reg CSR Mem PC].
  rewrite length_splice by lia.
  repeat split; try assumption.
  unfold splice. rewrite !forallb_app, Hbs, forallb_take, forallb_drop by exact FM.
  reflexivity.
Qed.

Lemma bytesAt_splice m a bs :
  0 <= a -> a + Z.of_nat (length bs) <= Z.of_nat (length m) ->
  bytesAt (splice m a bs) a (Z.of_nat (length bs)) = bs.
Proof.
  intros Ha Hfit. unfold bytesAt, splice.
  rewrite drop_app_length' by (rewrite length_take; lia).
  rewrite Nat2Z.id. apply take_app_length.
Qed.

Lemma byte_shr v k : 0 <= k -> byte (shr64 v k) = (v / 2 ^ k) mod 2 ^ 8.
Proof. intros Hk. unfold byte. rewrite shr64_div by lia. reflexivity. Qed.

(** One more byte of a number. *)
Lemma mod_next_byte v n :
  0 <= n ->
  v mod 2 ^ (n + 8) = v mod 2 ^ n + 2 ^ n * ((v / 2 ^ n) mod 2 ^ 8).
Proof.
  intros Hn. rewrite Z.pow_add_r by lia.
  apply Z.rem_mul_r; [|lia].
  apply Z.pow_nonzero; lia.
Qed.

(** The low [w] bytes of a register spell its value modulo
    [2^(8 w)]. *)
Lemma leValue_le64 v w :
  0 <= v < 2 ^ 64 ->
  w = 1 \/ w = 2 \/ w = 4 \/ w = 8 ->
  leValue (take (Z.to_nat w) (le64 v)) = v mod 2 ^ (8 * w).
Proof.
  intros Hv Hw.
  pose proof (mod_next_byte v 0 ltac:(lia)) as E1.
  pose proof (mod_next_byte v 8 ltac:(lia)) as E2.
  pose proof (mod_next_byte v 16 ltac:(lia)) as E3.
  pose proof (mod_next_byte v 24 ltac:(lia)) as E4.
  pose proof (mod_next_byte v 32 ltac:(lia)) as E5.
  pose proof (mod_next_byte v 40 ltac:(lia)) as E6.
  pose proof (mod_next_byte v 48 ltac:(lia)) as E7.
  pose proof (mod_next_byte v 56 ltac:(lia)) as E8.
  change (0 + 8) with 8 in E1. change (8 + 8) with 16 in E2.
  change (16 + 8) with 24 in E3. change (24 + 8) with 32 in E4.
  change (32 + 8) with 40 in E5. change (40 + 8) with 48 in E6.
  change (48 + 8) with 56 in E7. change (56 + 8) with 64 in E8.
  change (v / 2 ^ 0) with (v / 1) in E1. rewrite Z.div_1_r in E1.
  change (v mod 2 ^ 0) with (v mod 1) in E1. rewrite Z.mod_1_r in E1.
  unfold le64. rewrite !byte_shr by lia. unfold byte.
  destruct Hw as [-> | [-> | [-> | ->]]].
  - change (Z.to_nat 1) with 1%nat. change (8 * 1) with 8.
    unfold leValue. cbn [take fold_right]. lia.
  - change (Z.to_nat 2) with 2%nat. change (8 * 2) with 16.
    unfold leValue. cbn [take fold_right]. lia.
  - change (Z.to_nat 4) with 4%nat. change (8 * 4) with 32.
    unfold leValue. cbn [take fold_right]. lia.
  - change (Z.to_nat 8) with 8%nat. change (8 * 8) with 64.
    unfold leValue. cbn [take fold_right]. lia.
Qed.

(** A store followed by a load of the same width from the same address
    gives back the low bytes of the stored register: sign-extended by
    [lb], [lh] and [lw], zero-extended by [lbu], [lhu] and [lwu], and
    whole for [sd] and [ld]. *)
Theorem store_load_round_trip (hostWrite : Z -> list Z -> Z) (fs fl : fnptr)
    (i j : Instruction) (vm : VM) (base v w : Z) :
  isStore fs = true -> isLoad fl = true ->
  accessWidth fs = Some w -> accessWidth fl = Some w ->
  wfVM vm = true ->
  idx (Reg vm) (rs1 i) = Some base ->
  idx (Reg vm) (rs2 i) = Some v ->
  0 <= imm i < 2 ^ 12 ->
  rs1 j = rs1 i -> imm j = imm i -> 0 <= rd j < 32 ->
  effective base (imm i) + w <= Z.of_nat (length (Mem vm)) ->
  exists vm',
    call hostWrite fs i vm = Val (flags0, None) vm'
    /\ call hostWrite fl j vm'
       = Val (flags0, None) (stored vm' (rd j) (loadExt fl (v mod 2 ^ (8 * w)))).
Proof.
  intros Hs Hl Hws Hwl Hwf Hb Hv Hi Ej1 Eji Hrd Hfit.
  destruct (wfVM_facts vm Hwf) as (_ & _ & FR & _).
  pose proof (FR _ _ Hv) as Bv.
  pose proof (effective_range base (imm i)) as Ba.
  assert (Hw : w = 1 \/ w = 2 \/ w = 4 \/ w = 8)
    by (destruct fs; try discriminate Hs; injection Hws as <-; lia).
  set (bs := take (Z.to_nat w) (le64 v)).
  assert (Hlen : Z.of_nat (length bs) = w)
    by (unfold bs; destruct Hw as [-> | [-> | [-> | ->]]]; reflexivity).
  eexists. split.
  - apply (store_run hostWrite fs i vm base v w); assumption.
  - fold bs.
    rewrite (load_run hostWrite fl j _ base w Hl Hwl).
    + cbn [Mem withMem]. rewrite Eji, <- Hlen at 1.
      rewrite bytesAt_splice by lia.
      unfold bs. rewrite leValue_le64 by assumption. reflexivity.
    + apply wfVM_splice; [assumption| |lia|lia].
      unfold bs. apply forallb_take, le64_isByte.
    + rewrite Ej1. exact Hb.
    + rewrite Eji. exact Hi.
    + exact Hrd.
    + cbn [Mem withMem]. rewrite length_splice by lia.
      rewrite Eji. exact Hfit.
Qed.


(** ** The compressed decoder *)

Lemma In_upto n : forall k i, k <= i < k + Z.of_nat n -> In i (upto n k).
Proof.
  induction n as [|n IH]; intros k i Hi; [lia|].
  cbn [upto In]. destruct (Z.eq_dec k i) as [E|E]; [left; exact E|].
  right. apply IH. lia.
Qed.

Lemma forallb_below (p : Z -> bool) (n : Z) :
  forallb p (below n) = true -> forall i, 0 <= i < n -> p i = true.
Proof.
  intros H i Hi. rewrite forallb_forall in H. apply H.
  unfold below. apply In_upto. lia.
Qed.

Lemma rvcOutcome_all : forallb rvcOutcomeOK (below (2 ^ 16)) = true.
Proof. vm_compute. reflexivity. Qed.

Lemma rvcOffsets_all : forallb rvcOffsetsChecked (below (2 ^ 16)) = true.
Proof. vm_compute. reflexivity. Qed.

Lemma rvcDecode_cases (i : Z) :
  0 <= i < 2 ^ 16 ->
  match rvcDecode i with
  | Returns (Some ins, None) =>
      i <> 0 /\ rvcUnsupported i = false /\ runnable ins = true
  | Returns (None, Some _) => i = 0
  | Returns _ => False
  | Panics _ => rvcUnsupported i = true
  end.
Proof.
  intros Hi.
  pose proof (forallb_below _ _ rvcOutcome_all i Hi) as H.
  unfold rvcOutcomeOK in H.
  destruct (rvcDecode i) as [[[ins|] [e|]]|msg]; try discriminate H.
  - rewrite !andb_true_iff, !negb_true_iff in H. destruct H as ((H0 & Hu) & Hr).
    apply Z.eqb_neq in H0. repeat split; assumption.
  - apply Z.eqb_eq, H.
  - exact H.
Qed.

(** [rvcDecode] on a 16-bit word: it returns an error for the all-zero
    word and for no other; it panics for the encodings it does not
    implement ([rvcUnsupported]) and for no other; on every other word
    it returns an instruction with a handler and register numbers below
    32. *)
Theorem rvcDecode_outcome (i : Z) :
  0 <= i < 2 ^ 16 ->
  match rvcDecode i with
  | Returns (Some ins, None) =>
      i <> 0 /\ rvcUnsupported i = false /\ runnable ins = true
  | Returns (None, Some _) => i = 0
  | Returns _ => False
  | Panics _ => rvcUnsupported i = true
  end.
Proof. intros; eapply rvcDecode_cases; eassumption. Qed.

(** The offsets [rvcDecode] builds are aligned and in range: word
    accesses (C.LW, C.SW, C.LWSP, C.SWSP) get a multiple of 4 below 256,
    doubleword accesses (C.LD, C.SD, C.LDSP, C.SDSP) a multiple of 8
    below 512, C.J an even offset within 2 KiB, C.BEQZ and C.BNEZ an
    even offset within 256 bytes. *)
Theorem rvcDecode_offsets (i : Z) (ins : Instruction) :
  0 <= i < 2 ^ 16 ->
  rvcDecode i = Returns (Some ins, None) ->
  rvcOffsetOK ins = true.
Proof.
  intros Hi E.
  pose proof (forallb_below _ _ rvcOffsets_all i Hi) as H.
  unfold rvcOffsetsChecked in H. rewrite E in H. exact H.
Qed.



(** ** Bit fields *)

Lemma land_shr_field i s n k :
  0 <= s -> 0 <= n -> 0 <= k ->
  Z.land (Z.shiftr i s) (Z.ones n * 2 ^ k)
  = 2 ^ k * ((i / 2 ^ (s + k)) mod 2 ^ n).
Proof.
  intros Hs Hn Hk. apply Z.bits_inj'. intros m Hm.
  rewrite Z.land_spec, Z.shiftr_spec by lia.
  rewrite (Z.mul_comm (2 ^ k)), !Z.mul_pow2_bits by lia.
  destruct (Z.ltb_spec m k) as [Hlt|Hge].
  - rewrite !(Z.testbit_neg_r _ (m - k)) by lia. apply andb_false_r.
  - rewrite Z.testbit_ones by lia.
    rewrite Z.testbit_mod_pow2 by lia.
    rewrite Z.div_pow2_bits by lia.
    replace (m - k + (s + k)) with (m + s) by lia.
    destruct (Z.leb_spec 0 (m - k)); [|lia].
    cbn [andb]. apply andb_comm.
Qed.

Lemma bitsOf_spec w hi lo : bitsOf w hi lo = (w / 2 ^ lo) mod 2 ^ (hi - lo + 1).
Proof. reflexivity. Qed.

(** [in >> s & mask] for a mask of [n] ones from bit [k] on. *)
Lemma field w s n k :
  0 <= s -> 0 < n -> 0 <= k ->
  Z.land (shr64 w s) (Z.ones n * 2 ^ k)
  = 2 ^ k * bitsOf w (s + k + n - 1) (s + k).
Proof.
  intros Hs Hn Hk. unfold shr64, bitsOf.
  rewrite land_shr_field by lia.
  do 3 f_equal. lia.
Qed.

Lemma field0 w n k :
  0 < n -> 0 <= k ->
  Z.land w (Z.ones n * 2 ^ k) = 2 ^ k * bitsOf w (k + n - 1) k.
Proof.
  intros Hn Hk. rewrite <- (Z.shiftr_0_r w) at 1.
  apply (field w 0 n k); lia.
Qed.

Lemma bitsOf_range w hi lo : lo <= hi -> 0 <= bitsOf w hi lo < 2 ^ (hi - lo + 1).
Proof.
  intros H. unfold bitsOf. apply Z.mod_pos_bound.
  apply Z.pow_pos_nonneg; lia.
Qed.

(** [in << 4 & 0x800]: bit 7 of the word, moved to bit 11. *)
Lemma field_shl4 w :
  0 <= w < 2 ^ 64 ->
  Z.land (shl64 w 4) 0x800 = 2 ^ 11 * bitsOf w 7 7.
Proof.
  intros Hw. unfold shl64, wrap64, bitsOf.
  change 0x800 with (Z.ones 1 * 2 ^ 11). change (7 - 7 + 1) with 1.
  apply Z.bits_inj'. intros m Hm.
  rewrite Z.land_spec.
  rewrite (Z.mul_comm (2 ^ 11)), !Z.mul_pow2_bits by lia.
  destruct (Z.ltb_spec m 11) as [Hlt|Hge].
  - rewrite !(Z.testbit_neg_r _ (m - 11)) by lia. apply andb_false_r.
  - rewrite Z.testbit_ones, !Z.testbit_mod_pow2 by lia.
    rewrite Z.shiftl_spec by lia.
    rewrite Z.div_pow2_bits by lia.
    replace (m - 11 + 7) with (m - 4) by lia.
    destruct (Z.leb_spec 0 (m - 11)); [|lia].
    destruct (Z.ltb_spec (m - 11) 1); cbn [andb];
      [|rewrite andb_false_r; reflexivity].
    destruct (Z.ltb_spec m 64); [|lia].
    cbn [andb]. apply andb_true_r.
Qed.

(** The word [Decode] assembles from four bytes. *)
Lemma word32_assemble b0 b1 b2 b3 :
  0 <= b0 < 2 ^ 8 -> 0 <= b1 < 2 ^ 8 -> 0 <= b2 < 2 ^ 8 -> 0 <= b3 < 2 ^ 8 ->
  Z.lor (Z.lor (Z.lor (shl64 (uint64 b3) 24) (shl64 (uint64 b2) 16))
               (shl64 (uint64 b1) 8)) (uint64 b0)
  = word32 b0 b1 b2 b3.
Proof.
  intros H0 H1 H2 H3.
  rewrite (shl64_byte b3 24), (shl64_byte b2 16), (shl64_byte b1 8) by lia.
  unfold uint64. rewrite wrap64_small by lia.
  rewrite (Z.lor_comm (b3 * 2 ^ 24)), (lor_disjoint (b2 * 2 ^ 16) b3 24) by lia.
  replace (b2 * 2 ^ 16 + b3 * 2 ^ 24) with ((b2 + b3 * 2 ^ 8) * 2 ^ 16) by lia.
  rewrite (Z.lor_comm _ (b1 * 2 ^ 8)), (lor_disjoint (b1 * 2 ^ 8) _ 16) by lia.
  replace (b1 * 2 ^ 8 + (b2 + b3 * 2 ^ 8) * 2 ^ 16)
    with ((b1 + b2 * 2 ^ 8 + b3 * 2 ^ 16) * 2 ^ 8) by lia.
  rewrite (Z.lor_comm _ b0), lor_disjoint by lia.
  unfold word32. lia.
Qed.

Lemma word32_range b0 b1 b2 b3 :
  0 <= b0 < 2 ^ 8 -> 0 <= b1 < 2 ^ 8 -> 0 <= b2 < 2 ^ 8 -> 0 <= b3 < 2 ^ 8 ->
  0 <= word32 b0 b1 b2 b3 < 2 ^ 32.
Proof. intros. unfold word32. lia. Qed.

Lemma word32_low b0 b1 b2 b3 n :
  0 <= n <= 8 ->
  word32 b0 b1 b2 b3 mod 2 ^ n = b0 mod 2 ^ n.
Proof.
  intros Hn. unfold word32.
  assert (E : 2 ^ (8 - n) * 2 ^ n = 2 ^ 8)
    by (rewrite <- Z.pow_add_r by lia; f_equal; lia).
  replace (b0 + 2 ^ 8 * b1 + 2 ^ 16 * b2 + 2 ^ 24 * b3)
    with (b0 + (2 ^ (8 - n) * (b1 + 2 ^ 8 * b2 + 2 ^ 16 * b3)) * 2 ^ n).
  - apply Z_mod_plus_full.
  - replace (2 ^ (8 - n) * (b1 + 2 ^ 8 * b2 + 2 ^ 16 * b3) * 2 ^ n)
      with ((2 ^ (8 - n) * 2 ^ n) * (b1 + 2 ^ 8 * b2 + 2 ^ 16 * b3)) by ring.
    rewrite E. lia.
Qed.

(** The fields [Decode] extracts, one mask at a time. *)
Lemma f_bop w : Z.land (shr64 w 2) 31 = bitsOf w 6 2.
Proof. rewrite <- (Z.mul_1_l (bitsOf w 6 2)). exact (field w 2 5 0 ltac:(lia) ltac:(lia) ltac:(lia)). Qed.

Lemma f_rs1 w : Z.land (shr64 w 15) 31 = bitsOf w 19 15.
Proof. rewrite <- (Z.mul_1_l (bitsOf w 19 15)). exact (field w 15 5 0 ltac:(lia) ltac:(lia) ltac:(lia)). Qed.

Lemma f_rs2 w : Z.land (shr64 w 20) 31 = bitsOf w 24 20.
Proof. rewrite <- (Z.mul_1_l (bitsOf w 24 20)). exact (field w 20 5 0 ltac:(lia) ltac:(lia) ltac:(lia)). Qed.

Lemma f_rd w : Z.land (shr64 w 7) 31 = bitsOf w 11 7.
Proof. rewrite <- (Z.mul_1_l (bitsOf w 11 7)). exact (field w 7 5 0 ltac:(lia) ltac:(lia) ltac:(lia)). Qed.

Lemma f_funct7 w : Z.land (shr64 w 17) 0x7f00 = 2 ^ 8 * bitsOf w 31 25.
Proof. exact (field w 17 7 8 ltac:(lia) ltac:(lia) ltac:(lia)). Qed.

Lemma f_funct3 w : Z.land (shr64 w 7) 0xE0 = 2 ^ 5 * bitsOf w 14 12.
Proof. exact (field w 7 3 5 ltac:(lia) ltac:(lia) ltac:(lia)). Qed.

Lemma f_immI w : Z.land (shr64 w 20) 0xfff = bitsOf w 31 20.
Proof. rewrite <- (Z.mul_1_l (bitsOf w 31 20)). exact (field w 20 12 0 ltac:(lia) ltac:(lia) ltac:(lia)). Qed.

Lemma f_immS_hi w : Z.land (shr64 w 20) 0xFE0 = 2 ^ 5 * bitsOf w 31 25.
Proof. exact (field w 20 7 5 ltac:(lia) ltac:(lia) ltac:(lia)). Qed.

Lemma f_immB_12 w : Z.land (shr64 w 19) 0x1000 = 2 ^ 12 * bitsOf w 31 31.
Proof. exact (field w 19 1 12 ltac:(lia) ltac:(lia) ltac:(lia)). Qed.

Lemma f_immB_10_5 w : Z.land (shr64 w 20) 0x7e0 = 2 ^ 5 * bitsOf w 30 25.
Proof. exact (field w 20 6 5 ltac:(lia) ltac:(lia) ltac:(lia)). Qed.

Lemma f_immB_4_1 w : Z.land (shr64 w 7) 0x1e = 2 * bitsOf w 11 8.
Proof. exact (field w 7 4 1 ltac:(lia) ltac:(lia) ltac:(lia)). Qed.

Lemma f_immU w : Z.land w 0xFFFFF000 = 2 ^ 12 * bitsOf w 31 12.
Proof. exact (field0 w 20 12 ltac:(lia) ltac:(lia)). Qed.

Lemma f_immJ_20 w : Z.land (shr64 w 11) 0x100000 = 2 ^ 20 * bitsOf w 31 31.
Proof. exact (field w 11 1 20 ltac:(lia) ltac:(lia) ltac:(lia)). Qed.

Lemma f_immJ_19_12 w : Z.land w 0xff000 = 2 ^ 12 * bitsOf w 19 12.
Proof. exact (field0 w 8 12 ltac:(lia) ltac:(lia)). Qed.

Lemma f_immJ_11 w : Z.land (shr64 w 9) 0x800 = 2 ^ 11 * bitsOf w 20 20.
Proof. exact (field w 9 1 11 ltac:(lia) ltac:(lia) ltac:(lia)). Qed.

Lemma f_immJ_10_1 w : Z.land (shr64 w 20) 0x7fe = 2 * bitsOf w 30 21.
Proof. exact (field w 20 10 1 ltac:(lia) ltac:(lia) ltac:(lia)). Qed.

(** Bit fields that do not overlap are joined by [|] as by [+]. *)
Lemma lor_fields hi lo k :
  0 <= k -> 0 <= lo < 2 ^ k -> Z.lor (2 ^ k * hi) lo = 2 ^ k * hi + lo.
Proof.
  intros Hk Hlo. rewrite Z.lor_comm, (Z.mul_comm (2 ^ k)), lor_disjoint by lia. lia.
Qed.


(** ** [Decode] on a 32-bit word *)

(** The immediates of the five formats, as sums of their fields. *)
Lemma immS_sum w :
  Z.lor (Z.land (shr64 w 20) 0xFE0) (Z.land (shr64 w 0x7) 0x1f)
  = 2 ^ 5 * bitsOf w 31 25 + bitsOf w 11 7.
Proof.
  rewrite f_immS_hi, f_rd.
  pose proof (bitsOf_range w 11 7 ltac:(lia)).
  apply lor_fields; lia.
Qed.

Lemma immB_sum w :
  0 <= w < 2 ^ 64 ->
  Z.lor (Z.lor (Z.lor (Z.land (shr64 w 19) 0x1000) (Z.land (shl64 w 4) 0x800))
               (Z.land (shr64 w 20) 0x7e0))
        (Z.land (shr64 w 7) 0x1e)
  = 2 ^ 12 * bitsOf w 31 31 + 2 ^ 11 * bitsOf w 7 7
    + 2 ^ 5 * bitsOf w 30 25 + 2 * bitsOf w 11 8.
Proof.
  intros Hw. rewrite f_immB_12, field_shl4, f_immB_10_5, f_immB_4_1 by exact Hw.
  pose proof (bitsOf_range w 31 31 ltac:(lia)).
  pose proof (bitsOf_range w 7 7 ltac:(lia)).
  pose proof (bitsOf_range w 30 25 ltac:(lia)).
  pose proof (bitsOf_range w 11 8 ltac:(lia)).
  rewrite (lor_fields (bitsOf w 31 31) _ 12) by lia.
  replace (2 ^ 12 * bitsOf w 31 31 + 2 ^ 11 * bitsOf w 7 7)
    with (2 ^ 11 * (2 * bitsOf w 31 31 + bitsOf w 7 7)) by lia.
  rewrite (lor_fields _ _ 11) by lia.
  replace (2 ^ 11 * (2 * bitsOf w 31 31 + bitsOf w 7 7) + 2 ^ 5 * bitsOf w 30 25)
    with (2 ^ 5 * (2 ^ 6 * (2 * bitsOf w 31 31 + bitsOf w 7 7) + bitsOf w 30 25))
    by lia.
  rewrite (lor_fields _ _ 5) by lia.
  lia.
Qed.

Lemma immJ_sum w :
  Z.lor (Z.lor (Z.lor (Z.land (shr64 w 11) 0x100000) (Z.land w 0xff000))
               (Z.land (shr64 w 9) 0x800))
        (Z.land (shr64 w 20) 0x7fe)
  = 2 ^ 20 * bitsOf w 31 31 + 2 ^ 12 * bitsOf w 19 12
    + 2 ^ 11 * bitsOf w 20 20 + 2 * bitsOf w 30 21.
Proof.
  rewrite f_immJ_20, f_immJ_19_12, f_immJ_11, f_immJ_10_1.
  pose proof (bitsOf_range w 31 31 ltac:(lia)).
  pose proof (bitsOf_range w 19 12 ltac:(lia)).
  pose proof (bitsOf_range w 20 20 ltac:(lia)).
  pose proof (bitsOf_range w 30 21 ltac:(lia)).
  rewrite (lor_fields (bitsOf w 31 31) _ 20) by lia.
  replace (2 ^ 20 * bitsOf w 31 31 + 2 ^ 12 * bitsOf w 19 12)
    with (2 ^ 12 * (2 ^ 8 * bitsOf w 31 31 + bitsOf w 19 12)) by lia.
  rewrite (lor_fields _ _ 12) by lia.
  replace (2 ^ 12 * (2 ^ 8 * bitsOf w 31 31 + bitsOf w 19 12)
           + 2 ^ 11 * bitsOf w 20 20)
    with (2 ^ 11 * (2 * (2 ^ 8 * bitsOf w 31 31 + bitsOf w 19 12)
                    + bitsOf w 20 20)) by lia.
  rewrite (lor_fields _ _ 11) by lia.
  lia.
Qed.

(** The table index as [lookupFn] computes it. *)
Lemma key_sum w f7 :
  0 <= f7 ->
  Z.lor (Z.lor (2 ^ 8 * f7) (Z.land (shr64 w 7) 0xE0)) (Z.land (shr64 w 2) 0x1f)
  = 2 ^ 8 * f7 + 2 ^ 5 * bitsOf w 14 12 + bitsOf w 6 2.
Proof.
  intros Hf. rewrite f_funct3, f_bop.
  pose proof (bitsOf_range w 14 12 ltac:(lia)).
  pose proof (bitsOf_range w 6 2 ltac:(lia)).
  rewrite (lor_fields f7 _ 8) by lia.
  replace (2 ^ 8 * f7 + 2 ^ 5 * bitsOf w 14 12)
    with (2 ^ 5 * (2 ^ 3 * f7 + bitsOf w 14 12)) by lia.
  rewrite (lor_fields _ _ 5) by lia.
  lia.
Qed.

Lemma oneOf_app x l1 l2 : oneOf x (l1 ++ l2) = oneOf x l1 || oneOf x l2.
Proof. apply existsb_app. Qed.

(** The instruction record [Decode] fills in for the word [w], with
    the handler [f]. *)
Lemma lookupFn_fields pc w (f7 immv : Z) :
  0 <= f7 ->
  lookupFn pc w (2 ^ 8 * f7)
    (withImm {| fn := None;
                rs1 := Z.land (shr64 w 15) 0x1f;
                rs2 := Z.land (shr64 w 20) 0x1f;
                rd := Z.land (shr64 w 7) 0x1f;
                imm := 0; in_ := w |} immv)
  = let key := 2 ^ 8 * f7 + 2 ^ 5 * bitsOf w 14 12 + bitsOf w 6 2 in
    if key <? rvi64Len then
      match assoc key rvi64Entries with
      | Some f =>
          Returns (Some {| fn := Some f; rs1 := bitsOf w 19 15;
                           rs2 := bitsOf w 24 20; rd := bitsOf w 11 7;
                           imm := immv; in_ := w |}, 4, None)
      | None =>
          Returns (None, 0,
            Some (Errorf "can't decode instruction %#x at %#x: no entry in rvi instructions table for %#x"
                         [w; pc; key]))
      end
    else Panics oob.
Proof.
  intros Hf. unfold lookupFn. cbv zeta.
  rewrite key_sum by exact Hf.
  rewrite f_rs1, f_rs2, f_rd.
  pose proof (bitsOf_range w 14 12 ltac:(lia)).
  pose proof (bitsOf_range w 6 2 ltac:(lia)).
  set (key := 2 ^ 8 * f7 + 2 ^ 5 * bitsOf w 14 12 + bitsOf w 6 2).
  unfold rvi64Instructions.
  destruct (Z.leb_spec 0 key); [|lia]. cbn [andb].
  destruct (key <? rvi64Len); [|reflexivity].
  cbn [pbind]. destruct (assoc key rvi64Entries); reflexivity.
Qed.

Lemma rem2_even n : 0 <= n -> Z.rem n 2 = 0 -> Z.rem (4 + n) 2 = 0.
Proof.
  intros Hn H. rewrite Z.rem_mod_nonneg in * by lia.
  rewrite Zplus_mod, H. reflexivity.
Qed.

Lemma oneOf_single x y : oneOf x [y] = (x =? y).
Proof. unfold oneOf. cbn [existsb]. apply orb_false_r. Qed.

Lemma oneOf_uTypes x : oneOf x uTypes = true -> x <> boLUI -> x = boAUIPC.
Proof.
  unfold oneOf, uTypes. cbn [existsb]. rewrite orb_false_r.
  intros H Hn. apply orb_true_iff in H. destruct H as [H|H]; apply Z.eqb_eq in H.
  - exact H.
  - contradiction.
Qed.

(** [Decode] on a buffer that starts with a 32-bit word of the base
    encoding (the low bits are 11 and bits 4..2 are not 111): the word
    is dispatched on its base opcode, through the table or, for LUI,
    AUIPC and JAL, directly. *)
Lemma Decode_normal pc b0 b1 b2 b3 rest :
  0 <= b0 < 2 ^ 8 -> 0 <= b1 < 2 ^ 8 -> 0 <= b2 < 2 ^ 8 -> 0 <= b3 < 2 ^ 8 ->
  Z.rem (Z.of_nat (length rest)) 2 = 0 ->
  Z.land b0 3 = 3 -> Z.land b0 31 <> 31 \/ Z.land b0 127 = 63 ->
  let w := word32 b0 b1 b2 b3 in
  let bop := bitsOf w 6 2 in
  let ins f := {| fn := Some f; rs1 := bitsOf w 19 15; rs2 := bitsOf w 24 20;
                  rd := bitsOf w 11 7; imm := immOf w; in_ := w |} in
  Decode pc (b0 :: b1 :: b2 :: b3 :: rest)
  = if oneOf bop tableTypes then
      if tableKey w <? rvi64Len then
        match assoc (tableKey w) rvi64Entries with
        | Some f => Returns (Some (ins f), 4, None)
        | None =>
            Returns (None, 0,
              Some (Errorf "can't decode instruction %#x at %#x: no entry in rvi instructions table for %#x"
                           [w; pc; tableKey w]))
        end
      else Panics oob
    else if oneOf bop uTypes then
      Returns (Some (ins (if bop =? boLUI then fn_lui else fn_auipc)), 4, None)
    else if bop =? boJAL then Returns (Some (ins fn_jal), 4, None)
    else Returns (None, 0,
           Some (Errorf "instruction %#x has unrecognized format (base opcode: %#x)"
                        [w; bop])).
Proof.
  intros B0 B1 B2 B3 Hpar H3 H31 w bop ins.
  pose proof (word32_range b0 b1 b2 b3 B0 B1 B2 B3) as Bw. fold w in Bw.
  unfold Decode. cbv zeta.
  assert (Elen : Z.of_nat (length (b0 :: b1 :: b2 :: b3 :: rest))
                 = 4 + Z.of_nat (length rest))
    by (cbn [length]; lia).
  rewrite Elen. clear Elen.
  pose proof (rem2_even _ (Nat2Z.is_nonneg (length rest)) Hpar) as Hpar4.
  assert (Hlen4 : 4 <= 4 + Z.of_nat (length rest)) by lia.
  set (len := 4 + Z.of_nat (length rest)) in *. clearbody len.
  destruct (Z.eqb_spec len 0) as [E0|_]; [exfalso; clear - Hlen4 E0; lia|].
  rewrite Hpar4. cbn [orb negb Z.eqb].
  unfold decodeSize.
  change (idx (b0 :: b1 :: b2 :: b3 :: rest) 0) with (Some b0).
  change (idx (b0 :: b1 :: b2 :: b3 :: rest) 1) with (Some b1).
  change (idx (b0 :: b1 :: b2 :: b3 :: rest) 2) with (Some b2).
  change (idx (b0 :: b1 :: b2 :: b3 :: rest) 3) with (Some b3).
  cbn [ofOption pbind].
  rewrite H3. change (negb (3 =? 3)) with false. cbv iota.
  assert (Hsize :
    (if negb (Z.land b0 31 =? 31) then Returns (4, true)
     else if Z.land b0 63 =? 31 then Returns (3, true)
     else if Z.land b0 127 =? 63 then Returns (4, true)
     else if Z.land b0 127 =? 127 then
       if Z.land (Z.shiftr b1 4) 7 =? 7 then Returns (0, false)
       else Returns (byte (5 + 2 * Z.land (Z.shiftr b1 4) 7), true)
     else Panics "unreachable") = Returns (4, true)).
  { destruct (Z.eqb_spec (Z.land b0 31) 31) as [E31|E31]; [|reflexivity].
    destruct H31 as [H31|H3f]; [contradiction|].
    cbn [negb].
    assert (E63 : Z.land b0 63 = 63).
    { change 63 with (Z.land 127 63) at 1.
      rewrite Z.land_assoc, H3f. reflexivity. }
    rewrite E63, H3f. reflexivity. }
  unfold shr64 in Hsize. rewrite Hsize. clear Hsize.
  cbn [negb pbind].
  destruct (Z.ltb_spec len 4) as [El|_]; [exfalso; clear - Hlen4 El; lia|].
  change (4 =? 2) with false. change (negb (4 =? 4)) with false. cbv iota.
  rewrite word32_assemble by assumption. fold w.
  rewrite !f_bop. fold bop.
  change (Z.land (shr64 w 17) 32512) with (Z.land (shr64 w 17) 0x7f00).
  rewrite f_funct7.
  pose proof (bitsOf_range w 31 25 ltac:(lia)) as B7.
  change [boAMO; boOp; boOp32; boOpFP] with rTypes.
  change [boLoad; boLoadFP; boMiscMem; boOpImm; boOpImm32; boJALR; boSystem]
    with iTypes.
  change [boStore; boStoreFP] with sTypes.
  change [boAUIPC; boLUI] with uTypes.
  rewrite !oneOf_single.
  assert (Hout : forall v,
    {| fn := None; rs1 := Z.land (shr64 w 15) 31; rs2 := Z.land (shr64 w 20) 31;
       rd := Z.land (shr64 w 7) 31; imm := v; in_ := w |}
    = withImm {| fn := None; rs1 := Z.land (shr64 w 15) 31;
                 rs2 := Z.land (shr64 w 20) 31; rd := Z.land (shr64 w 7) 31;
                 imm := 0; in_ := w |} v) by reflexivity.
  assert (Htab : oneOf bop tableTypes
                 = oneOf bop rTypes || oneOf bop iTypes || oneOf bop sTypes
                   || (bop =? boBranch)).
  { unfold tableTypes. rewrite !oneOf_app, oneOf_single, !orb_assoc. reflexivity. }
  rewrite Htab. subst ins. cbv beta.
  unfold immOf, tableKey. fold bop. cbv zeta.
  destruct (oneOf bop rTypes) eqn:HR.
  { cbn [orb]. cbv iota.
    rewrite (Hout 0), (lookupFn_fields pc w (bitsOf w 31 25) 0) by lia.
    reflexivity. }
  cbn [orb]. cbv iota. rewrite Z.add_0_l.
  destruct (oneOf bop iTypes) eqn:HI.
  { cbn [orb]. cbv iota. rewrite f_immI.
    rewrite <- (Z.mul_0_r (2 ^ 8)) at 1.
    rewrite (lookupFn_fields pc w 0 _) by lia.
    rewrite Z.mul_0_r, Z.add_0_l. reflexivity. }
  cbn [orb]. cbv iota.
  destruct (oneOf bop sTypes) eqn:HS.
  { cbn [orb]. cbv iota. rewrite immS_sum.
    rewrite <- (Z.mul_0_r (2 ^ 8)) at 1.
    rewrite (lookupFn_fields pc w 0 _) by lia.
    rewrite Z.mul_0_r, Z.add_0_l. reflexivity. }
  cbn [orb]. cbv iota.
  destruct (bop =? boBranch) eqn:HB.
  { cbv iota. rewrite immB_sum by lia.
    rewrite <- (Z.mul_0_r (2 ^ 8)) at 1.
    rewrite (lookupFn_fields pc w 0 _) by lia.
    rewrite Z.mul_0_r, Z.add_0_l. reflexivity. }
  cbv iota.
  destruct (oneOf bop uTypes) eqn:HU.
  { cbv iota. rewrite f_immU. unfold withFn, withImm.
    cbn [fn rs1 rs2 rd imm in_]. rewrite f_rs1, f_rs2, f_rd.
    change 13 with boLUI.
    destruct (Z.eqb_spec bop boLUI) as [E|E]; [reflexivity|].
    rewrite (oneOf_uTypes bop HU E). reflexivity. }
  cbv iota.
  destruct (bop =? boJAL) eqn:HJ.
  { cbv iota. rewrite immJ_sum. unfold withFn, withImm.
    cbn [fn rs1 rs2 rd imm in_]. rewrite f_rs1, f_rs2, f_rd. reflexivity. }
  reflexivity.
Qed.

(** ** The shape of what [Decode] returns *)

Lemma land31_range x : 0 <= Z.land x 31 < 32.
Proof.
  change 31 with (Z.ones 5). rewrite Z.land_ones by lia.
  apply Z.mod_pos_bound. lia.
Qed.

Lemma regOK_land31 x : regOK (Z.land x 31) = true.
Proof.
  pose proof (land31_range x). unfold regOK.
  apply andb_true_iff. rewrite Z.leb_le, Z.ltb_lt. lia.
Qed.

Lemma lor_lt_pow2 a b n :
  0 < n -> 0 <= a < 2 ^ n -> 0 <= b < 2 ^ n -> 0 <= Z.lor a b < 2 ^ n.
Proof.
  intros Hn Ha Hb.
  assert (H0 : 0 <= Z.lor a b) by (apply Z.lor_nonneg; lia).
  split; [exact H0|].
  destruct (Z.eq_dec (Z.lor a b) 0) as [E|E];
    [rewrite E; apply Z.pow_pos_nonneg; lia|].
  apply Z.log2_lt_pow2; [lia|].
  rewrite Z.log2_lor by lia.
  apply Z.max_lub_lt.
  - destruct (Z.eq_dec a 0) as [->|]; [exact Hn|]. apply Z.log2_lt_pow2; lia.
  - destruct (Z.eq_dec b 0) as [->|]; [exact Hn|]. apply Z.log2_lt_pow2; lia.
Qed.

(** The 16-bit parcel [Decode] hands to [rvcDecode]. *)
Lemma parcel_range b0 b1 :
  0 <= Z.lor (uint16 (Z.shiftl (uint16 b1) 8)) (uint16 b0) < 2 ^ 16.
Proof.
  apply lor_lt_pow2; [lia| |]; unfold uint16; apply Z.mod_pos_bound; lia.
Qed.

Lemma parcel_word16 b0 b1 :
  0 <= b0 < 2 ^ 8 -> 0 <= b1 < 2 ^ 8 ->
  Z.lor (uint16 (Z.shiftl (uint16 b1) 8)) (uint16 b0) = word16 b0 b1.
Proof.
  intros H0 H1. unfold uint16.
  rewrite (Z.mod_small b1), (Z.mod_small b0) by lia.
  rewrite Z.shiftl_mul_pow2 by lia.
  rewrite (Z.mod_small (b1 * 2 ^ 8)) by lia.
  rewrite Z.lor_comm, lor_disjoint by lia.
  unfold word16. lia.
Qed.

(** The result of the table lookup, whatever the word. *)
Lemma lookupFn_shape pc w f7 out ins size err :
  lookupFn pc w f7 out = Returns (ins, size, err) ->
  (exists f, ins = Some (withFn out (Some f)) /\ size = 4 /\ err = None)
  \/ (ins = None /\ size = 0 /\ err <> None).
Proof.
  unfold lookupFn. cbv zeta.
  destruct (rvi64Instructions _) as [[f|]|msg]; cbn [pbind]; intros H;
    try discriminate H; injection H as <- <- <-.
  - left. exists f. repeat split.
  - right. repeat split. discriminate.
Qed.

Lemma Decode_shape (pc : Z) (b : list Z) (ins : option Instruction)
    (size : Z) (err : option error) :
  Decode pc b = Returns (ins, size, err) ->
  match ins, err with
  | Some i, None =>
      (size = 2 \/ size = 4) /\ size <= Z.of_nat (length b)
      /\ runnable i = true
  | None, Some _ => size = 0 \/ size = 2
  | _, _ => False
  end.
Proof.
  unfold Decode. cbv zeta.
  set (len := Z.of_nat (length b)).
  destruct ((len =? 0) || negb (Z.rem len 2 =? 0)) eqn:Hpar.
  { intros [= <- <- <-]. left. reflexivity. }
  apply orb_false_iff in Hpar. destruct Hpar as [Hn0 Hev].
  apply Z.eqb_neq in Hn0. apply negb_false_iff, Z.eqb_eq in Hev.
  assert (Hlen2 : 2 <= len).
  { destruct (Z.eq_dec len 1) as [E|E]; [rewrite E in Hev; discriminate Hev|].
    unfold len in *. lia. }
  destruct b as [|b0 [|b1 rest]];
    [cbn [length] in len; unfold len in *; lia
    |cbn [length] in len; unfold len in *; lia|].
  unfold decodeSize.
  change (idx (b0 :: b1 :: rest) 0) with (Some b0).
  change (idx (b0 :: b1 :: rest) 1) with (Some b1).
  cbn [ofOption pbind].
  (* the instruction word, once there are four bytes *)
  assert (Hbody : forall i,
    (if oneOf (Z.land (shr64 i 2) 31) [boAMO; boOp; boOp32; boOpFP] then
       lookupFn pc i (Z.land (shr64 i 17) 0x7f00)
         {| fn := None; rs1 := Z.land (shr64 i 15) 31;
            rs2 := Z.land (shr64 i 20) 31; rd := Z.land (shr64 i 7) 31;
            imm := 0; in_ := i |}
     else if oneOf (Z.land (shr64 i 2) 31)
               [boLoad; boLoadFP; boMiscMem; boOpImm; boOpImm32; boJALR; boSystem]
     then lookupFn pc i 0
            (withImm {| fn := None; rs1 := Z.land (shr64 i 15) 31;
                        rs2 := Z.land (shr64 i 20) 31; rd := Z.land (shr64 i 7) 31;
                        imm := 0; in_ := i |} (Z.land (shr64 i 20) 0xfff))
     else if oneOf (Z.land (shr64 i 2) 31) [boStore; boStoreFP]
     then lookupFn pc i 0
            (withImm {| fn := None; rs1 := Z.land (shr64 i 15) 31;
                        rs2 := Z.land (shr64 i 20) 31; rd := Z.land (shr64 i 7) 31;
                        imm := 0; in_ := i |}
               (Z.lor (Z.land (shr64 i 20) 0xFE0) (Z.land (shr64 i 0x7) 0x1f)))
     else if oneOf (Z.land (shr64 i 2) 31) [boBranch]
     then lookupFn pc i 0
            (withImm {| fn := None; rs1 := Z.land (shr64 i 15) 31;
                        rs2 := Z.land (shr64 i 20) 31; rd := Z.land (shr64 i 7) 31;
                        imm := 0; in_ := i |}
               (Z.lor (Z.lor (Z.lor (Z.land (shr64 i 19) 0x1000)
                                    (Z.land (shl64 i 4) 0x800))
                             (Z.land (shr64 i 20) 0x7e0))
                      (Z.land (shr64 i 7) 0x1e)))
     else if oneOf (Z.land (shr64 i 2) 31) [boAUIPC; boLUI]
     then
       if Z.land (shr64 i 2) 31 =? 0x0D
       then Returns (Some (withFn (withImm
                       {| fn := None; rs1 := Z.land (shr64 i 15) 31;
                          rs2 := Z.land (shr64 i 20) 31;
                          rd := Z.land (shr64 i 7) 31;
                          imm := 0; in_ := i |} (Z.land i 0xFFFFF000))
                     (Some fn_lui)), 4, None)
       else if Z.land (shr64 i 2) 31 =? 0x05
       then Returns (Some (withFn (withImm
                       {| fn := None; rs1 := Z.land (shr64 i 15) 31;
                          rs2 := Z.land (shr64 i 20) 31;
                          rd := Z.land (shr64 i 7) 31;
                          imm := 0; in_ := i |} (Z.land i 0xFFFFF000))
                     (Some fn_auipc)), 4, None)
       else Returns (None, 0,
              Some (Errorf "instruction %#x uses u-type but it's neither AUIPC nor LUI" [i]))
     else if oneOf (Z.land (shr64 i 2) 31) [boJAL]
     then Returns (Some (withFn (withImm
                     {| fn := None; rs1 := Z.land (shr64 i 15) 31;
                        rs2 := Z.land (shr64 i 20) 31;
                        rd := Z.land (shr64 i 7) 31;
                        imm := 0; in_ := i |}
                     (Z.lor (Z.lor (Z.lor (Z.land (shr64 i 11) 0x100000)
                                          (Z.land i 0xff000))
                                   (Z.land (shr64 i 9) 0x800))
                            (Z.land (shr64 i 20) 0x7fe)))
                   (Some fn_jal)), 4, None)
     else Returns (None, 0,
            Some (Errorf "instruction %#x has unrecognized format (base opcode: %#x)"
                         [i; Z.land (shr64 i 2) 31])))
    = Returns (ins, size, err) ->
    4 <= len ->
    match ins, err with
    | Some i0, None =>
        (size = 2 \/ size = 4) /\ size <= len /\ runnable i0 = true
    | None, Some _ => size = 0 \/ size = 2
    | _, _ => False
    end).
  { intros i H Hlen4.
    assert (Hrun : forall out f,
              rs1 out = Z.land (shr64 i 15) 31 -> rs2 out = Z.land (shr64 i 20) 31 ->
              rd out = Z.land (shr64 i 7) 31 ->
              runnable (withFn out (Some f)) = true).
    { intros out f E1 E2 Ed. unfold runnable. cbn [fn withFn rd rs1 rs2].
      rewrite E1, E2, Ed, !regOK_land31. reflexivity. }
    repeat match type of H with
           | (if ?c then _ else _) = _ => destruct c
           end;
      try (apply lookupFn_shape in H;
           destruct H as [(f & -> & -> & ->)|(-> & -> & Hne)];
           [split; [right; reflexivity|]; split; [exact Hlen4|];
            apply Hrun; reflexivity
           |destruct err; [left; reflexivity | contradiction]]);
      try (injection H as <- <- <-;
           first [ left; reflexivity
                 | split; [right; reflexivity|]; split; [exact Hlen4|];
                   apply Hrun; reflexivity ]). }
  destruct (negb (Z.land b0 3 =? 3)).
  { (* a compressed instruction *)
    cbn [pbind]. destruct (Z.ltb_spec len 2) as [Hl|_]; [lia|].
    change (2 =? 2) with true. cbv iota.
    pose proof (rvcDecode_cases _ (parcel_range b0 b1)) as Hout.
    destruct (rvcDecode _) as [[[i|] [e|]]|msg]; cbn [pbind];
      try contradiction; intros HD; try discriminate HD;
      injection HD as <- <- <-.
    - destruct Hout as (_ & _ & Hr).
      split; [left; reflexivity|]. split; [exact Hlen2|].
      unfold runnable in *. cbn [withIn fn rd rs1 rs2]. exact Hr.
    - right. reflexivity. }
  destruct (negb (Z.land b0 31 =? 31)).
  { cbn [pbind negb]. destruct (Z.ltb_spec len 4) as [Hl|Hl].
    - intros [= <- <- <-]. left. reflexivity.
    - change (4 =? 2) with false. change (negb (4 =? 4)) with false. cbv iota.
      destruct rest as [|b2 [|b3 rest]];
        [cbn [length] in len; unfold len in *; lia
        |cbn [length] in len; unfold len in *; lia|].
      change (idx (b0 :: b1 :: b2 :: b3 :: rest) 0) with (Some b0).
      change (idx (b0 :: b1 :: b2 :: b3 :: rest) 1) with (Some b1).
      change (idx (b0 :: b1 :: b2 :: b3 :: rest) 2) with (Some b2).
      change (idx (b0 :: b1 :: b2 :: b3 :: rest) 3) with (Some b3).
      cbn [ofOption pbind].
      intros HD. apply (Hbody _ HD). lia. }
  destruct (Z.land b0 63 =? 31).
  { cbn [pbind negb]. destruct (len <? 3); intros [= <- <- <-]; left; reflexivity. }
  destruct (Z.land b0 127 =? 63).
  { cbn [pbind negb]. destruct (Z.ltb_spec len 4) as [Hl|Hl].
    - intros [= <- <- <-]. left. reflexivity.
    - change (4 =? 2) with false. change (negb (4 =? 4)) with false. cbv iota.
      destruct rest as [|b2 [|b3 rest]];
        [cbn [length] in len; unfold len in *; lia
        |cbn [length] in len; unfold len in *; lia|].
      change (idx (b0 :: b1 :: b2 :: b3 :: rest) 0) with (Some b0).
      change (idx (b0 :: b1 :: b2 :: b3 :: rest) 1) with (Some b1).
      change (idx (b0 :: b1 :: b2 :: b3 :: rest) 2) with (Some b2).
      change (idx (b0 :: b1 :: b2 :: b3 :: rest) 3) with (Some b3).
      cbn [ofOption pbind].
      intros HD. apply (Hbody _ HD). lia. }
  destruct (Z.land b0 127 =? 127); [|discriminate].
  cbn [pbind].
  destruct (Z.land (Z.shiftr b1 4) 7 =? 7) eqn:En.
  { cbn [pbind negb]. intros [= <- <- <-]. left. reflexivity. }
  cbn [pbind negb].
  set (n := Z.land (Z.shiftr b1 4) 7) in *.
  assert (Hn : 0 <= n < 8).
  { unfold n. change 7 with (Z.ones 3). rewrite Z.land_ones by lia.
    apply Z.mod_pos_bound. lia. }
  assert (Hsz : byte (5 + 2 * n) = 5 + 2 * n)
    by (unfold byte; apply Z.mod_small; lia).
  rewrite Hsz.
  destruct (len <? 5 + 2 * n); [intros [= <- <- <-]; left; reflexivity|].
  destruct (Z.eqb_spec (5 + 2 * n) 2) as [E2|_]; [lia|].
  destruct (Z.eqb_spec (5 + 2 * n) 4) as [E4|_]; [lia|].
  cbn [negb]. intros [= <- <- <-]. left. reflexivity.
Qed.

(** Whatever the buffer, when [Decode] returns it returns either an
    instruction and no error, or an error and no instruction.  With an
    instruction the size is 2 or 4 and no more than the buffer holds,
    the instruction has a handler, and its three register numbers are
    below 32; with an error the size is 0 or 2. *)
Theorem Decode_wellformed (pc : Z) (b : list Z) (ins : option Instruction)
    (size : Z) (err : option error) :
  Decode pc b = Returns (ins, size, err) ->
  match ins, err with
  | Some i, None =>
      (size = 2 \/ size = 4) /\ size <= Z.of_nat (length b)
      /\ runnable i = true
  | None, Some _ => size = 0 \/ size = 2
  | _, _ => False
  end.
Proof. intros; eapply Decode_shape; eassumption. Qed.


(** ** [Decode] by the kind of its buffer *)

Lemma Decode_odd pc b :
  Z.of_nat (length b) = 0 \/ Z.rem (Z.of_nat (length b)) 2 <> 0 ->
  Decode pc b
  = Returns (None, 0,
      Some (Errorf "can't decode %d bytes: length must be a non-zero multiple of 2"
                   [Z.of_nat (length b)])).
Proof.
  intros H. unfold Decode. cbv zeta.
  destruct (Z.eqb_spec (Z.of_nat (length b)) 0) as [E|E]; [reflexivity|].
  destruct (Z.eqb_spec (Z.rem (Z.of_nat (length b)) 2) 0) as [E2|E2];
    [|reflexivity].
  destruct H; contradiction.
Qed.

Lemma rem2_even2 n : 0 <= n -> Z.rem n 2 = 0 -> Z.rem (2 + n) 2 = 0.
Proof.
  intros Hn H. rewrite Z.rem_mod_nonneg in * by lia.
  rewrite Zplus_mod, H. reflexivity.
Qed.

(** A buffer that starts with a compressed parcel. *)
Lemma Decode_rvc pc b0 b1 rest :
  0 <= b0 < 2 ^ 8 -> 0 <= b1 < 2 ^ 8 ->
  Z.rem (Z.of_nat (length rest)) 2 = 0 ->
  Z.land b0 3 <> 3 ->
  Decode pc (b0 :: b1 :: rest)
  = match rvcDecode (word16 b0 b1) with
    | Returns (_, Some e) => Returns (None, 2, Some e)
    | Returns (Some i, None) => Returns (Some (withIn i (word16 b0 b1)), 2, None)
    | Returns (None, None) => Panics "nil pointer dereference"
    | Panics msg => Panics msg
    end.
Proof.
  intros B0 B1 Hpar H3.
  unfold Decode. cbv zeta.
  assert (Elen : Z.of_nat (length (b0 :: b1 :: rest))
                 = 2 + Z.of_nat (length rest)) by (cbn [length]; lia).
  rewrite Elen. clear Elen.
  pose proof (rem2_even2 _ (Nat2Z.is_nonneg (length rest)) Hpar) as Hpar2.
  assert (Hlen2 : 2 <= 2 + Z.of_nat (length rest)) by lia.
  set (len := 2 + Z.of_nat (length rest)) in *. clearbody len.
  destruct (Z.eqb_spec len 0) as [E0|_]; [exfalso; clear - Hlen2 E0; lia|].
  rewrite Hpar2. cbn [orb negb Z.eqb].
  unfold decodeSize.
  change (idx (b0 :: b1 :: rest) 0) with (Some b0).
  change (idx (b0 :: b1 :: rest) 1) with (Some b1).
  cbn [ofOption pbind].
  destruct (Z.eqb_spec (Z.land b0 3) 3) as [E|_]; [contradiction|].
  cbn [negb pbind].
  destruct (Z.ltb_spec len 2) as [El|_]; [exfalso; clear - Hlen2 El; lia|].
  change (2 =? 2) with true. cbv iota.
  rewrite parcel_word16 by assumption.
  assert (Hu : uint64 (word16 b0 b1) = word16 b0 b1)
    by (unfold uint64, word16; apply wrap64_small; lia).
  rewrite Hu.
  destruct (rvcDecode (word16 b0 b1)) as [[[i|] [e|]]|msg]; reflexivity.
Qed.

(** The length prefixes of [decodeSize] cover every first byte. *)
Lemma size_prefix_cases b0 :
  Z.land b0 31 = 31 ->
  Z.land b0 63 = 31 \/ Z.land b0 127 = 63 \/ Z.land b0 127 = 127.
Proof.
  change 31 with (Z.ones 5). change 63 with (Z.ones 6). change 127 with (Z.ones 7).
  rewrite !Z.land_ones by lia.
  change (Z.ones 5) with 31. change (Z.ones 6) with 63. change (Z.ones 7) with 127.
  intros H.
  pose proof (Z.rem_mul_r b0 (2 ^ 5) 2 ltac:(lia) ltac:(lia)) as E6.
  pose proof (Z.rem_mul_r b0 (2 ^ 6) 2 ltac:(lia) ltac:(lia)) as E7.
  change (2 ^ 5 * 2) with (2 ^ 6) in E6. change (2 ^ 6 * 2) with (2 ^ 7) in E7.
  pose proof (Z.mod_pos_bound (b0 / 2 ^ 5) 2 ltac:(lia)).
  pose proof (Z.mod_pos_bound (b0 / 2 ^ 6) 2 ltac:(lia)).
  lia.
Qed.

(** A buffer that starts with the prefix of an encoding longer than 32
    bits: [Decode] returns an error. *)
Lemma Decode_long pc b0 b1 rest :
  Z.rem (Z.of_nat (length rest)) 2 = 0 ->
  Z.land b0 3 = 3 -> Z.land b0 31 = 31 -> Z.land b0 127 <> 63 ->
  exists e, Decode pc (b0 :: b1 :: rest) = Returns (None, 0, Some e).
Proof.
  intros Hpar H3 H31 H3f.
  unfold Decode. cbv zeta.
  assert (Elen : Z.of_nat (length (b0 :: b1 :: rest))
                 = 2 + Z.of_nat (length rest)) by (cbn [length]; lia).
  rewrite Elen. clear Elen.
  pose proof (rem2_even2 _ (Nat2Z.is_nonneg (length rest)) Hpar) as Hpar2.
  assert (Hlen2 : 2 <= 2 + Z.of_nat (length rest)) by lia.
  set (len := 2 + Z.of_nat (length rest)) in *. clearbody len.
  destruct (Z.eqb_spec len 0) as [E0|_]; [exfalso; clear - Hlen2 E0; lia|].
  rewrite Hpar2. cbn [orb negb Z.eqb].
  unfold decodeSize.
  change (idx (b0 :: b1 :: rest) 0) with (Some b0).
  change (idx (b0 :: b1 :: rest) 1) with (Some b1).
  cbn [ofOption pbind].
  rewrite H3, H31. change (negb (3 =? 3)) with false.
  change (negb (31 =? 31)) with false. cbv iota.
  destruct (Z.eqb_spec (Z.land b0 63) 31) as [E63|E63].
  { cbn [pbind negb]. destruct (len <? 3); eexists; reflexivity. }
  destruct (Z.eqb_spec (Z.land b0 127) 63) as [E|_]; [contradiction|].
  destruct (Z.eqb_spec (Z.land b0 127) 127) as [E7f|E7f].
  - destruct (Z.land (Z.shiftr b1 4) 7 =? 7) eqn:En.
    { cbn [pbind negb]. eexists. reflexivity. }
    cbn [pbind negb].
    set (n := Z.land (Z.shiftr b1 4) 7) in *.
    assert (Hn : 0 <= n < 8).
    { unfold n. change 7 with (Z.ones 3). rewrite Z.land_ones by lia.
      apply Z.mod_pos_bound. lia. }
    assert (Hsz : byte (5 + 2 * n) = 5 + 2 * n)
      by (unfold byte; apply Z.mod_small; lia).
    rewrite Hsz.
    destruct (len <? 5 + 2 * n); [eexists; reflexivity|].
    destruct (Z.eqb_spec (5 + 2 * n) 2) as [E2|_]; [lia|].
    destruct (Z.eqb_spec (5 + 2 * n) 4) as [E4|_]; [lia|].
    cbn [negb]. eexists. reflexivity.
  - destruct (size_prefix_cases b0 H31) as [C|[C|C]]; contradiction.
Qed.

Lemma rem2_add4 n : 0 <= n -> Z.rem (4 + n) 2 = Z.rem n 2.
Proof.
  intros Hn. rewrite !Z.rem_mod_nonneg by lia.
  rewrite Zplus_mod. change (4 mod 2) with 0. rewrite Z.add_0_l.
  apply Z.mod_mod. lia.
Qed.

Lemma rem2_add2 n : 0 <= n -> Z.rem (2 + n) 2 = Z.rem n 2.
Proof.
  intros Hn. rewrite !Z.rem_mod_nonneg by lia.
  rewrite Zplus_mod. change (2 mod 2) with 0. rewrite Z.add_0_l.
  apply Z.mod_mod. lia.
Qed.

Lemma oneOf_tableTypes_not_direct bop :
  oneOf bop tableTypes = true ->
  (bop =? boLUI) = false /\ (bop =? boAUIPC) = false /\ (bop =? boJAL) = false.
Proof.
  unfold oneOf, tableTypes, rTypes, iTypes, sTypes. cbn [app existsb].
  rewrite !orb_true_iff, !Z.eqb_eq. intros H.
  repeat split; apply Z.eqb_neq; intros E; rewrite E in H;
    repeat (destruct H as [H|H]; try discriminate H).
Qed.

Lemma Decode_word_fields (pc : Z) (b : list Z) (ins : Instruction) :
  Forall (fun x => 0 <= x < 2 ^ 8) b ->
  Decode pc b = Returns (Some ins, 4, None) ->
  exists b0 b1 b2 b3 rest,
    b = b0 :: b1 :: b2 :: b3 :: rest
    /\ rd ins = bitsOf (word32 b0 b1 b2 b3) 11 7
    /\ rs1 ins = bitsOf (word32 b0 b1 b2 b3) 19 15
    /\ rs2 ins = bitsOf (word32 b0 b1 b2 b3) 24 20
    /\ imm ins = immOf (word32 b0 b1 b2 b3)
    /\ fn ins = handlerOf (word32 b0 b1 b2 b3)
    /\ in_ ins = word32 b0 b1 b2 b3.
Proof.
  intros Hb H.
  pose proof (Decode_shape pc b _ _ _ H) as (_ & Hlen & _).
  destruct b as [|b0 [|b1 [|b2 [|b3 rest]]]]; cbn [length] in Hlen; try lia.
  inversion Hb as [|? ? B0 Hb1]; subst. inversion Hb1 as [|? ? B1 Hb2]; subst.
  inversion Hb2 as [|? ? B2 Hb3]; subst. inversion Hb3 as [|? ? B3 _]; subst.
  exists b0, b1, b2, b3, rest. split; [reflexivity|].
  destruct (Z.eq_dec (Z.rem (Z.of_nat (length rest)) 2) 0) as [Hpar|Hpar].
  2:{ rewrite Decode_odd in H; [discriminate H|]. right.
      replace (Z.of_nat (length (b0 :: b1 :: b2 :: b3 :: rest)))
        with (4 + Z.of_nat (length rest)) by (cbn [length]; lia).
      rewrite rem2_add4 by lia. exact Hpar. }
  assert (Hpar2 : Z.rem (Z.of_nat (length (b2 :: b3 :: rest))) 2 = 0).
  { replace (Z.of_nat (length (b2 :: b3 :: rest)))
      with (2 + Z.of_nat (length rest)) by (cbn [length]; lia).
    rewrite rem2_add2 by lia. exact Hpar. }
  destruct (Z.eq_dec (Z.land b0 3) 3) as [H3|H3].
  2:{ rewrite (Decode_rvc pc b0 b1 _ B0 B1 Hpar2 H3) in H.
      destruct (rvcDecode _) as [[[i|] [e|]]|msg]; discriminate H. }
  destruct (Z.eq_dec (Z.land b0 31) 31) as [H31|H31];
    [destruct (Z.eq_dec (Z.land b0 127) 63) as [H3f|H3f]|].
  2:{ destruct (Decode_long pc b0 b1 _ Hpar2 H3 H31 H3f) as (e & E).
      rewrite E in H. discriminate H. }
  all: rewrite (Decode_normal pc b0 b1 b2 b3 rest B0 B1 B2 B3 Hpar H3) in H
         by (first [right; assumption | left; assumption]);
       cbv zeta in H; unfold handlerOf; cbv zeta;
       set (w := word32 b0 b1 b2 b3) in *;
       destruct (oneOf (bitsOf w 6 2) tableTypes) eqn:HT;
       [ destruct (oneOf_tableTypes_not_direct _ HT) as (E1 & E2 & E3);
         rewrite E1, E2, E3;
         destruct (tableKey w <? rvi64Len); [|discriminate H];
         destruct (assoc (tableKey w) rvi64Entries) as [f|]; [|discriminate H];
         injection H as <-; repeat split
       | destruct (oneOf (bitsOf w 6 2) uTypes) eqn:HU;
         [ injection H as <-; cbn [fn rd rs1 rs2 imm in_];
           destruct (Z.eqb_spec (bitsOf w 6 2) boLUI) as [E|E];
             [repeat split|];
           rewrite (oneOf_uTypes _ HU E); repeat split
         | destruct (Z.eqb_spec (bitsOf w 6 2) boJAL) as [EJ|EJ];
           [|discriminate H];
           injection H as <-; cbn [fn rd rs1 rs2 imm in_];
           rewrite EJ; repeat split ] ].
Qed.

(** The fields of a decoded 32-bit instruction: from an instruction of
    size 4 that [Decode] returns, the buffer holds at least four bytes,
    and with [w] the little-endian word of the first four, [rd], [rs1]
    and [rs2] are the bits 11..7, 19..15 and 24..20 of [w], the immediate
    is laid out as the format of the base opcode prescribes ([immOf]),
    the handler is the one of the word ([handlerOf]), and [in] is [w]
    itself. *)
Theorem Decode_fields (pc : Z) (b : list Z) (ins : Instruction) :
  Forall (fun x => 0 <= x < 2 ^ 8) b ->
  Decode pc b = Returns (Some ins, 4, None) ->
  exists b0 b1 b2 b3 rest,
    b = b0 :: b1 :: b2 :: b3 :: rest
    /\ rd ins = bitsOf (word32 b0 b1 b2 b3) 11 7
    /\ rs1 ins = bitsOf (word32 b0 b1 b2 b3) 19 15
    /\ rs2 ins = bitsOf (word32 b0 b1 b2 b3) 24 20
    /\ imm ins = immOf (word32 b0 b1 b2 b3)
    /\ fn ins = handlerOf (word32 b0 b1 b2 b3)
    /\ in_ ins = word32 b0 b1 b2 b3.
Proof. intros; eapply Decode_word_fields; eassumption. Qed.

(** Two bytes that start a longer instruction: an error. *)
Lemma Decode_short32 pc b0 b1 :
  Z.land b0 3 = 3 -> exists e, Decode pc [b0; b1] = Returns (None, 0, Some e).
Proof.
  intros H3. unfold Decode. cbv zeta.
  change (Z.of_nat (length [b0; b1])) with 2.
  change ((2 =? 0) || negb (Z.rem 2 2 =? 0)) with false. cbv iota.
  unfold decodeSize.
  change (idx [b0; b1] 0) with (Some b0).
  change (idx [b0; b1] 1) with (Some b1).
  cbn [ofOption pbind].
  rewrite H3. change (negb (3 =? 3)) with false. cbv iota.
  destruct (Z.eqb_spec (Z.land b0 31) 31) as [H31|H31];
    [|cbn [negb pbind]; eexists; reflexivity].
  cbn [negb].
  destruct (Z.eqb_spec (Z.land b0 63) 31) as [E63|E63];
    [cbn [pbind negb]; eexists; reflexivity|].
  destruct (Z.eqb_spec (Z.land b0 127) 63) as [E3f|E3f];
    [cbn [pbind negb]; eexists; reflexivity|].
  destruct (Z.eqb_spec (Z.land b0 127) 127) as [E7f|E7f];
    [|destruct (size_prefix_cases b0 H31) as [C|[C|C]]; contradiction].
  destruct (Z.land (Z.shiftr b1 4) 7 =? 7) eqn:En;
    [cbn [pbind negb]; eexists; reflexivity|].
  cbn [pbind negb].
  set (n := Z.land (Z.shiftr b1 4) 7) in *.
  assert (Hn : 0 <= n < 8).
  { unfold n. change 7 with (Z.ones 3). rewrite Z.land_ones by lia.
    apply Z.mod_pos_bound. lia. }
  assert (Hsz : byte (5 + 2 * n) = 5 + 2 * n)
    by (unfold byte; apply Z.mod_small; lia).
  rewrite Hsz.
  destruct (Z.ltb_spec 2 (5 + 2 * n)) as [_|Hl]; [|lia].
  eexists. reflexivity.
Qed.

Lemma word16_range b0 b1 :
  0 <= b0 < 2 ^ 8 -> 0 <= b1 < 2 ^ 8 -> 0 <= word16 b0 b1 < 2 ^ 16.
Proof. intros. unfold word16. lia. Qed.

(** The table index of a word that is not of the R type is below 256. *)
Lemma tableKey_small w :
  oneOf (bitsOf w 6 2) rTypes = false -> tableKey w < 2 ^ 8.
Proof.
  intros H. unfold tableKey. rewrite H.
  pose proof (bitsOf_range w 14 12 ltac:(lia)).
  pose proof (bitsOf_range w 6 2 ltac:(lia)).
  change (14 - 12 + 1) with 3 in *. change (6 - 2 + 1) with 5 in *. lia.
Qed.

Lemma oneOf_rTypes_table bop :
  oneOf bop rTypes = true -> oneOf bop tableTypes = true.
Proof. intros H. unfold tableTypes. rewrite oneOf_app, H. reflexivity. Qed.

(** The first byte of an R-type word. *)
Lemma rType_first_byte b0 b1 b2 b3 :
  0 <= b0 < 2 ^ 8 ->
  Z.land b0 3 = 3 ->
  oneOf (bitsOf (word32 b0 b1 b2 b3) 6 2) rTypes = true ->
  Z.land b0 31 <> 31.
Proof.
  intros B0 H3 HR.
  unfold bitsOf in HR. change (6 - 2 + 1) with 5 in HR.
  assert (E : (word32 b0 b1 b2 b3 / 2 ^ 2) mod 2 ^ 5 = (b0 / 2 ^ 2) mod 2 ^ 5).
  { pose proof (word32_low b0 b1 b2 b3 7 ltac:(lia)) as E7.
    pose proof (Z.rem_mul_r (word32 b0 b1 b2 b3) (2 ^ 2) (2 ^ 5)
                  ltac:(lia) ltac:(lia)) as Ew.
    pose proof (Z.rem_mul_r b0 (2 ^ 2) (2 ^ 5) ltac:(lia) ltac:(lia)) as Eb.
    change (2 ^ 2 * 2 ^ 5) with (2 ^ 7) in Ew, Eb.
    pose proof (word32_low b0 b1 b2 b3 2 ltac:(lia)) as E2.
    lia. }
  rewrite E in HR.
  change 3 with (Z.ones 2) in H3. rewrite Z.land_ones in H3 by lia.
  change (Z.ones 2) with 3 in H3.
  change 31 with (Z.ones 5). rewrite Z.land_ones by lia.
  change (Z.ones 5) with 31.
  pose proof (Z.rem_mul_r b0 (2 ^ 2) (2 ^ 3) ltac:(lia) ltac:(lia)) as E5.
  change (2 ^ 2 * 2 ^ 3) with (2 ^ 5) in E5.
  pose proof (Z.rem_mul_r (b0 / 2 ^ 2) (2 ^ 3) (2 ^ 2) ltac:(lia) ltac:(lia)) as E35.
  change (2 ^ 3 * 2 ^ 2) with (2 ^ 5) in E35.
  pose proof (Z.mod_pos_bound (b0 / 2 ^ 2 / 2 ^ 3) (2 ^ 2) ltac:(lia)).
  pose proof (Z.mod_pos_bound (b0 / 2 ^ 2) (2 ^ 3) ltac:(lia)).
  set (q := (b0 / 2 ^ 2) mod 2 ^ 5) in *.
  unfold oneOf, rTypes in HR. cbn [existsb] in HR.
  rewrite !orb_true_iff, !Z.eqb_eq in HR.
  unfold boAMO, boOp, boOp32, boOpFP in HR.
  intros E31. lia.
Qed.

(** [Decode] panics on the buffers of [decodePanics], and on no other
    buffer: an even number of bytes that start with a compressed parcel
    that [rvcDecode] does not implement, or with an R-type word whose
    index (funct7, funct3, base opcode) is past the last entry of
    [rvi64Instructions], where [Decode] indexes the table before it
    looks at the entry. *)
Theorem Decode_panics_iff (pc : Z) (b : list Z) :
  Forall (fun x => 0 <= x < 2 ^ 8) b ->
  (exists msg, Decode pc b = Panics msg) <-> decodePanics b = true.
Proof.
  intros Hb.
  destruct b as [|b0 [|b1 rest]].
  { split; [|discriminate]. intros (msg & H).
    rewrite Decode_odd in H by (left; reflexivity). discriminate H. }
  { split; [|discriminate]. intros (msg & H).
    rewrite Decode_odd in H by (right; discriminate). discriminate H. }
  inversion Hb as [|? ? B0 Hb1]; subst. inversion Hb1 as [|? ? B1 Hb2]; subst.
  unfold decodePanics.
  destruct (Z.eqb_spec (Z.rem (Z.of_nat (length rest)) 2) 0) as [Hpar|Hpar].
  2:{ cbn [andb]. split; [|discriminate]. intros (msg & H).
      rewrite Decode_odd in H; [discriminate H|]. right.
      replace (Z.of_nat (length (b0 :: b1 :: rest)))
        with (2 + Z.of_nat (length rest)) by (cbn [length]; lia).
      rewrite rem2_add2 by lia. exact Hpar. }
  cbn [andb].
  destruct (Z.eqb_spec (Z.land b0 3) 3) as [H3|H3]; cbn [negb].
  2:{ (* compressed *)
      rewrite (Decode_rvc pc b0 b1 rest B0 B1 Hpar H3).
      pose proof (rvcDecode_cases _ (word16_range b0 b1 B0 B1)) as Hout.
      destruct (rvcDecode (word16 b0 b1)) as [[[i|] [e|]]|msg];
        try contradiction.
      - destruct Hout as (_ & Hu & _). rewrite Hu.
        split; [intros (msg & H); discriminate H | discriminate].
      - subst. split; [intros (msg & H); discriminate H|].
        intros H. rewrite Hout in H. discriminate H.
      - split; [intros _; exact Hout | intros _; eexists; reflexivity]. }
  destruct rest as [|b2 [|b3 rest]].
  { split; [|discriminate]. intros (msg & H).
    destruct (Decode_short32 pc b0 b1 H3) as (e & E). rewrite E in H.
    discriminate H. }
  { exfalso. cbn in Hpar. discriminate Hpar. }
  inversion Hb2 as [|? ? B2 Hb3]; subst. inversion Hb3 as [|? ? B3 _]; subst.
  assert (Hpar' : Z.rem (Z.of_nat (length rest)) 2 = 0).
  { replace (Z.of_nat (length (b2 :: b3 :: rest)))
      with (2 + Z.of_nat (length rest)) in Hpar by (cbn [length]; lia).
    rewrite rem2_add2 in Hpar by lia. exact Hpar. }
  cbv zeta. set (w := word32 b0 b1 b2 b3).
  destruct (Z.eq_dec (Z.land b0 31) 31) as [H31|H31];
    [destruct (Z.eq_dec (Z.land b0 127) 63) as [H3f|H3f]|].
  2:{ (* a longer encoding *)
      destruct (Decode_long pc b0 b1 _ Hpar H3 H31 H3f) as (e & E).
      rewrite E.
      destruct (oneOf (bitsOf w 6 2) rTypes) eqn:HR.
      - exfalso. exact (rType_first_byte b0 b1 b2 b3 B0 H3 HR H31).
      - split; [intros (msg & H); discriminate H | discriminate]. }
  all: rewrite (Decode_normal pc b0 b1 b2 b3 rest B0 B1 B2 B3 Hpar' H3)
         by (first [right; assumption | left; assumption]);
       cbv zeta; fold w;
       destruct (oneOf (bitsOf w 6 2) rTypes) eqn:HR;
       [ rewrite (oneOf_rTypes_table _ HR); cbn [andb];
         destruct (Z.ltb_spec (tableKey w) rvi64Len) as [Hk|Hk];
         [ destruct (Z.leb_spec rvi64Len (tableKey w)) as [Hk'|_]; [lia|];
           split; [|discriminate];
           intros (msg & H);
           destruct (assoc (tableKey w) rvi64Entries); discriminate H
         | destruct (Z.leb_spec rvi64Len (tableKey w)) as [_|Hk']; [|lia];
           split; [reflexivity | intros _; eexists; reflexivity] ]
       | cbn [andb]; split; [|discriminate];
         intros (msg & H);
         pose proof (tableKey_small w HR) as Hsmall;
         destruct (oneOf (bitsOf w 6 2) tableTypes);
         [ destruct (Z.ltb_spec (tableKey w) rvi64Len) as [Hk|Hk];
           [ destruct (assoc (tableKey w) rvi64Entries); discriminate H
           | unfold rvi64Len in Hk; lia ]
         | destruct (oneOf (bitsOf w 6 2) uTypes); [discriminate H|];
           destruct (bitsOf w 6 2 =? boJAL); discriminate H ] ].
Qed.


(** ** ECALL and EBREAK *)

Lemma assoc_ecallOrBreak key :
  assoc key rvi64Entries = Some fn_ecallOrBreak -> key = 0x1C.
Proof.
  intros H. unfold rvi64Entries in H. cbn [assoc] in H.
  repeat match type of H with
         | (if ?k =? key then _ else _) = _ =>
             destruct (Z.eqb_spec k key);
             [try discriminate H; subst; reflexivity|]
         end.
  discriminate H.
Qed.

(** Every 32-bit instruction that [Decode] hands to [ecallOrBreak] is
    run as an ECALL: the immediate of an I-type word has 12 bits, so the
    selector [in.imm >> 12] is always 0, and neither the EBREAK case nor
    the panic of [ecallOrBreak] is ever reached from a decoded
    instruction. *)
Theorem decoded_system_runs_ecall (hostWrite : Z -> list Z -> Z) (pc : Z)
    (b : list Z) (ins : Instruction) (vm : VM) :
  Forall (fun x => 0 <= x < 2 ^ 8) b ->
  Decode pc b = Returns (Some ins, 4, None) ->
  fn ins = Some fn_ecallOrBreak ->
  call hostWrite fn_ecallOrBreak ins vm = ecall hostWrite ins vm.
Proof.
  intros Hb H Hfn.
  destruct (Decode_word_fields pc b ins Hb H)
    as (b0 & b1 & b2 & b3 & rest & _ & _ & _ & _ & Himm & Hh & _).
  set (w := word32 b0 b1 b2 b3) in *.
  rewrite Hfn in Hh. symmetry in Hh. unfold handlerOf in Hh. cbv zeta in Hh.
  destruct (bitsOf w 6 2 =? boLUI); [discriminate Hh|].
  destruct (bitsOf w 6 2 =? boAUIPC); [discriminate Hh|].
  destruct (bitsOf w 6 2 =? boJAL); [discriminate Hh|].
  apply assoc_ecallOrBreak in Hh.
  pose proof (bitsOf_range w 14 12 ltac:(lia)) as B3.
  pose proof (bitsOf_range w 6 2 ltac:(lia)) as Bo.
  pose proof (bitsOf_range w 31 25 ltac:(lia)) as B7.
  pose proof (bitsOf_range w 31 20 ltac:(lia)) as Bi.
  change (14 - 12 + 1) with 3 in B3. change (6 - 2 + 1) with 5 in Bo.
  change (31 - 25 + 1) with 7 in B7. change (31 - 20 + 1) with 12 in Bi.
  assert (Hbop : bitsOf w 6 2 = boSystem).
  { unfold tableKey in Hh. unfold boSystem.
    destruct (oneOf (bitsOf w 6 2) rTypes); lia. }
  assert (Hi : 0 <= imm ins < 2 ^ 12).
  { rewrite Himm. unfold immOf. cbv zeta. rewrite Hbop.
    change (oneOf boSystem rTypes) with false.
    change (oneOf boSystem iTypes) with true. cbv iota. exact Bi. }
  cbn [call]. unfold ecallOrBreak. cbv zeta.
  rewrite shr64_div by lia. rewrite Z.div_small by lia. reflexivity.
Qed.

(** ** Branches *)

Lemma add64_wrap_r a b : add64 a (wrap64 b) = wrap64 (a + b).
Proof.
  unfold add64, wrap64. rewrite Zplus_mod_idemp_r. reflexivity.
Qed.

Lemma branch_run taken i vm a b :
  idx (Reg vm) (rs1 i) = Some a ->
  idx (Reg vm) (rs2 i) = Some b ->
  0 <= imm i < 2 ^ 13 ->
  branch taken i vm
  = if taken a b
    then Val ({| updatedPC := true; updatedRDINSTRET := false |}, None)
             (withPC vm (wrap64 (PC vm + signed 13 (imm i))))
    else Val (flags0, None) vm.
Proof.
  intros Ha Hb Hi. unfold branch, bind.
  rewrite (getReg_eq _ _ _ Ha). cbv beta iota.
  rewrite (getReg_eq _ _ _ Hb). cbv beta iota.
  destruct (taken a b); [|reflexivity].
  unfold getPC. cbv beta iota.
  rewrite (sx_val _ _ _ _ (signExtend_signed (imm i) 12 ltac:(lia) Hi)).
  cbv beta iota. change (12 + 1) with 13.
  rewrite add64_wrap_r. reflexivity.
Qed.

(** The six conditional branches: each compares the two source
    registers as its name says ([blt] and [bge] as signed numbers,
    [bltu] and [bgeu] as unsigned ones); when the comparison holds the
    program counter moves by the 13-bit immediate read as a signed
    number, modulo 2^64, and the handler reports that it set the
    program counter; when it does not hold nothing changes. *)
Theorem branch_target (hostWrite : Z -> list Z -> Z) (f : fnptr)
    (i : Instruction) (vm : VM) (a b : Z) (taken : bool) :
  branchCond f a b = Some taken ->
  idx (Reg vm) (rs1 i) = Some a ->
  idx (Reg vm) (rs2 i) = Some b ->
  0 <= imm i < 2 ^ 13 ->
  call hostWrite f i vm
  = if taken
    then Val ({| updatedPC := true; updatedRDINSTRET := false |}, None)
             (withPC vm (wrap64 (PC vm + signed 13 (imm i))))
    else Val (flags0, None) vm.
Proof.
  intros Hc Ha Hb Hi.
  destruct f; try discriminate Hc; injection Hc as <-; cbn [call];
    unfold beq, bne, blt, bge, bltu, bgeu;
    rewrite (branch_run _ i vm a b Ha Hb Hi);
    rewrite ?Z.geb_leb; reflexivity.
Qed.


(** ** The footprint of a handler *)

Lemma frame_refl m c p vm : frame m c p vm vm.
Proof. unfold frame. repeat split; reflexivity. Qed.

Lemma frame_trans m c p vm1 vm2 vm3 :
  frame m c p vm1 vm2 -> frame m c p vm2 vm3 -> frame m c p vm1 vm3.
Proof.
  unfold frame.
  intros (A1 & A2 & A3 & A4 & A5 & A6 & A7 & A8 & A9)
         (B1 & B2 & B3 & B4 & B5 & B6 & B7 & B8 & B9).
  repeat split; try congruence.
  - intros E. rewrite (B7 E). exact (A7 E).
  - intros E. rewrite (B8 E). exact (A8 E).
  - intros E. rewrite (B9 E). exact (A9 E).
Qed.

Section Preserves.

Variable R : VM -> VM -> Prop.
Hypothesis R_refl : forall vm, R vm vm.
Hypothesis R_trans : forall vm1 vm2 vm3, R vm1 vm2 -> R vm2 vm3 -> R vm1 vm3.

Lemma preserves_ret {A} (a : A) : preserves R (ret a).
Proof. intros vm. apply R_refl. Qed.

Lemma preserves_panic {A} msg : preserves R (@panic A msg).
Proof. intros vm. exact I. Qed.

Lemma preserves_bind {A B} (m : M A) (k : A -> M B) :
  preserves R m -> (forall a, preserves R (k a)) -> preserves R (bind m k).
Proof.
  intros Hm Hk vm. unfold bind. specialize (Hm vm).
  destruct (m vm) as [a vm1|msg]; [|exact I].
  specialize (Hk a vm1). destruct (k a vm1) as [b vm2|msg]; [|exact I].
  eapply R_trans; eassumption.
Qed.

Lemma preserves_liftO {A} msg (o : option A) : preserves R (liftO msg o).
Proof. destruct o; [apply preserves_ret | apply preserves_panic]. Qed.

Lemma preserves_liftP {A} (p : partial A) : preserves R (liftP p).
Proof. destruct p; [apply preserves_ret | apply preserves_panic]. Qed.

Lemma preserves_getReg i : preserves R (getReg i).
Proof. intros vm. unfold getReg. destruct (idx _ _); [apply R_refl | exact I]. Qed.

Lemma preserves_getCSR i : preserves R (getCSR i).
Proof. intros vm. unfold getCSR. destruct (idx _ _); [apply R_refl | exact I]. Qed.

Lemma preserves_getMem a : preserves R (getMem a).
Proof. intros vm. unfold getMem. destruct (idx _ _); [apply R_refl | exact I]. Qed.

Lemma preserves_getPC : preserves R getPC.
Proof. intros vm. apply R_refl. Qed.

Lemma preserves_getSlice lo hi : preserves R (getSlice lo hi).
Proof. intros vm. unfold getSlice. destruct (_ && _); [apply R_refl | exact I]. Qed.

Lemma preserves_sx v bit : preserves R (sx v bit).
Proof. apply preserves_liftO. Qed.

Lemma preserves_divGo a b : preserves R (divGo a b).
Proof. unfold divGo. destruct (_ =? _); [apply preserves_panic | apply preserves_ret]. Qed.

Lemma preserves_remGo a b : preserves R (remGo a b).
Proof. unfold remGo. destruct (_ =? _); [apply preserves_panic | apply preserves_ret]. Qed.

Lemma preserves_ok : preserves R ok.
Proof. apply preserves_ret. Qed.

Lemma preserves_okPC : preserves R okPC.
Proof. apply preserves_ret. Qed.

End Preserves.

(** The writes. *)
Lemma frame_setReg m c p i v : preserves (frame m c p) (setReg i v).
Proof.
  intros vm. unfold setReg, upd. destruct (inRange _ _); [|exact I].
  unfold frame. cbn [Reg CSR PC Steps Mem LastInstr LastPC].
  rewrite length_insert. repeat split; reflexivity.
Qed.

Lemma frame_store m c p rd v : preserves (frame m c p) (store rd v).
Proof.
  unfold store. destruct (rd =? 0);
    [apply preserves_ret, frame_refl | apply frame_setReg].
Qed.

Lemma frame_setMem c p a b : preserves (frame true c p) (setMem a b).
Proof.
  intros vm. unfold setMem, upd. destruct (inRange _ _); [|exact I].
  unfold frame. cbn [Reg CSR PC Steps Mem LastInstr LastPC].
  rewrite length_insert. repeat split; try reflexivity. discriminate.
Qed.

Lemma frame_setCSR m p i v : preserves (frame m true p) (setCSR i v).
Proof.
  intros vm. unfold setCSR, upd. destruct (inRange _ _); [|exact I].
  unfold frame. cbn [Reg CSR PC Steps Mem LastInstr LastPC].
  rewrite length_insert. repeat split; try reflexivity. discriminate.
Qed.

Lemma frame_setPC m c pc : preserves (frame m c true) (setPC pc).
Proof.
  intros vm. unfold setPC, frame. cbn [Reg CSR PC Steps Mem LastInstr LastPC].
  repeat split; try reflexivity. discriminate.
Qed.

(** The same, for the frames. *)
Lemma fr_ret m c p {A} (a : A) : preserves (frame m c p) (ret a).
Proof. apply preserves_ret, frame_refl. Qed.

Lemma fr_panic m c p {A} msg : preserves (frame m c p) (@panic A msg).
Proof. apply preserves_panic. Qed.

Lemma fr_bind m c p {A B} (x : M A) (k : A -> M B) :
  preserves (frame m c p) x -> (forall a, preserves (frame m c p) (k a)) ->
  preserves (frame m c p) (bind x k).
Proof.
  intros Hx Hk. apply (preserves_bind _ (frame_trans m c p)); assumption.
Qed.

Lemma fr_liftO m c p {A} msg (o : option A) : preserves (frame m c p) (liftO msg o).
Proof. apply preserves_liftO, frame_refl. Qed.

Lemma fr_liftP m c p {A} (x : partial A) : preserves (frame m c p) (liftP x).
Proof. apply preserves_liftP, frame_refl. Qed.

Lemma fr_getReg m c p i : preserves (frame m c p) (getReg i).
Proof. apply preserves_getReg, frame_refl. Qed.

Lemma fr_getCSR m c p i : preserves (frame m c p) (getCSR i).
Proof. apply preserves_getCSR, frame_refl. Qed.

Lemma fr_getMem m c p a : preserves (frame m c p) (getMem a).
Proof. apply preserves_getMem, frame_refl. Qed.

Lemma fr_getPC m c p : preserves (frame m c p) getPC.
Proof. apply preserves_getPC, frame_refl. Qed.

Lemma fr_getSlice m c p lo hi : preserves (frame m c p) (getSlice lo hi).
Proof. apply preserves_getSlice, frame_refl. Qed.

Lemma fr_sx m c p v bit : preserves (frame m c p) (sx v bit).
Proof. apply preserves_sx, frame_refl. Qed.

Lemma fr_divGo m c p a b : preserves (frame m c p) (divGo a b).
Proof. apply preserves_divGo, frame_refl. Qed.

Lemma fr_remGo m c p a b : preserves (frame m c p) (remGo a b).
Proof. apply preserves_remGo, frame_refl. Qed.

Lemma fr_ok m c p : preserves (frame m c p) ok.
Proof. apply fr_ret. Qed.

Lemma fr_okPC m c p : preserves (frame m c p) okPC.
Proof. apply fr_ret. Qed.

Create HintDb footprint discriminated.
#[local] Hint Resolve fr_ret fr_panic fr_liftO fr_liftP
  fr_getReg fr_getCSR fr_getMem fr_getPC fr_getSlice fr_sx fr_divGo fr_remGo
  fr_ok fr_okPC frame_store frame_setMem frame_setCSR frame_setPC : footprint.

(** Walks down a handler body, as for the zero register. *)
Ltac footprint_step :=
  match goal with
  | |- preserves _ (let _ := _ in _) => cbv zeta
  | |- preserves _ (bind _ _) => apply fr_bind; [| intros ?]
  | |- preserves _ (if ?c then _ else _) => destruct c
  | |- preserves _ (match ?c with _ => _ end) => destruct c
  | |- preserves _ (let (_, _) := ?c in _) => destruct c
  | |- preserves _ _ => solve [auto with footprint]
  end.

Ltac footprint_tac := repeat footprint_step.

Lemma footprint_of_call (hostWrite : Z -> list Z -> Z) (f : fnptr) (i : Instruction) :
  preserves (frame (isStore f) (writesCSR f) (setsPC f)) (call hostWrite f i).
Proof.
  destruct f; cbn [call isStore writesCSR setsPC];
    unfold lui, auipc, jal, jalr, beq, bne, blt, bge, bltu, bgeu, branch,
      lb, lh, lw, lbu, lhu, lwu, ld, sb, sh, sw, sd, effAddr, load32, load64,
      addi, slti, sltiu, xori, ori, andi,
      add, sub, sll, slt, sltu, xor, srl, sra, or, and, rrOp,
      fence, fence_i, ebreak, ecallOrBreak, ecall,
      csrrw, csrrs, csrrc, csrrwi, csrrsi, csrrci,
      slli, shiftRight, srli, srai, addiw, slliw, srliw, sraiw,
      addw, subw, sllw, srlw, sraw,
      mul, mulh, mulhsu, mulhu, mulw, div, divu, divw, divuw,
      rem, remu, remw, remuw, rvcJAL, rvcJALR;
    unfold rrOp;
    footprint_tac.
Qed.

(** *** Flags and errors *)

Lemma yields_ret {A} (P : A -> Prop) (a : A) : P a -> yields P (ret a).
Proof. intros H vm. exact H. Qed.

Lemma yields_panic {A} (P : A -> Prop) msg : yields P (@panic A msg).
Proof. intros vm. exact I. Qed.

Lemma yields_bind {A B} (P : B -> Prop) (m : M A) (k : A -> M B) :
  (forall a, yields P (k a)) -> yields P (bind m k).
Proof.
  intros Hk vm. unfold bind. destruct (m vm) as [a vm1|msg]; [|exact I].
  apply Hk.
Qed.

(** A leaf of a handler: the flags and the error it returns. *)
Ltac result_leaf :=
  unfold resultOf; cbn [fst snd updatedPC updatedRDINSTRET setsPC flags0];
  repeat split;
  let H := fresh in
  intros H;
  first [ reflexivity | discriminate H | exfalso; apply H; reflexivity ].

Ltac result_step :=
  match goal with
  | |- yields _ (let _ := _ in _) => cbv zeta
  | |- yields _ (bind _ _) => apply yields_bind; intros ?
  | |- yields _ (if ?c then _ else _) => destruct c
  | |- yields _ (match ?c with _ => _ end) => destruct c
  | |- yields _ (let (_, _) := ?c in _) => destruct c
  | |- yields _ (panic _) => apply yields_panic
  | |- yields _ (ret _) => apply yields_ret; result_leaf
  end.

Ltac result_tac := repeat result_step.

Lemma result_of_call (hostWrite : Z -> list Z -> Z) (f : fnptr) (i : Instruction) :
  yields (resultOf f) (call hostWrite f i).
Proof.
  destruct f; cbn [call];
    unfold lui, auipc, jal, jalr, beq, bne, blt, bge, bltu, bgeu, branch,
      lb, lh, lw, lbu, lhu, lwu, ld, sb, sh, sw, sd,
      addi, slti, sltiu, xori, ori, andi,
      add, sub, sll, slt, sltu, xor, srl, sra, or, and, rrOp,
      fence, fence_i, ebreak, ecallOrBreak, ecall,
      csrrw, csrrs, csrrc, csrrwi, csrrsi, csrrci,
      slli, shiftRight, srli, srai, addiw, slliw, srliw, sraiw,
      addw, subw, sllw, srlw, sraw,
      mul, mulh, mulhsu, mulhu, mulw, div, divu, divw, divuw,
      rem, remu, remw, remuw, rvcJAL, rvcJALR;
    unfold rrOp, ebreak, ok, okPC;
    result_tac.
Qed.

Lemma handler_frame (hostWrite : Z -> list Z -> Z) (f : fnptr)
    (i : Instruction) (vm vm' : VM) (fl : flags) (e : option error) :
  call hostWrite f i vm = Val (fl, e) vm' ->
  frame (isStore f) (writesCSR f) (setsPC f) vm vm' /\ resultOf f (fl, e).
Proof.
  intros H.
  pose proof (footprint_of_call hostWrite f i vm) as HF.
  pose proof (result_of_call hostWrite f i vm) as HR.
  rewrite H in HF, HR. split; assumption.
Qed.

(** What a handler can change and what it can report.  Memory contents
    change only under [sb], [sh], [sw] and [sd]; the CSR file only under
    the six CSR handlers; the program counter only under the jumps and
    branches; the step count, the last-instruction record and the sizes
    of the register file, the CSR file and memory under none.  Only the
    jumps and branches report that they set the program counter, only
    [csrrw] that it set RDINSTRET, and only [ecallOrBreak] returns an
    error. *)
Theorem handler_footprint (hostWrite : Z -> list Z -> Z) (f : fnptr)
    (i : Instruction) (vm vm' : VM) (r : result) :
  call hostWrite f i vm = Val r vm' ->
  frame (isStore f) (writesCSR f) (setsPC f) vm vm' /\ resultOf f r.
Proof.
  destruct r as [fl e]. apply handler_frame.
Qed.


(** ** The step loop *)

(** One iteration of [Run], taken apart: either it leaves the loop with
    an error and the step count it found, or it decoded an instruction
    with a handler, ran the handler without an error, and did the
    bookkeeping. *)
Lemma step_inv (hw : Z -> list Z -> Z) (k n : Z) (vm vm' : VM) (o : option error) :
  step hw k n vm = Val o vm' ->
  (exists e, o = Some e /\ Steps vm' = Steps vm) \/
  (o = None /\
   exists b ins size f out vm1,
     getSlice (PC vm) (fetchEnd vm) vm = Val b vm
     /\ Decode (PC vm) b = Returns (Some ins, size, None)
     /\ fn ins = Some f
     /\ call hw f ins (fetched vm ins) = Val (out, None) vm1
     /\ Steps vm' = int64 (Steps vm1 + 1)
     /\ LastInstr vm' = LastInstr vm1
     /\ LastPC vm' = LastPC vm1
     /\ Reg vm' = Reg vm1
     /\ Mem vm' = Mem vm1
     /\ (if updatedRDINSTRET out then CSR vm' = CSR vm1
         else exists c, idx (CSR vm1) RDINSTRET = Some c
                        /\ CSR vm' = <[Z.to_nat RDINSTRET := add64 c 1]> (CSR vm1))
     /\ PC vm' = (if updatedPC out then PC vm1 else add64 (PC vm1) (uint64 size))).
Proof.
  unfold step. unfold bind at 1. unfold getPC at 1. unfold bind at 1.
  unfold bind at 1. fold (fetchEnd vm).
  destruct (getSlice (PC vm) (fetchEnd vm) vm) as [b vm0|msg] eqn:ES;
    [|discriminate].
  assert (vm0 = vm) as ->.
  { unfold getSlice in ES.
    destruct (_ && _) in ES; [injection ES as _ <-; reflexivity|discriminate]. }
  unfold bind at 1.
  destruct (Decode (PC vm) b) as [[[i size] err]|msg] eqn:ED;
    cbn [liftP]; [|discriminate].
  unfold ret at 1.
  destruct err as [e|].
  { unfold ret. intros [= <- <-]. left. eauto. }
  unfold bind at 1. unfold setLast at 1. fold (fetched' vm i).
  destruct i as [ins|]; [|discriminate].
  destruct (fn ins) as [f|] eqn:EF.
  { unfold bind at 1.
    destruct (call hw f ins (fetched' vm (Some ins))) as [[out err] vm1|msg] eqn:EC;
      [|discriminate].
    pose proof (footprint_of_call hw f ins (fetched' vm (Some ins))) as HF.
    rewrite EC in HF. destruct HF as (HS & _).
    destruct (IsExit err) eqn:EX.
    { unfold ret. intros [= <- <-]. left.
      destruct err as [e|]; [|discriminate]. eexists; split; [reflexivity|].
      exact HS. }
    destruct err as [e|].
    { unfold ret. intros [= <- <-]. left. eexists; split; [reflexivity|].
      exact HS. }
    unfold bind at 1. unfold incSteps at 1.
    intros H. right.
    assert (o = None /\
      Steps vm' = int64 (Steps vm1 + 1) /\ LastInstr vm' = LastInstr vm1
      /\ LastPC vm' = LastPC vm1 /\ Reg vm' = Reg vm1 /\ Mem vm' = Mem vm1
      /\ (if updatedRDINSTRET out then CSR vm' = CSR vm1
          else exists c, idx (CSR vm1) RDINSTRET = Some c
                 /\ CSR vm' = <[Z.to_nat RDINSTRET := add64 c 1]> (CSR vm1))
      /\ PC vm' = (if updatedPC out then PC vm1
                   else add64 (PC vm1) (uint64 size))) as HH.
    { unfold bind in H. unfold getCSR, setCSR, getPC, setPC, ret, liftO in H.
      cbn [Reg CSR PC Steps Mem LastInstr LastPC] in H.
      destruct (updatedRDINSTRET out); cbn [negb] in H.
      - destruct (updatedPC out); cbn [negb] in H;
          injection H as <- <-; cbn; repeat split.
      - cbn [Reg CSR PC Steps Mem LastInstr LastPC] in H.
        destruct (idx (CSR vm1) RDINSTRET) as [c|] eqn:EI;
          cbv beta iota in H; unfold ret, panic in H; [|discriminate].
        cbn [CSR] in H.
        unfold upd in H.
        destruct (inRange (CSR vm1) RDINSTRET); cbv beta iota in H;
          [|discriminate].
        destruct (updatedPC out); cbn [negb] in H;
          injection H as <- <-; cbn; repeat split; eauto. }
    destruct HH as (-> & HH). split; [reflexivity|].
    exists b, ins, size, f, out, vm1.
    split; [first [exact ES|reflexivity]|].
    split; [first [exact ED|reflexivity]|].
    split; [first [exact EF|reflexivity]|].
    split; [first [exact EC|reflexivity]|]. exact HH. }
  unfold bind, ret. intros [= <- <-]. left. eexists; split; [reflexivity|].
  reflexivity.
Qed.

(** One iteration of [Run] on an instruction that decodes and has a
    handler. *)
Lemma step_run (hw : Z -> list Z -> Z) (k n : Z) (vm : VM) b ins size f :
  getSlice (PC vm) (fetchEnd vm) vm = Val b vm ->
  Decode (PC vm) b = Returns (Some ins, size, None) ->
  fn ins = Some f ->
  step hw k n vm
  = match call hw f ins (fetched vm ins) with
    | Val (out, err) vm1 =>
        if IsExit err then Val err vm1
        else match err with
             | Some e => Val (Some (Wrapf "run(%d of %d): %v" [k + 1; n] e)) vm1
             | None =>
                 (incSteps ;;
                  (if negb (updatedRDINSTRET out) then
                     c <- getCSR RDINSTRET ;;
                     setCSR RDINSTRET (add64 c 1)
                   else ret tt) ;;
                  (if negb (updatedPC out) then
                     pc <- getPC ;;
                     setPC (add64 pc (uint64 size))
                   else ret tt) ;;
                  ret None) vm1
             end
    | Panic msg => Panic msg
    end.
Proof.
  intros HS HD HF. unfold step. unfold bind at 1. unfold getPC at 1.
  unfold bind at 1. unfold bind at 1. fold (fetchEnd vm). rewrite HS.
  unfold bind at 1. rewrite HD. cbn [liftP]. unfold ret at 1.
  unfold bind at 1. unfold setLast at 1. fold (fetched' vm (Some ins)).
  fold (fetched vm ins). rewrite HF.
  unfold bind at 1.
  destruct (call hw f ins (fetched vm ins)) as [[out err] vm1|msg];
    [|reflexivity].
  destruct (IsExit err); [reflexivity|].
  destruct err; reflexivity.
Qed.

(** Whether an iteration completes, and the machine it leaves, depend
    neither on the loop counter nor on [n]: these only appear in the
    errors. *)
Lemma step_None_indep (hw : Z -> list Z -> Z) (k n k' n' : Z) (vm vm' : VM) :
  step hw k n vm = Val None vm' -> step hw k' n' vm = Val None vm'.
Proof.
  intros H.
  destruct (step_inv hw k n vm vm' None H)
    as [(e & He & _)|(_ & b & ins & size & f & out & vm1 & HS & HD & HF & HC & _)];
    [discriminate He|].
  rewrite (step_run hw k n vm b ins size f HS HD HF) in H.
  rewrite (step_run hw k' n' vm b ins size f HS HD HF).
  rewrite HC in *. cbn [IsExit] in *. exact H.
Qed.

Lemma runLoop_None_indep (hw : Z -> list Z -> Z) (fuel : nat) :
  forall (k n k' n' : Z) (vm vm' : VM),
    runLoop hw fuel k n vm = Val None vm' ->
    runLoop hw fuel k' n' vm = Val None vm'.
Proof.
  induction fuel as [|fuel IH]; intros k n k' n' vm vm' H.
  - exact H.
  - cbn [runLoop] in *. unfold bind in *.
    destruct (step hw k n vm) as [[e|] vm1|msg] eqn:ES; try discriminate H.
    rewrite (step_None_indep hw k n k' n' vm vm1 ES).
    exact (IH _ _ _ _ _ _ H).
Qed.

Lemma runLoop_steps (hw : Z -> list Z -> Z) (fuel : nat) :
  forall (k n : Z) (vm vm' : VM),
    0 <= Steps vm -> Steps vm + Z.of_nat fuel < 2 ^ 63 ->
    runLoop hw fuel k n vm = Val None vm' ->
    Steps vm' = Steps vm + Z.of_nat fuel.
Proof.
  induction fuel as [|fuel IH]; intros k n vm vm' H0 Hb H.
  - cbn [runLoop] in H. unfold ret in H. injection H as <-. lia.
  - cbn [runLoop] in H. unfold bind in H.
    destruct (step hw k n vm) as [[e|] vm1|msg] eqn:ES; try discriminate H.
    destruct (step_inv hw k n vm vm1 None ES) as [(err & He & _)|(_ & HN)];
      [discriminate He|].
    destruct HN as (b & ins & size & f & out & vm2 & _ & _ & _ & EC & HS & _).
    pose proof (footprint_of_call hw f ins (fetched vm ins)) as HF.
    rewrite EC in HF. destruct HF as (HS2 & _).
    cbn [fetched fetched' Steps] in HS2. rewrite HS2 in HS.
    assert (E : Steps vm1 = Steps vm + 1).
    { rewrite HS. apply int64_small. lia. }
    rewrite (IH (k + 1) n vm1 vm' ltac:(lia) ltac:(lia) H). lia.
Qed.

(** A loop that returns an error: the iterations before the failing
    one completed. *)
Lemma runLoop_error (hw : Z -> list Z -> Z) (fuel : nat) :
  forall (k n : Z) (vm vm' : VM) (e : error),
    runLoop hw fuel k n vm = Val (Some e) vm' ->
    exists (j : nat) (vmj : VM),
      (j < fuel)%nat
      /\ runLoop hw j k n vm = Val None vmj
      /\ step hw (k + Z.of_nat j) n vmj = Val (Some e) vm'.
Proof.
  induction fuel as [|fuel IH]; intros k n vm vm' e H.
  - discriminate H.
  - cbn [runLoop] in H. unfold bind in H.
    destruct (step hw k n vm) as [[err|] vm1|msg] eqn:ES; try discriminate H.
    + unfold ret in H. injection H as <- <-.
      exists 0%nat, vm. split; [lia|]. split; [reflexivity|].
      change (Z.of_nat 0) with 0. rewrite Z.add_0_r. exact ES.
    + destruct (IH _ _ _ _ _ H) as (j & vmj & Hj & HL & HSt).
      exists (S j), vmj. split; [lia|]. split.
      * cbn [runLoop]. unfold bind. rewrite ES. exact HL.
      * replace (k + Z.of_nat (S j)) with (k + 1 + Z.of_nat j) by lia.
        exact HSt.
Qed.

(** [Run] counts the instructions it completes.  From a step count
    that cannot overflow, [Run n] that returns nil has added exactly
    [n] (nothing for [n <= 0]) to [vm.Steps].  When it returns an error,
    the error comes from an iteration [k + 1] with [k < n]: the [k]
    iterations before it completed ([Run k] returns nil from the same
    machine), the failing iteration left the step count as it found it,
    and [vm.Steps] has grown by exactly [k]. *)
Theorem Run_counts_steps (hostWrite : Z -> list Z -> Z) (n : Z)
    (vm vm' : VM) (o : option error) :
  0 <= Steps vm -> Steps vm + Z.max 0 n < 2 ^ 63 ->
  Run hostWrite n vm = Val o vm' ->
  match o with
  | None => Steps vm' = Steps vm + Z.max 0 n
  | Some e =>
      exists (k : Z) (vmk : VM),
        0 <= k < n
        /\ Run hostWrite k vm = Val None vmk
        /\ step hostWrite k n vmk = Val (Some e) vm'
        /\ Steps vmk = Steps vm + k
        /\ Steps vm' = Steps vm + k
  end.
Proof.
  intros H0 Hb H. unfold Run in H.
  destruct o as [e|].
  - destruct (runLoop_error hostWrite _ _ _ _ _ _ H) as (j & vmj & Hj & HL & HSt).
    rewrite Z.add_0_l in HSt.
    pose proof (runLoop_steps hostWrite j 0 n vm vmj H0 ltac:(lia) HL) as Hk.
    exists (Z.of_nat j), vmj.
    split; [lia|]. split.
    { unfold Run. rewrite Nat2Z.id.
      exact (runLoop_None_indep hostWrite j 0 n 0 (Z.of_nat j) vm vmj HL). }
    split; [exact HSt|]. split; [exact Hk|].
    destruct (step_inv hostWrite _ _ _ _ _ HSt) as [(e' & _ & HS)|(He & _)];
      [|discriminate He].
    rewrite HS. exact Hk.
  - rewrite (runLoop_steps hostWrite (Z.to_nat n) 0 n vm vm' H0 ltac:(lia) H).
    lia.
Qed.

(** *** The fetch window *)

Lemma wfVM_bytes vm : wfVM vm = true -> Forall (fun x => 0 <= x < 2 ^ 8) (Mem vm).
Proof.
  intros H. destruct (wfVM_facts vm H) as (_ & _ & _ & _ & HM & _).
  apply Forall_lookup_2. intros i x Hx. apply (HM (Z.of_nat i)).
  unfold idx. destruct (Z.ltb_spec (Z.of_nat i) 0) as [Hl|_]; [lia|].
  rewrite Nat2Z.id. exact Hx.
Qed.

Lemma fetchEnd_le vm : fetchEnd vm <= Z.of_nat (length (Mem vm)).
Proof.
  unfold fetchEnd. cbv zeta.
  destruct (Z.gtb_spec (int64 (add64 (PC vm) 4)) (Z.of_nat (length (Mem vm))));
    lia.
Qed.

Lemma fetchEnd_inside vm :
  wfVM vm = true -> PC vm + 4 < 2 ^ 63 ->
  fetchEnd vm = Z.min (PC vm + 4) (Z.of_nat (length (Mem vm))).
Proof.
  intros Hwf Hpc.
  destruct (wfVM_facts vm Hwf) as (_ & _ & _ & _ & _ & HP & HL).
  unfold fetchEnd. cbv zeta. unfold add64.
  rewrite wrap64_small by lia. rewrite int64_small by lia.
  destruct (Z.gtb_spec (PC vm + 4) (Z.of_nat (length (Mem vm)))); lia.
Qed.

(** The bytes [Run] decodes: at most four, and no more than memory
    holds from the program counter on. *)
Lemma fetch_window vm :
  wfVM vm = true -> PC vm + 4 < 2 ^ 63 ->
  PC vm <= Z.of_nat (length (Mem vm)) ->
  getSlice (PC vm) (fetchEnd vm) vm
  = Val (bytesAt (Mem vm) (PC vm)
           (Z.min 4 (Z.of_nat (length (Mem vm)) - PC vm))) vm.
Proof.
  intros Hwf Hpc Hin.
  destruct (wfVM_facts vm Hwf) as (_ & _ & _ & _ & _ & HP & HL).
  rewrite (fetchEnd_inside vm Hwf Hpc).
  unfold getSlice.
  destruct (Z.leb_spec 0 (PC vm)) as [_|Hc]; [|exfalso; lia].
  destruct (Z.leb_spec (PC vm) (Z.min (PC vm + 4) (Z.of_nat (length (Mem vm)))))
    as [_|Hc]; [|exfalso; lia].
  destruct (Z.leb_spec (Z.min (PC vm + 4) (Z.of_nat (length (Mem vm))))
              (Z.of_nat (length (Mem vm)))) as [_|Hc]; [|exfalso; lia].
  cbn [andb]. unfold bytesAt. f_equal. f_equal. lia.
Qed.

Lemma fetch_outside vm :
  Z.of_nat (length (Mem vm)) < PC vm ->
  getSlice (PC vm) (fetchEnd vm) vm = Panic "slice bounds out of range".
Proof.
  intros Hout. pose proof (fetchEnd_le vm) as Hle.
  unfold getSlice.
  destruct (Z.leb_spec (PC vm) (fetchEnd vm)) as [Hc|_]; [exfalso; lia|].
  rewrite andb_false_r. reflexivity.
Qed.

Lemma Run_first (hw : Z -> list Z -> Z) (n : Z) (vm : VM) :
  0 < n ->
  Run hw n vm
  = match step hw 0 n vm with
    | Val (Some e) vm1 => Val (Some e) vm1
    | Val None vm1 => runLoop hw (Z.to_nat (n - 1)) 1 n vm1
    | Panic msg => Panic msg
    end.
Proof.
  intros Hn. unfold Run.
  replace (Z.to_nat n) with (S (Z.to_nat (n - 1))) by lia.
  cbn [runLoop]. unfold bind.
  destruct (step hw 0 n vm) as [[e|] vm1|msg]; reflexivity.
Qed.

Lemma step_fetch_panics (hw : Z -> list Z -> Z) (k n : Z) (vm : VM) msg :
  getSlice (PC vm) (fetchEnd vm) vm = Panic msg ->
  step hw k n vm = Panic msg.
Proof.
  intros H. unfold step. unfold bind at 1. unfold getPC at 1.
  unfold bind at 1. unfold bind at 1. fold (fetchEnd vm). rewrite H.
  reflexivity.
Qed.

Lemma step_decode_error (hw : Z -> list Z -> Z) (k n : Z) (vm : VM) b i size e :
  getSlice (PC vm) (fetchEnd vm) vm = Val b vm ->
  Decode (PC vm) b = Returns (i, size, Some e) ->
  step hw k n vm = Val (Some (Wrapf "run(%d %d): %v" [k + 1; n] e)) vm.
Proof.
  intros HS HD. unfold step. unfold bind at 1. unfold getPC at 1.
  unfold bind at 1. unfold bind at 1. fold (fetchEnd vm). rewrite HS.
  unfold bind at 1. rewrite HD. reflexivity.
Qed.

Lemma bytesAt_len m a w :
  0 <= a -> 0 <= w -> a + w <= Z.of_nat (length m) ->
  Z.of_nat (length (bytesAt m a w)) = w.
Proof.
  intros Ha Hw Hin. unfold bytesAt.
  rewrite length_take, length_drop. lia.
Qed.

(** Running off the end of memory.  With the program counter beyond
    the end of memory, [Run] panics on the slice expression of the
    fetch.  With the program counter at the very end, or with one or
    three bytes left, it returns the error of [Decode] about the length
    of its input, wrapped, and leaves the machine as it was. *)
Theorem Run_fetch_window (hostWrite : Z -> list Z -> Z) (n : Z) (vm : VM) :
  wfVM vm = true -> 0 < n ->
  let avail := Z.of_nat (length (Mem vm)) - PC vm in
  (avail < 0 -> Run hostWrite n vm = Panic "slice bounds out of range")
  /\ (PC vm + 4 < 2 ^ 63 -> avail = 0 \/ avail = 1 \/ avail = 3 ->
      Run hostWrite n vm
      = Val (Some (Wrapf "run(%d %d): %v" [1; n]
                    (Errorf "can't decode %d bytes: length must be a non-zero multiple of 2"
                            [avail]))) vm).
Proof.
  intros Hwf Hn avail.
  destruct (wfVM_facts vm Hwf) as (_ & _ & _ & _ & _ & HP & HL).
  split.
  - intros Hout. rewrite (Run_first hostWrite n vm Hn).
    rewrite (step_fetch_panics hostWrite 0 n vm _ (fetch_outside vm ltac:(lia))).
    reflexivity.
  - intros Hpc Hav. rewrite (Run_first hostWrite n vm Hn).
    pose proof (fetch_window vm Hwf Hpc ltac:(lia)) as HS.
    fold avail in HS.
    assert (Em : Z.min 4 avail = avail) by lia. rewrite Em in HS.
    assert (EL : Z.of_nat (length (bytesAt (Mem vm) (PC vm) avail)) = avail).
    { apply bytesAt_len; lia. }
    rewrite (step_decode_error hostWrite 0 n vm _ None 0 _ HS
               (Decode_odd (PC vm) _ ltac:(rewrite EL;
                  destruct Hav as [-> | [-> | ->]];
                  [left; reflexivity | right; discriminate | right; discriminate]))).
    rewrite EL. reflexivity.
Qed.

(** *** One step *)

(** The size of a decoded instruction is read off the two low bits of
    its first byte. *)
Lemma Decode_size pc b ins size :
  Forall (fun x => 0 <= x < 2 ^ 8) b ->
  Decode pc b = Returns (Some ins, size, None) ->
  exists b0, b !! 0%nat = Some b0
             /\ size = (if Z.land b0 3 =? 3 then 4 else 2).
Proof.
  intros Hb H.
  destruct b as [|b0 [|b1 rest]].
  { rewrite Decode_odd in H by (left; reflexivity). discriminate H. }
  { rewrite Decode_odd in H by (right; discriminate). discriminate H. }
  inversion Hb as [|? ? B0 Hb1]; subst. inversion Hb1 as [|? ? B1 Hb2]; subst.
  exists b0. split; [reflexivity|].
  destruct (Z.eq_dec (Z.rem (Z.of_nat (length rest)) 2) 0) as [Hpar|Hpar].
  2:{ rewrite Decode_odd in H; [discriminate H|]. right.
      replace (Z.of_nat (length (b0 :: b1 :: rest)))
        with (2 + Z.of_nat (length rest)) by (cbn [length]; lia).
      rewrite rem2_add2 by lia. exact Hpar. }
  destruct (Z.eqb_spec (Z.land b0 3) 3) as [H3|H3].
  2:{ rewrite (Decode_rvc pc b0 b1 _ B0 B1 Hpar H3) in H.
      destruct (rvcDecode _) as [[[i|] [e|]]|msg]; try discriminate H.
      injection H as _ <-. reflexivity. }
  destruct (Z.eq_dec (Z.land b0 31) 31) as [H31|H31];
    [destruct (Z.eq_dec (Z.land b0 127) 63) as [H3f|H3f]|].
  2:{ destruct (Decode_long pc b0 b1 _ Hpar H3 H31 H3f) as (e & E).
      rewrite E in H. discriminate H. }
  all: destruct rest as [|b2 [|b3 rest]];
    [ destruct (Decode_short32 pc b0 b1 H3) as (e & E);
      rewrite E in H; discriminate H
    | discriminate Hpar
    | ];
    inversion Hb2 as [|? ? B2 Hb3]; subst;
    inversion Hb3 as [|? ? B3 _]; subst;
    assert (Hpar' : Z.rem (Z.of_nat (length rest)) 2 = 0)
      by (replace (Z.of_nat (length (b2 :: b3 :: rest)))
            with (2 + Z.of_nat (length rest)) in Hpar by (cbn [length]; lia);
          rewrite rem2_add2 in Hpar by lia; exact Hpar);
    rewrite (Decode_normal pc b0 b1 b2 b3 rest B0 B1 B2 B3 Hpar' H3) in H
      by (first [right; assumption | left; assumption]);
    cbv zeta in H;
    repeat match type of H with
           | (if ?c then _ else _) = _ => destruct c
           | match ?c with _ => _ end = _ => destruct c
           end;
    try discriminate H; injection H as _ <-; reflexivity.
Qed.

Lemma Forall_bytesAt (P : Z -> Prop) m a w : Forall P m -> Forall P (bytesAt m a w).
Proof. intros H. unfold bytesAt. apply Forall_take, Forall_drop, H. Qed.

Lemma getSlice_first vm lo hi b b0 :
  getSlice lo hi vm = Val b vm -> b !! 0%nat = Some b0 ->
  idx (Mem vm) lo = Some b0.
Proof.
  unfold getSlice.
  destruct (Z.leb_spec 0 lo) as [Hlo|_]; [|discriminate]. cbn [andb].
  destruct (_ && _); [|discriminate].
  intros [= <-] H.
  apply lookup_take_Some in H. destruct H as (H & _).
  rewrite lookup_drop in H. rewrite Nat.add_0_r in H.
  unfold idx. destruct (Z.ltb_spec lo 0); [lia|]. exact H.
Qed.

Lemma getSlice_bytes vm lo hi b :
  wfVM vm = true -> getSlice lo hi vm = Val b vm ->
  Forall (fun x => 0 <= x < 2 ^ 8) b.
Proof.
  intros Hwf. unfold getSlice.
  destruct (_ && _); [|discriminate]. intros [= <-].
  apply Forall_take, Forall_drop, wfVM_bytes, Hwf.
Qed.

(** The bookkeeping of one step.  When [Run 1] returns nil, it has
    decoded the bytes at the program counter (the slice
    [vm.Mem[vm.PC:end]]) into an instruction that has a handler, recorded
    that instruction in [vm.LastInstr] and the program counter in
    [vm.LastPC], and run its handler, which returned no error.  The
    machine it leaves has the registers and the memory the handler
    left, and [vm.Steps] is one more (wrapped into an [int]).  The size
    of the instruction is 4 when the two low bits of its first byte are
    set and 2 otherwise.  Unless the handler reports that it set the
    program counter, the one it left is advanced by the size; unless it
    reports that it set RDINSTRET, that counter is one more than the
    handler left it.  In particular: unless the handler is a jump or a
    branch, the program counter has advanced by the size from where it
    started; unless it is a CSR instruction, the CSR file has changed in
    RDINSTRET alone, which is one more; unless it is a store, memory is
    as it was. *)
Theorem Run_one_step (hostWrite : Z -> list Z -> Z) (vm vm' : VM) :
  wfVM vm = true ->
  Run hostWrite 1 vm = Val None vm' ->
  exists (b : list Z) (ins : Instruction) (size : Z) (f : fnptr)
         (out : flags) (vm1 : VM) (b0 : Z),
    getSlice (PC vm) (fetchEnd vm) vm = Val b vm
    /\ Decode (PC vm) b = Returns (Some ins, size, None)
    /\ fn ins = Some f
    /\ call hostWrite f ins (fetched vm ins) = Val (out, None) vm1
    /\ idx (Mem vm) (PC vm) = Some b0
    /\ size = (if Z.land b0 3 =? 3 then 4 else 2)
    /\ LastInstr vm' = Some ins
    /\ LastPC vm' = PC vm
    /\ Steps vm' = int64 (Steps vm + 1)
    /\ Reg vm' = Reg vm1
    /\ Mem vm' = Mem vm1
    /\ PC vm' = (if updatedPC out then PC vm1 else add64 (PC vm1) (uint64 size))
    /\ (if updatedRDINSTRET out then CSR vm' = CSR vm1
        else exists c, idx (CSR vm1) RDINSTRET = Some c
                       /\ CSR vm' = <[Z.to_nat RDINSTRET := add64 c 1]> (CSR vm1))
    /\ (setsPC f = false ->
        PC vm' = add64 (PC vm) (if Z.land b0 3 =? 3 then 4 else 2))
    /\ (writesCSR f = false ->
        exists c, idx (CSR vm) RDINSTRET = Some c
                  /\ CSR vm' = <[Z.to_nat RDINSTRET := add64 c 1]> (CSR vm))
    /\ (isStore f = false -> Mem vm' = Mem vm).
Proof.
  intros Hwf H.
  rewrite (Run_first hostWrite 1 vm ltac:(lia)) in H.
  destruct (step hostWrite 0 1 vm) as [[e|] vm1|msg] eqn:ES; try discriminate H.
  change (Z.to_nat (1 - 1)) with 0%nat in H. cbn [runLoop] in H.
  unfold ret in H. injection H as <-.
  destruct (step_inv hostWrite 0 1 vm vm1 None ES)
    as [(e & He & _)|(_ & b & ins & size & f & out & vm2 & HS & HD & HF & HC
                        & HSt & HLI & HLP & HRg & HM & HCSR & HPC)];
    [discriminate He|].
  destruct (Decode_size _ _ _ _ (getSlice_bytes vm _ _ _ Hwf HS) HD)
    as (b0 & Hb0 & Hsize).
  destruct (handler_frame hostWrite f ins (fetched vm ins) vm2 out None HC)
    as ((FS & FLI & FLP & _ & _ & _ & FM & FC & FP) & (RP & RR & _)).
  cbn [fetched fetched' Steps LastInstr LastPC Mem CSR PC fst snd] in *.
  exists b, ins, size, f, out, vm2, b0.
  split; [exact HS|]. split; [exact HD|]. split; [exact HF|].
  split; [exact HC|].
  split; [exact (getSlice_first vm _ _ _ _ HS Hb0)|].
  split; [exact Hsize|].
  split; [congruence|]. split; [congruence|]. split; [congruence|].
  split; [exact HRg|]. split; [exact HM|]. split; [exact HPC|].
  split; [exact HCSR|].
  split; [|split].
  - intros Hs. rewrite HPC, (RP Hs), (FP Hs), Hsize.
    destruct (Z.land b0 3 =? 3); reflexivity.
  - intros Hc.
    assert (Hne : f <> fn_csrrw) by (intros ->; discriminate Hc).
    rewrite (RR Hne) in HCSR. destruct HCSR as (c & Hc1 & Hc2).
    rewrite (FC Hc) in Hc1, Hc2. exists c. split; assumption.
  - intros Hs. rewrite HM. exact (FM Hs).
Qed.


(** ** The CSR file *)

Lemma inRange_true {A} (l : list A) i :
  0 <= i < Z.of_nat (length l) -> inRange l i = true.
Proof.
  intros H. unfold inRange. apply andb_true_iff.
  rewrite Z.leb_le, Z.ltb_lt. exact H.
Qed.

Lemma inRange_false {A} (l : list A) i :
  Z.of_nat (length l) <= i -> inRange l i = false.
Proof.
  intros H. unfold inRange. apply andb_false_iff. right.
  apply Z.ltb_ge. exact H.
Qed.

Lemma signExtend_bit4 v : exists u, signExtend v 4 = Some u.
Proof.
  destruct (signExtend v 4) as [u|] eqn:E; [eauto|].
  apply signExtend_None_iff in E. lia.
Qed.

Ltac csr_run :=
  repeat first
    [ progress cbv beta iota
    | progress cbn [Reg CSR PC Steps Mem LastInstr LastPC negb]
    | match goal with
      | H : ?x = _ |- context [?x] => rewrite H
      | |- context [if ?c then _ else _] => destruct c
      end ].

(** The CSR file has 2048 entries and the CSR number of an instruction
    is its immediate: each of the six CSR handlers returns for a number
    below 2048 and panics with an index out of range for any other. *)
Theorem csr_number_bound (hostWrite : Z -> list Z -> Z) (f : fnptr)
    (i : Instruction) (vm : VM) :
  wfVM vm = true ->
  In f [fn_csrrw; fn_csrrs; fn_csrrc; fn_csrrwi; fn_csrrsi; fn_csrrci] ->
  regOK (rd i) = true -> regOK (rs1 i) = true -> 0 <= imm i ->
  match call hostWrite f i vm with
  | Val _ _ => imm i < 2048
  | Panic msg => 2048 <= imm i /\ msg = oob
  end.
Proof.
  intros Hwf Hf Hrd Hrs Himm.
  destruct (wfVM_facts vm Hwf) as (HR & HC & _).
  unfold regOK in Hrd, Hrs. rewrite andb_true_iff, Z.leb_le, Z.ltb_lt in Hrd, Hrs.
  destruct (idx_Some (Reg vm) (rs1 i) ltac:(lia)) as (a & Ea).
  destruct (signExtend_bit4 (Z.land (rs1 i) 0x1f)) as (u & Eu).
  pose proof (inRange_true (Reg vm) (rd i) ltac:(lia)) as ERd.
  destruct (Z.ltb_spec (imm i) 2048) as [Hlt|Hge].
  - destruct (idx_Some (CSR vm) (imm i) ltac:(lia)) as (c & Ec).
    pose proof (inRange_true (CSR vm) (imm i) ltac:(lia)) as EC.
    cbn [In] in Hf.
    repeat (destruct Hf as [<-|Hf]; [|]); try contradiction; cbn [call];
      unfold csrrw, csrrs, csrrc, csrrwi, csrrsi, csrrci, bind, getReg, getCSR,
        setCSR, sx, store, setReg, upd, liftO, ok, ret, panic;
      csr_run; exact Hlt.
  - pose proof (idx_None (CSR vm) (imm i) ltac:(lia)) as Ec.
    pose proof (inRange_false (CSR vm) (imm i) ltac:(lia)) as EC.
    cbn [In] in Hf.
    repeat (destruct Hf as [<-|Hf]; [|]); try contradiction; cbn [call];
      unfold csrrw, csrrs, csrrc, csrrwi, csrrsi, csrrci, bind, getReg, getCSR,
        setCSR, sx, store, setReg, upd, liftO, ok, ret, panic;
      csr_run; split; first [exact Hge | reflexivity].
Qed.

(** ** LUI and AUIPC *)

(** [lui] writes its immediate, which [Decode] leaves in the bits 31..12
    of a 32-bit value, sign-extended from bit 31.  [auipc] adds the
    program counter to the immediate first and sign-extends the sum from
    bit 31: for a sum below [2 ^ 32] the register receives the low 32
    bits of the sum, sign-extended. *)
Theorem lui_auipc_value (hostWrite : Z -> list Z -> Z) (i : Instruction) (vm : VM) :
  wfVM vm = true -> regOK (rd i) = true -> 0 <= imm i < 2 ^ 32 ->
  call hostWrite fn_lui i vm
  = Val (flags0, None) (stored vm (rd i) (uint64 (int32 (imm i))))
  /\ (PC vm + imm i < 2 ^ 32 ->
      call hostWrite fn_auipc i vm
      = Val (flags0, None) (stored vm (rd i) (uint64 (int32 (PC vm + imm i))))).
Proof.
  intros Hwf Hrd Himm.
  destruct (wfVM_facts vm Hwf) as (HR & _ & _ & _ & _ & HP & _).
  unfold regOK in Hrd. rewrite andb_true_iff, Z.leb_le, Z.ltb_lt in Hrd.
  split.
  - cbn [call]. unfold lui.
    rewrite (bind_val _ _ _ _ _ (sx_val _ _ _ vm (signExtend_u32 _ Himm))).
    rewrite (bind_val _ _ _ _ _ (store_stored vm (rd i) _ ltac:(lia))).
    reflexivity.
  - intros Hsum. cbn [call]. unfold auipc.
    unfold bind at 1. unfold getPC at 1.
    assert (E : add64 (imm i) (PC vm) = PC vm + imm i).
    { unfold add64. rewrite wrap64_small by lia. lia. }
    rewrite E.
    rewrite (bind_val _ _ _ _ _
               (sx_val _ _ _ vm (signExtend_u32 (PC vm + imm i) ltac:(lia)))).
    rewrite (bind_val _ _ _ _ _ (store_stored vm (rd i) _ ltac:(lia))).
    reflexivity.
Qed.

(** ** JALR *)

Lemma signExtend_clear v bit :
  0 <= bit < 32 -> 0 <= v < 2 ^ bit -> signExtend v bit = Some v.
Proof.
  intros Hb Hv.
  assert (Hp : 2 ^ (bit + 1) = 2 * 2 ^ bit) by (rewrite Z.pow_add_r by lia; lia).
  rewrite signExtend_value by lia.
  destruct (Z.leb_spec (2 ^ bit) v); [lia|reflexivity].
Qed.

Lemma getReg_stored vm rd v r base :
  0 <= rd < Z.of_nat (length (Reg vm)) ->
  idx (Reg vm) r = Some base ->
  getReg r (stored vm rd v)
  = Val (if negb (rd =? 0) && (rd =? r) then v else base) (stored vm rd v).
Proof.
  intros Hrd Hr. pose proof (idx_bound _ _ _ Hr) as Br.
  unfold getReg, stored.
  destruct (Z.eqb_spec rd 0) as [E0|E0]; cbn [negb andb].
  - rewrite Hr. reflexivity.
  - unfold withReg. cbn [Reg].
    destruct (Z.eqb_spec rd r) as [<-|Ene].
    + rewrite idx_lookup by lia.
      rewrite list_lookup_insert_eq by lia. reflexivity.
    + rewrite idx_lookup by lia.
      rewrite list_lookup_insert_ne by lia.
      rewrite <- idx_lookup by lia. rewrite Hr. reflexivity.
Qed.

(** [jalr] and [rvcJALR] store the link before they read the base
    register.  The link is the program counter plus 4 (plus 2 for the
    compressed form); the target is the immediate plus the base with
    bit 0 cleared, where the base is the value of [rs1] unless [rd] is
    the same register and not [x0], in which case it is the link that
    was just written. *)
Theorem jalr_link_then_base (hostWrite : Z -> list Z -> Z) (f : fnptr)
    (i : Instruction) (vm : VM) (base : Z) :
  wfVM vm = true -> In f [fn_jalr; fn_rvcJALR] ->
  regOK (rd i) = true -> 0 <= imm i < 2 ^ 12 ->
  idx (Reg vm) (rs1 i) = Some base ->
  let link := add64 (PC vm) (linkOffset f) in
  let b := if negb (rd i =? 0) && (rd i =? rs1 i) then link else base in
  call hostWrite f i vm
  = Val ({| updatedPC := true; updatedRDINSTRET := false |}, None)
        (withPC (stored vm (rd i) link) (andnot (add64 (imm i) b) 1)).
Proof.
  intros Hwf Hf Hrd Himm Hbase link b.
  destruct (wfVM_facts vm Hwf) as (HR & _).
  unfold regOK in Hrd. rewrite andb_true_iff, Z.leb_le, Z.ltb_lt in Hrd.
  assert (Hrd' : 0 <= rd i < Z.of_nat (length (Reg vm))) by lia.
  destruct Hf as [<-|[<-|[]]]; cbn [call linkOffset] in *.
  - unfold jalr. unfold bind at 1. unfold getPC at 1.
    rewrite (bind_val _ _ _ _ _ (store_stored vm (rd i) _ Hrd')).
    rewrite (bind_val _ _ _ _ _
               (sx_val _ _ _ _ (signExtend_clear (imm i) 12 ltac:(lia) Himm))).
    rewrite (bind_val _ _ _ _ _ (getReg_stored vm (rd i) _ _ _ Hrd' Hbase)).
    reflexivity.
  - unfold rvcJALR. unfold bind at 1. unfold getPC at 1.
    rewrite (bind_val _ _ _ _ _ (store_stored vm (rd i) _ Hrd')).
    rewrite (bind_val _ _ _ _ _ (getReg_stored vm (rd i) _ _ _ Hrd' Hbase)).
    reflexivity.
Qed.


(** ** ECALL *)

Lemma getSlice_bytesAt vm a n :
  0 <= a -> 0 <= n -> a + n <= Z.of_nat (length (Mem vm)) ->
  getSlice a (a + n) vm = Val (bytesAt (Mem vm) a n) vm.
Proof.
  intros Ha Hn Hin. unfold getSlice.
  destruct (Z.leb_spec 0 a) as [_|Hc]; [|exfalso; lia].
  destruct (Z.leb_spec a (a + n)) as [_|Hc]; [|exfalso; lia].
  destruct (Z.leb_spec (a + n) (Z.of_nat (length (Mem vm)))) as [_|Hc];
    [|exfalso; lia].
  cbn [andb]. unfold bytesAt. do 3 f_equal. lia.
Qed.

(** The write system call.  With 64 in [a7] and the descriptor 1 or 2
    in [a0], ECALL hands the host the [a2] bytes of memory from address
    [a1] on, all of which must lie inside memory, and stores the count
    the host returns in [a0]; nothing else changes and no error is
    returned. *)
Theorem ecall_write (hostWrite : Z -> list Z -> Z) (i : Instruction) (vm : VM)
    (fd a1 a2 : Z) :
  wfVM vm = true -> 0 <= imm i < 2 ^ 12 ->
  idx (Reg vm) 17 = Some 0x40 ->
  idx (Reg vm) 10 = Some fd -> fd = 1 \/ fd = 2 ->
  idx (Reg vm) 11 = Some a1 -> idx (Reg vm) 12 = Some a2 ->
  a1 + a2 <= Z.of_nat (length (Mem vm)) ->
  call hostWrite fn_ecallOrBreak i vm
  = Val (flags0, None)
        (withReg vm 10 (uint64 (hostWrite fd (bytesAt (Mem vm) a1 a2)))).
Proof.
  intros Hwf Himm H17 H10 Hfd H11 H12 Hin.
  destruct (wfVM_facts vm Hwf) as (HR & _ & HRv & _ & _ & _ & HL).
  pose proof (HRv _ _ H11) as B1. pose proof (HRv _ _ H12) as B2.
  cbn [call]. unfold ecallOrBreak. cbv zeta.
  assert (E0 : shr64 (imm i) 12 = 0).
  { unfold shr64. rewrite Z.shiftr_div_pow2 by lia. apply Z.div_small. lia. }
  rewrite E0. change (0 =? 0) with true. cbv iota.
  unfold ecall.
  change (regNums "a7") with 17. change (regNums "a0") with 10.
  change (regNums "a1") with 11. change (regNums "a2") with 12.
  rewrite (bind_val _ _ _ _ _ (getReg_eq vm 17 _ H17)).
  change (64 =? 93) with false. change (64 =? 64) with true. cbv iota.
  rewrite (bind_val _ _ _ _ _ (getReg_eq vm 10 _ H10)).
  assert (Efd : (fd =? 1) || (fd =? 2) = true)
    by (destruct Hfd as [-> | ->]; reflexivity).
  rewrite Efd. cbv iota.
  rewrite (bind_val _ _ _ _ _ (getReg_eq vm 11 _ H11)).
  rewrite (bind_val _ _ _ _ _ (getReg_eq vm 12 _ H12)).
  cbv zeta.
  rewrite (int64_small a1) by lia. rewrite (int64_small a2) by lia.
  unfold iadd64. rewrite (int64_small (a1 + a2)) by lia.
  rewrite (bind_val _ _ _ _ _ (getSlice_bytesAt vm a1 a2 ltac:(lia) ltac:(lia) Hin)).
  change (uint64 10) with 10.
  rewrite (bind_val _ _ _ _ _ (store_stored vm 10 _ ltac:(lia))).
  reflexivity.
Qed.

Lemma Decode_ecall pc :
  Decode pc ecallBytes = Returns (Some ecallInstr, 4, None).
Proof. reflexivity. Qed.

(** The exit system call ends [Run].  With ECALL at the program counter
    and 93 in [a7], [Run] returns the exit error from its first
    iteration: the instruction is recorded as the last one, and the step
    count, the instruction counter, the program counter, the registers
    and memory stay as they were. *)
Theorem exit_ends_Run (hostWrite : Z -> list Z -> Z) (n : Z) (vm : VM) :
  wfVM vm = true -> 0 < n ->
  PC vm + 4 <= Z.of_nat (length (Mem vm)) ->
  bytesAt (Mem vm) (PC vm) 4 = ecallBytes ->
  idx (Reg vm) 17 = Some 0x5D ->
  Run hostWrite n vm = Val (Some exitErr) (fetched vm ecallInstr).
Proof.
  intros Hwf Hn Hin Hb H17.
  destruct (wfVM_facts vm Hwf) as (_ & _ & _ & _ & _ & HP & HL).
  rewrite (Run_first hostWrite n vm Hn).
  pose proof (fetch_window vm Hwf ltac:(lia) ltac:(lia)) as HS.
  replace (Z.min 4 (Z.of_nat (length (Mem vm)) - PC vm)) with 4 in HS by lia.
  rewrite Hb in HS.
  rewrite (step_run hostWrite 0 n vm _ _ _ _ HS (Decode_ecall (PC vm)) eq_refl).
  cbn [call]. unfold ecallOrBreak. cbv zeta.
  change (shr64 (imm ecallInstr) 12 =? 0) with true. cbv iota.
  unfold ecall. change (regNums "a7") with 17.
  rewrite (bind_val _ _ _ _ _ (getReg_eq (fetched vm ecallInstr) 17 _ H17)).
  reflexivity.
Qed.

(** ** diff.go *)

Lemma diffRegsFrom_app r a b d :
  diffRegsFrom r a b d = d ++ diffRegsFrom r a b [].
Proof.
  revert r d. induction a as [|v a IH]; intros r d; cbn [diffRegsFrom].
  - rewrite app_nil_r. reflexivity.
  - cbv zeta. rewrite IH. rewrite (IH _ (match idx b r with
                                        | Some w => if negb (w =? v) then [] ++ [r] else []
                                        | None => []
                                        end)).
    destruct (idx b r) as [w|]; [destruct (negb (w =? v))|];
      rewrite ?app_nil_l, ?app_nil_r, <- ?app_assoc; reflexivity.
Qed.

Lemma diffRegsFrom_In r a b x :
  0 <= r -> Z.of_nat (length b) = r + Z.of_nat (length a) ->
  In x (diffRegsFrom r a b [])
  <-> r <= x < r + Z.of_nat (length a)
      /\ a !! Z.to_nat (x - r) <> b !! Z.to_nat x.
Proof.
  revert r. induction a as [|v a IH]; intros r Hr Hlen.
  - cbn [diffRegsFrom length In]. split; [contradiction|lia].
  - cbn [diffRegsFrom]. cbv zeta.
    cbn [length] in Hlen.
    destruct (idx_Some b r ltac:(lia)) as (w & Ew). rewrite Ew.
    pose proof Ew as Ew'. rewrite idx_lookup in Ew' by lia.
    rewrite diffRegsFrom_app. rewrite in_app_iff.
    rewrite (IH (r + 1)) by lia.
    cbn [length].
    split.
    + intros [H|(Hx & Hd)].
      * destruct (Z.eqb_spec w v) as [E|E]; cbn [negb app In] in H;
          [contradiction|]. destruct H as [<-|[]].
        split; [lia|]. rewrite Z.sub_diag. cbn. rewrite Ew'.
        intros [= E']. exact (E (eq_sym E')).
      * split; [lia|].
        replace (Z.to_nat (x - r)) with (S (Z.to_nat (x - (r + 1)))) by lia.
        exact Hd.
    + intros (Hx & Hd).
      destruct (Z.eq_dec x r) as [->|Hne].
      * left. rewrite Z.sub_diag in Hd. cbn in Hd. rewrite Ew' in Hd.
        destruct (Z.eqb_spec w v) as [E|E];
          [exfalso; apply Hd; rewrite E; reflexivity|].
        cbn. left. reflexivity.
      * right. split; [lia|].
        replace (Z.to_nat (x - r)) with (S (Z.to_nat (x - (r + 1)))) in Hd by lia.
        exact Hd.
Qed.

Lemma diffRegsFrom_sorted r a b :
  forall (j k : nat) (x y : Z),
    (j < k)%nat ->
    diffRegsFrom r a b [] !! j = Some x -> diffRegsFrom r a b [] !! k = Some y ->
    r <= x < y.
Proof.
  revert r. induction a as [|v a IH]; intros r j k x y Hjk Hx Hy.
  - cbn in Hx. discriminate.
  - cbn [diffRegsFrom] in Hx, Hy. cbv zeta in Hx, Hy.
    rewrite diffRegsFrom_app in Hx, Hy.
    destruct (idx b r) as [w|]; [destruct (negb (w =? v))|];
      cbn [app] in Hx, Hy.
    + destruct j as [|j]; destruct k as [|k]; try lia.
      * cbn in Hx. injection Hx as <-. cbn in Hy.
        destruct (diffRegsFrom (r + 1) a b []) as [|z l] eqn:E; [discriminate|].
        destruct k as [|k].
        -- cbn in Hy. injection Hy as <-.
           assert (H1 : r + 1 <= z).
           { destruct l as [|z' l'].
             - assert (Hin : In z (diffRegsFrom (r + 1) a b []))
                 by (rewrite E; left; reflexivity).
               clear - Hin. revert Hin. generalize (r + 1). intros s.
               revert s. induction a as [|v a IH]; intros s; cbn [diffRegsFrom];
                 [contradiction|]. cbv zeta. rewrite diffRegsFrom_app.
               rewrite in_app_iff. intros [H|H].
               + destruct (idx b s) as [w|]; [destruct (negb (w =? v))|];
                   cbn in H; try contradiction. destruct H as [<-|[]]. lia.
               + specialize (IH _ H). lia.
             - apply (IH (r + 1) 0%nat 1%nat z z'); [lia| |]; rewrite E; reflexivity. }
           lia.
        -- destruct (IH (r + 1) 0%nat (S k) z y ltac:(lia)) as [H1 H2];
             [rewrite E; reflexivity | rewrite E; exact Hy |]. lia.
      * cbn in Hx, Hy.
        destruct (IH (r + 1) j k x y ltac:(lia) Hx Hy). lia.
    + destruct (IH (r + 1) j k x y Hjk Hx Hy). lia.
    + destruct (IH (r + 1) j k x y Hjk Hx Hy). lia.
Qed.

Lemma option_eq_dec_Z (x y : option Z) : {x = y} + {x <> y}.
Proof. repeat decide equality. Qed.

(** [diffRegs] returns exactly the numbers of the registers in which
    the two register files differ, each once and in increasing order;
    in particular it returns nothing exactly when the files are
    equal. *)
Theorem diffRegs_differences (a b : list Z) :
  length a = 32%nat -> length b = 32%nat ->
  (forall r, In r (diffRegs a b) <-> 0 <= r < 32 /\ idx a r <> idx b r)
  /\ (forall (j k : nat) (x y : Z),
        (j < k)%nat ->
        diffRegs a b !! j = Some x -> diffRegs a b !! k = Some y -> x < y)
  /\ (diffRegs a b = [] <-> a = b).
Proof.
  intros Ha Hb.
  assert (HIn : forall r, In r (diffRegs a b)
                          <-> 0 <= r < 32 /\ idx a r <> idx b r).
  { intros r. unfold diffRegs.
    rewrite (diffRegsFrom_In 0 a b r ltac:(lia) ltac:(lia)).
    rewrite Ha. change (Z.of_nat 32) with 32. rewrite Z.sub_0_r, Z.add_0_l.
    split; intros (Hr & Hd); (split; [exact Hr|]);
      rewrite ?idx_lookup in * by lia; exact Hd. }
  split; [exact HIn|]. split.
  - intros j k x y Hjk Hx Hy.
    destruct (diffRegsFrom_sorted 0 a b j k x y Hjk Hx Hy). lia.
  - split.
    + intros E. apply list_eq. intros n.
      destruct (Nat.lt_ge_cases n 32) as [Hn|Hn].
      * destruct (option_eq_dec_Z (a !! n) (b !! n)) as [Heq|Hne]; [exact Heq|].
        exfalso.
        assert (Hin : In (Z.of_nat n) (diffRegs a b)).
        { apply HIn. split; [lia|].
          rewrite !idx_lookup by lia. rewrite Nat2Z.id. exact Hne. }
        rewrite E in Hin. exact Hin.
      * rewrite !lookup_ge_None_2 by lia. reflexivity.
    + intros <-. destruct (diffRegs a a) as [|x l] eqn:E; [reflexivity|].
      exfalso.
      destruct (proj1 (HIn x) (or_introl eq_refl)) as (_ & Hd).
      apply Hd. reflexivity.
Qed.


(** ** Instances *)

Ltac instance := first [ lia | by_compute | cbn; tauto ].

Lemma mul_mulhu_full_product_witness :
  exists lo hi,
    mul iRR vmEx = Val (flags0, None) (stored vmEx (rd iRR) lo)
    /\ mulhu iRR vmEx = Val (flags0, None) (stored vmEx (rd iRR) hi)
    /\ 0 <= lo < 2 ^ 64 /\ 0 <= hi < 2 ^ 64
    /\ hi * 2 ^ 64 + lo = 7 * 0xFFFFFFFFFFFFFFF9.
Proof. apply (mul_mulhu_full_product iRR vmEx 7 0xFFFFFFFFFFFFFFF9); instance. Defined.

Lemma division_never_traps_witness :
  exists v, call hostAll fn_div iByZero vmEx
            = Val (flags0, None) (stored vmEx (rd iByZero) v).
Proof. apply (division_never_traps hostAll fn_div iByZero vmEx); instance. Defined.

Lemma division_by_zero_witness :
  div iByZero vmEx = Val (flags0, None) (stored vmEx (rd iByZero) MaxUint64)
  /\ divu iByZero vmEx = Val (flags0, None) (stored vmEx (rd iByZero) MaxUint64)
  /\ divw iByZero vmEx = Val (flags0, None) (stored vmEx (rd iByZero) MaxUint64)
  /\ divuw iByZero vmEx = Val (flags0, None) (stored vmEx (rd iByZero) MaxUint64)
  /\ rem iByZero vmEx = Val (flags0, None) (stored vmEx (rd iByZero) 7)
  /\ remu iByZero vmEx = Val (flags0, None) (stored vmEx (rd iByZero) 7).
Proof. apply (division_by_zero iByZero vmEx 7); instance. Defined.

Lemma divu_remu_identity_witness :
  exists q r,
    divu iRR vmEx = Val (flags0, None) (stored vmEx (rd iRR) q)
    /\ remu iRR vmEx = Val (flags0, None) (stored vmEx (rd iRR) r)
    /\ 7 = q * 0xFFFFFFFFFFFFFFF9 + r /\ 0 <= r < 0xFFFFFFFFFFFFFFF9
    /\ 0 <= q <= 7.
Proof. apply (divu_remu_identity iRR vmEx 7 0xFFFFFFFFFFFFFFF9); instance. Defined.

Lemma div_rem_identity_witness :
  exists q r,
    div iRR vmEx = Val (flags0, None) (stored vmEx (rd iRR) q)
    /\ rem iRR vmEx = Val (flags0, None) (stored vmEx (rd iRR) r)
    /\ 0 <= q < 2 ^ 64 /\ 0 <= r < 2 ^ 64
    /\ (int64 7 = - 2 ^ 63 /\ int64 0xFFFFFFFFFFFFFFF9 = -1 -> q = 7 /\ r = 0)
    /\ (~ (int64 7 = - 2 ^ 63 /\ int64 0xFFFFFFFFFFFFFFF9 = -1) ->
        int64 7 = int64 q * int64 0xFFFFFFFFFFFFFFF9 + int64 r)
    /\ Z.abs (int64 r) < Z.abs (int64 0xFFFFFFFFFFFFFFF9)
    /\ (int64 r = 0 \/ Z.sgn (int64 r) = Z.sgn (int64 7)).
Proof. apply (div_rem_identity iRR vmEx 7 0xFFFFFFFFFFFFFFF9); instance. Defined.

Lemma addi_adds_signed_immediate_witness :
  addi iAddi vmEx
  = Val (flags0, None) (stored vmEx (rd iAddi) (wrap64 (7 + signed 12 (imm iAddi))))
  /\ addiw iAddi vmEx
     = Val (flags0, None)
           (stored vmEx (rd iAddi) (uint64 (int32 (7 + signed 12 (imm iAddi))))).
Proof. apply (addi_adds_signed_immediate iAddi vmEx 7); instance. Defined.

Lemma w_results_canonical_witness :
  exists v,
    call hostAll fn_mulw iRR vmEx = Val (flags0, None) (stored vmEx (rd iRR) v)
    /\ canonical32 v.
Proof. apply (w_results_canonical hostAll fn_mulw iRR vmEx); instance. Defined.

Lemma stores_little_endian_witness :
  call hostAll fn_sw iStore vmEx
  = Val (flags0, None)
        (withMem vmEx (splice (Mem vmEx) (effective 0x20 (imm iStore))
                              (take (Z.to_nat 4) (le64 0xFFFFFFFFFFFFFFF9)))).
Proof.
  apply (stores_little_endian hostAll fn_sw iStore vmEx 0x20 0xFFFFFFFFFFFFFFF9 4);
    instance.
Defined.

Lemma loads_little_endian_witness :
  call hostAll fn_lw iLoad vmEx
  = Val (flags0, None)
        (stored vmEx (rd iLoad)
           (loadExt fn_lw (leValue (bytesAt (Mem vmEx) (effective 0x20 (imm iLoad)) 4)))).
Proof. apply (loads_little_endian hostAll fn_lw iLoad vmEx 0x20 4); instance. Defined.

Lemma access_beyond_memory_panics_witness :
  call hostAll fn_ld iFar vmEx = Panic oob.
Proof. apply (access_beyond_memory_panics hostAll fn_ld iFar vmEx 0x20 8); instance. Defined.

Lemma store_load_round_trip_witness :
  exists vm',
    call hostAll fn_sw iStore vmEx = Val (flags0, None) vm'
    /\ call hostAll fn_lw iLoad vm'
       = Val (flags0, None)
             (stored vm' (rd iLoad) (loadExt fn_lw (0xFFFFFFFFFFFFFFF9 mod 2 ^ (8 * 4)))).
Proof.
  apply (store_load_round_trip hostAll fn_sw fn_lw iStore iLoad vmEx 0x20
           0xFFFFFFFFFFFFFFF9 4); instance.
Defined.

(** C.LW a0, 0(a1) *)
Lemma rvcDecode_outcome_witness :
  match rvcDecode 0x4188 with
  | Returns (Some ins, None) =>
      0x4188 <> 0 /\ rvcUnsupported 0x4188 = false /\ runnable ins = true
  | Returns (None, Some _) => 0x4188 = 0
  | Returns _ => False
  | Panics _ => rvcUnsupported 0x4188 = true
  end.
Proof. apply (rvcDecode_outcome 0x4188); instance. Defined.

(** C.LW a0, 4(a1) *)
Lemma rvcDecode_offsets_witness :
  exists ins, rvcDecode 0x41C8 = Returns (Some ins, None)
              /\ rvcOffsetOK ins = true.
Proof.
  eexists. split; [reflexivity|].
  apply (rvcDecode_offsets 0x41C8); [lia | reflexivity].
Defined.

Lemma Decode_wellformed_witness :
  exists ins, Decode 0 addiBytes = Returns (Some ins, 4, None)
              /\ (4 = 2 \/ 4 = 4) /\ 4 <= Z.of_nat (length addiBytes)
              /\ runnable ins = true.
Proof.
  eexists. split; [reflexivity|].
  apply (Decode_wellformed 0 addiBytes (Some _) 4 None). reflexivity.
Defined.

Lemma Decode_fields_witness :
  exists ins, Decode 0 addiBytes = Returns (Some ins, 4, None)
    /\ exists b0 b1 b2 b3 rest,
         addiBytes = b0 :: b1 :: b2 :: b3 :: rest
         /\ rd ins = bitsOf (word32 b0 b1 b2 b3) 11 7
         /\ rs1 ins = bitsOf (word32 b0 b1 b2 b3) 19 15
         /\ rs2 ins = bitsOf (word32 b0 b1 b2 b3) 24 20
         /\ imm ins = immOf (word32 b0 b1 b2 b3)
         /\ fn ins = handlerOf (word32 b0 b1 b2 b3)
         /\ in_ ins = word32 b0 b1 b2 b3.
Proof.
  eexists. split; [reflexivity|].
  apply (Decode_fields 0 addiBytes); [|reflexivity].
  repeat constructor; lia.
Defined.

Lemma Decode_panics_iff_witness :
  (exists msg, Decode 0 farKeyBytes = Panics msg) <-> decodePanics farKeyBytes = true.
Proof. apply (Decode_panics_iff 0 farKeyBytes). repeat constructor; lia. Defined.

Lemma decoded_system_runs_ecall_witness :
  exists ins, Decode 0 ebreakBytes = Returns (Some ins, 4, None)
    /\ call hostAll fn_ecallOrBreak ins vmEx = ecall hostAll ins vmEx.
Proof.
  eexists. split; [reflexivity|].
  apply (decoded_system_runs_ecall hostAll 0 ebreakBytes);
    [repeat constructor; lia | reflexivity | reflexivity].
Defined.

Lemma branch_target_witness :
  call hostAll fn_blt iBranch vmEx
  = Val ({| updatedPC := true; updatedRDINSTRET := false |}, None)
        (withPC vmEx (wrap64 (PC vmEx + signed 13 (imm iBranch)))).
Proof.
  apply (branch_target hostAll fn_blt iBranch vmEx 0xFFFFFFFFFFFFFFF9 7 true);
    instance.
Defined.

Lemma handler_footprint_witness :
  exists r vm',
    call hostAll fn_sw iStore vmEx = Val r vm'
    /\ frame (isStore fn_sw) (writesCSR fn_sw) (setsPC fn_sw) vmEx vm'
    /\ resultOf fn_sw r.
Proof.
  eexists. eexists. split; [vm_compute; reflexivity|].
  apply (handler_footprint hostAll fn_sw iStore vmEx). vm_compute. reflexivity.
Defined.

Lemma Run_counts_steps_witness :
  (exists vm', Run hostAll 1 vmAddiX0 = Val None vm'
               /\ Steps vm' = Steps vmAddiX0 + Z.max 0 1)
  /\ (exists vm', Run hostAll 3 vmAddiExit = Val (Some exitErr) vm'
        /\ exists (k : Z) (vmk : VM),
             0 <= k < 3
             /\ Run hostAll k vmAddiExit = Val None vmk
             /\ step hostAll k 3 vmk = Val (Some exitErr) vm'
             /\ Steps vmk = Steps vmAddiExit + k
             /\ Steps vm' = Steps vmAddiExit + k).
Proof.
  split.
  - eexists. split; [vm_compute; reflexivity|].
    apply (Run_counts_steps hostAll 1 vmAddiX0 _ None);
      [instance | instance | vm_compute; reflexivity].
  - eexists. split; [vm_compute; reflexivity|].
    apply (Run_counts_steps hostAll 3 vmAddiExit _ (Some exitErr));
      [instance | instance | vm_compute; reflexivity].
Defined.

Lemma Run_one_step_witness :
  exists vm', Run hostAll 1 vmAddiX0 = Val None vm'
    /\ exists (b : list Z) (ins : Instruction) (size : Z) (f : fnptr)
              (out : flags) (vm1 : VM) (b0 : Z),
         getSlice (PC vmAddiX0) (fetchEnd vmAddiX0) vmAddiX0 = Val b vmAddiX0
         /\ Decode (PC vmAddiX0) b = Returns (Some ins, size, None)
         /\ fn ins = Some f
         /\ call hostAll f ins (fetched vmAddiX0 ins) = Val (out, None) vm1
         /\ idx (Mem vmAddiX0) (PC vmAddiX0) = Some b0
         /\ size = (if Z.land b0 3 =? 3 then 4 else 2)
         /\ LastInstr vm' = Some ins
         /\ LastPC vm' = PC vmAddiX0
         /\ Steps vm' = int64 (Steps vmAddiX0 + 1)
         /\ Reg vm' = Reg vm1
         /\ Mem vm' = Mem vm1
         /\ PC vm' = (if updatedPC out then PC vm1
                      else add64 (PC vm1) (uint64 size))
         /\ (if updatedRDINSTRET out then CSR vm' = CSR vm1
             else exists c, idx (CSR vm1) RDINSTRET = Some c
                            /\ CSR vm' = <[Z.to_nat RDINSTRET := add64 c 1]> (CSR vm1))
         /\ (setsPC f = false ->
             PC vm' = add64 (PC vmAddiX0) (if Z.land b0 3 =? 3 then 4 else 2))
         /\ (writesCSR f = false ->
             exists c, idx (CSR vmAddiX0) RDINSTRET = Some c
                       /\ CSR vm' = <[Z.to_nat RDINSTRET := add64 c 1]> (CSR vmAddiX0))
         /\ (isStore f = false -> Mem vm' = Mem vmAddiX0).
Proof.
  eexists. split; [vm_compute; reflexivity|].
  apply (Run_one_step hostAll vmAddiX0); vm_compute; reflexivity.
Defined.

Lemma Run_fetch_window_witness :
  Run hostAll 1 vmBeyond = Panic "slice bounds out of range"
  /\ Run hostAll 1 vmAtEnd
     = Val (Some (Wrapf "run(%d %d): %v" [1; 1]
                   (Errorf "can't decode %d bytes: length must be a non-zero multiple of 2"
                           [0]))) vmAtEnd.
Proof.
  split.
  - apply (Run_fetch_window hostAll 1 vmBeyond); instance.
  - apply (Run_fetch_window hostAll 1 vmAtEnd); instance.
Defined.

Lemma csr_number_bound_witness :
  match call hostAll fn_csrrs iCsr vmEx with
  | Val _ _ => imm iCsr < 2048
  | Panic msg => 2048 <= imm iCsr /\ msg = oob
  end.
Proof. apply (csr_number_bound hostAll fn_csrrs iCsr vmEx); instance. Defined.

Lemma lui_auipc_value_witness :
  call hostAll fn_lui iLui vmEx
  = Val (flags0, None) (stored vmEx (rd iLui) (uint64 (int32 (imm iLui))))
  /\ (PC vmEx + imm iLui < 2 ^ 32 ->
      call hostAll fn_auipc iLui vmEx
      = Val (flags0, None) (stored vmEx (rd iLui) (uint64 (int32 (PC vmEx + imm iLui))))).
Proof. apply (lui_auipc_value hostAll iLui vmEx); instance. Defined.

Lemma jalr_link_then_base_witness :
  call hostAll fn_jalr iJalr vmEx
  = Val ({| updatedPC := true; updatedRDINSTRET := false |}, None)
        (withPC (stored vmEx (rd iJalr) (add64 (PC vmEx) (linkOffset fn_jalr)))
                (andnot (add64 (imm iJalr) (add64 (PC vmEx) (linkOffset fn_jalr))) 1)).
Proof. apply (jalr_link_then_base hostAll fn_jalr iJalr vmEx 0x100); instance. Defined.

Lemma ecall_write_witness :
  call hostAll fn_ecallOrBreak ecallInstr vmEx
  = Val (flags0, None)
        (withReg vmEx 10 (uint64 (hostAll 1 (bytesAt (Mem vmEx) 0x20 4)))).
Proof. apply (ecall_write hostAll ecallInstr vmEx 1 0x20 4); instance. Defined.

Lemma exit_ends_Run_witness :
  Run hostAll 3 vmExit = Val (Some exitErr) (fetched vmExit ecallInstr).
Proof. apply (exit_ends_Run hostAll 3 vmExit); instance. Defined.

Lemma diffRegs_differences_witness :
  (forall r, In r (diffRegs regsEx (regs [])) <->
             0 <= r < 32 /\ idx regsEx r <> idx (regs []) r)
  /\ (forall (j k : nat) (x y : Z),
        (j < k)%nat ->
        diffRegs regsEx (regs []) !! j = Some x ->
        diffRegs regsEx (regs []) !! k = Some y -> x < y)
  /\ (diffRegs regsEx (regs []) = [] <-> regsEx = regs []).
Proof. apply (diffRegs_differences regsEx (regs [])); reflexivity. Defined.
